(** * LaunchList repricing engine and alert rule

    A shallow embedding of [app/services/repricing.py], [app/services/alerts.py]
    and of the per-row loop of [app/routers/reprice.py], together with the parts
    of Python's [decimal] and [csv] modules these functions call, and the
    properties of the repricing engine stated in the design document.

    Text is modelled as [string]: a character is a code point below 256.
    A [Decimal] is the triple (sign, coefficient, exponent) of Python's
    [decimal.Decimal], or one of its special values; arithmetic follows the
    default context (precision 28, ROUND_HALF_EVEN, Emax 999999, Emin -999999,
    traps on InvalidOperation, DivisionByZero and Overflow). *)

From stdpp Require Import gmap strings.
From Stdlib Require Import ZArith NArith QArith Qround Qabs Qpower String Ascii List Lia Lqa.
Import ListNotations.

Open Scope string_scope.
Open Scope Z_scope.

(** ** Exceptions *)

Inductive exn : Type :=
| InvalidOperation   (* decimal.InvalidOperation *)
| DivisionByZero     (* decimal.DivisionByZero *)
| Overflow           (* decimal.Overflow *)
| CsvError           (* csv.Error *)
| KeyError.          (* KeyError, from RepricingStrategy[name] *)

Inductive result (A : Type) : Type :=
| Ok (a : A)
| Raise (e : exn).
Arguments Ok {A} a.
Arguments Raise {A} e.

Definition rbind {A B : Type} (r : result A) (k : A -> result B) : result B :=
  match r with
  | Ok a => k a
  | Raise e => Raise e
  end.

Notation "'let*' x ':=' r 'in' k" := (rbind r (fun x => k))
  (at level 10, x name, r at level 100, k at level 200).

Definition is_ok {A : Type} (r : result A) : bool :=
  match r with Ok _ => true | Raise _ => false end.

(** ** Decimal values *)

Module Dec.

Inductive Decimal : Type :=
| Fin (sign : bool) (coeff : N) (exp : Z)        (* (-1)^sign * coeff * 10^exp *)
| Inf (sign : bool)                              (* _exp = 'F' *)
| NaN (sign : bool) (signaling : bool) (diag : N). (* _exp = 'n' / 'N'; diag 0 is the empty payload *)

(** The default context. *)
Definition prec : Z := 28.
Definition Emax : Z := 999999.
Definition Emin : Z := -999999.
Definition Etiny : Z := Emin - prec + 1.
Definition Etop : Z := Emax - prec + 1.

Inductive rounding : Type := ROUND_HALF_UP | ROUND_HALF_EVEN.

(** [len(str(n))] for a non-negative integer. *)
Fixpoint ndigits_fuel (fuel : nat) (n : N) : Z :=
  match fuel with
  | O => 1
  | S f => if (n <? 10)%N then 1 else 1 + ndigits_fuel f (n / 10)%N
  end.

Definition ndigits (n : N) : Z := ndigits_fuel (N.to_nat (N.size n)) n.

(** [10 ** k] as a coefficient, for [k >= 0]. *)
Definition pow10 (k : Z) : N := (10 ^ Z.to_N k)%N.

(** [bool(d)] *)
Definition truthy (d : Decimal) : bool :=
  match d with
  | Fin _ c _ => negb (c =? 0)%N
  | _ => true
  end.

(** [d.adjusted()] for a finite [d]. *)
Definition adjusted (c : N) (e : Z) : Z := e + ndigits c - 1.

(** [_round_half_up] and [_round_half_even]: what to do when the last [drop]
    digits ([drop >= 1]) of the coefficient [c] are cut: 1 round away from zero,
    0 the cut digits are all zero, -1 truncate. *)
Definition round_changed (mode : rounding) (c : N) (drop : Z) : Z :=
  let q := (c / pow10 drop)%N in
  let r := (c mod pow10 drop)%N in
  let half := (5 * pow10 (drop - 1))%N in
  let half_up := if (half <=? r)%N then 1 else if (r =? 0)%N then 0 else -1 in
  match mode with
  | ROUND_HALF_UP => half_up
  | ROUND_HALF_EVEN =>
      if ((r =? half) && N.even q)%N then -1 else half_up
  end.

(** [_rescale(exp, rounding)] on a finite value. *)
Definition rescale (mode : rounding) (s : bool) (c : N) (e : Z) (exp : Z) : Decimal :=
  if (c =? 0)%N then Fin s 0 exp
  else if exp <=? e then Fin s (c * pow10 (e - exp)) exp
  else
    let digits := ndigits c + e - exp in
    (* if digits < 0 the value is replaced by 10**(exp-1) before rounding *)
    let c' := if digits <? 0 then 1%N else c in
    let e' := if digits <? 0 then exp - 1 else e in
    let drop := exp - e' in
    let changed := round_changed mode c' drop in
    let coeff := (c' / pow10 drop)%N in
    Fin s (if changed =? 1 then (coeff + 1)%N else coeff) exp.

(** [_fix(context)] on a finite value: round to the context precision and
    check the exponent range.  Overflow is trapped; Underflow, Subnormal,
    Inexact, Rounded and Clamped are not, so the rounded value is returned. *)
Definition fix_fin (s : bool) (c : N) (e : Z) : result Decimal :=
  if (c =? 0)%N then
    Ok (Fin s 0 (Z.min (Z.max e Etiny) Emax))
  else
    let exp_min0 := ndigits c + e - prec in
    if Etop <? exp_min0 then Raise Overflow
    else
      let exp_min := if exp_min0 <? Etiny then Etiny else exp_min0 in
      if e <? exp_min then
        let digits := ndigits c + e - exp_min in
        let c' := if digits <? 0 then 1%N else c in
        let e' := if digits <? 0 then exp_min - 1 else e in
        let drop := exp_min - e' in
        let changed := round_changed ROUND_HALF_EVEN c' drop in
        let coeff := (c' / pow10 drop)%N in
        let coeff1 := if 0 <? changed then (coeff + 1)%N else coeff in
        let carry := (0 <? changed) && (prec <? ndigits coeff1) in
        let coeff2 := if carry then (coeff1 / 10)%N else coeff1 in
        let exp_min' := if carry then exp_min + 1 else exp_min in
        if Etop <? exp_min' then Raise Overflow
        else Ok (Fin s coeff2 exp_min')
      else Ok (Fin s c e).

(** [_fix_nan]: the payload keeps at most [prec] digits. *)
Definition fix_nan (s g : bool) (diag : N) : Decimal :=
  if (diag =? 0)%N then NaN s g 0
  else if prec <? ndigits diag then NaN s g (diag mod pow10 prec)
  else NaN s g diag.

Definition fix_ (d : Decimal) : result Decimal :=
  match d with
  | Fin s c e => fix_fin s c e
  | Inf s => Ok (Inf s)
  | NaN s g diag => Ok (fix_nan s g diag)
  end.

(** [_check_nans(other)]: [Some r] when an operand is a NaN. *)
Definition check_nans (a b : Decimal) : option (result Decimal) :=
  match a, b with
  | NaN _ true _, _ => Some (Raise InvalidOperation)
  | _, NaN _ true _ => Some (Raise InvalidOperation)
  | NaN s false d, _ => Some (Ok (fix_nan s false d))
  | _, NaN s false d => Some (Ok (fix_nan s false d))
  | _, _ => None
  end.

Definition check_nan (a : Decimal) : option (result Decimal) :=
  match a with
  | NaN _ true _ => Some (Raise InvalidOperation)
  | NaN s false d => Some (Ok (fix_nan s false d))
  | _ => None
  end.

Definition copy_negate (d : Decimal) : Decimal :=
  match d with
  | Fin s c e => Fin (negb s) c e
  | Inf s => Inf (negb s)
  | NaN s g d => NaN (negb s) g d
  end.

Definition copy_abs (d : Decimal) : Decimal :=
  match d with
  | Fin _ c e => Fin false c e
  | Inf _ => Inf false
  | NaN _ g d => NaN false g d
  end.

Definition sign_of (d : Decimal) : bool :=
  match d with
  | Fin s _ _ => s
  | Inf s => s
  | NaN s _ _ => s
  end.

(** [(-1) ** sign] *)
Definition sgn (s : bool) : Z := if s then -1 else 1.

(** [_cmp] on finite values: -1, 0 or 1. *)
Definition cmp_fin (s1 : bool) (c1 : N) (e1 : Z) (s2 : bool) (c2 : N) (e2 : Z) : Z :=
  if (c1 =? 0)%N then (if (c2 =? 0)%N then 0 else - sgn s2)
  else if (c2 =? 0)%N then sgn s1
  else if s1 && negb s2 then -1
  else if negb s1 && s2 then 1
  else
    let a1 := adjusted c1 e1 in
    let a2 := adjusted c2 e2 in
    if a1 =? a2 then
      let p1 := (c1 * pow10 (e1 - e2))%N in
      let p2 := (c2 * pow10 (e2 - e1))%N in
      if (p1 =? p2)%N then 0
      else if (p1 <? p2)%N then - sgn s1
      else sgn s1
    else if a2 <? a1 then sgn s1
    else - sgn s1.

(** [_isinfinity()]: 1, -1 or 0. *)
Definition isinfinity (d : Decimal) : Z :=
  match d with
  | Inf false => 1
  | Inf true => -1
  | _ => 0
  end.

(** [_cmp]; the operands are not NaNs. *)
Definition cmp (a b : Decimal) : Z :=
  match a, b with
  | Fin s1 c1 e1, Fin s2 c2 e2 => cmp_fin s1 c1 e1 s2 c2 e2
  | _, _ =>
      let ai := isinfinity a in
      let bi := isinfinity b in
      if ai =? bi then 0 else if ai <? bi then -1 else 1
  end.

Definition is_nan (d : Decimal) : bool :=
  match d with NaN _ _ _ => true | _ => false end.

Definition is_snan (d : Decimal) : bool :=
  match d with NaN _ true _ => true | _ => false end.

(** [a == b]: a signaling NaN raises, a quiet NaN is equal to nothing. *)
Definition eq (a b : Decimal) : result bool :=
  if is_snan a || is_snan b then Raise InvalidOperation
  else if is_nan a || is_nan b then Ok false
  else Ok (cmp a b =? 0).

(** The ordering comparisons raise InvalidOperation on any NaN. *)
Definition compare_with (test : Z -> bool) (a b : Decimal) : result bool :=
  if is_nan a || is_nan b then Raise InvalidOperation
  else Ok (test (cmp a b)).

Definition lt : Decimal -> Decimal -> result bool := compare_with (fun c => c <? 0).
Definition le : Decimal -> Decimal -> result bool := compare_with (fun c => c <=? 0).
Definition ge : Decimal -> Decimal -> result bool := compare_with (fun c => 0 <=? c).

(** [_normalize(op1, op2, prec)], used by addition: both coefficients are
    brought to the same exponent; an operand too small to matter is replaced
    by a unit in a low enough position. *)
Definition normalize (c1 : N) (e1 : Z) (c2 : N) (e2 : Z) : (N * Z) * (N * Z) :=
  let swap := e1 <? e2 in
  let '(tc, te) := if swap then (c2, e2) else (c1, e1) in
  let '(oc, oe) := if swap then (c1, e1) else (c2, e2) in
  let exp := te + Z.min (-1) (ndigits tc - prec - 2) in
  let '(oc', oe') := if ndigits oc + oe - 1 <? exp then (1%N, exp) else (oc, oe) in
  let tc' := (tc * pow10 (te - oe'))%N in
  if swap then ((oc', oe'), (tc', oe')) else ((tc', oe'), (oc', oe')).

Definition add_fin (s1 : bool) (c1 : N) (e1 : Z) (s2 : bool) (c2 : N) (e2 : Z)
  : result Decimal :=
  let exp := Z.min e1 e2 in
  if ((c1 =? 0) && (c2 =? 0))%N then fix_fin (s1 && s2) 0 exp
  else if (c1 =? 0)%N then
    fix_ (rescale ROUND_HALF_EVEN s2 c2 e2 (Z.max exp (e2 - prec - 1)))
  else if (c2 =? 0)%N then
    fix_ (rescale ROUND_HALF_EVEN s1 c1 e1 (Z.max exp (e1 - prec - 1)))
  else
    let '((n1, x1), (n2, _)) := normalize c1 e1 c2 e2 in
    if negb (Bool.eqb s1 s2) then
      if (n1 =? n2)%N then fix_fin false 0 exp
      else if (n1 <? n2)%N then fix_fin s2 (n2 - n1) x1
      else fix_fin s1 (n1 - n2) x1
    else fix_fin s1 (n1 + n2) x1.

(** [a + b] *)
Definition add (a b : Decimal) : result Decimal :=
  match check_nans a b with
  | Some r => r
  | None =>
      match a, b with
      | Inf sa, Inf sb => if negb (Bool.eqb sa sb) then Raise InvalidOperation else Ok (Inf sa)
      | Inf sa, _ => Ok (Inf sa)
      | _, Inf sb => Ok (Inf sb)
      | Fin s1 c1 e1, Fin s2 c2 e2 => add_fin s1 c1 e1 s2 c2 e2
      | _, _ => Raise InvalidOperation
      end
  end.

(** [a - b] is [a + b.copy_negate()] *)
Definition sub (a b : Decimal) : result Decimal :=
  match check_nans a b with
  | Some r => r
  | None => add a (copy_negate b)
  end.

(** [a * b] *)
Definition mul (a b : Decimal) : result Decimal :=
  match check_nans a b with
  | Some r => r
  | None =>
      match a, b with
      | Inf sa, _ => if truthy b then Ok (Inf (xorb sa (sign_of b))) else Raise InvalidOperation
      | _, Inf sb => if truthy a then Ok (Inf (xorb (sign_of a) sb)) else Raise InvalidOperation
      | Fin s1 c1 e1, Fin s2 c2 e2 => fix_fin (xorb s1 s2) (c1 * c2) (e1 + e2)
      | _, _ => Raise InvalidOperation
      end
  end.

(** The loop of [__truediv__] that brings an exact quotient as close to the
    ideal exponent as its trailing zeros allow. *)
Fixpoint strip_to_ideal (fuel : nat) (coeff : N) (exp ideal : Z) : N * Z :=
  match fuel with
  | O => (coeff, exp)
  | S f =>
      if (exp <? ideal) && (coeff mod 10 =? 0)%N
      then strip_to_ideal f (coeff / 10)%N (exp + 1) ideal
      else (coeff, exp)
  end.

Definition div_fin (s1 : bool) (c1 : N) (e1 : Z) (s2 : bool) (c2 : N) (e2 : Z)
  : result Decimal :=
  let sign := xorb s1 s2 in
  if (c2 =? 0)%N then
    if (c1 =? 0)%N then Raise InvalidOperation else Raise DivisionByZero
  else if (c1 =? 0)%N then fix_fin sign 0 (e1 - e2)
  else
    let shift := ndigits c2 - ndigits c1 + prec + 1 in
    let exp := e1 - e2 - shift in
    let num := if 0 <=? shift then (c1 * pow10 shift)%N else c1 in
    let den := if 0 <=? shift then c2 else (c2 * pow10 (- shift))%N in
    let coeff := (num / den)%N in
    let remainder := (num mod den)%N in
    if negb (remainder =? 0)%N then
      fix_fin sign (if (coeff mod 5 =? 0)%N then coeff + 1 else coeff)%N exp
    else
      let '(coeff', exp') :=
        strip_to_ideal (Z.to_nat (ndigits coeff)) coeff exp (e1 - e2) in
      fix_fin sign coeff' exp'.

(** [a / b] *)
Definition div (a b : Decimal) : result Decimal :=
  match check_nans a b with
  | Some r => r
  | None =>
      match a, b with
      | Inf _, Inf _ => Raise InvalidOperation
      | Inf sa, _ => Ok (Inf (xorb sa (sign_of b)))
      | _, Inf sb => Ok (Fin (xorb (sign_of a) sb) 0 Etiny)
      | Fin s1 c1 e1, Fin s2 c2 e2 => div_fin s1 c1 e1 s2 c2 e2
      | _, _ => Raise InvalidOperation
      end
  end.

(** [-a] *)
Definition neg (a : Decimal) : result Decimal :=
  match check_nan a with
  | Some r => r
  | None => if negb (truthy a) then fix_ (copy_abs a) else fix_ (copy_negate a)
  end.

(** [+a] *)
Definition pos (a : Decimal) : result Decimal :=
  match check_nan a with
  | Some r => r
  | None => if negb (truthy a) then fix_ (copy_abs a) else fix_ a
  end.

(** [abs(a)] *)
Definition abs (a : Decimal) : result Decimal :=
  match check_nan a with
  | Some r => r
  | None => if sign_of a then neg a else pos a
  end.

(** [a.quantize(exp, rounding=mode)] *)
Definition quantize (a exp : Decimal) (mode : rounding) : result Decimal :=
  match check_nans a exp with
  | Some r => r
  | None =>
      match a, exp with
      | Inf s, Inf _ => Ok (Inf s)
      | Inf _, _ => Raise InvalidOperation
      | _, Inf _ => Raise InvalidOperation
      | Fin s c e, Fin _ _ q =>
          if negb ((Etiny <=? q) && (q <=? Emax)) then Raise InvalidOperation
          else if (c =? 0)%N then fix_fin s 0 q
          else if Emax <? adjusted c e then Raise InvalidOperation
          else if prec <? adjusted c e - q + 1 then Raise InvalidOperation
          else
            match rescale mode s c e q with
            | Fin s' c' e' =>
                if Emax <? adjusted c' e' then Raise InvalidOperation
                else if prec <? ndigits c' then Raise InvalidOperation
                else fix_fin s' c' e'
            | other => Ok other
            end
      | _, _ => Raise InvalidOperation
      end
  end.

End Dec.

Import Dec.

(** ** app/services/repricing.py: the pricing calculator *)

Inductive RepricingStrategy : Type := MATCH_LOW | UNDERCUT | MATCH_MARKET.

(** The [strategy] argument of [calculate_price] is not checked by Python: it is
    a member of the enumeration or any other object (a string, [None], ...). *)
Inductive strategy_arg : Type :=
| Member (s : RepricingStrategy)
| NotMember (repr : string).

Definition ABSOLUTE_MINIMUM : Decimal := Fin false 1 (-2).   (* Decimal("0.01") *)
Definition TWO_PLACES : Decimal := Fin false 1 (-2).         (* Decimal("0.01") *)

(** [x or Decimal("0")] for an optional Decimal [x] *)
Definition or_zero (x : option Decimal) : Decimal :=
  match x with
  | Some d => if truthy d then d else Fin false 0 0
  | None => Fin false 0 0
  end.

(** The strategy branch of [calculate_price] (lines 75-84). *)
Definition candidate_price (current_price tcg_low market_price : Decimal)
  (strategy : strategy_arg) (undercut_pct : option Decimal) : result Decimal :=
  match strategy with
  | Member MATCH_LOW => Ok tcg_low
  | Member UNDERCUT =>
      let pct := or_zero undercut_pct in
      let* ratio := div pct (Fin false 100 0) in
      let* multiplier := sub (Fin false 1 0) ratio in
      let* product := mul tcg_low multiplier in
      quantize product TWO_PLACES ROUND_HALF_UP
  | Member MATCH_MARKET => Ok market_price
  | NotMember _ => Ok current_price
  end.

(** Lines 86-88: enforce the floor price if set. *)
Definition enforce_floor (new_price : Decimal) (floor_price : option Decimal)
  : result Decimal :=
  match floor_price with
  | None => Ok new_price
  | Some f =>
      let* below := lt new_price f in
      Ok (if below then f else new_price)
  end.

(** Lines 90-92: never go below the absolute minimum of one cent. *)
Definition enforce_minimum (new_price : Decimal) : result Decimal :=
  let* below := lt new_price ABSOLUTE_MINIMUM in
  Ok (if below then ABSOLUTE_MINIMUM else new_price).

Definition calculate_price (current_price tcg_low market_price : Decimal)
  (strategy : strategy_arg) (undercut_pct floor_price : option Decimal)
  : result Decimal :=
  let* new_price :=
    candidate_price current_price tcg_low market_price strategy undercut_pct in
  let* new_price := enforce_floor new_price floor_price in
  let* new_price := enforce_minimum new_price in
  quantize new_price TWO_PLACES ROUND_HALF_UP.

(** ** app/services/alerts.py: the alert rule *)

(** [((new_price - old_price) / old_price) * 100] *)
Definition pct_change (old_price new_price : Decimal) : result Decimal :=
  let* delta := sub new_price old_price in
  let* ratio := div delta old_price in
  mul ratio (Fin false 100 0).

Definition evaluate_alert (old_price new_price threshold_pct : Decimal)
  (direction : string) : result bool :=
  let* same := eq old_price new_price in
  if same then Ok false
  else
    let* zero := eq old_price (Fin false 0 0) in
    if zero then Ok (String.eqb direction "up" || String.eqb direction "both")
    else
      let* pct := pct_change old_price new_price in
      if String.eqb direction "up" then ge pct threshold_pct
      else if String.eqb direction "down" then
        let* bound := neg threshold_pct in
        le pct bound
      else
        let* magnitude := abs pct in
        ge magnitude threshold_pct.

(** ** Text *)


(** [str.isspace] on the code points below 256: TAB..CR, FS..US, space,
    NEL (0x85) and NBSP (0xA0). *)
Definition is_space (c : ascii) : bool :=
  let n := N_of_ascii c in
  ((9 <=? n) && (n <=? 13) || (28 <=? n) && (n <=? 32) || (n =? 133) || (n =? 160))%N.

Definition is_digit (c : ascii) : bool :=
  let n := N_of_ascii c in ((48 <=? n) && (n <=? 57))%N.

Definition digit_val (c : ascii) : N := (N_of_ascii c - 48)%N.

Definition digit_char (d : N) : ascii := ascii_of_N (48 + d).

(** ASCII lower-casing, for case-insensitive matching. *)
Definition lower (c : ascii) : ascii :=
  let n := N_of_ascii c in
  if ((65 <=? n) && (n <=? 90))%N then ascii_of_N (n + 32) else c.

Fixpoint lower_str (s : string) : string :=
  match s with
  | EmptyString => EmptyString
  | String c r => String (lower c) (lower_str r)
  end.

Fixpoint lstrip (s : string) : string :=
  match s with
  | EmptyString => EmptyString
  | String c r => if is_space c then lstrip r else s
  end.

Fixpoint rstrip (s : string) : string :=
  match s with
  | EmptyString => EmptyString
  | String c r =>
      match rstrip r with
      | EmptyString => if is_space c then EmptyString else String c EmptyString
      | r' => String c r'
      end
  end.

(** [s.strip()] *)
Definition strip (s : string) : string := rstrip (lstrip s).

(** [s.replace("_", "")] *)
Fixpoint remove_underscores (s : string) : string :=
  match s with
  | EmptyString => EmptyString
  | String c r =>
      if Ascii.eqb c "_" then remove_underscores r else String c (remove_underscores r)
  end.

(** The longest prefix of digits, and the rest. *)
Fixpoint span_digits (s : string) : string * string :=
  match s with
  | EmptyString => (EmptyString, EmptyString)
  | String c r =>
      if is_digit c then let '(d, rest) := span_digits r in (String c d, rest)
      else (EmptyString, s)
  end.

(** [int(s)] for a string of digits, continuing from [acc]. *)
Fixpoint N_of_digits_from (acc : N) (s : string) : N :=
  match s with
  | EmptyString => acc
  | String c r => N_of_digits_from (10 * acc + digit_val c) r
  end.

Definition N_of_digits (s : string) : N := N_of_digits_from 0 s.

(** [str(n)] for a non-negative integer. *)
Fixpoint str_N_fuel (fuel : nat) (n : N) (acc : string) : string :=
  match fuel with
  | O => acc
  | S f =>
      let acc' := String (digit_char (n mod 10)) acc in
      if (n <? 10)%N then acc' else str_N_fuel f (n / 10)%N acc'
  end.

Definition str_N (n : N) : string := str_N_fuel (S (N.to_nat (N.size n))) n "".

(** ["%+d" % z] *)
Definition str_signed (z : Z) : string :=
  (if z <? 0 then "-" else "+") ++ str_N (Z.abs_N z).

(** ["0" * k] *)
Fixpoint zeros (k : nat) : string :=
  match k with
  | O => EmptyString
  | S k' => String "0" (zeros k')
  end.

(** [s[:n]] and [s[n:]] *)
Fixpoint take_str (n : nat) (s : string) : string :=
  match n, s with
  | S n', String c r => String c (take_str n' r)
  | _, _ => EmptyString
  end.

Fixpoint drop_str (n : nat) (s : string) : string :=
  match n, s with
  | S n', String _ r => drop_str n' r
  | _, _ => s
  end.

(** ** Decimal(str) and str(Decimal) *)

(** An optional sign in front of a numeral. *)
Definition split_sign (s : string) : bool * string :=
  match s with
  | String "-" r => (true, r)
  | String "+" r => (false, r)
  | _ => (false, s)
  end.

(** The optional exponent part, an E followed by an optional sign and at least
    one digit, up to the end of the text: the exponent when the rest of the
    text is empty or a complete exponent part. *)
Definition parse_exponent (s : string) : option Z :=
  match s with
  | EmptyString => Some 0%Z
  | String c r =>
      if Ascii.eqb (lower c) "e" then
        let '(neg_exp, r1) := split_sign r in
        let '(ds, r2) := span_digits r1 in
        match ds, r2 with
        | String _ _, EmptyString =>
            Some (if neg_exp then (- Z.of_N (N_of_digits ds))%Z else Z.of_N (N_of_digits ds))
        | _, _ => None
        end
      else None
  end.

(** The finite alternative of the numeric-string grammar: digits with an
    optional point among them (at least one digit in all), then the optional
    exponent part; the result is the coefficient and the exponent. *)
Definition parse_number (s : string) : option (N * Z) :=
  let '(intpart, r1) := span_digits s in
  let '(fracpart, r2) :=
    match r1 with
    | String "." r => span_digits r
    | _ => (EmptyString, r1)
    end in
  match intpart ++ fracpart with
  | EmptyString => None
  | digits =>
      match parse_exponent r2 with
      | Some e => Some (N_of_digits digits, (e - Z.of_nat (String.length fracpart))%Z)
      | None => None
      end
  end.

(** The special alternatives, matched case-insensitively: Inf or Infinity, and
    NaN or sNaN followed by the digits of a payload. *)
Definition parse_nan (signaling : bool) (s : string) : option (bool * N) :=
  match s with
  | String "n" (String "a" (String "n" r)) =>
      let '(ds, rest) := span_digits r in
      match rest with
      | EmptyString => Some (signaling, N_of_digits ds)
      | _ => None
      end
  | _ => None
  end.

Definition parse_special (sign : bool) (s : string) : option Decimal :=
  let l := lower_str s in
  if String.eqb l "inf" || String.eqb l "infinity" then Some (Inf sign)
  else
    let r :=
      match l with
      | String "s" l' => parse_nan true l'
      | _ => parse_nan false l
      end in
    match r with
    | Some (g, diag) => Some (NaN sign g diag)
    | None => None
    end.

(** The numeric-string grammar: the value a text denotes once surrounding
    whitespace and underscores are removed, [None] outside the grammar. *)
Definition numeric_string (value : string) : option Decimal :=
  let '(sign, s) := split_sign (remove_underscores (strip value)) in
  match parse_number s with
  | Some (c, e) => Some (Fin sign c e)
  | None => parse_special sign s
  end.

(** The limits of the conversion: [decimal.MAX_PREC], [decimal.MAX_EMAX] and
    [decimal.MIN_ETINY] of the C implementation on a 64-bit platform. *)
Definition MAX_PREC : Z := 999999999999999999.
Definition MAX_EMAX : Z := 999999999999999999.
Definition MIN_ETINY : Z := -1999999999999999997.

(** The conversion from text is exact: a value held as it is written, with
    no rounding and no clamping of the exponent, within these limits. *)
Definition exact_in_limits (d : Decimal) : bool :=
  match d with
  | Fin _ c e => (ndigits c <=? MAX_PREC) && (MIN_ETINY <=? e) && (adjusted c e <=? MAX_EMAX)
  | Inf _ => true
  | NaN _ _ diag => ndigits diag <=? MAX_PREC
  end.

(** [Decimal(value)] for a string: text outside the grammar raises
    InvalidOperation, and so does a numeral the conversion cannot hold
    exactly (a coefficient, an exponent or a payload beyond the limits). *)
Definition Decimal_of_str (value : string) : result Decimal :=
  match numeric_string value with
  | Some d => if exact_in_limits d then Ok d else Raise InvalidOperation
  | None => Raise InvalidOperation
  end.

(** [str(d)]: the scientific string of the decimal arithmetic specification. *)
Definition str_Decimal (d : Decimal) : string :=
  let sign_str (s : bool) := if s then "-" else "" in
  let payload (n : N) := if (n =? 0)%N then "" else str_N n in
  match d with
  | Inf s => sign_str s ++ "Infinity"
  | NaN s false diag => sign_str s ++ "NaN" ++ payload diag
  | NaN s true diag => sign_str s ++ "sNaN" ++ payload diag
  | Fin s c e =>
      let digits := str_N c in
      let len := Z.of_nat (String.length digits) in
      let leftdigits := (e + len)%Z in
      let dotplace := if ((e <=? 0) && (-6 <? leftdigits))%Z then leftdigits else 1%Z in
      let '(intpart, fracpart) :=
        if (dotplace <=? 0)%Z then
          ("0", "." ++ zeros (Z.to_nat (- dotplace)) ++ digits)
        else if (len <=? dotplace)%Z then
          (digits ++ zeros (Z.to_nat (dotplace - len)), "")
        else
          (take_str (Z.to_nat dotplace) digits, "." ++ drop_str (Z.to_nat dotplace) digits) in
      let exp :=
        if (leftdigits =? dotplace)%Z then "" else "E" ++ str_signed (leftdigits - dotplace) in
      sign_str s ++ intpart ++ fracpart ++ exp
  end.

(** ** The csv module, excel dialect

    delimiter comma, quotechar double quote, doublequote, no escapechar, no
    skipinitialspace, lineterminator CR LF, QUOTE_MINIMAL, not strict.
    The reader refuses a field longer than [csv.field_size_limit()], which
    the application leaves at its default of 131072 characters. *)

Module Csv.

Definition LF : ascii := ascii_of_N 10.
Definition CR : ascii := ascii_of_N 13.
Definition COMMA : ascii := ",".
Definition QUOTE : ascii := ascii_of_N 34.

Definition is_newline (c : ascii) : bool := Ascii.eqb c LF || Ascii.eqb c CR.

(** The lines a [StringIO] yields: each ends with its LF, except possibly the
    last one. *)
Fixpoint lines_of (s : string) : list string :=
  match s with
  | EmptyString => []
  | String c r =>
      if Ascii.eqb c LF then String c EmptyString :: lines_of r
      else
        match lines_of r with
        | [] => [String c EmptyString]
        | l :: ls => String c l :: ls
        end
  end.

(** The states of the reader that the excel dialect can reach. *)
Inductive pstate : Type :=
| START_RECORD | START_FIELD | IN_FIELD | IN_QUOTED_FIELD
| QUOTE_IN_QUOTED_FIELD | EAT_CRNL.

Record reader : Type := mkReader {
  state : pstate;
  fields : list string;   (* the fields of the record read so far *)
  field : string          (* the characters of the field being read *)
}.

Definition parse_reset : reader := mkReader START_RECORD [] "".

Definition parse_save_field (p : reader) (next : pstate) : reader :=
  mkReader next (fields p ++ [field p]) "".

(** [csv.field_size_limit()] *)
Definition field_limit : N := 131072.

(** [self->field_len] *)
Definition field_len (p : reader) : N := N.of_nat (String.length (field p)).

(** [parse_add_char]: the character is refused when the field has reached
    the limit. *)
Definition parse_add_char (p : reader) (c : ascii) (next : pstate) : result reader :=
  if (field_limit <=? field_len p)%N then Raise CsvError
  else Ok (mkReader next (fields p) (field p ++ String c "")).

Definition set_state (p : reader) (next : pstate) : reader :=
  mkReader next (fields p) (field p).

Definition after_line (c : option ascii) : pstate :=
  match c with None => START_RECORD | Some _ => EAT_CRNL end.

Definition ends_line (c : option ascii) : bool :=
  match c with None => true | Some a => is_newline a end.

(** [parse_process_char]; [None] is the end-of-line mark the reader feeds
    itself after each line. *)
Definition parse_process_char (p : reader) (c : option ascii) : result reader :=
  let start_field (p : reader) :=
    if ends_line c then Ok (parse_save_field p (after_line c))
    else match c with
         | Some a =>
             if Ascii.eqb a QUOTE then Ok (set_state p IN_QUOTED_FIELD)
             else if Ascii.eqb a COMMA then Ok (parse_save_field p START_FIELD)
             else parse_add_char p a IN_FIELD
         | None => Ok p
         end in
  match state p with
  | START_RECORD =>
      match c with
      | None => Ok p
      | Some a => if is_newline a then Ok (set_state p EAT_CRNL) else start_field p
      end
  | START_FIELD => start_field p
  | IN_FIELD =>
      if ends_line c then Ok (parse_save_field p (after_line c))
      else match c with
           | Some a =>
               if Ascii.eqb a COMMA then Ok (parse_save_field p START_FIELD)
               else parse_add_char p a IN_FIELD
           | None => Ok p
           end
  | IN_QUOTED_FIELD =>
      match c with
      | None => Ok p
      | Some a =>
          if Ascii.eqb a QUOTE then Ok (set_state p QUOTE_IN_QUOTED_FIELD)
          else parse_add_char p a IN_QUOTED_FIELD
      end
  | QUOTE_IN_QUOTED_FIELD =>
      match c with
      | None => Ok (parse_save_field p START_RECORD)
      | Some a =>
          if Ascii.eqb a QUOTE then parse_add_char p a IN_QUOTED_FIELD
          else if Ascii.eqb a COMMA then Ok (parse_save_field p START_FIELD)
          else if is_newline a then Ok (parse_save_field p EAT_CRNL)
          else parse_add_char p a IN_FIELD
      end
  | EAT_CRNL =>
      match c with
      | None => Ok (set_state p START_RECORD)
      | Some a => if is_newline a then Ok p else Raise CsvError
      end
  end.

(** The characters of one line, then the end-of-line mark. *)
Fixpoint process_line (p : reader) (line : string) : result reader :=
  match line with
  | EmptyString => parse_process_char p None
  | String c r =>
      let* p' := parse_process_char p (Some c) in
      process_line p' r
  end.

Definition is_start_record (p : reader) : bool :=
  match state p with START_RECORD => true | _ => false end.

Definition is_in_quoted (p : reader) : bool :=
  match state p with IN_QUOTED_FIELD => true | _ => false end.

Definition is_empty (s : string) : bool :=
  match s with EmptyString => true | _ => false end.

(** A lazily produced sequence: the items yielded, then a normal end or an
    exception. *)
Definition stream (A : Type) : Type := (list A * option exn)%type.

Definition yield {A : Type} (a : A) (s : stream A) : stream A := (a :: fst s, snd s).

(** [Reader_iternext], iterated: a record is complete when a line leaves the
    reader in START_RECORD; when the lines end inside a record, the record is
    closed with the field read so far. *)
Fixpoint read_records (p : reader) (lines : list string) : stream (list string) :=
  match lines with
  | [] =>
      if negb (is_empty (field p)) || is_in_quoted p
      then ([(fields p ++ [field p])%list], None)
      else ([], None)
  | line :: rest =>
      match process_line p line with
      | Raise e => ([], Some e)
      | Ok p' =>
          if is_start_record p' then yield (fields p') (read_records parse_reset rest)
          else read_records p' rest
      end
  end.

(** [csv.reader(io.StringIO(text))] *)
Definition reader_of (text : string) : stream (list string) :=
  read_records parse_reset (lines_of text).

(** *** The writer *)

Definition needs_quotes_char (c : ascii) : bool :=
  Ascii.eqb c COMMA || Ascii.eqb c QUOTE || is_newline c.

Fixpoint needs_quotes (s : string) : bool :=
  match s with
  | EmptyString => false
  | String c r => needs_quotes_char c || needs_quotes r
  end.

Fixpoint double_quotes (s : string) : string :=
  match s with
  | EmptyString => EmptyString
  | String c r =>
      if Ascii.eqb c QUOTE then String c (String c (double_quotes r))
      else String c (double_quotes r)
  end.

(** [join_append] for one field. *)
Definition write_field (s : string) : string :=
  if needs_quotes s then String QUOTE (double_quotes s) ++ String QUOTE ""
  else s.

Fixpoint join_fields (row : list string) : string :=
  match row with
  | [] => ""
  | [f] => write_field f
  | f :: rest => write_field f ++ String COMMA (join_fields rest)
  end.

Definition lineterminator : string := String CR (String LF "").

(** [writer.writerow(row)]: a record made of one empty field is written quoted. *)
Definition writerow (row : list string) : string :=
  match row with
  | [EmptyString] => String QUOTE (String QUOTE lineterminator)
  | _ => join_fields row ++ lineterminator
  end.

End Csv.

(** *** DictReader and DictWriter *)

(** A row as [DictReader] yields it: a cell is a string, or [None] (the
    [restval]) for a field name the record is too short to reach. *)
Abbreviation raw_row := (gmap string (option string)).

(** [dict(zip(fieldnames, row))]: a later duplicate of a name wins. *)
Fixpoint dict_zip (fieldnames row : list string) (d : raw_row) : raw_row :=
  match fieldnames, row with
  | k :: ks, v :: vs => dict_zip ks vs (<[k := Some v]> d)
  | _, _ => d
  end.

(** [for key in fieldnames[lr:]: d[key] = restval] *)
Definition fill_restval (keys : list string) (d : raw_row) : raw_row :=
  fold_left (fun d k => <[k := None]> d) keys d.

(** [DictReader.__next__] on one non-empty record.  The cells beyond the last
    field name go under the key [None], which no string key reaches. *)
Definition dict_of_record (fieldnames row : list string) : raw_row :=
  fill_restval (drop (length row) fieldnames) (dict_zip fieldnames row ∅).

Definition is_blank_record (row : list string) : bool :=
  match row with [] => true | _ => false end.

(** [csv.DictReader(io.StringIO(text))]: the first record gives the field
    names; empty records are skipped. *)
Definition DictReader (text : string) : Csv.stream raw_row :=
  match Csv.reader_of text with
  | ([], err) => ([], err)
  | (fieldnames :: records, err) =>
      (map (dict_of_record fieldnames)
           (filter (fun r => negb (is_blank_record r)) records), err)
  end.

(** ** app/services/repricing.py: CSV ingest and emit *)

(** [CSV_COLUMN_MAP], in insertion order: TCGPlayer column, internal field. *)
Definition CSV_COLUMN_MAP : list (string * string) :=
  [ ("TCGplayer Id", "sku_id");
    ("Product Line", "product_line");
    ("Set Name", "set_name");
    ("Product Name", "product_name");
    ("Title", "title");
    ("Number", "number");
    ("Rarity", "rarity");
    ("Condition", "condition");
    ("TCG Market Price", "market_price");
    ("TCG Direct Low", "direct_low");
    ("TCG Low Price With Shipping", "tcg_low_with_shipping");
    ("TCG Low Price", "tcg_low");
    ("Total Quantity", "total_quantity");
    ("Add to Quantity", "add_to_quantity");
    ("TCG Marketplace Price", "current_listed_price");
    ("Photo URL", "photo_url") ].

Definition PRICE_FIELDS : list string :=
  [ "market_price"; "direct_low"; "tcg_low_with_shipping"; "tcg_low";
    "current_listed_price" ].

Definition is_price_field (field_name : string) : bool :=
  existsb (String.eqb field_name) PRICE_FIELDS.

(** The values a row dict holds. *)
Inductive value : Type :=
| VNone
| VStr (s : string)
| VDec (d : Decimal).

Abbreviation row := (gmap string value).

Definition value_of_raw (v : option string) : value :=
  match v with
  | None => VNone
  | Some s => VStr s
  end.

(** [_to_decimal(value)] *)
Definition _to_decimal (v : option string) : result value :=
  match v with
  | None => Ok VNone
  | Some s =>
      if Csv.is_empty s || Csv.is_empty (strip s) then Ok VNone
      else
        let* d := Decimal_of_str (strip s) in
        Ok (VDec d)
  end.

(** [raw_row.get(csv_col, "")] *)
Definition raw_get (raw : raw_row) (csv_col : string) : option string :=
  match raw !! csv_col with
  | Some v => v
  | None => Some ""
  end.

(** The inner loop of [parse_csv] over [CSV_COLUMN_MAP.items()]. *)
Fixpoint map_columns (cols : list (string * string)) (raw : raw_row) (mapped_row : row)
  : result row :=
  match cols with
  | [] => Ok mapped_row
  | (csv_col, field_name) :: rest =>
      let raw_value := raw_get raw csv_col in
      let* v := if is_price_field field_name then _to_decimal raw_value
                else Ok (value_of_raw raw_value) in
      map_columns rest raw (<[field_name := v]> mapped_row)
  end.

(** The outer loop of [parse_csv] over the rows the reader yields. *)
Fixpoint parse_rows (raws : list raw_row) (err : option exn) : result (list row) :=
  match raws with
  | [] => match err with None => Ok [] | Some e => Raise e end
  | raw :: rest =>
      let* mapped_row := map_columns CSV_COLUMN_MAP raw ∅ in
      let* rows := parse_rows rest err in
      Ok (mapped_row :: rows)
  end.

Definition parse_csv (csv_content : string) : result (list row) :=
  let '(raws, err) := DictReader csv_content in
  parse_rows raws err.

(** The values [generate_csv] hands to the writer, which writes [None] as the
    empty string. *)
Definition cell_text (v : option value) : string :=
  match v with
  | None => ""              (* the default of row.get(field_name, "") *)
  | Some VNone => ""
  | Some (VDec d) => str_Decimal d
  | Some (VStr s) => s
  end.

(** [field_to_csv = {v: k for k, v in CSV_COLUMN_MAP.items()}], as the list of
    its items: a later column with the same field name replaces the header but
    keeps the place of the first. *)
Fixpoint dict_set (k v : string) (items : list (string * string)) : list (string * string) :=
  match items with
  | [] => [(k, v)]
  | (k', v') :: rest => if String.eqb k k' then (k, v) :: rest else (k', v') :: dict_set k v rest
  end.

Definition field_to_csv : list (string * string) :=
  fold_left (fun items '(csv_col, field_name) => dict_set field_name csv_col items)
            CSV_COLUMN_MAP [].

Definition headers : list string := map fst CSV_COLUMN_MAP.

(** The loop that fills [csv_row]. *)
Definition make_csv_row (r : row) : gmap string string :=
  fold_left (fun csv_row '(field_name, csv_col) =>
               <[csv_col := cell_text (r !! field_name)]> csv_row)
            field_to_csv ∅.

(** [DictWriter.writerow]: the cells in the order of the field names, [""]
    (the restval) for a missing one. *)
Definition dict_to_list (fieldnames : list string) (csv_row : gmap string string)
  : list string :=
  map (fun key => default "" (csv_row !! key)) fieldnames.

Definition generate_csv (rows : list row) : string :=
  Csv.writerow headers
  ++ String.concat "" (map (fun r => Csv.writerow (dict_to_list headers (make_csv_row r))) rows).

(** ** app/routers/reprice.py: batch application *)

(** [RepricingStrategy[name]] *)
Definition strategy_of_name (name : string) : result RepricingStrategy :=
  if String.eqb name "MATCH_LOW" then Ok MATCH_LOW
  else if String.eqb name "UNDERCUT" then Ok UNDERCUT
  else if String.eqb name "MATCH_MARKET" then Ok MATCH_MARKET
  else Raise KeyError.

(** [Decimal(text) if text else None] *)
Definition optional_decimal (text : string) : result (option Decimal) :=
  if Csv.is_empty text then Ok None
  else
    let* d := Decimal_of_str text in
    Ok (Some d).

(** [row.get(key)] for a price field.  The rows of both handlers come straight
    from [parse_csv], which stores a Decimal or [None] in a price field
    (see [parse_csv_price_fields]), never a string. *)
Definition get_price (r : row) (key : string) : option Decimal :=
  match r !! key with
  | Some (VDec d) => Some d
  | _ => None
  end.

(** The new price of a row: lines 49-63 and 100-114. *)
Definition row_new_price (strat : RepricingStrategy) (undercut floor : option Decimal)
  (r : row) : result Decimal :=
  let tcg_low := or_zero (get_price r "tcg_low") in
  let market := or_zero (get_price r "market_price") in
  let current := or_zero (get_price r "current_listed_price") in
  if truthy tcg_low || truthy market then
    calculate_price current tcg_low market (Member strat) undercut floor
  else Ok current.

(** [new_price - current if current else Decimal("0")] (line 65) *)
Definition row_diff (new_price : Decimal) (r : row) : result Decimal :=
  let current := or_zero (get_price r "current_listed_price") in
  if truthy current then sub new_price current else Ok (Fin false 0 0).

(** The body of the loop of [reprice_upload]: the row with [new_price] and
    [diff] added. *)
Definition upload_row (strat : RepricingStrategy) (undercut floor : option Decimal)
  (r : row) : result row :=
  let* new_price := row_new_price strat undercut floor r in
  let* diff := row_diff new_price r in
  Ok (<["diff" := VDec diff]> (<["new_price" := VDec new_price]> r)).

(** The body of the loop of [reprice_download]: [row["new_price"] = ...] *)
Definition download_row (strat : RepricingStrategy) (undercut floor : option Decimal)
  (r : row) : result row :=
  let* new_price := row_new_price strat undercut floor r in
  Ok (<["new_price" := VDec new_price]> r).

Fixpoint for_each {A B : Type} (f : A -> result B) (l : list A) : result (list B) :=
  match l with
  | [] => Ok []
  | a :: rest =>
      let* b := f a in
      let* bs := for_each f rest in
      Ok (b :: bs)
  end.

(** [reprice_upload]: the [results] handed to the template. *)
Definition reprice_upload (csv_text strategy undercut_pct floor_price : string)
  : result (list row) :=
  let* rows := parse_csv csv_text in
  let* strat := strategy_of_name strategy in
  let* undercut := optional_decimal undercut_pct in
  let* floor := optional_decimal floor_price in
  for_each (upload_row strat undercut floor) rows.

(** [reprice_download]: the text of the CSV sent back. *)
Definition reprice_download (original_csv strategy undercut_pct floor_price : string)
  : result string :=
  let* rows := parse_csv original_csv in
  let* strat := strategy_of_name strategy in
  let* undercut := optional_decimal undercut_pct in
  let* floor := optional_decimal floor_price in
  let* rows' := for_each (download_row strat undercut floor) rows in
  Ok (generate_csv rows').

(** ** app/models.py: the tables [check_alerts] reads and writes

    A table is a finite map from its primary key to the other columns of the
    row.  A [DateTime] is a number of microseconds and a [Date] a day
    number. *)

Module WatchlistItem.
Record t : Type := mk {
  product_id : Z;
  variant : string;
  notes : option string;
  added_at : Z;
  active : bool
}.
End WatchlistItem.

Module PriceAlert.
Record t : Type := mk {
  watchlist_id : Z;
  threshold_pct : Decimal;
  time_window : string;
  direction : string;
  triggered_at : option Z;
  acknowledged : bool
}.

(** [alert.triggered_at = when] *)
Definition set_triggered_at (a : t) (when : Z) : t :=
  mk (watchlist_id a) (threshold_pct a) (time_window a) (direction a) (Some when)
     (acknowledged a).
End PriceAlert.

Module CurrentPrice.
Record t : Type := mk {
  market_price : option Decimal;
  low_price : option Decimal;
  mid_price : option Decimal;
  direct_low : option Decimal;
  updated_at : Z;
  source : string
}.
End CurrentPrice.

Module PriceHistory.
Record t : Type := mk {
  product_id : Z;
  variant : string;
  date : Z;
  market_price : option Decimal;
  low_price : option Decimal;
  source : string;
  created_at : Z
}.
End PriceHistory.

(** The session: the four tables as the session sees them, and the number of
    commits made through it. *)
Record Session : Type := mkSession {
  price_alerts : gmap Z PriceAlert.t;               (* key: id *)
  watchlist : gmap Z WatchlistItem.t;               (* key: id *)
  current_prices : gmap (Z * string) CurrentPrice.t; (* key: product_id, variant *)
  price_history : gmap Z PriceHistory.t;            (* key: id *)
  commits : nat
}.

(** ** app/services/alerts.py: [check_alerts] *)

(** One entry of the list [check_alerts] returns. *)
Module TriggeredAlert.
Record t : Type := mk {
  alert_id : Z;
  product_id : Z;
  variant : string;
  old_price : Decimal;
  new_price : Decimal;
  threshold_pct : Decimal;
  direction : string
}.
End TriggeredAlert.

(** [db.query(PriceAlert).join(WatchlistItem).filter(WatchlistItem.active.is_(True),
    PriceAlert.triggered_at.is_(None)).all()]: each alert with the watchlist
    item its foreign key joins it to, which is the item
    [alert.watchlist_item] loads.  SQL leaves the order of the rows open; the
    order of [map_to_list] stands for it. *)
Definition active_alerts (db : Session) : list (Z * (PriceAlert.t * WatchlistItem.t)) :=
  omap (fun '(id, alert) =>
          match watchlist db !! PriceAlert.watchlist_id alert with
          | Some item =>
              if WatchlistItem.active item
                 && match PriceAlert.triggered_at alert with None => true | Some _ => false end
              then Some (id, (alert, item))
              else None
          | None => None
          end)
       (map_to_list (price_alerts db)).

(** [order_by(PriceHistory.date.desc())], as a stable insertion sort. *)
Fixpoint insert_by_date (h : PriceHistory.t) (sorted : list PriceHistory.t)
  : list PriceHistory.t :=
  match sorted with
  | [] => [h]
  | h' :: rest =>
      if (PriceHistory.date h' <? PriceHistory.date h)%Z then h :: sorted
      else h' :: insert_by_date h rest
  end.

Definition order_by_date_desc (rows : list PriceHistory.t) : list PriceHistory.t :=
  fold_right insert_by_date [] rows.

(** [db.query(PriceHistory).filter_by(product_id=..., variant=...)
    .order_by(PriceHistory.date.desc()).offset(1).first()] *)
Definition previous_history (db : Session) (product_id : Z) (variant : string)
  : option PriceHistory.t :=
  head (drop 1 (order_by_date_desc
                  (List.filter (fun h => (PriceHistory.product_id h =? product_id)%Z
                                         && String.eqb (PriceHistory.variant h) variant)
                               (map snd (map_to_list (price_history db)))))).

(** [not row.market_price]: the column is NULL or zero. *)
Definition price_of (market_price : option Decimal) : option Decimal :=
  match market_price with
  | Some d => if truthy d then Some d else None
  | None => None
  end.

(** What the loop carries: the alerts as the session sees them, the list
    [triggered], and the number of calls of [datetime.now()] so far. *)
Record loop_state : Type := mkLoop {
  alerts : gmap Z PriceAlert.t;
  triggered : list TriggeredAlert.t;
  now_calls : nat
}.

(** The body of the loop for one alert; [clock k] is what the call number
    [k] of [datetime.now()] returns. *)
Definition check_alert (clock : nat -> Z) (db : Session) (st : loop_state)
  (entry : Z * (PriceAlert.t * WatchlistItem.t)) : result loop_state :=
  let '(id, (alert, watchlist_item)) := entry in
  let product_id := WatchlistItem.product_id watchlist_item in
  let variant := WatchlistItem.variant watchlist_item in
  match current_prices db !! (product_id, variant) with
  | None => Ok st
  | Some current =>
      match price_of (CurrentPrice.market_price current) with
      | None => Ok st
      | Some new_price =>
          match previous_history db product_id variant with
          | None => Ok st
          | Some history =>
              match price_of (PriceHistory.market_price history) with
              | None => Ok st
              | Some old_price =>
                  let* fire := evaluate_alert old_price new_price
                                 (PriceAlert.threshold_pct alert)
                                 (PriceAlert.direction alert) in
                  if fire then
                    Ok (mkLoop
                          (<[id := PriceAlert.set_triggered_at alert (clock (now_calls st))]>
                             (alerts st))
                          (triggered st ++
                           [TriggeredAlert.mk id product_id variant old_price new_price
                              (PriceAlert.threshold_pct alert) (PriceAlert.direction alert)])
                          (S (now_calls st)))
                  else Ok st
              end
          end
      end
  end.

Fixpoint check_each (clock : nat -> Z) (db : Session) (st : loop_state)
  (entries : list (Z * (PriceAlert.t * WatchlistItem.t))) : result loop_state :=
  match entries with
  | [] => Ok st
  | entry :: rest =>
      let* st' := check_alert clock db st entry in
      check_each clock db st' rest
  end.

(** [check_alerts(db)]: the list returned and the session afterwards.  An
    exception leaves the function before any commit. *)
Definition check_alerts (clock : nat -> Z) (db : Session)
  : result (list TriggeredAlert.t * Session) :=
  let* st := check_each clock db (mkLoop (price_alerts db) [] 0) (active_alerts db) in
  Ok (triggered st,
      mkSession (alerts st) (watchlist db) (current_prices db) (price_history db)
                (match triggered st with [] => commits db | _ :: _ => S (commits db) end)).

(** ** The values of decimals, as rationals *)

Definition signed (s : bool) (c : N) : Z := if s then - Z.of_N c else Z.of_N c.

(** The coefficient brought down to the exponent [m <= e]. *)
Definition scaled (s : bool) (c : N) (e m : Z) : Z := signed s c * 10 ^ (e - m).

Definition Qten (e : Z) : Q := Qpower (inject_Z 10) e.
Definition Qfin (s : bool) (c : N) (e : Z) : Q := inject_Z (signed s c) * Qten e.

Definition Qvalue (d : Decimal) : Q :=
  match d with
  | Fin s c e => Qfin s c e
  | _ => 0
  end.

Definition is_finite (d : Decimal) : bool :=
  match d with Fin _ _ _ => true | _ => false end.

(** The coefficient of a value brought to the exponent [q], rounding half up. *)
Definition half_up_coeff (c : N) (e q : Z) : N :=
  if q <=? e then (c * pow10 (e - q))%N
  else ((c + 5 * pow10 (q - e - 1)) / pow10 (q - e))%N.

(** Rounding to [places] fractional digits, ties away from zero
    (ROUND_HALF_UP). *)
Definition Qround_half_up (places : Z) (q : Q) : Q :=
  (if Qlt_le_dec q 0 then -1 else 1)
  * inject_Z (Qfloor (Qabs q * Qten places + (1 # 2))) * Qten (- places).

(** A finite value small enough for [quantize] to two places to succeed in
    the default context: zero, or below [10 ** 25]. *)
Definition quantizable (d : Decimal) : bool :=
  match d with
  | Fin _ c e => (c =? 0)%N || (adjusted c e <=? 24)
  | _ => false
  end.

Definition opt_all (P : Decimal -> bool) (x : option Decimal) : bool :=
  match x with
  | Some d => P d
  | None => true
  end.

(** The post-processing of the design document, on rationals: floor first,
    then the absolute minimum, then rounding half up to two places. *)
Definition floor_step (candidate : Q) (floor_price : option Q) : Q :=
  match floor_price with
  | Some f => if Qlt_le_dec candidate f then f else candidate
  | None => candidate
  end.

Definition minimum_step (candidate : Q) : Q :=
  if Qlt_le_dec candidate (1 # 100) then 1 # 100 else candidate.

Definition post_process (candidate : Q) (floor_price : option Q) : Q :=
  Qround_half_up 2 (minimum_step (floor_step candidate floor_price)).

(** A finite value the default context represents as it is: [_fix] leaves it
    unchanged. *)
Definition in_context (d : Decimal) : bool :=
  match d with
  | Fin _ c e =>
      if (c =? 0)%N then (Etiny <=? e) && (e <=? Emax)
      else (ndigits c <=? prec) && (Etiny <=? e) && (adjusted c e <=? Emax)
  | _ => false
  end.

(** The fourth rule of the alert evaluator, on rationals. *)
Definition direction_rule (direction : string) (pct threshold : Q) : bool :=
  if String.eqb direction "up" then Qle_bool threshold pct
  else if String.eqb direction "down" then Qle_bool pct (- threshold)
  else Qle_bool threshold (Qabs pct).

(** The four ordered rules of the alert evaluator as the design document
    words them, the percentage change being the one the code computes. *)
Definition alert_rules (old_price new_price threshold_pct : Decimal)
  (direction : string) : result bool :=
  if Qeq_bool (Qvalue old_price) (Qvalue new_price) then Ok false
  else if Qeq_bool (Qvalue old_price) 0 then
    Ok (String.eqb direction "up" || String.eqb direction "both")
  else
    let* pct := pct_change old_price new_price in
    Ok (direction_rule direction (Qvalue pct) (Qvalue threshold_pct)).

(** The four ordered rules on exact rationals: the percentage change is
    [(new_price - old_price) / old_price * 100], with no rounding at all. *)
Definition exact_alert (old_price new_price threshold_pct : Q) (direction : string)
  : bool :=
  if Qeq_bool old_price new_price then false
  else if Qeq_bool old_price 0 then
    String.eqb direction "up" || String.eqb direction "both"
  else
    direction_rule direction ((new_price - old_price) / old_price * 100) threshold_pct.

(** An amount as the database stores prices and thresholds, or as a caller
    writes them: at most two decimals, below [10 ** 10] in absolute value. *)
Definition amount (d : Decimal) : bool :=
  match d with
  | Fin _ c e => (-2 <=? e) && (e <=? 0) && (ndigits c + e <=? 10)
  | _ => false
  end.

(** The sixteen internal fields the column table maps. *)
Definition mapped_fields : list string := map snd CSV_COLUMN_MAP.

(** Two rows agree on the mapped fields. *)
Definition agree_on_mapped (r1 r2 : row) : Prop :=
  Forall (fun f => r1 !! f = r2 !! f) mapped_fields.

(** "Absent or zero", the condition the batch loop tests with Python
    truthiness. *)
Definition absent_or_zero (x : option Decimal) : bool :=
  match x with
  | None => true
  | Some d => negb (truthy d)
  end.

(** A price field holds a Decimal or [None]. *)
Definition price_typed (v : option value) : Prop :=
  match v with
  | Some (VStr _) => False
  | _ => True
  end.

(** An export with one listing whose marketplace price is 0.00 and whose low
    price is 5.00. *)
Definition zero_price_export : string :=
  "TCGplayer Id,Product Line,Set Name,Product Name,Title,Number,Rarity,Condition,TCG Market Price,TCG Direct Low,TCG Low Price With Shipping,TCG Low Price,Total Quantity,Add to Quantity,TCG Marketplace Price,Photo URL"
  ++ String Csv.LF
  "1,Pokemon,Base,Pikachu,,001,Common,Near Mint,,,,5.00,1,0,0.00,"
  ++ String Csv.LF "".

(** A cell [Decimal] rejects: not blank, and not a numeric string the
    conversion holds. *)
Definition rejected (cell : option string) : Prop :=
  exists s, cell = Some s /\ strip s <> "" /\
            Decimal_of_str (strip s) = Raise InvalidOperation.

(** What [parse_csv] stores for a currency cell it accepts. *)
Definition currency_cell (cell : option string) (stored : option value) : Prop :=
  match cell with
  | None => stored = Some VNone
  | Some s =>
      (strip s = "" /\ stored = Some VNone) \/
      (strip s <> "" /\ exists d, Decimal_of_str (strip s) = Ok d /\ stored = Some (VDec d))
  end.

Definition export_header : string :=
  "TCGplayer Id,Product Line,Set Name,Product Name,Title,Number,Rarity,Condition,TCG Market Price,TCG Direct Low,TCG Low Price With Shipping,TCG Low Price,Total Quantity,Add to Quantity,TCG Marketplace Price,Photo URL"
  ++ String Csv.LF "".

(** Exports whose low price cell reads N/A, and NaN. *)
Definition not_available_export : string :=
  export_header
  ++ "1,Pokemon,Base,Pikachu,,001,Common,Near Mint,14.00,,12.75,N/A,1,0,15.00,"
  ++ String Csv.LF "".

Definition nan_export : string :=
  export_header
  ++ "1,Pokemon,Base,Pikachu,,001,Common,Near Mint,14.00,,12.75,NaN,1,0,15.00,"
  ++ String Csv.LF "".

(** The value [parse_csv] stores for the cell of one column. *)
Definition cell_value (raw : raw_row) (csv_col field_name : string) : result value :=
  if is_price_field field_name then _to_decimal (raw_get raw csv_col)
  else Ok (value_of_raw (raw_get raw csv_col)).

(** The inputs on which the decimal arithmetic of the UNDERCUT branch is
    exact: a price below [10 ** 10] with at most 12 significant digits, a
    percentage below [10 ** 10] in absolute value with at most 10 significant
    digits and at most 8 decimals. *)
Definition undercut_price (d : Decimal) : bool :=
  match d with
  | Fin _ c e => (ndigits c <=? 12) && (-1000 <=? e) && (ndigits c + e <=? 10)
  | _ => false
  end.

Definition undercut_percentage (d : Decimal) : bool :=
  match d with
  | Fin _ c e => (ndigits c <=? 10) && (-8 <=? e) && (ndigits c + e <=? 10)
  | _ => false
  end.

(** The percentage as a rational, 0 when absent. *)
Definition pct_value (undercut_pct : option Decimal) : Q :=
  match undercut_pct with
  | Some d => Qvalue d
  | None => 0
  end.

(** ** The reader, character by character

    [read_records] follows the lines of the text; these say the same thing
    of a text seen as characters. *)

(** The reader at the end of the input. *)
Definition close_input (p : Csv.reader) : Csv.stream (list string) :=
  Csv.read_records p [].

(** The reader on one line, then the lines that follow. *)
Definition read_line (p : Csv.reader) (line : string) (rest : list string)
  : Csv.stream (list string) :=
  Csv.read_records p (line :: rest).

(** The reader inside a line whose remaining characters start the text [s]. *)
Definition read_rest (p : Csv.reader) (s : string) : Csv.stream (list string) :=
  match Csv.lines_of s with
  | [] => read_line p "" []
  | l :: ls => read_line p l ls
  end.

(** ** Valid exports *)

Fixpoint string_forall (P : ascii -> bool) (s : string) : bool :=
  match s with
  | EmptyString => true
  | String c r => P c && string_forall P r
  end.

Definition all_digits (s : string) : bool := string_forall is_digit s.

(** The characters a field is written with when it needs no quotes. *)
Definition plain_char (c : ascii) : bool := negb (Csv.needs_quotes_char c).

(** A field the reader accepts: at most [csv.field_size_limit()] characters. *)
Definition within_limit (f : string) : bool :=
  (N.of_nat (String.length f) <=? Csv.field_limit)%N.

(** The fields the reader holds are within the limit. *)
Definition fields_within (p : Csv.reader) : Prop :=
  within_limit (Csv.field p) = true /\ forallb within_limit (Csv.fields p) = true.

(** The reader where a field may start: at the start of a record or after a
    delimiter. *)
Definition field_start (st : Csv.pstate) : Prop :=
  st = Csv.START_FIELD \/ st = Csv.START_RECORD.

(** The text of a numeral: integer digits, an optional point and fraction
    digits, an optional exponent. *)
Definition numeral (ip : string) (fp : option string) (x : option Z) : string :=
  ip ++ (match fp with Some f => "." ++ f | None => "" end)
     ++ (match x with Some z => "E" ++ str_signed z | None => "" end).

(** The characters that [strip] and the removal of underscores leave alone. *)
Definition token_char (c : ascii) : bool :=
  negb (is_space c) && negb (Ascii.eqb c "_").

Definition token (s : string) : bool := string_forall token_char s.

(** A price as a normalized row holds it: finite, within the limits of the
    conversion from text, and written by [str] as a text that fits in a field
    of the reader. *)
Definition price_value (d : Decimal) : bool :=
  is_finite d && exact_in_limits d && within_limit (str_Decimal d).

(** A currency cell of a valid export: blank, or a finite decimal numeral
    that [Decimal] accepts and [str] writes within the reader's field size
    limit. *)
Definition valid_currency (cell : option string) : bool :=
  match cell with
  | None => false
  | Some s =>
      Csv.is_empty (strip s) ||
      match Decimal_of_str (strip s) with
      | Ok d => price_value d
      | Raise _ => false
      end
  end.

(** A record of a valid export: blank (the reader skips it), or reaching every
    column of the header, with valid currency cells. *)
Definition valid_record (fieldnames record : list string) : bool :=
  is_blank_record record ||
  ((length fieldnames <=? length record)%nat &&
   forallb (fun '(csv_col, field_name) =>
              negb (is_price_field field_name) ||
              valid_currency (raw_get (dict_of_record fieldnames record) csv_col))
           CSV_COLUMN_MAP).

(** A valid export: the reader reads it to the end, there is a header, and
    every record is valid. *)
Definition valid_csv (text : string) : bool :=
  match Csv.reader_of text with
  | (fieldnames :: records, None) => forallb (valid_record fieldnames) records
  | _ => false
  end.

(** A normalized row: each of the sixteen fields holds a string that fits in
    a field of the reader, or for a currency field a price or [None]; there
    is no other field. *)
Definition normalized_value (field_name : string) (v : option value) : Prop :=
  if is_price_field field_name
  then v = Some VNone \/ exists d, v = Some (VDec d) /\ price_value d = true
  else exists s, v = Some (VStr s) /\ within_limit s = true.

Definition normalized_row (r : row) : Prop :=
  (forall c f, In (c, f) CSV_COLUMN_MAP -> normalized_value f (r !! f)) /\
  (forall k, ~ In k mapped_fields -> r !! k = None).

(** The cells [generate_csv] writes for a row, in the order of the header. *)
Definition cells (r : row) : list string :=
  map (fun '(csv_col, field_name) => cell_text (r !! field_name)) CSV_COLUMN_MAP.

(** An export with LF line ends, padded currency cells and an exponent. *)
Definition spaced_export : string :=
  export_header
  ++ "1,Pokemon,Base,Pikachu,,001,Common,Near Mint, 14.00 ,,12.750,1E+1,1,0,15.00,"
  ++ String Csv.LF "".

(** An export whose record stops before the last column of its header. *)
Definition short_export : string :=
  "TCGplayer Id,Product Line" ++ String Csv.LF ("7" ++ String Csv.LF "").

(** ** Texts and records, for the properties of the CSV functions *)

(** A stretch of text outside quotes and inside one line: no quote character
    and no line break. *)
Definition unquoted_text (s : string) : bool :=
  string_forall (fun c => negb (Ascii.eqb c Csv.QUOTE) && negb (Csv.is_newline c)) s.

(** The reader between two quoted fields. *)
Definition outside_quotes (st : Csv.pstate) : Prop :=
  st = Csv.START_RECORD \/ st = Csv.START_FIELD \/ st = Csv.IN_FIELD.

(** A call that returned at least one row. *)
Definition has_rows {A : Type} (x : result (list A)) : bool :=
  match x with
  | Ok (_ :: _) => true
  | _ => false
  end.

(** A row whose product name needs quotes: it holds a comma, a quote and a
    line break. *)
Definition quoted_row : row :=
  <["product_name" := VStr ("Pikachu, " ++ String Csv.QUOTE ("Base" ++ String Csv.QUOTE
                              (String Csv.LF "Holo")))]>
    (<["tcg_low" := VDec (Fin false 1250 (-2))]> ∅).

(** ** The alerts that are due *)

(** What the loop of [check_alerts] decides for one joined alert, from the
    price tables alone. *)
Definition entry_outcome (db : Session) (entry : Z * (PriceAlert.t * WatchlistItem.t))
  : result (option TriggeredAlert.t) :=
  let '(id, (alert, item)) := entry in
  let product_id := WatchlistItem.product_id item in
  let variant := WatchlistItem.variant item in
  match current_prices db !! (product_id, variant) with
  | None => Ok None
  | Some current =>
      match price_of (CurrentPrice.market_price current),
            previous_history db product_id variant with
      | Some new_price, Some history =>
          match price_of (PriceHistory.market_price history) with
          | Some old_price =>
              let* fire := evaluate_alert old_price new_price
                             (PriceAlert.threshold_pct alert) (PriceAlert.direction alert) in
              Ok (if fire
                  then Some (TriggeredAlert.mk id product_id variant old_price new_price
                               (PriceAlert.threshold_pct alert) (PriceAlert.direction alert))
                  else None)
          | None => Ok None
          end
      | _, _ => Ok None
      end
  end.

(** The state of the loop after an outcome. *)
Definition record_outcome (clock : nat -> Z) (st : loop_state)
  (entry : Z * (PriceAlert.t * WatchlistItem.t)) (outcome : option TriggeredAlert.t)
  : loop_state :=
  match outcome with
  | Some t =>
      mkLoop (<[fst entry := PriceAlert.set_triggered_at (fst (snd entry))
                               (clock (now_calls st))]> (alerts st))
             (triggered st ++ [t]) (S (now_calls st))
  | None => st
  end.

(** An alert is due: its watchlist item is active, it has not triggered yet,
    the current market price [new_price] and the market price [old_price] of
    the day before the latest in the history are both present and not zero,
    and the alert rule holds of them. *)
Definition due (db : Session) (t : TriggeredAlert.t) : Prop :=
  exists alert item current history,
    price_alerts db !! TriggeredAlert.alert_id t = Some alert /\
    watchlist db !! PriceAlert.watchlist_id alert = Some item /\
    WatchlistItem.active item = true /\
    PriceAlert.triggered_at alert = None /\
    current_prices db !! (WatchlistItem.product_id item, WatchlistItem.variant item)
      = Some current /\
    price_of (CurrentPrice.market_price current) = Some (TriggeredAlert.new_price t) /\
    previous_history db (WatchlistItem.product_id item) (WatchlistItem.variant item)
      = Some history /\
    price_of (PriceHistory.market_price history) = Some (TriggeredAlert.old_price t) /\
    evaluate_alert (TriggeredAlert.old_price t) (TriggeredAlert.new_price t)
      (PriceAlert.threshold_pct alert) (PriceAlert.direction alert) = Ok true /\
    t = TriggeredAlert.mk (TriggeredAlert.alert_id t)
          (WatchlistItem.product_id item) (WatchlistItem.variant item)
          (TriggeredAlert.old_price t) (TriggeredAlert.new_price t)
          (PriceAlert.threshold_pct alert) (PriceAlert.direction alert).

(** The entries the loop appends for a list of joined alerts. *)
Definition fired (db : Session) (entries : list (Z * (PriceAlert.t * WatchlistItem.t)))
  : list TriggeredAlert.t :=
  omap (fun entry => match entry_outcome db entry with Ok o => o | Raise _ => None end)
       entries.

(** The prices and thresholds of a database whose Numeric columns hold
    amounts. *)
Definition stored_amounts (db : Session) : Prop :=
  (forall id alert, price_alerts db !! id = Some alert ->
                    amount (PriceAlert.threshold_pct alert) = true) /\
  (forall key current d, current_prices db !! key = Some current ->
                         CurrentPrice.market_price current = Some d -> amount d = true) /\
  (forall id history d, price_history db !! id = Some history ->
                        PriceHistory.market_price history = Some d -> amount d = true).

(** The history rows of a product and variant, in the order of the table. *)
Definition history_of (db : Session) (product_id : Z) (variant : string)
  : list PriceHistory.t :=
  List.filter (fun h => (PriceHistory.product_id h =? product_id)%Z
                        && String.eqb (PriceHistory.variant h) variant)
              (map snd (map_to_list (price_history db))).

(** Rows in the order of their dates, latest first. *)
Fixpoint latest_first (rows : list PriceHistory.t) : Prop :=
  match rows with
  | [] => True
  | h :: rest =>
      Forall (fun r => (PriceHistory.date r <= PriceHistory.date h)%Z) rest /\
      latest_first rest
  end.

(** A small database: one active watchlist item with an alert at 15 percent
    in both directions, a current market price of 8.00, and a history of
    10.00 on day 1 and 9.00 on day 2. *)
Definition sample_session : Session :=
  mkSession
    {[ 7%Z := PriceAlert.mk 3 (Fin false 1500 (-2)) "1d" "both" None false ]}
    {[ 3%Z := WatchlistItem.mk 42 "Normal" None 0 true ]}
    {[ (42%Z, "Normal") :=
         CurrentPrice.mk (Some (Fin false 800 (-2))) None None None 0 "justtcg" ]}
    {[ 1%Z := PriceHistory.mk 42 "Normal" 1 (Some (Fin false 1000 (-2))) None "justtcg" 0;
       2%Z := PriceHistory.mk 42 "Normal" 2 (Some (Fin false 900 (-2))) None "justtcg" 0 ]}
    0.

Definition sample_clock (k : nat) : Z := 1000 + Z.of_nat k.
(** A row whose product name is one character longer than the reader's field
    limit. *)
Definition long_row : row :=
  <["product_name" := VStr (zeros (N.to_nat (Csv.field_limit + 1)))]> ∅.

(** * Properties *)

(** ** Powers of ten and digit counts *)

Lemma pow10_pos k : (0 < pow10 k)%N.
Proof. unfold pow10. apply N.neq_0_lt_0. apply N.pow_nonzero. discriminate. Qed.

Lemma pow10_nonpos k : k <= 0 -> pow10 k = 1%N.
Proof. intros H. unfold pow10. replace (Z.to_N k) with 0%N by lia. reflexivity. Qed.

Lemma pow10_add a b : 0 <= a -> 0 <= b -> pow10 (a + b) = (pow10 a * pow10 b)%N.
Proof.
  intros Ha Hb. unfold pow10. rewrite Z2N.inj_add by assumption. apply N.pow_add_r.
Qed.

Lemma pow10_succ k : 0 <= k -> pow10 (k + 1) = (10 * pow10 k)%N.
Proof. intros H. rewrite pow10_add by lia. change (pow10 1) with 10%N. lia. Qed.

Lemma pow10_pred d : 1 <= d -> pow10 d = (10 * pow10 (d - 1))%N.
Proof.
  intros H. replace d with ((d - 1) + 1) at 1 by lia. apply pow10_succ. lia.
Qed.

Lemma pow10_Z k : 0 <= k -> Z.of_N (pow10 k) = 10 ^ k.
Proof.
  intros H. unfold pow10. rewrite N2Z.inj_pow. rewrite Z2N.id by assumption. reflexivity.
Qed.

Lemma pow10_le_mono a b : a <= b -> (pow10 a <= pow10 b)%N.
Proof.
  intros H. unfold pow10. apply N.pow_le_mono_r; [discriminate | lia].
Qed.

Lemma pow10_lt_mono a b : 0 <= a -> a < b -> (pow10 a < pow10 b)%N.
Proof.
  intros Ha H. unfold pow10. apply N.pow_lt_mono_r; lia.
Qed.


Lemma ndigits_fuel_spec fuel n :
  (n < 2 ^ N.of_nat fuel)%N -> n <> 0%N ->
  1 <= ndigits_fuel fuel n /\
  (pow10 (ndigits_fuel fuel n - 1) <= n < pow10 (ndigits_fuel fuel n))%N.
Proof.
  revert n. induction fuel as [|f IH]; intros n Hlt Hn.
  - simpl in Hlt. lia.
  - cbn [ndigits_fuel]. destruct (N.ltb_spec n 10) as [H10|H10].
    + split; [lia|]. change (pow10 (1 - 1)) with 1%N. change (pow10 1) with 10%N. lia.
    + assert (Hq : (n / 10 < 2 ^ N.of_nat f)%N).
      { apply N.Div0.div_lt_upper_bound.
        rewrite Nat2N.inj_succ, N.pow_succ_r' in Hlt.
        pose proof (pow10_pos 0). remember (2 ^ N.of_nat f)%N as t. clear - Hlt. lia. }
      assert (Hq0 : (n / 10 <> 0)%N).
      { pose proof (N.div_str_pos n 10). lia. }
      destruct (IH _ Hq Hq0) as [Hd [Hlo Hhi]].
      set (d := ndigits_fuel f (n / 10)) in *.
      split; [lia|].
      replace (1 + d - 1) with ((d - 1) + 1) by lia.
      replace (1 + d) with (d + 1) by lia.
      rewrite !pow10_succ by lia.
      pose proof (N.div_mod n 10 ltac:(discriminate)).
      pose proof (N.mod_lt n 10 ltac:(discriminate)). clearbody d. clear IH Hlt Hq.
      remember (pow10 (d - 1)) as a. remember (pow10 d) as b. remember (n / 10)%N as q.
      remember (n mod 10)%N as r. lia.
Qed.

Lemma ndigits_spec n :
  n <> 0%N -> 1 <= ndigits n /\ (pow10 (ndigits n - 1) <= n < pow10 (ndigits n))%N.
Proof.
  intros Hn. unfold ndigits. apply ndigits_fuel_spec; [|assumption].
  rewrite N2Nat.id. apply N.size_gt.
Qed.

Lemma ndigits_pos n : 1 <= ndigits n.
Proof.
  destruct (N.eq_dec n 0) as [->|Hn]; [vm_compute; discriminate|].
  apply ndigits_spec; assumption.
Qed.

(** The number of digits is determined by the decade. *)
Lemma ndigits_unique n d :
  1 <= d -> (pow10 (d - 1) <= n < pow10 d)%N -> ndigits n = d.
Proof.
  intros Hd [Hlo Hhi].
  assert (Hn : n <> 0%N) by (pose proof (pow10_pos (d - 1)); lia).
  destruct (ndigits_spec n Hn) as [H1 [Hlo' Hhi']].
  destruct (Z.lt_trichotomy (ndigits n) d) as [Hlt|[Heq|Hgt]]; [|assumption|].
  - pose proof (pow10_le_mono (ndigits n) (d - 1) ltac:(lia)). lia.
  - pose proof (pow10_le_mono d (ndigits n - 1) ltac:(lia)). lia.
Qed.

Lemma magnitude_bounds c e m :
  c <> 0%N -> m <= e ->
  10 ^ (adjusted c e - m) <= Z.of_N c * 10 ^ (e - m) < 10 ^ (adjusted c e - m + 1).
Proof.
  intros Hc Hm. unfold adjusted.
  destruct (ndigits_spec c Hc) as [Hd [Hlo Hhi]].
  apply N2Z.inj_le in Hlo. apply N2Z.inj_lt in Hhi.
  rewrite pow10_Z in Hlo, Hhi by lia.
  replace (e + ndigits c - 1 - m) with ((ndigits c - 1) + (e - m)) by lia.
  replace (ndigits c - 1 + (e - m) + 1) with (ndigits c + (e - m)) by lia.
  rewrite !Z.pow_add_r by lia.
  assert (Hp : 0 < 10 ^ (e - m)) by (apply Z.pow_pos_nonneg; lia).
  split.
  - apply Z.mul_le_mono_nonneg_r; lia.
  - apply Z.mul_lt_mono_pos_r; lia.
Qed.

Lemma cmp_fin_scaled s1 c1 e1 s2 c2 e2 :
  cmp_fin s1 c1 e1 s2 c2 e2 =
  Z.sgn (scaled s1 c1 e1 (Z.min e1 e2) - scaled s2 c2 e2 (Z.min e1 e2)).
Proof.
  set (m := Z.min e1 e2).
  assert (Hm1 : m <= e1) by lia. assert (Hm2 : m <= e2) by lia.
  assert (Hp1 : 0 < 10 ^ (e1 - m)) by (apply Z.pow_pos_nonneg; lia).
  assert (Hp2 : 0 < 10 ^ (e2 - m)) by (apply Z.pow_pos_nonneg; lia).
  unfold cmp_fin, scaled.
  destruct (N.eqb_spec c1 0) as [->|H1]; [destruct (N.eqb_spec c2 0) as [->|H2]|
    destruct (N.eqb_spec c2 0) as [->|H2]].
  - destruct s1, s2; reflexivity.
  - assert (0 < Z.of_N c2 * 10 ^ (e2 - m)) by (apply Z.mul_pos_pos; lia).
    destruct s1, s2; cbn [signed sgn]; rewrite ?Z.mul_opp_l; change (Z.of_N 0) with 0;
      cbn [Z.opp Z.mul Z.sub]; rewrite ?Z.sub_0_l, ?Z.opp_involutive;
      first [ rewrite Z.sgn_pos by lia; reflexivity | rewrite Z.sgn_neg by lia; reflexivity ].
  - assert (0 < Z.of_N c1 * 10 ^ (e1 - m)) by (apply Z.mul_pos_pos; lia).
    destruct s1, s2; cbn [signed sgn]; rewrite ?Z.mul_opp_l; change (Z.of_N 0) with 0;
      cbn [Z.opp Z.mul]; rewrite ?Z.sub_0_r;
      first [ rewrite Z.sgn_pos by lia; reflexivity | rewrite Z.sgn_neg by lia; reflexivity ].
  - pose proof (magnitude_bounds c1 e1 m H1 Hm1) as [L1 U1].
    pose proof (magnitude_bounds c2 e2 m H2 Hm2) as [L2 U2].
    set (M1 := Z.of_N c1 * 10 ^ (e1 - m)) in *.
    set (M2 := Z.of_N c2 * 10 ^ (e2 - m)) in *.
    assert (HM1 : 0 < M1) by (apply Z.mul_pos_pos; lia).
    assert (HM2 : 0 < M2) by (apply Z.mul_pos_pos; lia).
    assert (Hcore :
      (if adjusted c1 e1 =? adjusted c2 e2
       then if (c1 * pow10 (e1 - e2) =? c2 * pow10 (e2 - e1))%N then 0
            else if (c1 * pow10 (e1 - e2) <? c2 * pow10 (e2 - e1))%N then -1 else 1
       else if adjusted c2 e2 <? adjusted c1 e1 then 1 else -1) = Z.sgn (M1 - M2)).
    { destruct (Z.eqb_spec (adjusted c1 e1) (adjusted c2 e2)) as [Ha|Ha].
      - assert (HP1 : Z.of_N (c1 * pow10 (e1 - e2)) = M1 /\ Z.of_N (c2 * pow10 (e2 - e1)) = M2).
        { rewrite !N2Z.inj_mul. unfold M1, M2. subst m.
          destruct (Z.le_ge_cases e1 e2).
          - rewrite Z.min_l by lia. rewrite (pow10_nonpos (e1 - e2)) by lia.
            rewrite pow10_Z by lia. rewrite Z.sub_diag. split; reflexivity.
          - rewrite Z.min_r by lia. rewrite (pow10_nonpos (e2 - e1)) by lia.
            rewrite pow10_Z by lia. rewrite Z.sub_diag. split; reflexivity. }
        destruct HP1 as [HP1 HP2].
        destruct (N.eqb_spec (c1 * pow10 (e1 - e2)) (c2 * pow10 (e2 - e1))) as [Heq|Hne].
        + rewrite <- HP1, <- HP2, Heq, Z.sub_diag. reflexivity.
        + destruct (N.ltb_spec (c1 * pow10 (e1 - e2)) (c2 * pow10 (e2 - e1))).
          * rewrite Z.sgn_neg by lia. reflexivity.
          * rewrite Z.sgn_pos by lia. reflexivity.
      - destruct (Z.ltb_spec (adjusted c2 e2) (adjusted c1 e1)) as [Hlt|Hge].
        + assert (10 ^ (adjusted c2 e2 - m + 1) <= 10 ^ (adjusted c1 e1 - m))
            by (apply Z.pow_le_mono_r; lia).
          rewrite Z.sgn_pos by lia. reflexivity.
        + assert (10 ^ (adjusted c1 e1 - m + 1) <= 10 ^ (adjusted c2 e2 - m))
            by (apply Z.pow_le_mono_r; lia).
          rewrite Z.sgn_neg by lia. reflexivity. }
    destruct s1, s2; cbn [andb negb signed sgn]; rewrite ?Z.mul_opp_l; fold M1 M2.
    + (* both negative *)
      replace (- M1 - - M2) with (- (M1 - M2)) by lia. rewrite Z.sgn_opp, <- Hcore.
      destruct (adjusted c1 e1 =? adjusted c2 e2);
        [destruct (_ =? _)%N; [reflexivity|destruct (_ <? _)%N; reflexivity]
        |destruct (_ <? _); reflexivity].
    + rewrite Z.sgn_neg by lia. reflexivity.
    + rewrite Z.sgn_pos by lia. reflexivity.
    + rewrite <- Hcore.
      destruct (adjusted c1 e1 =? adjusted c2 e2);
        [destruct (_ =? _)%N; [reflexivity|destruct (_ <? _)%N; reflexivity]
        |destruct (_ <? _); reflexivity].
Qed.

Lemma Qten_pos e : (0 < Qten e)%Q.
Proof. unfold Qten. apply Qpower_0_lt. reflexivity. Qed.

Lemma Qten_add a b : (Qten (a + b) == Qten a * Qten b)%Q.
Proof. unfold Qten. apply Qpower_plus. discriminate. Qed.

Lemma Qten_nonneg k : 0 <= k -> (Qten k == inject_Z (10 ^ k))%Q.
Proof. intros H. unfold Qten. symmetry. apply Zpower_Qpower. assumption. Qed.

Lemma Qfin_scaled s c e m :
  m <= e -> (Qfin s c e == inject_Z (scaled s c e m) * Qten m)%Q.
Proof.
  intros H. unfold Qfin, scaled. rewrite inject_Z_mult.
  replace e with ((e - m) + m) at 1 by lia.
  rewrite Qten_add, (Qten_nonneg (e - m)) by lia. ring.
Qed.

Lemma cmp_fin_Q s1 c1 e1 s2 c2 e2 :
  (cmp_fin s1 c1 e1 s2 c2 e2 < 0 <-> (Qfin s1 c1 e1 < Qfin s2 c2 e2)%Q) /\
  (cmp_fin s1 c1 e1 s2 c2 e2 = 0 <-> (Qfin s1 c1 e1 == Qfin s2 c2 e2)%Q) /\
  (0 < cmp_fin s1 c1 e1 s2 c2 e2 <-> (Qfin s2 c2 e2 < Qfin s1 c1 e1)%Q).
Proof.
  rewrite cmp_fin_scaled.
  set (m := Z.min e1 e2).
  rewrite (Qfin_scaled s1 c1 e1 m), (Qfin_scaled s2 c2 e2 m) by lia.
  set (z1 := scaled s1 c1 e1 m). set (z2 := scaled s2 c2 e2 m).
  pose proof (Qten_pos m) as Hp.
  assert (Hlt : forall a b, (inject_Z a * Qten m < inject_Z b * Qten m)%Q <-> a < b).
  { intros a b. split; intros H.
    - apply (proj1 (Qmult_lt_r _ _ _ Hp)) in H. rewrite <- Zlt_Qlt in H. assumption.
    - apply (proj2 (Qmult_lt_r _ _ _ Hp)). rewrite <- Zlt_Qlt. assumption. }
  assert (Heq : forall a b, (inject_Z a * Qten m == inject_Z b * Qten m)%Q <-> a = b).
  { intros a b. split; intros H.
    - assert (Hne : ~ (Qten m == 0)%Q) by (intros E; rewrite E in Hp; discriminate).
      apply (proj1 (Qmult_inj_r _ _ _ Hne)) in H.
      apply (proj1 (inject_Z_injective _ _)) in H. assumption.
    - subst. reflexivity. }
  rewrite !Hlt, Heq.
  destruct (Z.lt_trichotomy z1 z2) as [H|[H|H]].
  - rewrite Z.sgn_neg by lia. lia.
  - rewrite H, Z.sub_diag. cbn. lia.
  - rewrite Z.sgn_pos by lia. lia.
Qed.

(** ** Rounding *)

Lemma fix_fin_zero s e : Etiny <= e <= Emax -> fix_fin s 0 e = Ok (Fin s 0 e).
Proof.
  intros H. unfold fix_fin. cbn [N.eqb]. f_equal. f_equal. lia.
Qed.

Lemma fix_fin_id s c e :
  c <> 0%N -> ndigits c <= prec -> Etiny <= e -> adjusted c e <= Emax ->
  fix_fin s c e = Ok (Fin s c e).
Proof.
  intros Hc Hd He Ha. unfold fix_fin, adjusted in *.
  destruct (N.eqb_spec c 0); [contradiction|].
  unfold Etop, Etiny, Emax, Emin, prec in *.
  destruct (Z.ltb_spec (999999 - 28 + 1) (ndigits c + e - 28)); [lia|].
  destruct (Z.ltb_spec (ndigits c + e - 28) (-999999 - 28 + 1)).
  - destruct (Z.ltb_spec e (-999999 - 28 + 1)); [lia|reflexivity].
  - destruct (Z.ltb_spec e (ndigits c + e - 28)); [lia|reflexivity].
Qed.

(** Rounding half up when the last digits are cut. *)
Lemma half_up_div_gen c h :
  (0 < h)%N ->
  ((c + 5 * h) / (10 * h) =
   c / (10 * h) + (if 5 * h <=? c mod (10 * h) then 1 else 0))%N.
Proof.
  intros Hh.
  assert (Hp : (10 * h <> 0)%N) by lia.
  pose proof (N.div_mod c (10 * h) Hp) as Hdm.
  pose proof (N.mod_lt c (10 * h) Hp) as Hr.
  set (q := (c / (10 * h))%N) in *. set (r := (c mod (10 * h))%N) in *.
  destruct (N.leb_spec (5 * h) r) as [Hge|Hlt]; symmetry.
  - apply N.div_unique with (r := (r - 5 * h)%N); [lia|]. clearbody q r. lia.
  - apply N.div_unique with (r := (r + 5 * h)%N); [lia|]. clearbody q r. lia.
Qed.

Lemma half_up_div c d :
  1 <= d ->
  ((c + 5 * pow10 (d - 1)) / pow10 d =
   c / pow10 d + (if 5 * pow10 (d - 1) <=? c mod pow10 d then 1 else 0))%N.
Proof.
  intros Hd.
  assert (E : pow10 d = (10 * pow10 (d - 1))%N).
  { replace d with ((d - 1) + 1) at 1 by lia. apply pow10_succ. lia. }
  rewrite E. apply half_up_div_gen. apply pow10_pos.
Qed.

Lemma rescale_pad mode s c e q :
  c <> 0%N -> q <= e -> rescale mode s c e q = Fin s (c * pow10 (e - q)) q.
Proof.
  intros Hc H. unfold rescale. destruct (N.eqb_spec c 0); [contradiction|].
  destruct (Z.leb_spec q e); [reflexivity|lia].
Qed.

Lemma rescale_half_up s c e q :
  c <> 0%N -> e < q ->
  rescale ROUND_HALF_UP s c e q = Fin s ((c + 5 * pow10 (q - e - 1)) / pow10 (q - e)) q.
Proof.
  intros Hc H. unfold rescale. destruct (N.eqb_spec c 0); [contradiction|].
  destruct (Z.leb_spec q e); [lia|].
  destruct (ndigits_spec c Hc) as [Hd [Hlo Hhi]].
  destruct (Z.ltb_spec (ndigits c + e - q) 0) as [Hneg|Hnn].
  - (* the value is below a tenth of a unit of the target exponent *)
    replace (q - (q - 1)) with 1 by lia.
    unfold round_changed. change (pow10 1) with 10%N. change (pow10 (1 - 1)) with 1%N.
    cbn. f_equal. symmetry. apply N.div_small.
    assert (pow10 (ndigits c) <= pow10 (q - e - 1))%N by (apply pow10_le_mono; lia).
    rewrite (pow10_pred (q - e)) by lia. replace (q - e - 1) with (q - e - 1) in * by lia.
    remember (pow10 (q - e - 1)) as h. remember (pow10 (ndigits c)) as t.
    clear - H1 Hhi. lia.
  - rewrite half_up_div by lia. unfold round_changed.
    destruct (N.leb_spec (5 * pow10 (q - e - 1)) (c mod pow10 (q - e))).
    + cbn. reflexivity.
    + destruct (c mod pow10 (q - e) =? 0)%N; cbn; f_equal; lia.
Qed.

Lemma rescale_half_up_coeff s c e q :
  rescale ROUND_HALF_UP s c e q = Fin s (half_up_coeff c e q) q.
Proof.
  unfold half_up_coeff.
  destruct (N.eq_dec c 0) as [->|Hc].
  - unfold rescale. cbn [N.eqb]. f_equal.
    destruct (Z.leb_spec q e); [reflexivity|].
    cbn [N.add]. symmetry. apply N.div_small.
    rewrite (pow10_pred (q - e)) by lia. pose proof (pow10_pos (q - e - 1)).
    remember (pow10 (q - e - 1)) as h. lia.
  - destruct (Z.leb_spec q e).
    + apply rescale_pad; assumption.
    + apply rescale_half_up; assumption.
Qed.

Lemma quantize_two_places s c e r :
  quantize (Fin s c e) TWO_PLACES ROUND_HALF_UP = Ok r ->
  r = Fin s (half_up_coeff c e (-2)) (-2).
Proof.
  unfold quantize, TWO_PLACES. cbn [check_nans].
  change (negb ((Etiny <=? -2) && (-2 <=? Emax))) with false. cbv iota.
  destruct (N.eqb_spec c 0) as [->|Hc].
  - rewrite fix_fin_zero by (vm_compute; split; discriminate).
    intros [= <-]. f_equal. unfold half_up_coeff.
    destruct (Z.leb_spec (-2) e); [reflexivity|].
    cbn [N.add]. symmetry. apply N.div_small.
    rewrite (pow10_pred (-2 - e)) by lia. pose proof (pow10_pos (-2 - e - 1)).
    remember (pow10 (-2 - e - 1)) as h. lia.
  - destruct (Emax <? adjusted c e); [discriminate|].
    destruct (prec <? adjusted c e - -2 + 1); [discriminate|].
    rewrite rescale_half_up_coeff.
    destruct (Z.ltb_spec Emax (adjusted (half_up_coeff c e (-2)) (-2))); [discriminate|].
    destruct (Z.ltb_spec prec (ndigits (half_up_coeff c e (-2)))); [discriminate|].
    destruct (N.eq_dec (half_up_coeff c e (-2)) 0) as [E|E].
    + rewrite E. rewrite fix_fin_zero by (vm_compute; split; discriminate).
      intros [= <-]. reflexivity.
    + rewrite fix_fin_id; [|assumption|assumption|vm_compute; discriminate|assumption].
      intros [= <-]. reflexivity.
Qed.

Lemma Qfloor_unique (x : Q) (n : Z) :
  (inject_Z n <= x)%Q -> (x < inject_Z (n + 1))%Q -> Qfloor x = n.
Proof.
  intros Hlo Hhi.
  pose proof (Qfloor_le x) as H1. pose proof (Qlt_floor x) as H2.
  assert (A : (inject_Z n < inject_Z (Qfloor x + 1))%Q) by (eapply Qle_lt_trans; eassumption).
  assert (B : (inject_Z (Qfloor x) < inject_Z (n + 1))%Q) by (eapply Qle_lt_trans; eassumption).
  rewrite <- Zlt_Qlt in A, B. lia.
Qed.

Lemma Qabs_Qfin s c e : (Qabs (Qfin s c e) == inject_Z (Z.of_N c) * Qten e)%Q.
Proof.
  unfold Qfin. rewrite Qabs_Qmult.
  rewrite (Qabs_pos (Qten e)) by (apply Qlt_le_weak, Qten_pos).
  apply Qmult_comp; [|reflexivity].
  destruct s; cbn [signed].
  - rewrite inject_Z_opp, Qabs_opp. apply Qabs_pos.
    change (inject_Z 0 <= inject_Z (Z.of_N c))%Q. rewrite <- Zle_Qle. lia.
  - apply Qabs_pos.
    change (inject_Z 0 <= inject_Z (Z.of_N c))%Q. rewrite <- Zle_Qle. lia.
Qed.

(** The coefficient [quantize] produces is the value scaled to the target
    exponent and rounded half up. *)
Lemma half_up_coeff_Q s c e q :
  Z.of_N (half_up_coeff c e q) = Qfloor (Qabs (Qfin s c e) * Qten (- q) + (1 # 2)).
Proof.
  rewrite Qabs_Qfin. unfold half_up_coeff.
  assert (Hs : (inject_Z (Z.of_N c) * Qten e * Qten (- q) == inject_Z (Z.of_N c) * Qten (e - q))%Q).
  { replace (e - q) with (e + - q) by lia. rewrite Qten_add. ring. }
  destruct (Z.leb_spec q e) as [Hle|Hlt].
  - symmetry. rewrite N2Z.inj_mul, pow10_Z by lia.
    apply Qfloor_unique.
    + rewrite Hs, (Qten_nonneg (e - q)) by lia. rewrite <- inject_Z_mult.
      set (z := Z.of_N c * 10 ^ (e - q)). rewrite <- (Qplus_0_r (inject_Z z)) at 1.
      apply Qplus_le_r. discriminate.
    + rewrite Hs, (Qten_nonneg (e - q)) by lia. rewrite <- inject_Z_mult.
      set (z := Z.of_N c * 10 ^ (e - q)). rewrite inject_Z_plus.
      apply Qplus_lt_r. reflexivity.
  - set (d := q - e). assert (Hd : 1 <= d) by (unfold d; lia).
    assert (Hp : 0 < 10 ^ (d - 1)) by (apply Z.pow_pos_nonneg; lia).
    assert (E10 : 10 ^ d = 10 * 10 ^ (d - 1)).
    { replace d with ((d - 1) + 1) at 1 by lia. rewrite Z.pow_add_r by lia. lia. }
    assert (Hx : (inject_Z (Z.of_N c) * Qten e * Qten (- q) + (1 # 2) ==
                  inject_Z (2 * Z.of_N c + 10 ^ d) / inject_Z (2 * 10 ^ d))%Q).
    { rewrite Hs. replace (e - q) with (- d) by (unfold d; lia).
      unfold Qten at 1. rewrite Qpower_opp. fold (Qten d). rewrite (Qten_nonneg d) by lia.
      rewrite inject_Z_plus, !inject_Z_mult.
      assert (~ (inject_Z (10 ^ d) == 0)%Q).
      { intros E. apply (proj1 (inject_Z_injective _ 0)) in E. lia. }
      field. assumption. }
    rewrite (Qfloor_comp _ _ Hx), <- Zdiv_Qdiv.
    rewrite N2Z.inj_div, N2Z.inj_add, N2Z.inj_mul, !pow10_Z by (unfold d in *; lia).
    change (Z.of_N 5) with 5. replace (q - e - 1) with (d - 1) by (unfold d; lia).
    fold d. rewrite E10.
    replace (2 * Z.of_N c + 10 * 10 ^ (d - 1)) with (2 * (Z.of_N c + 5 * 10 ^ (d - 1))) by lia.
    rewrite Z.div_mul_cancel_l by lia. reflexivity.
Qed.

Lemma Qten_2 : (Qten 2 == 100)%Q.
Proof. reflexivity. Qed.

Lemma Qvalue_minimum : (Qvalue ABSOLUTE_MINIMUM == 1 # 100)%Q.
Proof. reflexivity. Qed.

Lemma Qfin_neg_nonpos c e : (Qfin true c e <= 0)%Q.
Proof.
  unfold Qfin. cbn [signed]. rewrite inject_Z_opp.
  assert (0 <= inject_Z (Z.of_N c) * Qten e)%Q.
  { apply Qmult_le_0_compat.
    - change (inject_Z 0 <= inject_Z (Z.of_N c))%Q. rewrite <- Zle_Qle. lia.
    - apply Qlt_le_weak, Qten_pos. }
  assert (E : (- inject_Z (Z.of_N c) * Qten e == - (inject_Z (Z.of_N c) * Qten e))%Q) by ring.
  rewrite E. lra.
Qed.

(** Ordering comparisons of finite values are comparisons of their values. *)
Lemma lt_Q a b r :
  lt a b = Ok r -> is_finite a = true -> is_finite b = true ->
  (r = true <-> (Qvalue a < Qvalue b)%Q).
Proof.
  destruct a as [s1 c1 e1| |], b as [s2 c2 e2| |]; try discriminate.
  unfold lt, compare_with. cbn [is_nan orb cmp Qvalue]. intros [= <-] _ _.
  pose proof (cmp_fin_Q s1 c1 e1 s2 c2 e2) as [H _].
  rewrite <- H. apply Z.ltb_lt.
Qed.

Lemma lt_not_nan a b r : lt a b = Ok r -> is_nan a = false /\ is_nan b = false.
Proof.
  unfold lt, compare_with. destruct (is_nan a), (is_nan b); try discriminate. auto.
Qed.

Lemma enforce_minimum_spec x z :
  enforce_minimum x = Ok z ->
  is_nan z = false /\ (is_finite z = true -> (1 # 100 <= Qvalue z)%Q).
Proof.
  unfold enforce_minimum. destruct (lt x ABSOLUTE_MINIMUM) as [b|] eqn:E; [|discriminate].
  cbn [rbind]. intros [= <-]. destruct b.
  - split; [reflexivity|]. intros _. rewrite Qvalue_minimum. apply Qle_refl.
  - split; [apply (lt_not_nan _ _ _ E)|]. intros Hf.
    pose proof (lt_Q _ _ _ E Hf eq_refl) as H. rewrite Qvalue_minimum in H.
    apply Qnot_lt_le. intros Hlt. apply H in Hlt. discriminate.
Qed.

Lemma quantize_above_minimum z v :
  is_nan z = false -> (is_finite z = true -> (1 # 100 <= Qvalue z)%Q) ->
  quantize z TWO_PLACES ROUND_HALF_UP = Ok v ->
  exists c, v = Fin false c (-2) /\ (1 <= c)%N.
Proof.
  intros Hn Hge Hq. destruct z as [s c e|s|]; [| discriminate Hq | discriminate Hn].
  specialize (Hge eq_refl). cbn [Qvalue] in Hge.
  apply quantize_two_places in Hq. subst v.
  assert (Hs : s = false).
  { destruct s; [|reflexivity]. pose proof (Qfin_neg_nonpos c e). lra. }
  subst s. exists (half_up_coeff c e (-2)). split; [reflexivity|].
  apply N2Z.inj_le. rewrite (half_up_coeff_Q false).
  change (Z.of_N 1) with (Qfloor (1 # 1)). apply Qfloor_resp_le.
  rewrite Qabs_pos by lra. change (- -2) with 2. rewrite Qten_2. lra.
Qed.

(** ** The pricing calculator *)

Lemma Qfin_zero s e : (Qfin s 0 e == 0)%Q.
Proof.
  unfold Qfin. replace (signed s 0) with 0 by (destruct s; reflexivity).
  apply Qmult_0_l.
Qed.

Lemma Qfin_pos_nonneg c e : (0 <= Qfin false c e)%Q.
Proof.
  unfold Qfin. cbn [signed]. apply Qmult_le_0_compat.
  - change (inject_Z 0 <= inject_Z (Z.of_N c))%Q. rewrite <- Zle_Qle. lia.
  - apply Qlt_le_weak, Qten_pos.
Qed.

Lemma Qfin_neg_lt c e : c <> 0%N -> (Qfin true c e < 0)%Q.
Proof.
  intros Hc. unfold Qfin. cbn [signed]. rewrite inject_Z_opp.
  assert (0 < inject_Z (Z.of_N c) * Qten e)%Q.
  { apply Qmult_lt_0_compat.
    - change (inject_Z 0 < inject_Z (Z.of_N c))%Q. rewrite <- Zlt_Qlt. lia.
    - apply Qten_pos. }
  assert (E : (- inject_Z (Z.of_N c) * Qten e == - (inject_Z (Z.of_N c) * Qten e))%Q) by ring.
  rewrite E. lra.
Qed.

Lemma half_up_coeff_zero e q : half_up_coeff 0 e q = 0%N.
Proof.
  unfold half_up_coeff. destruct (Z.leb_spec q e); [reflexivity|].
  cbn [N.add]. apply N.div_small.
  rewrite (pow10_pred (q - e)) by lia. pose proof (pow10_pos (q - e - 1)).
  remember (pow10 (q - e - 1)) as h. lia.
Qed.

(** [quantize] to two places rounds the value half up. *)
Lemma quantize_Q s c e v :
  quantize (Fin s c e) TWO_PLACES ROUND_HALF_UP = Ok v ->
  is_finite v = true /\ (Qvalue v == Qround_half_up 2 (Qfin s c e))%Q.
Proof.
  intros H. apply quantize_two_places in H. subst v. split; [reflexivity|].
  cbn [Qvalue]. unfold Qround_half_up.
  change (Z.opp 2) with (-2). change (Qten 2) with (Qten (Z.opp (-2))).
  rewrite <- (half_up_coeff_Q s c e (-2)).
  destruct (N.eq_dec c 0) as [->|Hc].
  - rewrite half_up_coeff_zero. rewrite Qfin_zero. change (Z.of_N 0) with 0.
    destruct (Qlt_le_dec (Qfin s 0 e) 0); ring.
  - unfold Qfin at 1. destruct s; cbn [signed].
    + pose proof (Qfin_neg_lt c e Hc).
      destruct (Qlt_le_dec (Qfin true c e) 0); [|lra].
      rewrite inject_Z_opp. ring.
    + pose proof (Qfin_pos_nonneg c e).
      destruct (Qlt_le_dec (Qfin false c e) 0); [lra|]. ring.
Qed.

Lemma ndigits_le_of_lt n k : 1 <= k -> (n < pow10 k)%N -> ndigits n <= k.
Proof.
  intros Hk H. destruct (N.eq_dec n 0) as [->|Hn]; [exact Hk|].
  destruct (ndigits_spec n Hn) as [Hd [Hlo _]].
  destruct (Z.le_gt_cases (ndigits n) k) as [|Hgt]; [assumption|].
  pose proof (pow10_le_mono k (ndigits n - 1) ltac:(lia)). lia.
Qed.

(** [quantize] to two places succeeds below [10 ** 25]. *)
Lemma quantize_total d :
  quantizable d = true -> exists v, quantize d TWO_PLACES ROUND_HALF_UP = Ok v.
Proof.
  destruct d as [s c e| |]; try discriminate. cbn [quantizable].
  intros H. unfold quantize, TWO_PLACES. cbn [check_nans].
  change (negb ((Etiny <=? -2) && (-2 <=? Emax))) with false. cbv iota.
  destruct (N.eqb_spec c 0) as [->|Hc].
  - rewrite fix_fin_zero by (vm_compute; split; discriminate). eauto.
  - cbn [orb] in H. apply Z.leb_le in H.
    destruct (Z.ltb_spec Emax (adjusted c e)); [unfold Emax in *; lia|].
    destruct (Z.ltb_spec prec (adjusted c e - -2 + 1)); [unfold prec in *; lia|].
    rewrite rescale_half_up_coeff.
    set (h := half_up_coeff c e (-2)).
    assert (Hh : (h <= pow10 27)%N).
    { destruct (ndigits_spec c Hc) as [Hd [_ Hhi]]. unfold adjusted in H.
      subst h. unfold half_up_coeff. destruct (Z.leb_spec (-2) e).
      - assert (c * pow10 (e - -2) < pow10 (ndigits c) * pow10 (e - -2))%N.
        { apply N.mul_lt_mono_pos_r; [apply pow10_pos|assumption]. }
        rewrite <- pow10_add in H3 by lia.
        pose proof (pow10_le_mono (ndigits c + (e - -2)) 27 ltac:(lia)). lia.
      - apply N.lt_succ_r. apply N.Div0.div_lt_upper_bound.
        assert (pow10 (ndigits c) <= pow10 (27 + (-2 - e)))%N by (apply pow10_le_mono; lia).
        rewrite pow10_add in H3 by lia.
        rewrite (pow10_pred (-2 - e)) in * by lia.
        pose proof (pow10_pos (-2 - e - 1)).
        remember (pow10 (-2 - e - 1)) as t. remember (pow10 (ndigits c)) as u.
        change (pow10 27) with 1000000000000000000000000000%N in *. nia. }
    assert (Hd : ndigits h <= 28).
    { apply ndigits_le_of_lt; [lia|].
      change (pow10 27) with 1000000000000000000000000000%N in Hh.
      change (pow10 28) with 10000000000000000000000000000%N. lia. }
    destruct (Z.ltb_spec Emax (adjusted h (-2))); [unfold adjusted, Emax in *; lia|].
    destruct (Z.ltb_spec prec (ndigits h)); [unfold prec in *; lia|].
    destruct (N.eq_dec h 0) as [E|E].
    + rewrite E, fix_fin_zero by (vm_compute; split; discriminate). eauto.
    + rewrite fix_fin_id; [eauto|assumption|assumption|vm_compute; discriminate|assumption].
Qed.

Lemma Qround_half_up_comp p x y :
  (x == y)%Q -> (Qround_half_up p x == Qround_half_up p y)%Q.
Proof.
  intros E. unfold Qround_half_up.
  assert (F : Qfloor (Qabs x * Qten p + (1 # 2)) = Qfloor (Qabs y * Qten p + (1 # 2))).
  { apply Qfloor_comp. rewrite E. reflexivity. }
  rewrite F.
  destruct (Qlt_le_dec x 0), (Qlt_le_dec y 0); try reflexivity; lra.
Qed.

Lemma lt_finite a b :
  is_finite a = true -> is_finite b = true -> exists r, lt a b = Ok r.
Proof.
  destruct a, b; try discriminate. intros _ _. unfold lt, compare_with. cbn. eauto.
Qed.

Lemma enforce_floor_Q cand floor :
  is_finite cand = true -> opt_all is_finite floor = true ->
  exists z, enforce_floor cand floor = Ok z /\ is_finite z = true /\
            (Qvalue z == floor_step (Qvalue cand) (option_map Qvalue floor))%Q /\
            (quantizable cand = true -> opt_all quantizable floor = true ->
             quantizable z = true).
Proof.
  intros Hc Hf. destruct floor as [f|]; cbn [opt_all] in Hf.
  - destruct (lt_finite cand f Hc Hf) as [r Hr].
    unfold enforce_floor. rewrite Hr. cbn [rbind option_map floor_step].
    pose proof (lt_Q _ _ _ Hr Hc Hf) as Hiff.
    destruct (Qlt_le_dec (Qvalue cand) (Qvalue f)) as [Hlt|Hge].
    + apply Hiff in Hlt. subst r. exists f. repeat split; auto; reflexivity.
    + destruct r.
      * exfalso. assert (Qvalue cand < Qvalue f)%Q by (apply Hiff; reflexivity). lra.
      * exists cand. repeat split; auto; reflexivity.
  - exists cand. cbn. repeat split; auto; reflexivity.
Qed.

Lemma enforce_minimum_Q x :
  is_finite x = true ->
  exists z, enforce_minimum x = Ok z /\ is_finite z = true /\
            (Qvalue z == minimum_step (Qvalue x))%Q /\
            (quantizable x = true -> quantizable z = true).
Proof.
  intros Hx. destruct (lt_finite x ABSOLUTE_MINIMUM Hx eq_refl) as [r Hr].
  unfold enforce_minimum. rewrite Hr. cbn [rbind]. unfold minimum_step.
  pose proof (lt_Q _ _ _ Hr Hx eq_refl) as Hiff. rewrite Qvalue_minimum in Hiff.
  destruct (Qlt_le_dec (Qvalue x) (1 # 100)) as [Hlt|Hge].
  - apply Hiff in Hlt. subst r. exists ABSOLUTE_MINIMUM. repeat split; auto; reflexivity.
  - destruct r.
    + exfalso. assert (Qvalue x < 1 # 100)%Q by (apply Hiff; reflexivity). lra.
    + exists x. repeat split; auto; reflexivity.
Qed.

Lemma minimum_step_comp x y : (x == y)%Q -> (minimum_step x == minimum_step y)%Q.
Proof.
  intros E. unfold minimum_step.
  destruct (Qlt_le_dec x (1 # 100)), (Qlt_le_dec y (1 # 100)); try reflexivity; lra.
Qed.

(** A floor below the absolute minimum changes nothing. *)
Lemma floor_below_minimum (candidate f : Q) :
  (f < 1 # 100)%Q ->
  (minimum_step (floor_step candidate (Some f)) == minimum_step candidate)%Q.
Proof.
  intros Hf. unfold minimum_step, floor_step.
  destruct (Qlt_le_dec candidate f);
    destruct (Qlt_le_dec f (1 # 100)); destruct (Qlt_le_dec candidate (1 # 100));
    try reflexivity; lra.
Qed.

(** The three steps after the strategy branch. *)
Lemma post_processing_Q cand floor :
  is_finite cand = true -> opt_all is_finite floor = true ->
  (forall v,
      (let* y := enforce_floor cand floor in
       let* z := enforce_minimum y in
       quantize z TWO_PLACES ROUND_HALF_UP) = Ok v ->
      is_finite v = true /\
      (Qvalue v == post_process (Qvalue cand) (option_map Qvalue floor))%Q) /\
  (quantizable cand = true -> opt_all quantizable floor = true ->
   exists v,
     (let* y := enforce_floor cand floor in
      let* z := enforce_minimum y in
      quantize z TWO_PLACES ROUND_HALF_UP) = Ok v).
Proof.
  intros Hc Hf.
  destruct (enforce_floor_Q cand floor Hc Hf) as [y [Hy [Hyf [Hyv Hyq]]]].
  destruct (enforce_minimum_Q y Hyf) as [z [Hz [Hzf [Hzv Hzq]]]].
  rewrite Hy. cbn [rbind]. rewrite Hz. cbn [rbind]. split.
  - intros v Hv. destruct z as [s c e| |]; try discriminate.
    destruct (quantize_Q _ _ _ _ Hv) as [Hvf Hvv]. split; [assumption|].
    rewrite Hvv. unfold post_process. apply Qround_half_up_comp.
    cbn [Qvalue] in Hzv. rewrite Hzv. apply minimum_step_comp. assumption.
  - intros Q1 Q2. apply quantize_total. auto.
Qed.

(** ** The alert rule *)

Lemma eq_Q a b :
  is_finite a = true -> is_finite b = true ->
  Dec.eq a b = Ok (Qeq_bool (Qvalue a) (Qvalue b)).
Proof.
  destruct a as [s1 c1 e1| |], b as [s2 c2 e2| |]; try discriminate. intros _ _.
  unfold Dec.eq. cbn [is_snan is_nan orb cmp Qvalue]. f_equal.
  pose proof (cmp_fin_Q s1 c1 e1 s2 c2 e2) as [_ [H _]].
  destruct (Z.eqb_spec (cmp_fin s1 c1 e1 s2 c2 e2) 0) as [E|E].
  - symmetry. apply Qeq_bool_iff. apply H. assumption.
  - symmetry. destruct (Qeq_bool _ _) eqn:Q; [|reflexivity].
    apply Qeq_bool_iff in Q. apply H in Q. contradiction.
Qed.

Lemma ge_Q a b :
  is_finite a = true -> is_finite b = true ->
  ge a b = Ok (Qle_bool (Qvalue b) (Qvalue a)).
Proof.
  destruct a as [s1 c1 e1| |], b as [s2 c2 e2| |]; try discriminate. intros _ _.
  unfold ge, compare_with. cbn [is_nan orb cmp Qvalue]. f_equal.
  pose proof (cmp_fin_Q s1 c1 e1 s2 c2 e2) as [H _].
  destruct (Z.leb_spec 0 (cmp_fin s1 c1 e1 s2 c2 e2)) as [E|E].
  - symmetry. apply Qle_bool_iff. apply Qnot_lt_le. intros L. apply H in L. lia.
  - symmetry. destruct (Qle_bool _ _) eqn:Q; [|reflexivity].
    apply Qle_bool_iff in Q. apply H in E. lra.
Qed.

Lemma le_Q a b :
  is_finite a = true -> is_finite b = true ->
  le a b = Ok (Qle_bool (Qvalue a) (Qvalue b)).
Proof.
  destruct a as [s1 c1 e1| |], b as [s2 c2 e2| |]; try discriminate. intros _ _.
  unfold le, compare_with. cbn [is_nan orb cmp Qvalue]. f_equal.
  pose proof (cmp_fin_Q s1 c1 e1 s2 c2 e2) as [_ [_ H]].
  destruct (Z.leb_spec (cmp_fin s1 c1 e1 s2 c2 e2) 0) as [E|E].
  - symmetry. apply Qle_bool_iff. apply Qnot_lt_le. intros L. apply H in L. lia.
  - symmetry. destruct (Qle_bool _ _) eqn:Q; [|reflexivity].
    apply Qle_bool_iff in Q. apply H in E. lra.
Qed.

Lemma fix_in_context d : in_context d = true -> fix_ d = Ok d.
Proof.
  destruct d as [s c e| |]; try discriminate. cbn [in_context fix_].
  destruct (N.eqb_spec c 0) as [->|Hc]; intros H.
  - apply andb_prop in H as [H1 H2]. apply fix_fin_zero. split; lia.
  - apply andb_prop in H as [H H3]. apply andb_prop in H as [H1 H2].
    apply fix_fin_id; try assumption; lia.
Qed.

Lemma in_context_flip s s' c e :
  in_context (Fin s c e) = true -> in_context (Fin s' c e) = true.
Proof. intros H. exact H. Qed.

Lemma Qfin_negb s c e : (Qfin (negb s) c e == - Qfin s c e)%Q.
Proof.
  unfold Qfin. destruct s; cbn [negb signed]; rewrite ?inject_Z_opp; ring.
Qed.

(** [-d] is the opposite value. *)
Lemma neg_Q d :
  in_context d = true ->
  exists r, neg d = Ok r /\ is_finite r = true /\ (Qvalue r == - Qvalue d)%Q.
Proof.
  destruct d as [s c e| |]; try discriminate. intros H.
  unfold neg. cbn [check_nan truthy].
  destruct (N.eqb_spec c 0) as [->|Hc]; cbn [negb].
  - cbn [copy_abs]. rewrite (fix_in_context (Fin false 0 e))
      by (apply (in_context_flip s); assumption).
    eexists. split; [reflexivity|]. split; [reflexivity|].
    cbn [Qvalue]. rewrite !Qfin_zero. reflexivity.
  - cbn [copy_negate]. rewrite (fix_in_context (Fin (negb s) c e))
      by (apply (in_context_flip s); assumption).
    eexists. split; [reflexivity|]. split; [reflexivity|].
    cbn [Qvalue]. apply Qfin_negb.
Qed.

(** [abs(d)] is the absolute value. *)
Lemma abs_Q d :
  in_context d = true ->
  exists r, Dec.abs d = Ok r /\ is_finite r = true /\ (Qvalue r == Qabs (Qvalue d))%Q.
Proof.
  destruct d as [s c e| |]; try discriminate. intros H.
  unfold Dec.abs. cbn [check_nan sign_of]. destruct s.
  - destruct (neg_Q _ H) as [r [Hr [Hf Hv]]]. exists r.
    split; [assumption|split; [assumption|]].
    rewrite Hv. cbn [Qvalue]. pose proof (Qfin_neg_nonpos c e).
    rewrite Qabs_neg by assumption. reflexivity.
  - unfold pos. cbn [check_nan truthy].
    destruct (N.eqb_spec c 0) as [->|Hc]; cbn [negb copy_abs].
    + rewrite (fix_in_context _ H). eexists. split; [reflexivity|split; [reflexivity|]].
      cbn [Qvalue]. rewrite Qfin_zero. reflexivity.
    + rewrite (fix_in_context _ H). eexists. split; [reflexivity|split; [reflexivity|]].
      cbn [Qvalue]. symmetry. apply Qabs_pos. apply Qfin_pos_nonneg.
Qed.

Lemma in_context_finite d : in_context d = true -> is_finite d = true.
Proof. destruct d; [reflexivity|discriminate|discriminate]. Qed.

(** What [_fix] returns is representable in the context. *)
Lemma fix_fin_in_context s c e d :
  fix_fin s c e = Ok d -> in_context d = true.
Proof.
  unfold fix_fin. destruct (N.eqb_spec c 0) as [->|Hc].
  - intros [= <-]. cbn. unfold Etiny, Emax, Emin, prec. apply andb_true_intro.
    split; [apply Z.leb_le|apply Z.leb_le]; lia.
  - destruct (Z.ltb_spec Etop (ndigits c + e - prec)) as [|Htop]; [discriminate|].
    set (exp_min := if ndigits c + e - prec <? Etiny then Etiny else ndigits c + e - prec).
    assert (Hmin : Etiny <= exp_min /\ ndigits c + e - prec <= exp_min /\ exp_min <= Etop).
    { subst exp_min. unfold Etiny, Etop, Emax, Emin, prec in *.
      destruct (Z.ltb_spec (ndigits c + e - 28) (-999999 - 28 + 1)); lia. }
    destruct Hmin as [Hm1 [Hm2 Hm3]]. clearbody exp_min.
    destruct (Z.ltb_spec e exp_min) as [Hlt|Hge].
    + set (digits := ndigits c + e - exp_min).
      set (c' := if digits <? 0 then 1%N else c).
      set (e' := if digits <? 0 then exp_min - 1 else e).
      set (drop := exp_min - e').
      set (changed := round_changed ROUND_HALF_EVEN c' drop).
      set (coeff := (c' / pow10 drop)%N).
      assert (Hcoeff : (coeff < pow10 prec)%N).
      { subst coeff c' drop e'. unfold digits. destruct (Z.ltb_spec (ndigits c + e - exp_min) 0).
        - replace (exp_min - (exp_min - 1)) with 1 by lia. cbn. reflexivity.
        - destruct (ndigits_spec c Hc) as [Hd [_ Hhi]].
          apply N.Div0.div_lt_upper_bound.
          assert (pow10 (ndigits c) <= pow10 ((exp_min - e) + prec))%N
            by (apply pow10_le_mono; lia).
          rewrite pow10_add in H0 by (unfold prec; lia). lia. }
      set (coeff1 := if 0 <? changed then (coeff + 1)%N else coeff).
      assert (Hcoeff1 : (coeff1 <= pow10 prec)%N).
      { subst coeff1. destruct (0 <? changed); lia. }
      set (carry := (0 <? changed) && (prec <? ndigits coeff1)).
      set (coeff2 := if carry then (coeff1 / 10)%N else coeff1).
      set (exp_min' := if carry then exp_min + 1 else exp_min).
      assert (Hd2 : ndigits coeff2 <= prec).
      { subst coeff2. destruct carry eqn:Hcarry.
        - apply ndigits_le_of_lt; [unfold prec; lia|].
          apply N.Div0.div_lt_upper_bound.
          change (pow10 prec) with 10000000000000000000000000000%N in *. lia.
        - subst carry. apply andb_false_iff in Hcarry as [Hch|Hnd].
          + subst coeff1. rewrite Hch. apply ndigits_le_of_lt; [unfold prec; lia|assumption].
          + apply Z.ltb_ge in Hnd. assumption. }
      destruct (Z.ltb_spec Etop exp_min'); [discriminate|].
      intros [= <-]. cbn [in_context].
      assert (He' : exp_min <= exp_min') by (subst exp_min'; destruct carry; lia).
      unfold adjusted. unfold Etiny, Etop, Emax, Emin, prec in *.
      destruct (coeff2 =? 0)%N; repeat (apply andb_true_intro; split);
        apply Z.leb_le; lia.
    + intros [= <-]. cbn [in_context]. destruct (N.eqb_spec c 0); [contradiction|].
      unfold adjusted. unfold Etiny, Etop, Emax, Emin, prec in *.
      repeat (apply andb_true_intro; split); apply Z.leb_le; lia.
Qed.

Lemma rescale_finite mode s c e q : exists c', rescale mode s c e q = Fin s c' q.
Proof.
  unfold rescale. destruct (c =? 0)%N; [eauto|]. destruct (q <=? e); eauto.
Qed.

Lemma add_in_context a b d :
  is_finite a = true -> is_finite b = true -> add a b = Ok d -> in_context d = true.
Proof.
  destruct a as [s1 c1 e1| |], b as [s2 c2 e2| |]; try discriminate. intros _ _.
  unfold add. cbn [check_nans]. unfold add_fin.
  destruct ((c1 =? 0) && (c2 =? 0))%N; [apply fix_fin_in_context|].
  destruct (c1 =? 0)%N.
  { destruct (rescale_finite ROUND_HALF_EVEN s2 c2 e2 (Z.max (Z.min e1 e2) (e2 - prec - 1)))
      as [c' ->]. apply fix_fin_in_context. }
  destruct (c2 =? 0)%N.
  { destruct (rescale_finite ROUND_HALF_EVEN s1 c1 e1 (Z.max (Z.min e1 e2) (e1 - prec - 1)))
      as [c' ->]. apply fix_fin_in_context. }
  destruct (normalize c1 e1 c2 e2) as [[n1 x1] [n2 x2]].
  destruct (negb (Bool.eqb s1 s2)); [|apply fix_fin_in_context].
  destruct (n1 =? n2)%N; [apply fix_fin_in_context|].
  destruct (n1 <? n2)%N; apply fix_fin_in_context.
Qed.

Lemma sub_in_context a b d :
  is_finite a = true -> is_finite b = true -> sub a b = Ok d -> in_context d = true.
Proof.
  destruct a as [s1 c1 e1| |], b as [s2 c2 e2| |]; try discriminate. intros _ _.
  unfold sub. cbn [check_nans copy_negate]. apply add_in_context; reflexivity.
Qed.

Lemma div_in_context a b d :
  is_finite a = true -> is_finite b = true -> div a b = Ok d -> in_context d = true.
Proof.
  destruct a as [s1 c1 e1| |], b as [s2 c2 e2| |]; try discriminate. intros _ _.
  unfold div. cbn [check_nans]. unfold div_fin.
  destruct (c2 =? 0)%N; [destruct (c1 =? 0)%N; discriminate|].
  destruct (c1 =? 0)%N; [apply fix_fin_in_context|].
  destruct (negb _); [apply fix_fin_in_context|].
  destruct (strip_to_ideal _ _ _ _). apply fix_fin_in_context.
Qed.

Lemma mul_in_context a b d :
  is_finite a = true -> is_finite b = true -> mul a b = Ok d -> in_context d = true.
Proof.
  destruct a as [s1 c1 e1| |], b as [s2 c2 e2| |]; try discriminate. intros _ _.
  unfold mul. cbn [check_nans]. apply fix_fin_in_context.
Qed.

Lemma pct_change_in_context old new pct :
  is_finite old = true -> is_finite new = true ->
  pct_change old new = Ok pct -> in_context pct = true.
Proof.
  intros Ho Hn. unfold pct_change.
  destruct (sub new old) as [delta|] eqn:E1; [|discriminate]. cbn [rbind].
  destruct (div delta old) as [ratio|] eqn:E2; [|discriminate]. cbn [rbind].
  apply mul_in_context; [|reflexivity].
  apply in_context_finite. apply (div_in_context delta old); [|assumption|assumption].
  apply in_context_finite. apply (sub_in_context new old); assumption.
Qed.

Lemma Qle_bool_comp a b c d :
  (a == c)%Q -> (b == d)%Q -> Qle_bool a b = Qle_bool c d.
Proof.
  intros E1 E2. destruct (Qle_bool c d) eqn:H.
  - apply Qle_bool_iff. apply Qle_bool_iff in H. rewrite E1, E2. assumption.
  - destruct (Qle_bool a b) eqn:H'; [|reflexivity].
    apply Qle_bool_iff in H'. rewrite E1, E2 in H'. apply Qle_bool_iff in H'. congruence.
Qed.

(** ** CSV emit *)

Lemma field_to_csv_fields : map fst field_to_csv = mapped_fields.
Proof. vm_compute. reflexivity. Qed.

Lemma fill_csv_row_ext (items : list (string * string)) (r1 r2 : row)
  (acc : gmap string string) :
  Forall (fun f => r1 !! f = r2 !! f) (map fst items) ->
  fold_left (fun csv_row '(field_name, csv_col) =>
               <[csv_col := cell_text (r1 !! field_name)]> csv_row) items acc =
  fold_left (fun csv_row '(field_name, csv_col) =>
               <[csv_col := cell_text (r2 !! field_name)]> csv_row) items acc.
Proof.
  revert acc. induction items as [|[f c] items IH]; intros acc H; [reflexivity|].
  cbn [fold_left map fst] in *. inversion H as [|? ? Hf Hrest]; subst.
  rewrite Hf. apply IH. assumption.
Qed.

Lemma make_csv_row_ext r1 r2 :
  agree_on_mapped r1 r2 -> make_csv_row r1 = make_csv_row r2.
Proof.
  intros H. unfold make_csv_row. apply fill_csv_row_ext.
  rewrite field_to_csv_fields. exact H.
Qed.

Lemma generate_csv_ext rows1 rows2 :
  Forall2 agree_on_mapped rows1 rows2 -> generate_csv rows1 = generate_csv rows2.
Proof.
  intros H. unfold generate_csv. f_equal. f_equal.
  induction H as [|r1 r2 l1 l2 Hr _ IH]; [reflexivity|].
  cbn [map]. rewrite (make_csv_row_ext r1 r2 Hr), IH. reflexivity.
Qed.

Lemma agree_on_mapped_insert (k : string) (v : value) (r : row) :
  k ∉ mapped_fields -> agree_on_mapped (<[k := v]> r) r.
Proof.
  intros Hk. unfold agree_on_mapped. apply Forall_forall. intros f Hf.
  apply lookup_insert_ne. intros E. apply Hk. rewrite E. apply list_elem_of_In. exact Hf.
Qed.

Lemma new_price_not_mapped : "new_price" ∉ mapped_fields.
Proof.
  intros H. apply list_elem_of_In in H. vm_compute in H.
  repeat (destruct H as [H|H]; [discriminate H|]). exact H.
Qed.

Lemma diff_not_mapped : "diff" ∉ mapped_fields.
Proof.
  intros H. apply list_elem_of_In in H. vm_compute in H.
  repeat (destruct H as [H|H]; [discriminate H|]). exact H.
Qed.

Lemma for_each_Forall2 {A B : Type} (f : A -> result B) (R : B -> A -> Prop) l l' :
  (forall a b, f a = Ok b -> R b a) ->
  for_each f l = Ok l' -> Forall2 R l' l.
Proof.
  intros Hf. revert l'. induction l as [|a l IH]; intros l' H.
  - cbn in H. injection H as <-. constructor.
  - cbn [for_each] in H. destruct (f a) as [b|] eqn:Eb; [|discriminate].
    cbn [rbind] in H. destruct (for_each f l) as [bs|]; [|discriminate].
    cbn [rbind] in H. injection H as <-. constructor; [apply Hf; assumption|].
    apply IH. reflexivity.
Qed.

Lemma download_row_agrees strat undercut floor r r' :
  download_row strat undercut floor r = Ok r' -> agree_on_mapped r' r.
Proof.
  unfold download_row. destruct (row_new_price _ _ _ _); [|discriminate].
  cbn [rbind]. intros [= <-]. apply agree_on_mapped_insert, new_price_not_mapped.
Qed.

(** ** Reading back what the writer wrote *)

Lemma append_cons (x : ascii) (a b : string) : String x a ++ b = String x (a ++ b).
Proof. reflexivity. Qed.

Lemma append_nil_l (b : string) : "" ++ b = b.
Proof. reflexivity. Qed.

Lemma append_assoc (a b c : string) : (a ++ b) ++ c = a ++ (b ++ c).
Proof.
  induction a as [|x a IH]; [reflexivity|]. rewrite !append_cons. f_equal. exact IH.
Qed.

Lemma append_nil_r (a : string) : a ++ "" = a.
Proof.
  induction a as [|x a IH]; [reflexivity|]. rewrite append_cons. f_equal. exact IH.
Qed.

Lemma lines_of_nonempty c r : Csv.lines_of (String c r) <> [].
Proof.
  cbn [Csv.lines_of]. destruct (Ascii.eqb c Csv.LF); [discriminate|].
  destruct (Csv.lines_of r); discriminate.
Qed.

Lemma read_records_lines_of p c r :
  Csv.read_records p (Csv.lines_of (String c r)) = read_rest p (String c r).
Proof.
  unfold read_rest. pose proof (lines_of_nonempty c r).
  destruct (Csv.lines_of (String c r)); [contradiction|reflexivity].
Qed.

(** A character that is not a line feed stays within the line. *)
Lemma read_rest_char p c r :
  Ascii.eqb c Csv.LF = false ->
  read_rest p (String c r) =
  match Csv.parse_process_char p (Some c) with
  | Raise e => ([], Some e)
  | Ok p1 => read_rest p1 r
  end.
Proof.
  intros Hc. unfold read_rest. cbn [Csv.lines_of]. rewrite Hc.
  destruct (Csv.lines_of r) as [|l ls]; unfold read_line; cbn [Csv.read_records Csv.process_line];
    destruct (Csv.parse_process_char p (Some c)); reflexivity.
Qed.

(** A line feed ends the line: the reader sees the end-of-line mark, and a
    record is complete if that leaves it in START_RECORD. *)
Lemma read_rest_LF p r :
  read_rest p (String Csv.LF r) =
  match Csv.parse_process_char p (Some Csv.LF) with
  | Raise e => ([], Some e)
  | Ok p1 =>
      match Csv.parse_process_char p1 None with
      | Raise e => ([], Some e)
      | Ok p2 =>
          if Csv.is_start_record p2
          then Csv.yield (Csv.fields p2) (Csv.read_records Csv.parse_reset (Csv.lines_of r))
          else Csv.read_records p2 (Csv.lines_of r)
      end
  end.
Proof.
  unfold read_rest. cbn [Csv.lines_of]. rewrite Ascii.eqb_refl.
  unfold read_line. cbn [Csv.read_records Csv.process_line].
  destruct (Csv.parse_process_char p (Some Csv.LF)); reflexivity.
Qed.

Lemma plain_char_not_LF c : plain_char c = true -> Ascii.eqb c Csv.LF = false.
Proof.
  unfold plain_char, Csv.needs_quotes_char, Csv.is_newline.
  destruct (Ascii.eqb c Csv.LF); [|reflexivity].
  rewrite !orb_true_r. discriminate.
Qed.

Lemma plain_char_facts c :
  plain_char c = true ->
  Csv.is_newline c = false /\ Ascii.eqb c Csv.COMMA = false /\ Ascii.eqb c Csv.QUOTE = false.
Proof.
  unfold plain_char, Csv.needs_quotes_char.
  destruct (Ascii.eqb c Csv.COMMA), (Ascii.eqb c Csv.QUOTE), (Csv.is_newline c);
    cbn; intros H; try discriminate H; auto.
Qed.

Lemma needs_quotes_cons c r :
  Csv.needs_quotes (String c r) = false ->
  plain_char c = true /\ Csv.needs_quotes r = false.
Proof.
  cbn [Csv.needs_quotes]. unfold plain_char.
  destruct (Csv.needs_quotes_char c); cbn; [discriminate|auto].
Qed.

Lemma string_length_app (a b : string) :
  String.length (a ++ b) = (String.length a + String.length b)%nat.
Proof.
  induction a as [|c a IH]; [reflexivity|]. rewrite append_cons. cbn [String.length].
  rewrite IH. reflexivity.
Qed.

(** A character is added to a field that leaves room for it. *)
Lemma add_char_room p c next :
  N.lt (Csv.field_len p) Csv.field_limit ->
  Csv.parse_add_char p c next =
  Ok (Csv.mkReader next (Csv.fields p) (Csv.field p ++ String c "")).
Proof.
  intros H. unfold Csv.parse_add_char.
  destruct (Csv.field_limit <=? Csv.field_len p)%N eqn:E; [|reflexivity].
  apply N.leb_le in E. lia.
Qed.

Lemma within_limit_room cur c f :
  within_limit (cur ++ String c f) = true ->
  N.lt (N.of_nat (String.length cur)) Csv.field_limit /\
  within_limit ((cur ++ String c "") ++ f) = true.
Proof.
  unfold within_limit. rewrite !string_length_app. cbn [String.length].
  intros H. apply N.leb_le in H. split; [lia|]. apply N.leb_le. lia.
Qed.

Lemma within_limit_cons c f :
  within_limit (String c f) = true -> within_limit f = true.
Proof.
  unfold within_limit. cbn [String.length]. intros H. apply N.leb_le in H.
  apply N.leb_le. lia.
Qed.

(** Inside an unquoted field, plain characters accumulate. *)
Lemma read_unquoted f : forall fs cur rest,
  Csv.needs_quotes f = false ->
  within_limit (cur ++ f) = true ->
  read_rest (Csv.mkReader Csv.IN_FIELD fs cur) (f ++ rest) =
  read_rest (Csv.mkReader Csv.IN_FIELD fs (cur ++ f)) rest.
Proof.
  induction f as [|c f IH]; intros fs cur rest H Hlen.
  - rewrite append_nil_l, append_nil_r. reflexivity.
  - apply needs_quotes_cons in H as [Hc Hf].
    destruct (plain_char_facts c Hc) as [Hn [Hcomma Hq]].
    destruct (within_limit_room _ _ _ Hlen) as [Hroom Hlen'].
    rewrite append_cons. rewrite read_rest_char by (apply plain_char_not_LF; assumption).
    cbn [Csv.parse_process_char Csv.state Csv.ends_line]. rewrite Hn, Hcomma.
    rewrite add_char_room by exact Hroom. cbn [Csv.fields Csv.field].
    rewrite IH by assumption. rewrite append_assoc. reflexivity.
Qed.

(** Inside a quoted field, every character accumulates, a doubled quote as
    one quote, up to the closing quote. *)
Lemma read_quoted f : forall fs cur rest,
  within_limit (cur ++ f) = true ->
  read_rest (Csv.mkReader Csv.IN_QUOTED_FIELD fs cur)
            (Csv.double_quotes f ++ String Csv.QUOTE rest) =
  read_rest (Csv.mkReader Csv.QUOTE_IN_QUOTED_FIELD fs (cur ++ f)) rest.
Proof.
  induction f as [|c f IH]; intros fs cur rest Hlen.
  - cbn [Csv.double_quotes]. rewrite append_nil_l, append_nil_r.
    rewrite read_rest_char by reflexivity. reflexivity.
  - destruct (within_limit_room _ _ _ Hlen) as [Hroom Hlen'].
    cbn [Csv.double_quotes]. destruct (Ascii.eqb c Csv.QUOTE) eqn:Hq.
    + apply Ascii.eqb_eq in Hq. subst c. rewrite !append_cons.
      rewrite read_rest_char by reflexivity.
      cbn [Csv.parse_process_char Csv.state]. rewrite Ascii.eqb_refl.
      unfold Csv.set_state. cbn [Csv.fields Csv.field].
      rewrite read_rest_char by reflexivity.
      cbn [Csv.parse_process_char Csv.state]. rewrite Ascii.eqb_refl.
      rewrite add_char_room by exact Hroom. cbn [Csv.fields Csv.field].
      rewrite IH by exact Hlen'. rewrite append_assoc. reflexivity.
    + rewrite append_cons. destruct (Ascii.eqb c Csv.LF) eqn:Hl.
      * apply Ascii.eqb_eq in Hl. subst c. rewrite read_rest_LF.
        cbn [Csv.parse_process_char Csv.state]. rewrite Hq.
        rewrite add_char_room by exact Hroom. cbn [Csv.fields Csv.field].
        cbn [Csv.parse_process_char Csv.state Csv.is_start_record].
        destruct (Csv.double_quotes f ++ String Csv.QUOTE rest) as [|x y] eqn:E.
        { destruct (Csv.double_quotes f); discriminate E. }
        rewrite read_records_lines_of, <- E, IH by exact Hlen'.
        rewrite append_assoc. reflexivity.
      * rewrite read_rest_char by assumption.
        cbn [Csv.parse_process_char Csv.state]. rewrite Hq.
        rewrite add_char_room by exact Hroom. cbn [Csv.fields Csv.field].
        rewrite IH by exact Hlen'. rewrite append_assoc. reflexivity.
Qed.

Lemma step_open_quote st fs :
  field_start st ->
  Csv.parse_process_char (Csv.mkReader st fs "") (Some Csv.QUOTE) =
  Ok (Csv.mkReader Csv.IN_QUOTED_FIELD fs "").
Proof. intros [-> | ->]; reflexivity. Qed.

Lemma step_empty_field st fs :
  field_start st ->
  Csv.parse_process_char (Csv.mkReader st fs "") (Some Csv.COMMA) =
  Ok (Csv.mkReader Csv.START_FIELD (fs ++ [""])%list "").
Proof. intros [-> | ->]; reflexivity. Qed.

Lemma step_first_char st fs c :
  field_start st -> plain_char c = true ->
  Csv.parse_process_char (Csv.mkReader st fs "") (Some c) =
  Ok (Csv.mkReader Csv.IN_FIELD fs (String c "")).
Proof.
  intros Hst Hc. destruct (plain_char_facts c Hc) as [Hn [Hcomma Hq]].
  destruct Hst as [-> | ->];
    cbn [Csv.parse_process_char Csv.state Csv.ends_line]; rewrite Hn, Hq, Hcomma;
    apply add_char_room; vm_compute; reflexivity.
Qed.

Lemma step_close_field_comma st fs cur :
  st = Csv.IN_FIELD \/ st = Csv.QUOTE_IN_QUOTED_FIELD ->
  Csv.parse_process_char (Csv.mkReader st fs cur) (Some Csv.COMMA) =
  Ok (Csv.mkReader Csv.START_FIELD (fs ++ [cur])%list "").
Proof. intros [-> | ->]; reflexivity. Qed.

Lemma step_close_field_CR st fs cur :
  st = Csv.IN_FIELD \/ st = Csv.QUOTE_IN_QUOTED_FIELD \/ st = Csv.START_FIELD ->
  Csv.parse_process_char (Csv.mkReader st fs cur) (Some Csv.CR) =
  Ok (Csv.mkReader Csv.EAT_CRNL (fs ++ [cur])%list "").
Proof. intros [-> | [-> | ->]]; reflexivity. Qed.

(** The line feed that ends a record. *)
Lemma read_end_of_record fs rest :
  read_rest (Csv.mkReader Csv.EAT_CRNL fs "") (String Csv.LF rest) =
  Csv.yield fs (Csv.read_records Csv.parse_reset (Csv.lines_of rest)).
Proof. rewrite read_rest_LF. reflexivity. Qed.

(** The characters of a written field, from where a field may start. *)
Lemma read_written_field st fs f rest :
  field_start st ->
  (f = "" -> False) ->
  within_limit f = true ->
  exists st',
    (st' = Csv.IN_FIELD \/ st' = Csv.QUOTE_IN_QUOTED_FIELD) /\
    read_rest (Csv.mkReader st fs "") (Csv.write_field f ++ rest) =
    read_rest (Csv.mkReader st' fs f) rest.
Proof.
  intros Hst Hne Hlen. unfold Csv.write_field. destruct (Csv.needs_quotes f) eqn:Hq.
  - exists Csv.QUOTE_IN_QUOTED_FIELD. split; [right; reflexivity|].
    rewrite append_assoc, !append_cons, append_nil_l.
    rewrite read_rest_char by reflexivity. rewrite (step_open_quote st fs Hst).
    rewrite read_quoted by exact Hlen. reflexivity.
  - exists Csv.IN_FIELD. split; [left; reflexivity|].
    destruct f as [|c f]; [contradiction Hne; reflexivity|].
    apply needs_quotes_cons in Hq as [Hc Hf].
    rewrite append_cons. rewrite read_rest_char by (apply plain_char_not_LF; assumption).
    rewrite (step_first_char st fs c Hst Hc). rewrite read_unquoted by assumption.
    reflexivity.
Qed.

Lemma write_field_empty : Csv.write_field "" = "".
Proof. reflexivity. Qed.

(** A field followed by a delimiter. *)
Lemma read_field_comma st fs f rest :
  field_start st ->
  within_limit f = true ->
  read_rest (Csv.mkReader st fs "") (Csv.write_field f ++ String Csv.COMMA rest) =
  read_rest (Csv.mkReader Csv.START_FIELD (fs ++ [f])%list "") rest.
Proof.
  intros Hst Hlen. destruct f as [|c f].
  - rewrite write_field_empty, append_nil_l. rewrite read_rest_char by reflexivity.
    rewrite (step_empty_field st fs Hst). reflexivity.
  - destruct (read_written_field st fs (String c f) (String Csv.COMMA rest) Hst)
      as [st' [Hst' ->]]; [discriminate|exact Hlen|].
    rewrite read_rest_char by reflexivity.
    rewrite (step_close_field_comma st' fs _ Hst'). reflexivity.
Qed.

(** A field followed by the line terminator, after a delimiter. *)
Lemma read_field_end fs f rest :
  within_limit f = true ->
  read_rest (Csv.mkReader Csv.START_FIELD fs "")
            (Csv.write_field f ++ Csv.lineterminator ++ rest) =
  Csv.yield (fs ++ [f])%list (Csv.read_records Csv.parse_reset (Csv.lines_of rest)).
Proof.
  intros Hlen. unfold Csv.lineterminator. rewrite !append_cons, append_nil_l.
  destruct f as [|c f].
  - rewrite write_field_empty, append_nil_l. rewrite read_rest_char by reflexivity.
    rewrite (step_close_field_CR Csv.START_FIELD fs "") by auto.
    apply read_end_of_record.
  - destruct (read_written_field Csv.START_FIELD fs (String c f)
                (String Csv.CR (String Csv.LF rest))) as [st' [Hst' ->]];
      [left; reflexivity|discriminate|exact Hlen|].
    rewrite read_rest_char by reflexivity.
    rewrite (step_close_field_CR st' fs _) by tauto.
    apply read_end_of_record.
Qed.

(** A non-empty field followed by the line terminator, at the start of a
    record. *)
Lemma read_only_field f rest :
  (f = "" -> False) ->
  within_limit f = true ->
  read_rest Csv.parse_reset (Csv.write_field f ++ Csv.lineterminator ++ rest) =
  Csv.yield [f] (Csv.read_records Csv.parse_reset (Csv.lines_of rest)).
Proof.
  intros Hne Hlen. unfold Csv.lineterminator. rewrite !append_cons, append_nil_l.
  destruct (read_written_field Csv.START_RECORD [] f
              (String Csv.CR (String Csv.LF rest))) as [st' [Hst' E]];
    [right; reflexivity|assumption|assumption|].
  unfold Csv.parse_reset. rewrite E.
  rewrite read_rest_char by reflexivity.
  rewrite (step_close_field_CR st' [] _) by tauto.
  apply read_end_of_record.
Qed.

(** The remaining fields of a record, after a delimiter. *)
Lemma read_fields row : forall fs rest,
  row <> [] ->
  forallb within_limit row = true ->
  read_rest (Csv.mkReader Csv.START_FIELD fs "")
            (Csv.join_fields row ++ Csv.lineterminator ++ rest) =
  Csv.yield (fs ++ row)%list (Csv.read_records Csv.parse_reset (Csv.lines_of rest)).
Proof.
  induction row as [|f row IH]; intros fs rest Hne Hlen; [contradiction|].
  cbn [forallb] in Hlen. apply andb_true_iff in Hlen as [Hf Hrow].
  destruct row as [|g row].
  - cbn [Csv.join_fields]. apply read_field_end. exact Hf.
  - change (Csv.join_fields (f :: g :: row))
      with (Csv.write_field f ++ String Csv.COMMA (Csv.join_fields (g :: row))).
    rewrite append_assoc, append_cons.
    rewrite read_field_comma by (try (left; reflexivity); exact Hf).
    rewrite IH by (try discriminate; exact Hrow). rewrite <- app_assoc. reflexivity.
Qed.

Lemma writerow_fields f g row :
  Csv.writerow (f :: g :: row) =
  (Csv.write_field f ++ String Csv.COMMA (Csv.join_fields (g :: row)))
  ++ Csv.lineterminator.
Proof. destruct f; reflexivity. Qed.

(** A written record reads back as the record. *)
Lemma read_writerow row rest :
  forallb within_limit row = true ->
  Csv.read_records Csv.parse_reset (Csv.lines_of (Csv.writerow row ++ rest)) =
  Csv.yield row (Csv.read_records Csv.parse_reset (Csv.lines_of rest)).
Proof.
  intros Hlen. destruct row as [|f row].
  - (* no field: an empty line *)
    cbn [Csv.writerow Csv.join_fields]. unfold Csv.lineterminator.
    rewrite append_nil_l, !append_cons, append_nil_l.
    rewrite read_records_lines_of. rewrite read_rest_char by reflexivity.
    change (Csv.parse_process_char Csv.parse_reset (Some Csv.CR))
      with (Ok (Csv.mkReader Csv.EAT_CRNL [] "")).
    cbv beta iota. apply read_end_of_record.
  - destruct row as [|g row].
    + destruct f as [|c f].
      * (* one empty field: written quoted *)
        cbn [Csv.writerow]. unfold Csv.lineterminator.
        rewrite !append_cons, append_nil_l.
        rewrite read_records_lines_of. rewrite read_rest_char by reflexivity.
        change (Csv.parse_process_char Csv.parse_reset (Some Csv.QUOTE))
          with (Ok (Csv.mkReader Csv.IN_QUOTED_FIELD [] "")).
        cbv beta iota. rewrite read_rest_char by reflexivity.
        change (Csv.parse_process_char (Csv.mkReader Csv.IN_QUOTED_FIELD [] "")
                  (Some Csv.QUOTE))
          with (Ok (Csv.mkReader Csv.QUOTE_IN_QUOTED_FIELD [] "")).
        cbv beta iota. rewrite read_rest_char by reflexivity.
        rewrite (step_close_field_CR Csv.QUOTE_IN_QUOTED_FIELD [] "") by tauto.
        apply read_end_of_record.
      * change (Csv.writerow [String c f])
          with (Csv.write_field (String c f) ++ Csv.lineterminator).
        rewrite append_assoc.
        assert (E : exists x y, Csv.write_field (String c f) ++ Csv.lineterminator ++ rest
                                = String x y).
        { unfold Csv.write_field. destruct (Csv.needs_quotes (String c f));
            rewrite append_cons; eauto. }
        destruct E as [x [y E]]. rewrite E, read_records_lines_of, <- E.
        cbn [forallb] in Hlen. rewrite andb_true_r in Hlen.
        apply read_only_field; [discriminate|exact Hlen].
    + rewrite writerow_fields. rewrite !append_assoc, append_cons.
      assert (E : exists x y,
                 Csv.write_field f ++ String Csv.COMMA
                   (Csv.join_fields (g :: row) ++ Csv.lineterminator ++ rest) = String x y).
      { destruct (Csv.write_field f); rewrite ?append_nil_l, ?append_cons; eauto. }
      destruct E as [x [y E]]. rewrite E, read_records_lines_of, <- E.
      cbn [forallb] in Hlen. apply andb_true_iff in Hlen as [Hf Hrow].
      unfold Csv.parse_reset.
      rewrite read_field_comma by (try (right; reflexivity); exact Hf).
      rewrite read_fields by (try discriminate; exact Hrow). reflexivity.
Qed.

Lemma string_concat_cons (x : string) (l : list string) :
  String.concat "" (x :: l) = x ++ String.concat "" l.
Proof.
  destruct l as [|y l]; cbn [String.concat]; [rewrite append_nil_r|]; reflexivity.
Qed.

(** The reader gives back the records the writer was given. *)
Lemma reader_of_written (rows : list (list string)) :
  forallb (forallb within_limit) rows = true ->
  Csv.reader_of (String.concat "" (map Csv.writerow rows)) = (rows, None).
Proof.
  unfold Csv.reader_of. induction rows as [|row rows IH]; intros Hlen; [reflexivity|].
  cbn [forallb] in Hlen. apply andb_true_iff in Hlen as [Hrow Hrows].
  cbn [map]. rewrite string_concat_cons, read_writerow by exact Hrow.
  rewrite IH by exact Hrows. reflexivity.
Qed.

(** ** The fields the reader yields are within the limit *)

Lemma save_field_within p next :
  fields_within p -> fields_within (Csv.parse_save_field p next).
Proof.
  intros [Hf Hfs]. split; [reflexivity|]. cbn [Csv.parse_save_field Csv.fields].
  rewrite forallb_app, Hfs. cbn [forallb]. rewrite Hf. reflexivity.
Qed.

Lemma add_char_within p c next p' :
  Csv.parse_add_char p c next = Ok p' -> fields_within p -> fields_within p'.
Proof.
  unfold Csv.parse_add_char, Csv.field_len.
  destruct (Csv.field_limit <=? N.of_nat (String.length (Csv.field p)))%N eqn:E; [discriminate|].
  intros [= <-] [_ Hfs]. split; [|exact Hfs]. cbn [Csv.field].
  unfold within_limit. rewrite string_length_app. cbn [String.length].
  apply N.leb_gt in E. apply N.leb_le. lia.
Qed.

Lemma process_char_within p c p' :
  Csv.parse_process_char p c = Ok p' -> fields_within p -> fields_within p'.
Proof.
  intros H Hp. unfold Csv.parse_process_char in H.
  repeat match type of H with
         | Ok _ = Ok _ => injection H as <-
         | Raise _ = Ok _ => discriminate H
         | Csv.parse_add_char _ _ _ = Ok _ => exact (add_char_within _ _ _ _ H Hp)
         | context [match ?x with _ => _ end] => destruct x
         end;
    first [exact Hp | apply save_field_within; exact Hp].
Qed.

Lemma process_line_within line : forall p p',
  Csv.process_line p line = Ok p' -> fields_within p -> fields_within p'.
Proof.
  induction line as [|c line IH]; intros p p' H Hp; cbn [Csv.process_line] in H.
  - exact (process_char_within _ _ _ H Hp).
  - destruct (Csv.parse_process_char p (Some c)) as [p1|] eqn:E; [|discriminate].
    cbn [rbind] in H. exact (IH _ _ H (process_char_within _ _ _ E Hp)).
Qed.

Lemma reset_within : fields_within Csv.parse_reset.
Proof. split; reflexivity. Qed.

Lemma read_records_within lines : forall p,
  fields_within p ->
  forallb (forallb within_limit) (fst (Csv.read_records p lines)) = true.
Proof.
  induction lines as [|line lines IH]; intros p Hp; cbn [Csv.read_records].
  - destruct (_ || _); [|reflexivity]. cbn [fst forallb].
    destruct Hp as [Hf Hfs]. rewrite forallb_app, Hfs. cbn [forallb]. rewrite Hf. reflexivity.
  - destruct (Csv.process_line p line) as [p'|] eqn:E; [|reflexivity].
    pose proof (process_line_within _ _ _ E Hp) as Hp'.
    destruct (Csv.is_start_record p').
    + cbn [Csv.yield fst forallb]. rewrite (proj2 Hp'). apply IH, reset_within.
    + apply IH, Hp'.
Qed.

(** Every field of every record the reader yields is within the limit. *)
Lemma reader_of_within text :
  forallb (forallb within_limit) (fst (Csv.reader_of text)) = true.
Proof. apply read_records_within, reset_within. Qed.

(** ** Decimal to text and back *)

Lemma string_forall_app P a b :
  string_forall P (a ++ b) = string_forall P a && string_forall P b.
Proof.
  induction a as [|c a IH]; [reflexivity|].
  rewrite append_cons. cbn [string_forall]. rewrite IH, andb_assoc. reflexivity.
Qed.

Lemma digit_char_is_digit d : (d < 10)%N -> is_digit (digit_char d) = true.
Proof.
  intros H. unfold is_digit, digit_char.
  rewrite N_ascii_embedding by lia.
  apply andb_true_intro. split; apply N.leb_le; lia.
Qed.

Lemma digit_val_char d : (d < 10)%N -> digit_val (digit_char d) = d.
Proof.
  intros H. unfold digit_val, digit_char. rewrite N_ascii_embedding by lia. lia.
Qed.

Lemma N_of_digits_from_app a s1 s2 :
  N_of_digits_from a (s1 ++ s2) = N_of_digits_from (N_of_digits_from a s1) s2.
Proof.
  revert a. induction s1 as [|c s1 IH]; intros a; [reflexivity|].
  rewrite append_cons. cbn [N_of_digits_from]. apply IH.
Qed.

(** The digits [str_N] writes in front of the accumulator. *)
Lemma str_N_fuel_spec fuel : forall n acc,
  (n < 2 ^ N.of_nat fuel)%N ->
  exists ds,
    str_N_fuel (S fuel) n acc = ds ++ acc /\
    all_digits ds = true /\ ds <> "" /\ N_of_digits ds = n.
Proof.
  induction fuel as [|fuel IH]; intros n acc Hn.
  - assert (n = 0%N) by (cbn in Hn; lia). subst n.
    exists "0". repeat split; try reflexivity. discriminate.
  - cbn [str_N_fuel]. destruct (N.ltb_spec n 10) as [Hlt|Hge].
    + exists (String (digit_char (n mod 10)) "").
      rewrite N.mod_small by assumption.
      split; [reflexivity|]. split.
      * cbn [all_digits string_forall]. rewrite digit_char_is_digit by assumption. reflexivity.
      * split; [discriminate|]. unfold N_of_digits. cbn [N_of_digits_from].
        rewrite digit_val_char by assumption. lia.
    + assert (Hq : (n / 10 < 2 ^ N.of_nat fuel)%N).
      { apply N.Div0.div_lt_upper_bound.
        rewrite Nat2N.inj_succ, N.pow_succ_r' in Hn.
        remember (2 ^ N.of_nat fuel)%N as t. clear - Hn. lia. }
      destruct (IH (n / 10)%N (String (digit_char (n mod 10)) acc) Hq)
        as [ds [E [Hd [Hne Hv]]]].
      exists (ds ++ String (digit_char (n mod 10)) "").
      pose proof (N.mod_lt n 10 ltac:(discriminate)) as Hm.
      split; [|split; [|split]].
      * change (str_N_fuel (S fuel) (n / 10) (String (digit_char (n mod 10)) acc)
                = (ds ++ String (digit_char (n mod 10)) "") ++ acc).
        rewrite E, append_assoc. reflexivity.
      * unfold all_digits in *. rewrite string_forall_app, Hd. cbn [string_forall].
        rewrite digit_char_is_digit by assumption. reflexivity.
      * destruct ds; discriminate.
      * unfold N_of_digits in *. rewrite N_of_digits_from_app, Hv.
        cbn [N_of_digits_from]. rewrite digit_val_char by assumption.
        pose proof (N.div_mod n 10 ltac:(discriminate)).
        remember (n / 10)%N as q. remember (n mod 10)%N as r. lia.
Qed.

Lemma str_N_spec n :
  all_digits (str_N n) = true /\ str_N n <> "" /\ N_of_digits (str_N n) = n.
Proof.
  unfold str_N.
  destruct (str_N_fuel_spec (N.to_nat (N.size n)) n "") as [ds [E H]].
  - rewrite N2Nat.id. apply N.size_gt.
  - rewrite E, append_nil_r. exact H.
Qed.

Lemma span_digits_app ds rest :
  all_digits ds = true ->
  span_digits (ds ++ rest) =
  let '(d, r) := span_digits rest in (ds ++ d, r).
Proof.
  induction ds as [|c ds IH]; intros H.
  - rewrite append_nil_l. destruct (span_digits rest). reflexivity.
  - cbn [all_digits string_forall] in H. apply andb_prop in H as [Hc Hd].
    rewrite append_cons. cbn [span_digits]. rewrite Hc, (IH Hd).
    destruct (span_digits rest). reflexivity.
Qed.

Lemma span_digits_all ds : all_digits ds = true -> span_digits ds = (ds, "").
Proof.
  intros H. rewrite <- (append_nil_r ds) at 1. rewrite span_digits_app by assumption.
  cbn. rewrite append_nil_r. reflexivity.
Qed.

Lemma parse_exponent_written z :
  parse_exponent ("E" ++ str_signed z) = Some z.
Proof.
  destruct (str_N_spec (Z.abs_N z)) as [Hd [Hne Hv]].
  unfold str_signed. rewrite append_cons, append_nil_l.
  cbn [parse_exponent]. change (Ascii.eqb (lower "E") "e") with true. cbv iota.
  destruct (Z.ltb_spec z 0) as [Hneg|Hpos].
  - rewrite append_cons, append_nil_l. cbn [split_sign].
    rewrite span_digits_all by assumption.
    destruct (str_N (Z.abs_N z)) as [|c r]; [contradiction|].
    cbv iota. rewrite Hv. f_equal. lia.
  - rewrite append_cons, append_nil_l. cbn [split_sign].
    rewrite span_digits_all by assumption.
    destruct (str_N (Z.abs_N z)) as [|c r]; [contradiction|].
    cbv iota. rewrite Hv. f_equal. lia.
Qed.

Lemma parse_number_numeral ip fp x :
  all_digits ip = true -> ip <> "" ->
  match fp with Some f => all_digits f = true | None => True end ->
  parse_number (numeral ip fp x) =
  Some (N_of_digits (ip ++ default "" fp),
        (default 0 x - Z.of_nat (String.length (default "" fp)))%Z).
Proof.
  intros Hip Hne Hfp. unfold parse_number, numeral.
  assert (Hx : parse_exponent (match x with Some z => "E" ++ str_signed z | None => "" end)
               = Some (default 0 x)%Z).
  { destruct x as [z|]; [apply parse_exponent_written|reflexivity]. }
  assert (Hx0 : span_digits (match x with Some z => "E" ++ str_signed z | None => "" end)
                = ("", match x with Some z => "E" ++ str_signed z | None => "" end)).
  { destruct x as [z|]; reflexivity. }
  rewrite span_digits_app by assumption.
  destruct fp as [f|].
  - change (default "" (Some f)) with f.
    rewrite append_assoc, append_cons, append_nil_l.
    cbn [span_digits]. change (is_digit ".") with false. cbv iota.
    rewrite append_nil_r.
    rewrite span_digits_app by assumption. rewrite Hx0, append_nil_r.
    destruct (ip ++ f) as [|c r] eqn:E.
    { destruct ip; [contradiction|discriminate E]. }
    rewrite Hx. reflexivity.
  - change (default "" None) with "".
    rewrite append_nil_l, Hx0, !append_nil_r.
    destruct ip as [|c r]; [contradiction|].
    destruct x as [z|].
    + rewrite append_cons, append_nil_l in *. cbv iota.
      rewrite append_nil_r, Hx.
      cbn [String.length]. rewrite Z.sub_0_r. reflexivity.
    + rewrite append_nil_r. reflexivity.
Qed.

Lemma take_drop k s : take_str k s ++ drop_str k s = s.
Proof.
  revert s. induction k as [|k IH]; intros s; [reflexivity|].
  destruct s as [|c s]; [reflexivity|]. cbn [take_str drop_str].
  rewrite append_cons, IH. reflexivity.
Qed.

Lemma string_forall_take_drop P k s :
  string_forall P s = true ->
  string_forall P (take_str k s) = true /\ string_forall P (drop_str k s) = true.
Proof.
  intros H. rewrite <- (take_drop k s), string_forall_app in H.
  apply andb_prop in H. exact H.
Qed.

Lemma length_drop k s :
  (k <= String.length s)%nat -> String.length (drop_str k s) = (String.length s - k)%nat.
Proof.
  revert s. induction k as [|k IH]; intros s H; [cbn; lia|].
  destruct s as [|c s]; [cbn in H; lia|]. cbn [drop_str String.length] in *.
  rewrite IH by lia. reflexivity.
Qed.

Lemma take_nonempty k s : (1 <= k)%nat -> s <> "" -> take_str k s <> "".
Proof.
  intros Hk Hs. destruct k as [|k]; [lia|]. destruct s; [contradiction|discriminate].
Qed.

Lemma zeros_digits k : all_digits (zeros k) = true.
Proof. induction k as [|k IH]; [reflexivity|]. cbn [zeros all_digits string_forall]. exact IH. Qed.

Lemma zeros_length k : String.length (zeros k) = k.
Proof. induction k as [|k IH]; [reflexivity|]. cbn [zeros String.length]. rewrite IH. reflexivity. Qed.

Lemma N_of_digits_zeros k s : N_of_digits (zeros k ++ s) = N_of_digits s.
Proof.
  unfold N_of_digits. induction k as [|k IH]; [reflexivity|].
  cbn [zeros]. rewrite append_cons. cbn [N_of_digits_from]. exact IH.
Qed.

(** The text of a finite decimal is its sign and a numeral that denotes its
    coefficient and exponent. *)
Lemma str_Fin_numeral s c e :
  exists ip fp x,
    str_Decimal (Fin s c e) = (if s then "-" else "") ++ numeral ip fp x /\
    all_digits ip = true /\ ip <> "" /\
    match fp with Some f => all_digits f = true | None => True end /\
    N_of_digits (ip ++ default "" fp) = c /\
    (default 0 x - Z.of_nat (String.length (default "" fp)))%Z = e.
Proof.
  destruct (str_N_spec c) as [Hd [Hne Hv]].
  unfold str_Decimal. set (digits := str_N c) in *.
  set (len := Z.of_nat (String.length digits)).
  assert (Hlen : (1 <= len)%Z).
  { subst len. destruct digits; [contradiction|]. cbn [String.length]. lia. }
  destruct ((e <=? 0)%Z && (-6 <? e + len)%Z) eqn:Hcond.
  - (* plain notation *)
    apply andb_prop in Hcond as [He Hl]. apply Z.leb_le in He. apply Z.ltb_lt in Hl.
    rewrite Z.eqb_refl.
    destruct (Z.leb_spec (e + len) 0) as [Hle|Hgt].
    + exists "0", (Some (zeros (Z.to_nat (- (e + len))) ++ digits)), None.
      split; [unfold numeral; rewrite !append_nil_r; reflexivity|].
      split; [reflexivity|]. split; [discriminate|]. split.
      { pose proof (zeros_digits (Z.to_nat (- (e + len)))) as Hz.
        unfold all_digits in *. rewrite string_forall_app, Hd, Hz. reflexivity. }
      change (default "" (Some ?f)) with f. split.
      * rewrite append_cons, append_nil_l.
        change (String "0" ?t) with (zeros 1 ++ t).
        rewrite !N_of_digits_zeros. exact Hv.
      * rewrite string_length_app, zeros_length. fold len. change (default 0 None) with 0%Z.
        subst len. lia.
    + destruct (Z.leb_spec len (e + len)) as [Hfull|Hmid].
      * assert (e = 0%Z) by lia. subst e.
        exists digits, None, None.
        split.
        { unfold numeral. replace (Z.to_nat (0 + len - len)) with 0%nat by lia.
          cbn [zeros]. rewrite !append_nil_r. reflexivity. }
        split; [exact Hd|]. split; [exact Hne|]. split; [exact I|].
        change (default "" None) with "". rewrite append_nil_r. split; [exact Hv|reflexivity].
      * exists (take_str (Z.to_nat (e + len)) digits),
               (Some (drop_str (Z.to_nat (e + len)) digits)), None.
        destruct (string_forall_take_drop is_digit (Z.to_nat (e + len)) digits Hd) as [Ht Hr].
        split; [unfold numeral; rewrite !append_nil_r; reflexivity|].
        split; [exact Ht|]. split; [apply take_nonempty; [lia|exact Hne]|].
        split; [exact Hr|]. change (default "" (Some ?f)) with f.
        split; [rewrite take_drop; exact Hv|].
        rewrite length_drop by (subst len; lia). change (default 0 None) with 0%Z.
        subst len. lia.
  - (* scientific notation *)
    assert (Hsci : (0 < e)%Z \/ (e + len <= -6)%Z).
    { apply andb_false_iff in Hcond as [H|H]; [left; apply Z.leb_gt in H; lia|].
      right. apply Z.ltb_ge in H. lia. }
    change (1 <=? 0)%Z with false. cbv iota.
    destruct (Z.eqb_spec (e + len) 1) as [Habs|Hexp]; [lia|].
    destruct (Z.leb_spec len 1) as [Hone|Hmany].
    + exists digits, None, (Some (e + len - 1)%Z).
      split.
      { unfold numeral. replace (Z.to_nat (1 - len)) with 0%nat by lia.
        cbn [zeros]. rewrite !append_nil_r, append_nil_l. reflexivity. }
      split; [exact Hd|]. split; [exact Hne|]. split; [exact I|].
      change (default "" None) with "". rewrite append_nil_r. split; [exact Hv|].
      cbn [String.length]. change (default 0 (Some ?z)) with z. lia.
    + exists (take_str 1 digits), (Some (drop_str 1 digits)), (Some (e + len - 1)%Z).
      destruct (string_forall_take_drop is_digit 1 digits Hd) as [Ht Hr].
      split; [unfold numeral; reflexivity|].
      split; [exact Ht|]. split; [apply take_nonempty; [lia|exact Hne]|].
      split; [exact Hr|]. change (default "" (Some ?f)) with f.
      split; [rewrite take_drop; exact Hv|].
      rewrite length_drop by (subst len; lia). change (default 0 (Some ?z)) with z.
      subst len. lia.
Qed.

Lemma lstrip_token s : token s = true -> lstrip s = s.
Proof.
  destruct s as [|c s]; [reflexivity|]. unfold token. cbn [string_forall lstrip].
  unfold token_char. destruct (is_space c); [discriminate|reflexivity].
Qed.

Lemma rstrip_token s : token s = true -> rstrip s = s.
Proof.
  unfold token. induction s as [|c s IH]; [reflexivity|].
  cbn [string_forall rstrip]. intros H. apply andb_prop in H as [Hc Hs].
  rewrite (IH Hs). unfold token_char in Hc.
  destruct s; [destruct (is_space c); [discriminate|reflexivity]|reflexivity].
Qed.

Lemma strip_token s : token s = true -> strip s = s.
Proof. intros H. unfold strip. rewrite (lstrip_token s H). exact (rstrip_token s H). Qed.

Lemma remove_underscores_token s : token s = true -> remove_underscores s = s.
Proof.
  unfold token. induction s as [|c s IH]; [reflexivity|].
  cbn [string_forall remove_underscores]. intros H. apply andb_prop in H as [Hc Hs].
  rewrite (IH Hs). unfold token_char in Hc.
  destruct (Ascii.eqb c "_"); [rewrite andb_false_r in Hc; discriminate|reflexivity].
Qed.

Lemma is_digit_token c : is_digit c = true -> token_char c = true.
Proof.
  unfold is_digit, token_char, is_space. intros H.
  apply andb_prop in H as [Hlo Hhi].
  assert (Hu : Ascii.eqb c "_" = false).
  { apply Ascii.eqb_neq. intros ->. vm_compute in Hhi. discriminate. }
  apply N.leb_le in Hlo. apply N.leb_le in Hhi.
  rewrite Hu. cbn [negb andb].
  rewrite andb_true_r. apply negb_true_iff.
  repeat match goal with
  | |- (_ || _)%bool = false => apply orb_false_intro
  | |- (_ && _)%bool = false => apply andb_false_iff
  end.
  - right. apply N.leb_gt. lia.
  - right. apply N.leb_gt. lia.
  - apply N.eqb_neq. lia.
  - apply N.eqb_neq. lia.
Qed.

Lemma all_digits_token s : all_digits s = true -> token s = true.
Proof.
  unfold all_digits, token. induction s as [|c s IH]; [reflexivity|].
  cbn [string_forall]. intros H. apply andb_prop in H as [Hc Hs].
  rewrite (is_digit_token c Hc), (IH Hs). reflexivity.
Qed.

Lemma str_signed_token z : token (str_signed z) = true.
Proof.
  unfold str_signed. destruct (z <? 0)%Z.
  - unfold token. rewrite append_cons, append_nil_l. cbn [string_forall].
    apply andb_true_intro. split; [reflexivity|].
    apply all_digits_token, str_N_spec.
  - unfold token. rewrite append_cons, append_nil_l. cbn [string_forall].
    apply andb_true_intro. split; [reflexivity|].
    apply all_digits_token, str_N_spec.
Qed.

Lemma token_app s t : token (s ++ t) = token s && token t.
Proof. apply string_forall_app. Qed.

Lemma numeral_token ip fp x :
  all_digits ip = true ->
  match fp with Some f => all_digits f = true | None => True end ->
  token (numeral ip fp x) = true.
Proof.
  intros Hi Hf. unfold numeral. rewrite !token_app.
  rewrite (all_digits_token ip Hi). cbn [andb].
  apply andb_true_intro. split.
  - destruct fp as [f|]; [|reflexivity].
    rewrite token_app, (all_digits_token f Hf). reflexivity.
  - destruct x as [z|]; [|reflexivity].
    rewrite token_app, str_signed_token. reflexivity.
Qed.

Lemma split_sign_digit c r :
  is_digit c = true -> split_sign (String c r) = (false, String c r).
Proof.
  destruct c as [b0 b1 b2 b3 b4 b5 b6 b7].
  destruct b0, b1, b2, b3, b4, b5, b6, b7; intros H;
    first [reflexivity | vm_compute in H; discriminate].
Qed.

Lemma split_sign_numeral (s : bool) ip fp x :
  all_digits ip = true -> ip <> "" ->
  split_sign ((if s then "-" else "") ++ numeral ip fp x) = (s, numeral ip fp x).
Proof.
  intros Hi Hne. destruct s.
  - rewrite append_cons, append_nil_l. reflexivity.
  - rewrite append_nil_l. destruct ip as [|c ip]; [contradiction|].
    unfold numeral. rewrite append_cons. apply split_sign_digit.
    unfold all_digits in Hi. cbn [string_forall] in Hi.
    apply andb_prop in Hi. exact (proj1 Hi).
Qed.

(** The text of a finite decimal denotes the decimal: sign, coefficient and
    exponent. *)
Lemma numeric_string_written s c e :
  numeric_string (str_Decimal (Fin s c e)) = Some (Fin s c e).
Proof.
  destruct (str_Fin_numeral s c e) as (ip & fp & x & Htext & Hi & Hne & Hf & Hc & He).
  rewrite Htext. unfold numeric_string.
  assert (Htok : token ((if s then "-" else "") ++ numeral ip fp x) = true).
  { rewrite token_app, (numeral_token ip fp x Hi Hf). destruct s; reflexivity. }
  rewrite (strip_token _ Htok), (remove_underscores_token _ Htok).
  rewrite (split_sign_numeral s ip fp x Hi Hne).
  rewrite (parse_number_numeral ip fp x Hi Hne Hf), Hc, He. reflexivity.
Qed.

(** What [Decimal] returns is the value the text denotes, within the limits. *)
Lemma Decimal_of_str_Ok value d :
  Decimal_of_str value = Ok d <->
  numeric_string value = Some d /\ exact_in_limits d = true.
Proof.
  unfold Decimal_of_str. destruct (numeric_string value) as [d'|].
  - destruct (exact_in_limits d') eqn:E; split.
    + intros [= <-]. auto.
    + intros [[= <-] _]. reflexivity.
    + discriminate.
    + intros [[= <-] H]. congruence.
  - split; [discriminate|intros [H _]; discriminate H].
Qed.

(** Reading back the text of a finite decimal within the limits gives the
    decimal. *)
Lemma Decimal_of_str_written s c e :
  exact_in_limits (Fin s c e) = true ->
  Decimal_of_str (str_Decimal (Fin s c e)) = Ok (Fin s c e).
Proof.
  intros H. apply Decimal_of_str_Ok. split; [apply numeric_string_written|exact H].
Qed.

Lemma str_Decimal_token s c e : token (str_Decimal (Fin s c e)) = true.
Proof.
  destruct (str_Fin_numeral s c e) as (ip & fp & x & Htext & Hi & _ & Hf & _).
  rewrite Htext, token_app, (numeral_token ip fp x Hi Hf). destruct s; reflexivity.
Qed.

Lemma str_Decimal_nonempty s c e : Csv.is_empty (str_Decimal (Fin s c e)) = false.
Proof.
  destruct (str_Fin_numeral s c e) as (ip & fp & x & Htext & _ & Hne & _).
  rewrite Htext. destruct ip as [|a ip]; [contradiction|].
  unfold numeral. destruct s; rewrite ?append_cons, ?append_nil_l; reflexivity.
Qed.

(** A written currency cell reads back as the value it was written from. *)
Lemma to_decimal_written s c e :
  exact_in_limits (Fin s c e) = true ->
  _to_decimal (Some (str_Decimal (Fin s c e))) = Ok (VDec (Fin s c e)).
Proof.
  intros H. unfold _to_decimal. rewrite (strip_token _ (str_Decimal_token s c e)).
  rewrite str_Decimal_nonempty, Decimal_of_str_written by exact H. reflexivity.
Qed.

(** ** CSV ingest and the batch loop *)

Lemma or_zero_present x d : x = Some d -> truthy d = true -> or_zero x = d.
Proof. intros -> H. cbn. rewrite H. reflexivity. Qed.

Lemma or_zero_absent x : absent_or_zero x = true -> or_zero x = Fin false 0 0.
Proof.
  destruct x as [d|]; cbn; [|reflexivity]. destruct (truthy d); [discriminate|reflexivity].
Qed.

Lemma truthy_or_zero x : truthy (or_zero x) = negb (absent_or_zero x).
Proof.
  destruct x as [d|]; cbn; [|reflexivity].
  destruct (truthy d) eqn:E; [rewrite E|]; reflexivity.
Qed.

(** Zero is the value of a falsy finite decimal, and of no truthy one. *)
Lemma truthy_Q d : is_finite d = true -> (truthy d = false <-> (Qvalue d == 0)%Q).
Proof.
  destruct d as [s c e| |]; try discriminate. intros _. cbn [truthy Qvalue].
  destruct (N.eqb_spec c 0) as [->|Hc]; cbn [negb].
  - split; [intros _; apply Qfin_zero|reflexivity].
  - split; [discriminate|]. intros H. exfalso. destruct s.
    + pose proof (Qfin_neg_lt c e Hc). lra.
    + assert (0 < Qfin false c e)%Q; [|lra].
      unfold Qfin. cbn [signed]. apply Qmult_lt_0_compat; [|apply Qten_pos].
      change (inject_Z 0 < inject_Z (Z.of_N c))%Q. rewrite <- Zlt_Qlt. lia.
Qed.

Lemma or_zero_Q x :
  opt_all is_finite x = true ->
  (Qvalue (or_zero x) == match x with Some d => Qvalue d | None => 0 end)%Q.
Proof.
  destruct x as [d|]; cbn [opt_all or_zero]; [|reflexivity]. intros Hf.
  destruct (truthy d) eqn:E; [reflexivity|].
  apply (truthy_Q d Hf) in E. rewrite E. reflexivity.
Qed.

Lemma to_decimal_typed v r : _to_decimal v = Ok r -> price_typed (Some r).
Proof.
  unfold _to_decimal. destruct v as [s|]; [|intros [= <-]; exact I].
  destruct (Csv.is_empty s || Csv.is_empty (strip s)); [intros [= <-]; exact I|].
  destruct (Decimal_of_str (strip s)); [|discriminate].
  cbn [rbind]. intros [= <-]. exact I.
Qed.

Lemma map_columns_typed cols raw acc r f :
  is_price_field f = true ->
  price_typed (acc !! f) ->
  map_columns cols raw acc = Ok r ->
  price_typed (r !! f).
Proof.
  intros Hf. revert acc. induction cols as [|[csv_col field_name] cols IH]; intros acc Hacc H.
  - cbn in H. injection H as <-. assumption.
  - cbn [map_columns] in H.
    destruct (is_price_field field_name) eqn:Hp.
    + destruct (_to_decimal (raw_get raw csv_col)) as [v|] eqn:Hv; [|discriminate].
      cbn [rbind] in H. refine (IH _ _ H).
      destruct (decide (field_name = f)) as [->|Hne].
      * rewrite lookup_insert_eq. apply (to_decimal_typed _ _ Hv).
      * rewrite lookup_insert_ne by assumption. assumption.
    + cbn [rbind] in H. refine (IH _ _ H).
      rewrite lookup_insert_ne by (intros ->; congruence). assumption.
Qed.

Lemma parse_rows_typed raws err rows r f :
  parse_rows raws err = Ok rows -> In r rows -> is_price_field f = true ->
  price_typed (r !! f).
Proof.
  revert rows. induction raws as [|raw raws IH]; intros rows H Hin Hf.
  - cbn in H. destruct err; [discriminate|]. injection H as <-. destruct Hin.
  - cbn [parse_rows] in H.
    destruct (map_columns CSV_COLUMN_MAP raw ∅) as [m|] eqn:Hm; [|discriminate].
    cbn [rbind] in H. destruct (parse_rows raws err) as [ms|]; [|discriminate].
    cbn [rbind] in H. injection H as <-. destruct Hin as [<-|Hin].
    + refine (map_columns_typed CSV_COLUMN_MAP raw ∅ _ f Hf _ Hm).
      rewrite lookup_empty. exact I.
    + apply (IH ms); auto.
Qed.

(** [parse_csv] stores a Decimal or [None] in a price field, never a string. *)
Lemma parse_csv_price_fields text rows r f :
  parse_csv text = Ok rows -> In r rows -> is_price_field f = true ->
  price_typed (r !! f).
Proof.
  unfold parse_csv. destruct (DictReader text) as [raws err]. apply parse_rows_typed.
Qed.

Lemma Decimal_of_str_raises s e : Decimal_of_str s = Raise e -> e = InvalidOperation.
Proof.
  unfold Decimal_of_str. destruct (numeric_string s) as [d|].
  - destruct (exact_in_limits d); [discriminate|]. intros [= <-]. reflexivity.
  - intros [= <-]. reflexivity.
Qed.

Lemma is_empty_true s : Csv.is_empty s = true <-> s = "".
Proof. destruct s; cbn; split; congruence. Qed.

Lemma strip_empty : strip "" = "".
Proof. reflexivity. Qed.

Lemma to_decimal_raises v e : _to_decimal v = Raise e -> e = InvalidOperation.
Proof.
  unfold _to_decimal. destruct v as [s|]; [|discriminate].
  destruct (_ || _); [discriminate|].
  destruct (Decimal_of_str (strip s)) eqn:E; [discriminate|].
  cbn [rbind]. intros [= <-]. apply (Decimal_of_str_raises _ _ E).
Qed.

Lemma to_decimal_rejected v : rejected v -> _to_decimal v = Raise InvalidOperation.
Proof.
  intros [s [-> [Hs Hd]]]. unfold _to_decimal.
  destruct (Csv.is_empty s) eqn:E1.
  { apply is_empty_true in E1. subst s. contradiction Hs. reflexivity. }
  destruct (Csv.is_empty (strip s)) eqn:E2.
  { apply is_empty_true in E2. contradiction. }
  cbn [orb]. rewrite Hd. reflexivity.
Qed.

Lemma to_decimal_accepts v r : _to_decimal v = Ok r -> currency_cell v (Some r).
Proof.
  unfold _to_decimal, currency_cell. destruct v as [s|]; [|intros [= <-]; reflexivity].
  destruct (Csv.is_empty s) eqn:E1.
  { apply is_empty_true in E1. subst s. intros [= <-]. left. split; reflexivity. }
  destruct (Csv.is_empty (strip s)) eqn:E2.
  { apply is_empty_true in E2. intros [= <-]. left. split; [assumption|reflexivity]. }
  cbn [orb]. destruct (Decimal_of_str (strip s)) as [d|] eqn:E; [|discriminate].
  cbn [rbind]. intros [= <-]. right. split.
  - intros H. rewrite H in E2. discriminate.
  - exists d. split; reflexivity.
Qed.

Lemma map_columns_raises cols raw acc e :
  map_columns cols raw acc = Raise e -> e = InvalidOperation.
Proof.
  revert acc. induction cols as [|[c f] cols IH]; intros acc H; [discriminate|].
  cbn [map_columns] in H. destruct (is_price_field f).
  - destruct (_to_decimal (raw_get raw c)) as [v|e'] eqn:E.
    + cbn [rbind] in H. apply (IH _ H).
    + cbn [rbind] in H. injection H as <-. apply (to_decimal_raises _ _ E).
  - cbn [rbind] in H. apply (IH _ H).
Qed.

Lemma map_columns_rejected cols raw acc c f :
  In (c, f) cols -> is_price_field f = true -> rejected (raw_get raw c) ->
  map_columns cols raw acc = Raise InvalidOperation.
Proof.
  intros Hin Hf Hr. revert acc. induction cols as [|[c' f'] cols IH]; intros acc; [destruct Hin|].
  destruct (map_columns ((c', f') :: cols) raw acc) as [r|e] eqn:E.
  - exfalso. cbn [map_columns] in E. destruct Hin as [[= -> ->]|Hin].
    + rewrite Hf, (to_decimal_rejected _ Hr) in E. discriminate.
    + destruct (if is_price_field f' then _ else _) as [v|]; [|discriminate].
      cbn [rbind] in E. rewrite (IH Hin) in E. discriminate.
  - f_equal. apply (map_columns_raises _ _ _ _ E).
Qed.

Lemma parse_rows_raises raws err e :
  parse_rows raws err = Raise e -> e = InvalidOperation \/ err = Some e.
Proof.
  induction raws as [|raw raws IH]; cbn [parse_rows].
  - destruct err; [intros [= <-]; right; reflexivity|discriminate].
  - destruct (map_columns CSV_COLUMN_MAP raw ∅) eqn:E; cbn [rbind].
    + destruct (parse_rows raws err); cbn [rbind]; [discriminate|].
      intros [= <-]. apply IH. reflexivity.
    + intros [= <-]. left. apply (map_columns_raises _ _ _ _ E).
Qed.

Lemma parse_rows_rejected raws err raw c f :
  In raw raws -> In (c, f) CSV_COLUMN_MAP -> is_price_field f = true ->
  rejected (raw_get raw c) ->
  parse_rows raws err = Raise InvalidOperation.
Proof.
  intros Hin Hc Hf Hr. induction raws as [|raw' raws IH]; [destruct Hin|].
  cbn [parse_rows]. destruct Hin as [->|Hin].
  - rewrite (map_columns_rejected _ _ _ _ _ Hc Hf Hr). reflexivity.
  - destruct (map_columns CSV_COLUMN_MAP raw' ∅) eqn:E; cbn [rbind].
    + rewrite (IH Hin). reflexivity.
    + f_equal. apply (map_columns_raises _ _ _ _ E).
Qed.

Lemma mapped_fields_NoDup : List.NoDup mapped_fields.
Proof.
  unfold mapped_fields. cbn.
  repeat (constructor; [cbn; intros H; repeat (destruct H as [H|H]; [discriminate H|]); exact H|]).
  constructor.
Qed.

(** The row [map_columns] builds holds, for each column, the value of its
    cell, and nothing else changes. *)
Lemma map_columns_lookup cols raw acc r :
  List.NoDup (map snd cols) ->
  map_columns cols raw acc = Ok r ->
  (forall c f, In (c, f) cols ->
               exists v, cell_value raw c f = Ok v /\ r !! f = Some v) /\
  (forall f, ~ In f (map snd cols) -> r !! f = acc !! f).
Proof.
  revert acc. induction cols as [|[c' f'] cols IH]; intros acc Hnd H.
  - cbn in H. injection H as <-. split; [intros c f []|reflexivity].
  - cbn [map snd] in Hnd. inversion Hnd as [|? ? Hnotin Hnd']; subst.
    cbn [map_columns] in H. fold (cell_value raw c' f') in H.
    destruct (cell_value raw c' f') as [v|] eqn:Ev; [|discriminate].
    cbn [rbind] in H. destruct (IH _ Hnd' H) as [IH1 IH2]. split.
    + intros c f [[= -> ->]|Hin].
      * exists v. split; [assumption|]. rewrite (IH2 _ Hnotin). apply lookup_insert_eq.
      * apply IH1. assumption.
    + intros f Hf. cbn [map snd] in Hf.
      rewrite IH2 by (intros Hin; apply Hf; right; assumption).
      apply lookup_insert_ne. intros ->. apply Hf. left. reflexivity.
Qed.

Lemma parse_rows_cells raws err rows :
  parse_rows raws err = Ok rows ->
  err = None /\
  Forall2 (fun raw r => map_columns CSV_COLUMN_MAP raw ∅ = Ok r) raws rows.
Proof.
  revert rows. induction raws as [|raw raws IH]; intros rows H.
  - cbn in H. destruct err; [discriminate|]. injection H as <-. split; constructor.
  - cbn [parse_rows] in H.
    destruct (map_columns CSV_COLUMN_MAP raw ∅) as [m|] eqn:Hm; [|discriminate].
    cbn [rbind] in H. destruct (parse_rows raws err) as [ms|]; [|discriminate].
    cbn [rbind] in H. injection H as <-. destruct (IH ms eq_refl) as [He Hall].
    split; [assumption|]. constructor; assumption.
Qed.

(** ** Exact decimal arithmetic within the context precision *)

Lemma ndigits_mul_pow10 c k :
  c <> 0%N -> 0 <= k -> ndigits (c * pow10 k) = ndigits c + k.
Proof.
  intros Hc Hk. destruct (ndigits_spec c Hc) as [Hd [Hlo Hhi]].
  apply ndigits_unique; [lia|].
  replace (ndigits c + k - 1) with ((ndigits c - 1) + k) by lia.
  rewrite !pow10_add by lia. pose proof (pow10_pos k).
  split.
  - apply N.mul_le_mono_r. assumption.
  - apply N.mul_lt_mono_pos_r; assumption.
Qed.

Lemma ndigits_mono a b : (a <= b)%N -> ndigits a <= ndigits b.
Proof.
  intros H. destruct (N.eq_dec a 0) as [->|Ha]; [apply ndigits_pos|].
  assert (Hb : b <> 0%N) by lia.
  destruct (ndigits_spec a Ha) as [_ [Hlo _]].
  destruct (ndigits_spec b Hb) as [Hd [_ Hhi]].
  destruct (Z.le_gt_cases (ndigits a) (ndigits b)) as [|Hgt]; [assumption|].
  pose proof (pow10_le_mono (ndigits b) (ndigits a - 1) ltac:(lia)). lia.
Qed.

Lemma ndigits_lt_pow10 n k : 0 <= k -> ndigits n <= k -> (n < pow10 k)%N.
Proof.
  intros Hk H. destruct (N.eq_dec n 0) as [->|Hn]; [apply pow10_pos|].
  destruct (ndigits_spec n Hn) as [_ [_ Hhi]].
  pose proof (pow10_le_mono (ndigits n) k H). lia.
Qed.

Lemma signed_xorb s1 c1 s2 c2 :
  signed (xorb s1 s2) (c1 * c2) = signed s1 c1 * signed s2 c2.
Proof. destruct s1, s2; cbn [xorb signed]; rewrite N2Z.inj_mul; lia. Qed.

Lemma Qfin_mul s1 c1 e1 s2 c2 e2 :
  (Qfin (xorb s1 s2) (c1 * c2) (e1 + e2) == Qfin s1 c1 e1 * Qfin s2 c2 e2)%Q.
Proof.
  unfold Qfin. rewrite signed_xorb, inject_Z_mult, Qten_add. ring.
Qed.

Lemma fix_fin_exact s c e :
  in_context (Fin s c e) = true -> fix_fin s c e = Ok (Fin s c e).
Proof. intros H. exact (fix_in_context _ H). Qed.

(** [a * b] is exact when the product of the coefficients fits the context. *)
Lemma mul_exact s1 c1 e1 s2 c2 e2 :
  in_context (Fin (xorb s1 s2) (c1 * c2) (e1 + e2)) = true ->
  mul (Fin s1 c1 e1) (Fin s2 c2 e2) = Ok (Fin (xorb s1 s2) (c1 * c2) (e1 + e2)).
Proof.
  intros H. unfold mul. cbn [check_nans]. apply (fix_in_context _ H).
Qed.

Lemma in_context_intro s c e :
  ndigits c <= prec -> -999000 <= e <= 999000 -> in_context (Fin s c e) = true.
Proof.
  intros Hd He. cbn [in_context]. unfold adjusted, Etiny, Emax, Emin, prec in *.
  pose proof (ndigits_pos c).
  destruct (c =? 0)%N; repeat (apply andb_true_intro; split); apply Z.leb_le; lia.
Qed.

(** The normalization of addition only rescales when both coefficients,
    brought to the smaller exponent, fit the context. *)
Lemma normalize_exact c1 e1 c2 e2 :
  c1 <> 0%N -> c2 <> 0%N ->
  ndigits (c1 * pow10 (e1 - Z.min e1 e2)) <= prec ->
  ndigits (c2 * pow10 (e2 - Z.min e1 e2)) <= prec ->
  normalize c1 e1 c2 e2 =
  ((c1 * pow10 (e1 - Z.min e1 e2), Z.min e1 e2)%N,
   (c2 * pow10 (e2 - Z.min e1 e2), Z.min e1 e2)%N).
Proof.
  intros H1 H2 D1 D2. unfold normalize.
  pose proof (ndigits_pos c1). pose proof (ndigits_pos c2).
  destruct (Z.ltb_spec e1 e2) as [Hlt|Hge].
  - assert (Em : Z.min e1 e2 = e1) by lia. rewrite Em in *. clear Em.
    rewrite Z.sub_diag in *. change (pow10 0) with 1%N in *.
    rewrite N.mul_1_r in *. rewrite ndigits_mul_pow10 in D2 by (assumption || lia).
    unfold prec in *.
    destruct (Z.ltb_spec (ndigits c1 + e1 - 1) (e2 + Z.min (-1) (ndigits c2 - 28 - 2)));
      [lia|]. reflexivity.
  - assert (Em : Z.min e1 e2 = e2) by lia. rewrite Em in *. clear Em.
    rewrite Z.sub_diag in *. change (pow10 0) with 1%N in *.
    rewrite N.mul_1_r in *. rewrite ndigits_mul_pow10 in D1 by (assumption || lia).
    unfold prec in *.
    destruct (Z.ltb_spec (ndigits c2 + e2 - 1) (e1 + Z.min (-1) (ndigits c1 - 28 - 2)));
      [lia|]. reflexivity.
Qed.

Lemma Qfin_at s c e m :
  m <= e -> (Qfin s c e == Qfin s (c * pow10 (e - m)) m)%Q.
Proof.
  intros H. rewrite (Qfin_scaled s c e m H). unfold Qfin, scaled.
  apply Qmult_comp; [|reflexivity].
  destruct s; cbn [signed]; rewrite N2Z.inj_mul, pow10_Z by lia;
    rewrite <- ?Z.mul_opp_l; reflexivity.
Qed.

Lemma Qfin_add_same s a b m : (Qfin s (a + b) m == Qfin s a m + Qfin s b m)%Q.
Proof.
  unfold Qfin. destruct s; cbn [signed]; rewrite N2Z.inj_add;
    rewrite ?Z.opp_add_distr, inject_Z_plus; ring.
Qed.

Lemma Qfin_sub_diff s a b m :
  (b <= a)%N -> (Qfin s (a - b) m == Qfin s a m + Qfin (negb s) b m)%Q.
Proof.
  intros H. unfold Qfin. destruct s; cbn [signed negb]; rewrite N2Z.inj_sub by assumption.
  - rewrite Z.opp_sub_distr, inject_Z_plus, !inject_Z_opp. ring.
  - unfold Z.sub. rewrite inject_Z_plus, !inject_Z_opp. ring.
Qed.

(** [a + b] is exact when the operands, brought to the smaller exponent, and
    their sum fit the context. *)
Lemma add_fin_exact s1 c1 e1 s2 c2 e2 :
  c1 <> 0%N -> c2 <> 0%N ->
  -999000 <= Z.min e1 e2 <= 999000 ->
  ndigits (c1 * pow10 (e1 - Z.min e1 e2)) <= prec ->
  ndigits (c2 * pow10 (e2 - Z.min e1 e2)) <= prec ->
  ndigits (c1 * pow10 (e1 - Z.min e1 e2) + c2 * pow10 (e2 - Z.min e1 e2)) <= prec ->
  exists s c,
    add_fin s1 c1 e1 s2 c2 e2 = Ok (Fin s c (Z.min e1 e2)) /\
    (c <= c1 * pow10 (e1 - Z.min e1 e2) + c2 * pow10 (e2 - Z.min e1 e2))%N /\
    (Qfin s c (Z.min e1 e2) == Qfin s1 c1 e1 + Qfin s2 c2 e2)%Q.
Proof.
  intros H1 H2 Hm D1 D2 D12. set (m := Z.min e1 e2) in *.
  unfold add_fin.
  destruct (N.eqb_spec c1 0); [contradiction|]. destruct (N.eqb_spec c2 0); [contradiction|].
  cbn [andb]. rewrite (normalize_exact c1 e1 c2 e2 H1 H2 D1 D2). fold m.
  set (n1 := (c1 * pow10 (e1 - m))%N) in *. set (n2 := (c2 * pow10 (e2 - m))%N) in *.
  assert (V1 : (Qfin s1 c1 e1 == Qfin s1 n1 m)%Q) by (apply Qfin_at; lia).
  assert (V2 : (Qfin s2 c2 e2 == Qfin s2 n2 m)%Q) by (apply Qfin_at; lia).
  destruct (Bool.eqb s1 s2) eqn:Es; cbn [negb].
  - apply Bool.eqb_prop in Es. subst s2.
    rewrite (fix_fin_exact s1 (n1 + n2) m) by (apply in_context_intro; assumption).
    exists s1, (n1 + n2)%N. split; [reflexivity|]. split; [lia|].
    rewrite V1, V2. apply Qfin_add_same.
  - assert (Hs : s2 = negb s1) by (destruct s1, s2; try discriminate; reflexivity).
    destruct (N.eqb_spec n1 n2) as [E|E].
    + rewrite (fix_fin_exact false 0 m)
        by (apply in_context_intro; [vm_compute; discriminate|assumption]).
      exists false, 0%N. split; [reflexivity|]. split; [lia|].
      rewrite V1, V2, Hs, E, Qfin_negb, Qfin_zero. ring.
    + destruct (N.ltb_spec n1 n2) as [L|L].
      * rewrite (fix_fin_exact s2 (n2 - n1) m).
        2:{ apply in_context_intro; [|assumption].
            etransitivity; [apply ndigits_mono|exact D2]. lia. }
        exists s2, (n2 - n1)%N. split; [reflexivity|]. split; [lia|].
        rewrite V1, V2, (Qfin_sub_diff s2 n2 n1 m) by lia.
        rewrite Hs, Bool.negb_involutive. ring.
      * rewrite (fix_fin_exact s1 (n1 - n2) m).
        2:{ apply in_context_intro; [|assumption].
            etransitivity; [apply ndigits_mono|exact D1]. lia. }
        exists s1, (n1 - n2)%N. split; [reflexivity|]. split; [lia|].
        rewrite V1, V2, (Qfin_sub_diff s1 n1 n2 m) by lia. rewrite Hs. reflexivity.
Qed.

Lemma strip_pow10 k : forall fuel m x ideal,
  (k <= fuel)%nat -> x + Z.of_nat k <= ideal ->
  strip_to_ideal fuel (m * pow10 (Z.of_nat k)) x ideal =
  strip_to_ideal (fuel - k) m (x + Z.of_nat k) ideal.
Proof.
  induction k as [|k IH]; intros fuel m x ideal Hk Hx.
  - change (pow10 (Z.of_nat 0)) with 1%N. rewrite N.mul_1_r, Nat.sub_0_r.
    replace (x + Z.of_nat 0) with x by lia. reflexivity.
  - destruct fuel as [|fuel]; [lia|]. cbn [strip_to_ideal Nat.sub].
    replace (Z.of_nat (S k)) with (Z.of_nat k + 1) in * by lia.
    rewrite pow10_succ by lia.
    replace (m * (10 * pow10 (Z.of_nat k)))%N with (10 * (m * pow10 (Z.of_nat k)))%N by lia.
    set (t := (m * pow10 (Z.of_nat k))%N).
    destruct (Z.ltb_spec x ideal); [|lia].
    replace ((10 * t) mod 10)%N with 0%N
      by (symmetry; rewrite N.mul_comm; apply N.Div0.mod_mul).
    cbn [N.eqb andb].
    replace (10 * t / 10)%N with t by (symmetry; rewrite N.mul_comm; apply N.div_mul; discriminate).
    unfold t. rewrite IH by lia. f_equal. lia.
Qed.

Lemma strip_spec fuel : forall c x ideal c' x',
  strip_to_ideal fuel c x ideal = (c', x') ->
  (c = c' * pow10 (x' - x))%N /\ x <= x' /\ x' <= Z.max x ideal.
Proof.
  induction fuel as [|fuel IH]; intros c x ideal c' x' H.
  - cbn in H. injection H as <- <-. rewrite Z.sub_diag. change (pow10 0) with 1%N. lia.
  - cbn [strip_to_ideal] in H.
    destruct (Z.ltb_spec x ideal) as [Hlt|Hge]; cbn [andb] in H.
    + destruct (N.eqb_spec (c mod 10) 0) as [Hz|Hnz].
      * apply IH in H. destruct H as [Hc [H1 H2]].
        pose proof (N.div_mod c 10 ltac:(discriminate)) as Hdm. rewrite Hz in Hdm.
        split; [|lia]. replace (x' - x) with ((x' - (x + 1)) + 1) by lia.
        rewrite pow10_succ by lia. lia.
      * injection H as <- <-. rewrite Z.sub_diag. change (pow10 0) with 1%N. lia.
    + injection H as <- <-. rewrite Z.sub_diag. change (pow10 0) with 1%N. lia.
Qed.

(** [d / 100] is exact: only the exponent moves. *)
Lemma div_100_exact s c e :
  c <> 0%N -> ndigits c <= prec -> -999000 <= e - 2 -> e <= 999000 ->
  exists c' e',
    div (Fin s c e) (Fin false 100 0) = Ok (Fin s c' e') /\
    c' <> 0%N /\ (c' <= c)%N /\ e - 2 <= e' <= e /\
    (Qfin s c' e' == Qfin s c e / 100)%Q.
Proof.
  intros Hc Hd Hlo Hhi. unfold div. cbn [check_nans]. unfold div_fin.
  change (100 =? 0)%N with false. cbv iota.
  destruct (N.eqb_spec c 0); [contradiction|].
  change (ndigits 100) with 3. pose proof (ndigits_pos c) as Hd1. unfold prec in *.
  set (shift := 3 - ndigits c + 28 + 1).
  destruct (Z.leb_spec 0 shift); [|lia].
  assert (Enum : (c * pow10 shift = c * pow10 (shift - 2) * 100)%N).
  { replace shift with ((shift - 2) + 2) at 1 by lia. rewrite pow10_add by lia.
    change (pow10 2) with 100%N. lia. }
  rewrite Enum, N.Div0.mod_mul, N.div_mul by discriminate.
  cbn [N.eqb negb]. rewrite Z.sub_0_r. rewrite xorb_false_r.
  rewrite ndigits_mul_pow10 by (assumption || lia).
  pose proof (strip_pow10 (Z.to_nat (shift - 2)) (Z.to_nat (ndigits c + (shift - 2)))
                c (e - shift) e ltac:(lia) ltac:(lia)) as Ek.
  rewrite Z2Nat.id in Ek by lia. rewrite Ek. clear Ek.
  replace (e - shift + (shift - 2)) with (e - 2) by lia.
  destruct (strip_to_ideal _ c (e - 2) e) as [c' e'] eqn:Es.
  apply strip_spec in Es. destruct Es as [Ec [E1 E2]].
  assert (Hc' : c' <> 0%N) by (intros ->; rewrite N.mul_0_l in Ec; contradiction).
  assert (Hle : (c' <= c)%N).
  { pose proof (pow10_pos (e' - (e - 2))) as Hp. rewrite Ec.
    remember (pow10 (e' - (e - 2))) as p. clear - Hp. nia. }
  rewrite (fix_fin_exact s c' e').
  2:{ apply in_context_intro; [|lia].
      etransitivity; [apply ndigits_mono; exact Hle|]. unfold prec. assumption. }
  exists c', e'. split; [reflexivity|]. split; [assumption|]. split; [assumption|].
  split; [lia|].
  rewrite (Qfin_at s c' e' (e - 2)) by lia. rewrite <- Ec.
  unfold Qfin. replace (e - 2) with (e + -2) by lia. rewrite Qten_add.
  change (Qten (-2)) with (1 # 100)%Q. field.
Qed.



Lemma ndigits_mul a b : ndigits (a * b) <= ndigits a + ndigits b.
Proof.
  pose proof (ndigits_pos a). pose proof (ndigits_pos b).
  apply ndigits_le_of_lt; [lia|]. rewrite pow10_add by lia.
  pose proof (ndigits_lt_pow10 a (ndigits a) ltac:(lia) ltac:(lia)).
  pose proof (ndigits_lt_pow10 b (ndigits b) ltac:(lia) ltac:(lia)).
  remember (pow10 (ndigits a)) as x. remember (pow10 (ndigits b)) as y. nia.
Qed.

(** [1 - ratio] for the ratio of a percentage in the domain. *)
Lemma one_minus_exact s c e :
  c <> 0%N -> ndigits c <= 10 -> -10 <= e -> ndigits c + e <= 10 ->
  exists sm cm em,
    sub (Fin false 1 0) (Fin s c e) = Ok (Fin sm cm em) /\
    ndigits cm <= 11 /\ -10 <= em <= 0 /\
    (Qfin sm cm em == 1 - Qfin s c e)%Q.
Proof.
  intros Hc Hd He Ha. unfold sub. cbn [check_nans copy_negate].
  unfold add. cbn [check_nans].
  assert (Hm : -10 <= Z.min 0 e <= 0) by lia.
  assert (N1 : (1 * pow10 (0 - Z.min 0 e) <= pow10 10)%N).
  { rewrite N.mul_1_l. apply pow10_le_mono. lia. }
  assert (N2 : (c * pow10 (e - Z.min 0 e) < pow10 10)%N).
  { apply ndigits_lt_pow10; [lia|]. rewrite ndigits_mul_pow10 by (assumption || lia). lia. }
  change (pow10 10) with 10000000000%N in *.
  destruct (add_fin_exact false 1 0 (negb s) c e) as [sm [cm [Hadd [Hle Hv]]]];
    try assumption; try discriminate; try lia.
  - apply ndigits_le_of_lt; [unfold prec; lia|].
    change (pow10 prec) with 10000000000000000000000000000%N. lia.
  - apply ndigits_le_of_lt; [unfold prec; lia|].
    change (pow10 prec) with 10000000000000000000000000000%N. lia.
  - apply ndigits_le_of_lt; [unfold prec; lia|].
    change (pow10 prec) with 10000000000000000000000000000%N. lia.
  - exists sm, cm, (Z.min 0 e). split; [exact Hadd|]. split.
    + apply ndigits_le_of_lt; [lia|].
      change (pow10 11) with 100000000000%N. lia.
    + split; [lia|]. rewrite Hv, Qfin_negb.
      assert (E1 : (Qfin false 1 0 == 1)%Q) by reflexivity. rewrite E1. ring.
Qed.

Lemma undercut_price_bounds s c e :
  undercut_price (Fin s c e) = true ->
  ndigits c <= 12 /\ -1000 <= e /\ ndigits c + e <= 10.
Proof.
  cbn [undercut_price]. intros H. apply andb_prop in H as [H H3].
  apply andb_prop in H as [H1 H2]. lia.
Qed.

Lemma undercut_percentage_bounds s c e :
  undercut_percentage (Fin s c e) = true ->
  ndigits c <= 10 /\ -8 <= e /\ ndigits c + e <= 10.
Proof.
  cbn [undercut_percentage]. intros H. apply andb_prop in H as [H H3].
  apply andb_prop in H as [H1 H2]. lia.
Qed.

(** The product with the multiplier, and its rounding to two places. *)
(** Quantizing to two places a value below [10 ** 24] gives a value the
    next quantize accepts. *)
Lemma half_up_coeff_bound c e :
  ndigits c + e <= 24 -> (half_up_coeff c e (-2) < pow10 27)%N.
Proof.
  intros H. destruct (N.eq_dec c 0) as [->|Hc].
  { rewrite half_up_coeff_zero. apply pow10_pos. }
  destruct (ndigits_spec c Hc) as [Hd [_ Hhi]].
  assert (H27 : (pow10 26 < pow10 27)%N) by (apply pow10_lt_mono; lia).
  unfold half_up_coeff. destruct (Z.leb_spec (-2) e) as [Hpad|Hcut].
  - pose proof (pow10_le_mono (ndigits c + (e - -2)) 26 ltac:(lia)) as Hle.
    rewrite pow10_add in Hle by lia. pose proof (pow10_pos (e - -2)). nia.
  - rewrite half_up_div by lia.
    assert (Hq : (c / pow10 (-2 - e) < pow10 26)%N).
    { destruct (Z_le_gt_dec (ndigits c) (-2 - e)) as [Hsmall|Hbig].
      - pose proof (pow10_le_mono (ndigits c) (-2 - e) Hsmall).
        rewrite N.div_small by lia. apply pow10_pos.
      - apply N.Div0.div_lt_upper_bound.
        pose proof (pow10_le_mono (ndigits c) ((-2 - e) + 26) ltac:(lia)) as Hle.
        rewrite pow10_add in Hle by lia. lia. }
    destruct (_ <=? _)%N; lia.
Qed.

Lemma quantized_quantizable s c e :
  ndigits c + e <= 24 -> quantizable (Fin s (half_up_coeff c e (-2)) (-2)) = true.
Proof.
  intros H. pose proof (half_up_coeff_bound c e H) as Hb.
  pose proof (ndigits_le_of_lt _ 27 ltac:(lia) Hb) as Hn.
  cbn [quantizable]. apply orb_true_iff. right. apply Z.leb_le. unfold adjusted. lia.
Qed.

Lemma undercut_product sl cl el sm cm em :
  undercut_price (Fin sl cl el) = true ->
  ndigits cm <= 11 -> -10 <= em <= 0 ->
  exists cand,
    (let* product := mul (Fin sl cl el) (Fin sm cm em) in
     quantize product TWO_PLACES ROUND_HALF_UP) = Ok cand /\
    (exists s c, cand = Fin s c (-2)) /\
    (Qvalue cand == Qround_half_up 2 (Qfin sl cl el * Qfin sm cm em))%Q /\
    quantizable cand = true.
Proof.
  intros Hl Hd He. apply undercut_price_bounds in Hl as [L1 [L2 L3]].
  pose proof (ndigits_mul cl cm) as Hmul. pose proof (ndigits_pos (cl * cm)) as Hpos.
  rewrite mul_exact by (apply in_context_intro; unfold prec; lia).
  cbn [rbind].
  destruct (quantize_total (Fin (xorb sl sm) (cl * cm) (el + em))) as [cand Hq].
  { cbn [quantizable]. apply orb_true_iff. right. apply Z.leb_le. unfold adjusted. lia. }
  exists cand. split; [exact Hq|].
  destruct (quantize_Q _ _ _ _ Hq) as [_ Hv].
  split; [rewrite (quantize_two_places _ _ _ _ Hq); eauto|].
  split; [rewrite Hv; apply Qround_half_up_comp; apply Qfin_mul|].
  rewrite (quantize_two_places _ _ _ _ Hq). apply quantized_quantizable. lia.
Qed.

Lemma undercut_candidate_exact current_price tcg_low market_price undercut_pct :
  undercut_price tcg_low = true ->
  opt_all undercut_percentage undercut_pct = true ->
  exists cand,
    candidate_price current_price tcg_low market_price (Member UNDERCUT) undercut_pct
      = Ok cand /\
    (exists s c, cand = Fin s c (-2)) /\
    (Qvalue cand ==
     Qround_half_up 2 (Qvalue tcg_low * (1 - pct_value undercut_pct / 100)))%Q /\
    quantizable cand = true.
Proof.
  intros Hl Hp. destruct tcg_low as [sl cl el| |]; try discriminate.
  cbn [candidate_price Qvalue].
  destruct (absent_or_zero undercut_pct) eqn:Ez.
  - rewrite (or_zero_absent _ Ez).
    change (div (Fin false 0 0) (Fin false 100 0)) with (Ok (Fin false 0 0)).
    cbn [rbind].
    change (sub (Fin false 1 0) (Fin false 0 0)) with (Ok (Fin false 1 0)).
    cbn [rbind].
    destruct (undercut_product sl cl el false 1 0 Hl) as [cand [Hc [Hf [Hv Hqz]]]];
      [vm_compute; discriminate|lia|].
    exists cand. split; [exact Hc|]. split; [exact Hf|]. split; [|exact Hqz].
    rewrite Hv. apply Qround_half_up_comp.
    assert (E1 : (Qfin false 1 0 == 1)%Q) by reflexivity.
    assert (E0 : (pct_value undercut_pct == 0)%Q).
    { destruct undercut_pct as [d|]; [|reflexivity]. cbn [pct_value].
      cbn [opt_all] in Hp. destruct d as [sp cp ep| |]; try discriminate.
      apply (truthy_Q (Fin sp cp ep) eq_refl). cbn [absent_or_zero] in Ez.
      destruct (truthy (Fin sp cp ep)); [discriminate Ez|reflexivity]. }
    rewrite E1, E0. field.
  - destruct undercut_pct as [d|]; [|discriminate]. cbn [opt_all] in Hp.
    destruct d as [sp cp ep| |]; try discriminate.
    apply undercut_percentage_bounds in Hp as [P1 [P2 P3]].
    pose proof (ndigits_pos cp) as P0.
    cbn [absent_or_zero truthy] in Ez. rewrite Bool.negb_involutive in Ez.
    apply N.eqb_neq in Ez. cbn [or_zero truthy].
    destruct (N.eqb_spec cp 0) as [|_]; [contradiction|]. cbn [negb].
    destruct (div_100_exact sp cp ep Ez) as [c' [e' [Hdiv [Hc' [Hle [He' Hv']]]]]];
      [unfold prec; lia|lia|lia|].
    rewrite Hdiv. cbn [rbind].
    pose proof (ndigits_mono _ _ Hle) as Hd'.
    destruct (one_minus_exact sp c' e' Hc') as [sm [cm [em [Hsub [Hdm [Hem Hvm]]]]]];
      [lia|lia|lia|].
    rewrite Hsub. cbn [rbind].
    destruct (undercut_product sl cl el sm cm em Hl Hdm Hem) as [cand [Hc [Hf [Hv Hqz]]]].
    exists cand. split; [exact Hc|]. split; [exact Hf|]. split; [|exact Hqz].
    rewrite Hv. apply Qround_half_up_comp. cbn [pct_value Qvalue].
    rewrite Hvm, Hv'. reflexivity.
Qed.

(** * The alert rule against exact rational arithmetic *)

(** Cutting [drop] digits and rounding moves a coefficient by less than one
    unit of the digit kept, and not at all when the cut digits are zero. *)
Lemma round_step mode c drop :
  1 <= drop ->
  let q := (c / pow10 drop)%N in
  let c1 := if 0 <? round_changed mode c drop then (q + 1)%N else q in
  (q <= c1 <= q + 1)%N /\
  (q * pow10 drop <= c < (q + 1) * pow10 drop)%N /\
  ((c mod pow10 drop = 0)%N -> c1 = q /\ c = (q * pow10 drop)%N).
Proof.
  intros Hd q c1. pose proof (pow10_pos drop) as Hp.
  pose proof (N.Div0.div_mod c (pow10 drop)) as Hdm.
  pose proof (N.mod_lt c (pow10 drop) ltac:(lia)) as Hlt.
  change (c / pow10 drop)%N with q in Hdm.
  split; [subst c1; destruct (0 <? _); lia|].
  split.
  { clearbody q. clear c1. revert Hdm Hlt Hp.
    generalize (c mod pow10 drop)%N. generalize (pow10 drop). intros P r. nia. }
  intros Hr. rewrite Hr in Hdm. split; [|clearbody q; nia].
  subst c1. unfold round_changed. fold q. rewrite Hr.
  pose proof (pow10_pos (drop - 1)) as Hp'.
  assert (H5 : (5 * pow10 (drop - 1) <=? 0)%N = false) by (apply N.leb_gt; lia).
  assert (H6 : (0 =? 5 * pow10 (drop - 1))%N = false) by (apply N.eqb_neq; lia).
  rewrite H5, H6. destruct mode; reflexivity.
Qed.

Lemma rounded_within (c c1 q P : N) :
  (q <= c1 <= q + 1)%N -> (q * P <= c < (q + 1) * P)%N -> (pow10 27 * P <= c)%N ->
  10 ^ 27 * Z.abs (Z.of_N (c1 * P) - Z.of_N c) <= Z.of_N c.
Proof.
  intros H1 H2 H3.
  assert (He : Z.abs (Z.of_N (c1 * P) - Z.of_N c) <= Z.of_N P) by nia.
  let v := eval vm_compute in (pow10 27) in change (pow10 27) with v in H3.
  lia.
Qed.

(** [_fix] in the default context, away from the exponent limits: the result
    keeps the sign, has at most [prec] digits, differs from the operand by at
    most [10 ** -27] of it, and is the operand itself when the digits beyond
    the precision are zero. *)
Lemma fix_fin_error s c e :
  c <> 0%N -> ndigits c <= 100 -> -999000 <= e <= 999000 ->
  exists c' e',
    fix_fin s c e = Ok (Fin s c' e') /\
    e <= e' <= e + 100 /\ c' <> 0%N /\ ndigits c' <= prec /\
    10 ^ 27 * Z.abs (Z.of_N c' * 10 ^ (e' - e) - Z.of_N c) <= Z.of_N c /\
    ((c mod pow10 (ndigits c - prec) = 0)%N -> Z.of_N c' * 10 ^ (e' - e) = Z.of_N c).
Proof.
  intros Hc Hn He. unfold fix_fin.
  destruct (N.eqb_spec c 0) as [|_]; [contradiction|].
  unfold Etop, Etiny, Emax, Emin, prec in *.
  destruct (Z.ltb_spec (999999 - 28 + 1) (ndigits c + e - 28)) as [Hbad|_]; [lia|].
  destruct (Z.ltb_spec (ndigits c + e - 28) (-999999 - 28 + 1)) as [Hbad|_];
    [pose proof (ndigits_pos c); lia|].
  destruct (Z.ltb_spec e (ndigits c + e - 28)) as [Hround|Hfit].
  - (* more than prec digits *)
    replace (ndigits c + e - (ndigits c + e - 28)) with 28 by lia.
    change (28 <? 0) with false. cbv iota.
    set (drop := ndigits c + e - 28 - e).
    assert (Hdrop : drop = ndigits c - 28) by (subst drop; lia).
    destruct (round_step ROUND_HALF_EVEN c drop ltac:(lia)) as [Hc1 [Hq Hex]].
    set (q := (c / pow10 drop)%N) in *.
    set (c1 := if 0 <? round_changed ROUND_HALF_EVEN c drop then (q + 1)%N else q) in *.
    destruct (ndigits_spec c Hc) as [_ [Hlo Hhi]].
    assert (Hsplit : pow10 (ndigits c) = (pow10 28 * pow10 drop)%N).
    { rewrite <- pow10_add by lia. f_equal. lia. }
    assert (Hsplit' : pow10 (ndigits c - 1) = (pow10 27 * pow10 drop)%N).
    { rewrite <- pow10_add by lia. f_equal. lia. }
    pose proof (pow10_pos drop) as Hp.
    assert (Hq28 : (q < pow10 28)%N) by nia.
    assert (Hq27 : (pow10 27 <= q)%N).
    { apply N.div_le_lower_bound; [lia|]. rewrite N.mul_comm. lia. }
    assert (HZ : Z.of_N (pow10 drop) = 10 ^ drop) by (apply pow10_Z; lia).
    pose proof (pow10_pos 27) as Hp27.
    destruct ((0 <? round_changed ROUND_HALF_EVEN c drop) && (28 <? ndigits c1)) eqn:Hcarry.
    + (* the coefficient was rounded up to 10 ** 28 *)
      apply andb_prop in Hcarry as [Hch Hnd]. apply Z.ltb_lt in Hnd.
      assert (Hc1' : c1 = pow10 28).
      { destruct (N.lt_ge_cases c1 (pow10 28)) as [Hlt|Hge]; [|lia].
        assert (ndigits c1 <= 28); [|lia].
        destruct (N.eq_dec c1 0) as [Hz|Hnz]; [rewrite Hz; vm_compute; discriminate|].
        destruct (ndigits_spec c1 Hnz) as [_ [Hlo1 _]].
        destruct (Z_le_gt_dec (ndigits c1) 28) as [|Hgt]; [assumption|exfalso].
        pose proof (pow10_le_mono 28 (ndigits c1 - 1) ltac:(lia)). lia. }
      destruct (Z.ltb_spec (999999 - 28 + 1) (ndigits c + e - 28 + 1)) as [Hbad|_]; [lia|].
      exists (c1 / 10)%N, (ndigits c + e - 28 + 1).
      split; [reflexivity|]. split; [lia|].
      rewrite Hc1'. change (pow10 28 / 10)%N with (pow10 27).
      split; [vm_compute; discriminate|]. split; [vm_compute; discriminate|].
      replace (ndigits c + e - 28 + 1 - e) with (drop + 1) by lia.
      rewrite Z.pow_add_r by lia. rewrite <- HZ.
      assert (Hval : Z.of_N (pow10 27) * (Z.of_N (pow10 drop) * 10 ^ 1) =
                     Z.of_N (c1 * pow10 drop)).
      { rewrite Hc1'. change (pow10 28) with (pow10 27 * 10)%N. lia. }
      rewrite Hval. split.
      * apply (rounded_within c c1 q (pow10 drop)); lia.
      * intros Hr. rewrite <- Hdrop in Hr. destruct (Hex Hr) as [Hcq _].
        unfold c1 in Hcq. rewrite Hch in Hcq. lia.
    + destruct (Z.ltb_spec (999999 - 28 + 1) (ndigits c + e - 28)) as [Hbad|_]; [lia|].
      exists c1, (ndigits c + e - 28).
      split; [reflexivity|]. split; [lia|].
      assert (Hc1lt : (c1 < pow10 28)%N \/ c1 = pow10 28) by lia.
      assert (Hnd1 : ndigits c1 <= 28).
      { destruct Hc1lt as [Hlt|Heq].
        - destruct (Z_le_gt_dec (ndigits c1) 28) as [|Hgt]; [assumption|exfalso].
          destruct (ndigits_spec c1 ltac:(lia)) as [_ [Hlo1 _]].
          pose proof (pow10_le_mono 28 (ndigits c1 - 1) ltac:(lia)). lia.
        - apply andb_false_iff in Hcarry as [Hch|Hnd]; [|apply Z.ltb_ge in Hnd; exact Hnd].
          exfalso. subst c1. rewrite Hch in Heq. lia. }
      split; [lia|]. split; [exact Hnd1|].
      replace (ndigits c + e - 28 - e) with drop by lia. rewrite <- HZ.
      rewrite <- N2Z.inj_mul. split.
      * apply (rounded_within c c1 q (pow10 drop)); lia.
      * intros Hr. rewrite <- Hdrop in Hr. destruct (Hex Hr) as [Hcq1 Hcq].
        rewrite Hcq1. lia.
  - exists c, e. split; [reflexivity|]. split; [lia|]. split; [exact Hc|].
    split; [lia|]. rewrite Z.sub_diag, Z.mul_1_r, Z.sub_diag. cbn [Z.abs].
    split; [lia|reflexivity].
Qed.

Lemma div_error_arith (R cf c2 num coeff rem : Z) :
  0 < c2 -> 0 <= rem < c2 -> num = c2 * coeff + rem ->
  coeff <= cf <= coeff + 1 -> (rem = 0 -> cf = coeff) ->
  10 ^ 28 <= coeff -> 10 ^ 27 * Z.abs (R - cf) <= cf ->
  10 ^ 25 * Z.abs (R * c2 - num) <= num.
Proof.
  intros Hc2 Hrem Hnum Hcf Hex Hbig Herr.
  assert (H0 : Z.abs (cf * c2 - num) <= c2) by (apply Z.abs_le; nia).
  assert (H1 : Z.abs (R * c2 - num) <= Z.abs (R - cf) * c2 + c2).
  { replace (R * c2 - num) with ((R - cf) * c2 + (cf * c2 - num)) by ring.
    eapply Z.le_trans; [apply Z.abs_triangle|].
    rewrite Z.abs_mul, (Z.abs_eq c2) by lia. lia. }
  assert (H2 : cf * c2 <= num + c2) by nia.
  assert (H3 : 10 ^ 27 * (Z.abs (R - cf) * c2) <= cf * c2) by nia.
  assert (H4 : 10 ^ 28 * c2 <= num) by nia.
  revert H1 H2 H3 H4. generalize (Z.abs (R * c2 - num)) (Z.abs (R - cf) * c2) (cf * c2).
  intros X Y W. lia.
Qed.

(** The quotient of two finite values with at most [prec] digits each: the
    coefficient of the result, brought to the exponent the division works at,
    is within [10 ** -25] of the exact quotient. *)
Lemma div_fin_error s1 c1 e1 s2 c2 e2 :
  c1 <> 0%N -> c2 <> 0%N -> ndigits c1 <= prec -> ndigits c2 <= prec ->
  -1000 <= e1 <= 1000 -> -1000 <= e2 <= 1000 ->
  let shift := ndigits c2 - ndigits c1 + prec + 1 in
  let exp := e1 - e2 - shift in
  exists c' e',
    div_fin s1 c1 e1 s2 c2 e2 = Ok (Fin (xorb s1 s2) c' e') /\
    c' <> 0%N /\ ndigits c' <= prec /\ exp <= e' <= e1 - e2 + 100 /\
    10 ^ 25 * Z.abs (Z.of_N c' * 10 ^ (e' - exp) * Z.of_N c2 - Z.of_N c1 * 10 ^ shift)
    <= Z.of_N c1 * 10 ^ shift.
Proof.
  intros Hc1 Hc2 Hn1 Hn2 He1 He2 shift exp. unfold div_fin.
  destruct (N.eqb_spec c2 0) as [|_]; [contradiction|].
  destruct (N.eqb_spec c1 0) as [|_]; [contradiction|].
  fold shift. fold exp. unfold prec in *.
  pose proof (ndigits_pos c1) as Hp1. pose proof (ndigits_pos c2) as Hp2.
  assert (Hshift : 1 <= shift <= 57) by (subst shift; lia).
  destruct (Z.leb_spec 0 shift) as [_|Hbad]; [|lia].
  set (num := (c1 * pow10 shift)%N).
  set (coeff := (num / c2)%N). set (rem := (num mod c2)%N).
  pose proof (N.Div0.div_mod num c2) as Hdm. fold coeff rem in Hdm.
  pose proof (N.mod_lt num c2 Hc2) as Hrem. fold rem in Hrem.
  destruct (ndigits_spec c1 Hc1) as [_ [Hlo1 Hhi1]].
  destruct (ndigits_spec c2 Hc2) as [_ [Hlo2 Hhi2]].
  assert (Hs1 : pow10 (ndigits c1 - 1 + shift) = (pow10 28 * pow10 (ndigits c2))%N).
  { rewrite <- pow10_add by lia. f_equal. subst shift. lia. }
  assert (Hs2 : pow10 (ndigits c1 + shift) = (pow10 30 * pow10 (ndigits c2 - 1))%N).
  { rewrite <- pow10_add by lia. f_equal. subst shift. lia. }
  assert (Hnlo : (pow10 28 * pow10 (ndigits c2) <= num)%N).
  { rewrite <- Hs1, pow10_add by lia. subst num. apply N.mul_le_mono_r. exact Hlo1. }
  assert (Hnhi : (num < pow10 30 * pow10 (ndigits c2 - 1))%N).
  { rewrite <- Hs2, pow10_add by lia. subst num. apply N.mul_lt_mono_pos_r; [apply pow10_pos|exact Hhi1]. }
  assert (Hcl : (pow10 28 <= coeff)%N).
  { apply N.div_le_lower_bound; [exact Hc2|].
    pose proof (pow10_pos 28). nia. }
  assert (Hch : (coeff < pow10 30)%N).
  { apply N.Div0.div_lt_upper_bound. pose proof (pow10_pos 30). nia. }
  assert (HnumZ : Z.of_N num = Z.of_N c1 * 10 ^ shift).
  { subst num. rewrite N2Z.inj_mul, pow10_Z by lia. reflexivity. }
  assert (H28 : Z.of_N (pow10 28) = 10 ^ 28) by reflexivity.
  assert (Hnd : forall c, (coeff <= c <= coeff + 1)%N -> c <> 0%N /\ ndigits c <= 100).
  { intros c Hc. assert (Hc0 : c <> 0%N) by (pose proof (pow10_pos 28); lia).
    split; [exact Hc0|]. destruct (ndigits_spec c Hc0) as [_ [Hlo _]].
    destruct (Z_le_gt_dec (ndigits c) 100) as [|Hgt]; [assumption|exfalso].
    pose proof (pow10_le_mono 31 (ndigits c - 1) ltac:(lia)).
    pose proof (pow10_lt_mono 30 31 ltac:(lia) ltac:(lia)). lia. }
  destruct (N.eqb_spec rem 0) as [Hr0|Hrn]; cbn [negb].
  - (* the quotient is exact *)
    destruct (strip_to_ideal (Z.to_nat (ndigits coeff)) coeff exp (e1 - e2))
      as [c'' x''] eqn:Hstrip.
    destruct (strip_spec _ _ _ _ _ _ Hstrip) as [Hcoeff [Hx1 Hx2]].
    pose proof (pow10_pos (x'' - exp)) as HT.
    assert (Hc''0 : c'' <> 0%N) by (pose proof (pow10_pos 28); nia).
    assert (Hc''le : (c'' <= coeff)%N) by nia.
    assert (Hc''n : ndigits c'' <= 100).
    { pose proof (ndigits_mono _ _ Hc''le). destruct (Hnd coeff ltac:(lia)). lia. }
    destruct (fix_fin_error (xorb s1 s2) c'' x'' Hc''0 Hc''n ltac:(subst exp; lia))
      as (c' & e' & Hfix & Hebound & Hc'0 & Hc'n & Herr & _).
    exists c', e'. split; [exact Hfix|]. split; [exact Hc'0|]. split; [exact Hc'n|].
    split; [subst exp; lia|].
    rewrite <- HnumZ.
    apply (div_error_arith _ (Z.of_N coeff) _ _ (Z.of_N coeff) 0); try lia.
    replace (e' - exp) with ((e' - x'') + (x'' - exp)) by lia.
    rewrite Z.pow_add_r by lia. rewrite <- (pow10_Z (x'' - exp)) by lia.
    rewrite Hcoeff, N2Z.inj_mul.
    replace (Z.of_N c' * (10 ^ (e' - x'') * Z.of_N (pow10 (x'' - exp)))
             - Z.of_N c'' * Z.of_N (pow10 (x'' - exp)))
      with ((Z.of_N c' * 10 ^ (e' - x'') - Z.of_N c'') * Z.of_N (pow10 (x'' - exp))) by ring.
    rewrite Z.abs_mul, (Z.abs_eq (Z.of_N (pow10 (x'' - exp)))) by lia.
    nia.
  - (* the quotient is cut, with a sticky digit *)
    set (cf := (if (coeff mod 5 =? 0)%N then (coeff + 1)%N else coeff)).
    assert (Hcf : (coeff <= cf <= coeff + 1)%N) by (subst cf; destruct (_ =? _)%N; lia).
    destruct (Hnd cf Hcf) as [Hcf0 Hcfn].
    destruct (fix_fin_error (xorb s1 s2) cf exp Hcf0 Hcfn ltac:(subst exp; lia))
      as (c' & e' & Hfix & Hebound & Hc'0 & Hc'n & Herr & _).
    exists c', e'. split; [exact Hfix|]. split; [exact Hc'0|]. split; [exact Hc'n|].
    split; [subst exp; lia|].
    rewrite <- HnumZ.
    apply (div_error_arith _ (Z.of_N cf) _ _ (Z.of_N coeff) (Z.of_N rem)); try lia.
Qed.

(** When the exact quotient is [M * 10 ** g] with [M] of at most [prec]
    digits and [g] not above the ideal exponent, the division returns it. *)
Lemma div_fin_grid s1 c1 e1 s2 c2 e2 (M : N) (g : Z) :
  c1 <> 0%N -> c2 <> 0%N -> ndigits c1 <= prec -> ndigits c2 <= prec ->
  -1000 <= e1 <= 1000 -> -1000 <= e2 <= 1000 ->
  let shift := ndigits c2 - ndigits c1 + prec + 1 in
  let exp := e1 - e2 - shift in
  exp <= g <= e1 - e2 -> ndigits M <= prec ->
  (c1 * pow10 shift = c2 * (M * pow10 (g - exp)))%N ->
  exists c' e',
    div_fin s1 c1 e1 s2 c2 e2 = Ok (Fin (xorb s1 s2) c' e') /\
    g <= e' /\ M = (c' * pow10 (e' - g))%N.
Proof.
  intros Hc1 Hc2 Hn1 Hn2 He1 He2 shift exp Hg HM Hq. unfold div_fin.
  destruct (N.eqb_spec c2 0) as [|_]; [contradiction|].
  destruct (N.eqb_spec c1 0) as [|_]; [contradiction|].
  fold shift. fold exp. unfold prec in *.
  pose proof (ndigits_pos c1) as Hp1. pose proof (ndigits_pos c2) as Hp2.
  assert (Hshift : 1 <= shift <= 57) by (subst shift; lia).
  destruct (Z.leb_spec 0 shift) as [_|Hbad]; [|lia].
  rewrite Hq.
  assert (Hdiv : (c2 * (M * pow10 (g - exp)) / c2 = M * pow10 (g - exp))%N).
  { rewrite N.mul_comm. apply N.div_mul. exact Hc2. }
  assert (Hmod : ((c2 * (M * pow10 (g - exp))) mod c2 = 0)%N).
  { rewrite N.mul_comm. apply N.Div0.mod_mul. }
  rewrite Hdiv, Hmod. cbn [N.eqb negb].
  assert (HM0 : M <> 0%N).
  { intros ->. rewrite N.mul_0_l, N.mul_0_r in Hq.
    pose proof (pow10_pos shift). nia. }
  set (k := Z.to_nat (g - exp)).
  assert (Hk : g - exp = Z.of_nat k) by (subst k; lia).
  rewrite Hk.
  rewrite (strip_pow10 k (Z.to_nat (ndigits (M * pow10 (Z.of_nat k)))) M exp (e1 - e2)).
  2:{ rewrite ndigits_mul_pow10 by lia. pose proof (ndigits_pos M). lia. }
  2:{ lia. }
  destruct (strip_to_ideal _ M (exp + Z.of_nat k) (e1 - e2)) as [c'' x''] eqn:Hstrip.
  destruct (strip_spec _ _ _ _ _ _ Hstrip) as [Hcoeff [Hx1 Hx2]].
  replace (exp + Z.of_nat k) with g in * by lia.
  pose proof (pow10_pos (x'' - g)) as HT.
  assert (Hc''0 : c'' <> 0%N) by nia.
  assert (Hc''le : (c'' <= M)%N) by nia.
  pose proof (ndigits_mono _ _ Hc''le) as Hmono.
  exists c'', x''. split; [|split; [exact Hx1|exact Hcoeff]].
  apply fix_fin_exact. apply in_context_intro; [unfold prec; lia|].
  subst exp. lia.
Qed.

(** Multiplying by 100 is exact: the product has at most two digits more
    than the precision, and they are zeros. *)
Lemma mul_100_exact s c e :
  c <> 0%N -> ndigits c <= prec -> -10000 <= e <= 10000 ->
  exists c' e',
    mul (Fin s c e) (Fin false 100 0) = Ok (Fin s c' e') /\
    c' <> 0%N /\ ndigits c' <= prec /\
    e <= e' /\ Z.of_N c' * 10 ^ (e' - e) = Z.of_N c * 100.
Proof.
  intros Hc Hn He. unfold prec in *.
  change (mul (Fin s c e) (Fin false 100 0)) with (fix_fin (xorb s false) (c * 100) (e + 0)).
  rewrite xorb_false_r, Z.add_0_r.
  assert (Hnd : ndigits (c * 100) = ndigits c + 2).
  { change 100%N with (pow10 2). apply ndigits_mul_pow10; [exact Hc|lia]. }
  destruct (fix_fin_error s (c * 100) e ltac:(lia) ltac:(lia) ltac:(lia))
    as (c' & e' & Hfix & Hebound & Hc'0 & Hc'n & _ & Hex).
  exists c', e'. split; [exact Hfix|]. split; [exact Hc'0|]. split; [exact Hc'n|].
  split; [lia|]. rewrite Hex; [lia|].
  rewrite Hnd. unfold prec.
  destruct (Z_le_gt_dec (ndigits c + 2 - 28) 0) as [Hle|Hgt].
  - rewrite pow10_nonpos by lia. apply N.mod_1_r.
  - assert (Hd : ndigits c + 2 - 28 = 1 \/ ndigits c + 2 - 28 = 2) by lia.
    destruct Hd as [-> | ->].
    + change (pow10 1) with 10%N. replace (c * 100)%N with (c * 10 * 10)%N by lia.
      apply N.Div0.mod_mul.
    + change (pow10 2) with 100%N. apply N.Div0.mod_mul.
Qed.

Lemma amount_bounds s c e :
  amount (Fin s c e) = true -> -2 <= e <= 0 /\ ndigits c + e <= 10.
Proof.
  unfold amount. intros H. apply andb_prop in H as [H H3]. apply andb_prop in H as [H1 H2].
  apply Z.leb_le in H1. apply Z.leb_le in H2. apply Z.leb_le in H3. lia.
Qed.

(** An amount brought to a lower exponent, down to -2, stays below
    [10 ** 12]. *)
Lemma amount_padded c e m :
  -2 <= e <= 0 -> ndigits c + e <= 10 -> -2 <= m <= e ->
  (c * pow10 (e - m) < pow10 12)%N.
Proof.
  intros He Hn Hm. destruct (N.eq_dec c 0) as [->|Hc]; [apply pow10_pos|].
  destruct (ndigits_spec c Hc) as [_ [_ Hhi]].
  pose proof (pow10_le_mono (ndigits c + (e - m)) 12 ltac:(lia)) as Hle.
  pose proof (ndigits_pos c).
  rewrite pow10_add in Hle by lia.
  pose proof (pow10_pos (e - m)). nia.
Qed.

(** The difference of two amounts is exact. *)
Lemma sub_amount a b :
  amount a = true -> amount b = true -> ~ (Qvalue b == 0)%Q ->
  exists sd cd ed,
    sub a b = Ok (Fin sd cd ed) /\ -2 <= ed <= 0 /\ (cd < 2 * pow10 12)%N /\
    (Qfin sd cd ed == Qvalue a - Qvalue b)%Q.
Proof.
  destruct a as [s1 c1 e1| |], b as [s2 c2 e2| |]; try discriminate.
  intros Ha Hb Hb0. apply amount_bounds in Ha as [He1 Hn1]. apply amount_bounds in Hb as [He2 Hn2].
  cbn [Qvalue] in *.
  assert (Hc2 : c2 <> 0%N) by (intros ->; apply Hb0; apply Qfin_zero).
  unfold sub. cbn [check_nans copy_negate add].
  set (m := Z.min e1 e2).
  pose proof (amount_padded c1 e1 m He1 Hn1 ltac:(subst m; lia)) as Hp1.
  pose proof (amount_padded c2 e2 m He2 Hn2 ltac:(subst m; lia)) as Hp2.
  assert (H12 : (pow10 12 < pow10 13)%N) by (apply pow10_lt_mono; lia).
  assert (H13 : (2 * pow10 12 < pow10 13)%N) by (vm_compute; reflexivity).
  assert (Hneg : (Qfin s1 c1 e1 - Qfin s2 c2 e2 == Qfin s1 c1 e1 + Qfin (negb s2) c2 e2)%Q).
  { rewrite Qfin_negb. reflexivity. }
  destruct (N.eq_dec c1 0) as [->|Hc1].
  - (* the minuend is zero *)
    unfold add_fin. cbn [N.eqb andb].
    destruct (N.eqb_spec c2 0) as [|_]; [contradiction|]. fold m.
    replace (Z.max m (e2 - prec - 1)) with m by (unfold prec; subst m; lia).
    rewrite rescale_pad by (subst m; lia || exact Hc2).
    exists (negb s2), (c2 * pow10 (e2 - m))%N, m.
    split.
    { apply fix_in_context. apply in_context_intro; [|subst m; lia].
      pose proof (ndigits_le_of_lt _ 12 ltac:(lia) Hp2). unfold prec. lia. }
    split; [subst m; lia|]. split; [lia|].
    rewrite Hneg, Qfin_zero, Qplus_0_l. symmetry. apply Qfin_at. subst m. lia.
  - destruct (add_fin_exact s1 c1 e1 (negb s2) c2 e2 Hc1 Hc2) as (sd & cd & Hadd & Hle & Hv).
    + fold m. subst m. lia.
    + fold m. pose proof (ndigits_le_of_lt _ 12 ltac:(lia) Hp1). unfold prec. lia.
    + fold m. pose proof (ndigits_le_of_lt _ 12 ltac:(lia) Hp2). unfold prec. lia.
    + fold m. unfold prec.
      assert (Hs : (c1 * pow10 (e1 - m) + c2 * pow10 (e2 - m) < pow10 13)%N) by lia.
      pose proof (ndigits_le_of_lt _ 13 ltac:(lia) Hs). lia.
    + fold m in Hadd, Hle, Hv. exists sd, cd, m.
      split; [exact Hadd|]. split; [subst m; lia|]. split; [lia|].
      rewrite Hneg. exact Hv.
Qed.

Lemma Qten_opp e : (Qten (- e) == / Qten e)%Q.
Proof. unfold Qten. apply Qpower_opp. Qed.

Lemma Qten_neq0 e : ~ (Qten e == 0)%Q.
Proof. pose proof (Qten_pos e). lra. Qed.

Lemma Qten_sub a b : (Qten (a - b) == Qten a / Qten b)%Q.
Proof.
  unfold Z.sub. rewrite Qten_add, Qten_opp. reflexivity.
Qed.

Lemma signed_split s c : signed s c = signed s 1 * Z.of_N c.
Proof. destruct s; cbn [signed]; lia. Qed.

Lemma signed_unit s : signed s 1 * signed s 1 = 1.
Proof. destruct s; reflexivity. Qed.

Lemma inject_Z_neq0 z : z <> 0 -> ~ (inject_Z z == 0)%Q.
Proof. intros Hz H. apply Hz. unfold Qeq in H. cbn in H. lia. Qed.

(** The quotient of two finite values, as a signed ratio of coefficients at
    the difference of the exponents. *)
Lemma Qfin_div s1 c1 e1 s2 c2 e2 :
  c2 <> 0%N ->
  (Qfin s1 c1 e1 / Qfin s2 c2 e2 ==
   inject_Z (signed (xorb s1 s2) c1) / inject_Z (Z.of_N c2) * Qten (e1 - e2))%Q.
Proof.
  intros Hc2. unfold Qfin. rewrite Qten_sub.
  assert (Hn : ~ (inject_Z (Z.of_N c2) == 0)%Q) by (apply inject_Z_neq0; lia).
  pose proof (Qten_neq0 e2) as Ht.
  destruct s1, s2; cbn [xorb signed]; rewrite ?inject_Z_opp; field; auto.
Qed.

Lemma Qabs_signed_scale s (u : Q) (X : Z) :
  (0 < u)%Q ->
  (Qabs (inject_Z (signed s 1) * u * inject_Z X) == u * inject_Z (Z.abs X))%Q.
Proof.
  intros Hu. rewrite !Qabs_Qmult.
  assert (H1 : (Qabs (inject_Z (signed s 1)) == 1)%Q) by (destruct s; reflexivity).
  rewrite H1, (Qabs_pos u) by lra.
  change (Qabs (inject_Z X)) with (inject_Z (Z.abs X)). ring.
Qed.

Lemma grid_equation (sg : bool) (K Y co exp : Z) :
  exp <= -4 -> 0 < co -> 0 < Y ->
  (inject_Z K / 10000 == inject_Z (signed sg 1) * (Qten exp / inject_Z co) * inject_Z Y)%Q ->
  K = signed sg 1 * Z.abs K /\ Y = co * (Z.abs K * 10 ^ (- 4 - exp)).
Proof.
  intros Hexp Hco HY H.
  set (P := 10 ^ (- 4 - exp)).
  assert (HP : 0 < P) by (apply Z.pow_pos_nonneg; lia).
  assert (Hten : (Qten exp == / inject_Z (10000 * P))%Q).
  { replace exp with (- (- exp)) by lia. rewrite Qten_opp, Qten_nonneg by lia.
    replace (- exp) with (4 + (- 4 - exp)) by lia. rewrite Z.pow_add_r by lia.
    reflexivity. }
  assert (Hn1 : ~ (inject_Z (10000 * P) == 0)%Q) by (apply inject_Z_neq0; lia).
  assert (Hn2 : ~ (inject_Z co == 0)%Q) by (apply inject_Z_neq0; lia).
  assert (Hz : (inject_Z (K * (P * co)) == inject_Z (signed sg 1 * Y))%Q).
  { rewrite !inject_Z_mult.
    assert (HK : (inject_Z K == 10000 * (inject_Z K / 10000))%Q) by field.
    rewrite HK, H, Hten, inject_Z_mult. change (inject_Z 10000) with 10000%Q.
    assert (Hn3 : ~ (inject_Z P == 0)%Q) by (apply inject_Z_neq0; lia).
    field. auto. }
  apply (proj1 (inject_Z_injective _ _)) in Hz.
  assert (Hpc : 0 < P * co) by nia.
  fold P. remember (P * co) as W eqn:HW.
  destruct sg; cbn [signed] in *.
  - assert (HK : K < 0).
    { destruct (Z_lt_ge_dec K 0) as [|Hge]; [assumption|exfalso].
      pose proof (Z.mul_nonneg_nonneg K W ltac:(lia) ltac:(lia)). lia. }
    rewrite (Z.abs_neq K) by lia. split; [lia|]. subst W. lia.
  - assert (HK : 0 < K).
    { destruct (Z_lt_ge_dec 0 K) as [|Hge]; [assumption|exfalso].
      pose proof (Z.mul_nonneg_nonneg (- K) W ltac:(lia) ltac:(lia)). lia. }
    rewrite (Z.abs_eq K) by lia. split; [lia|]. subst W. lia.
Qed.

Lemma Qten_split e exp :
  exp <= e -> (Qten e == inject_Z (10 ^ (e - exp)) * Qten exp)%Q.
Proof.
  intros H. replace e with ((e - exp) + exp) at 1 by lia.
  rewrite Qten_add, Qten_nonneg by lia. reflexivity.
Qed.

Lemma Qfin_rep sg c e exp co :
  exp <= e -> 0 < co ->
  (Qfin sg c e ==
   inject_Z (signed sg 1) * (Qten exp / inject_Z co)
   * inject_Z (Z.of_N c * 10 ^ (e - exp) * co))%Q.
Proof.
  intros He Hco. unfold Qfin. rewrite (signed_split sg c), (Qten_split e exp He).
  rewrite !inject_Z_mult. field. apply inject_Z_neq0. lia.
Qed.

Lemma quot_rep sd cd ed so co eo exp :
  co <> 0%N -> exp <= ed - eo ->
  (Qfin sd cd ed / Qfin so co eo ==
   inject_Z (signed (xorb sd so) 1) * (Qten exp / inject_Z (Z.of_N co))
   * inject_Z (Z.of_N cd * 10 ^ (ed - eo - exp)))%Q.
Proof.
  intros Hco He. rewrite (Qfin_div sd cd ed so co eo Hco).
  rewrite (signed_split (xorb sd so) cd), (Qten_split (ed - eo) exp He).
  rewrite !inject_Z_mult. field. apply inject_Z_neq0. lia.
Qed.

(** The quotient of the difference of two amounts by an amount: the result
    is within [10 ** -25] of the exact quotient, relatively, and is the exact
    quotient when that is a multiple of [10 ** -4]. *)
Lemma div_amount sd cd ed so co eo :
  cd <> 0%N -> (cd < 2 * pow10 12)%N -> -2 <= ed <= 0 ->
  co <> 0%N -> (co < pow10 12)%N -> -2 <= eo <= 0 ->
  exists c' e',
    div (Fin sd cd ed) (Fin so co eo) = Ok (Fin (xorb sd so) c' e') /\
    c' <> 0%N /\ ndigits c' <= prec /\ -200 <= e' <= 200 /\
    (Qabs (Qfin (xorb sd so) c' e' - Qfin sd cd ed / Qfin so co eo) * inject_Z (10 ^ 25)
     <= Qabs (Qfin sd cd ed / Qfin so co eo))%Q /\
    (forall K : Z,
        (Qfin sd cd ed / Qfin so co eo == inject_Z K / 10000)%Q ->
        (Qfin (xorb sd so) c' e' == Qfin sd cd ed / Qfin so co eo)%Q).
Proof.
  intros Hcd Hcdb Hed Hco Hcob Heo.
  assert (H13 : (2 * pow10 12 < pow10 13)%N) by (vm_compute; reflexivity).
  pose proof (ndigits_le_of_lt cd 13 ltac:(lia) ltac:(lia)) as Hnd.
  pose proof (ndigits_le_of_lt co 12 ltac:(lia) ltac:(lia)) as Hno.
  pose proof (ndigits_pos cd) as Hpd. pose proof (ndigits_pos co) as Hpo.
  destruct (div_fin_error sd cd ed so co eo Hcd Hco ltac:(unfold prec; lia)
              ltac:(unfold prec; lia) ltac:(lia) ltac:(lia))
    as (c' & e' & Hdiv & Hc'0 & Hc'n & He' & Herr).
  set (shift := ndigits co - ndigits cd + prec + 1) in *.
  set (exp := ed - eo - shift) in *.
  assert (Hshift : 17 <= shift <= 57) by (subst shift; unfold prec; lia).
  assert (Hexp : -59 <= exp <= -15) by (subst exp; lia).
  set (u := (Qten exp / inject_Z (Z.of_N co))%Q).
  assert (Hu : (0 < u)%Q).
  { subst u. apply Qlt_shift_div_l; [change 0%Q with (inject_Z 0); rewrite <- Zlt_Qlt; lia|].
    rewrite Qmult_0_l. apply Qten_pos. }
  pose proof (Qfin_rep (xorb sd so) c' e' exp (Z.of_N co) ltac:(lia) ltac:(lia)) as Hr.
  pose proof (quot_rep sd cd ed so co eo exp Hco ltac:(lia)) as Hq.
  replace (ed - eo - exp) with shift in Hq by (subst exp; lia).
  fold u in Hr, Hq.
  exists c', e'. split; [exact Hdiv|]. split; [exact Hc'0|]. split; [exact Hc'n|].
  split; [lia|]. split.
  - rewrite Hq, Hr.
    set (X := Z.of_N c' * 10 ^ (e' - exp) * Z.of_N co) in *.
    set (Y := Z.of_N cd * 10 ^ shift) in *.
    assert (Hdiff : (inject_Z (signed (xorb sd so) 1) * u * inject_Z X
                     - inject_Z (signed (xorb sd so) 1) * u * inject_Z Y ==
                     inject_Z (signed (xorb sd so) 1) * u * inject_Z (X - Y))%Q).
    { unfold Z.sub. rewrite inject_Z_plus, inject_Z_opp. ring. }
    rewrite Hdiff, !Qabs_signed_scale by exact Hu.
    rewrite <- Qmult_assoc. apply Qmult_le_l; [exact Hu|].
    rewrite <- inject_Z_mult, <- Zle_Qle.
    assert (HY : 0 <= Y) by (subst Y; apply Z.mul_nonneg_nonneg; [lia|apply Z.pow_nonneg; lia]).
    rewrite (Z.abs_eq Y HY). lia.
  - intros K HK. rewrite Hq in HK. symmetry in HK.
    assert (HYpos : 0 < Z.of_N cd * 10 ^ shift).
    { apply Z.mul_pos_pos; [lia|apply Z.pow_pos_nonneg; lia]. }
    destruct (grid_equation (xorb sd so) K _ (Z.of_N co) exp ltac:(lia) ltac:(lia) HYpos HK)
      as [HKs HY].
    set (M := Z.to_N (Z.abs K)).
    assert (HM : Z.of_N M = Z.abs K) by (subst M; lia).
    assert (HeqN : (cd * pow10 shift = co * (M * pow10 (-4 - exp)))%N).
    { apply N2Z.inj. rewrite !N2Z.inj_mul, !pow10_Z, HM by lia. exact HY. }
    assert (HMn : ndigits M <= prec).
    { unfold prec. apply (Z.le_trans _ 19); [|lia]. apply ndigits_le_of_lt; [lia|].
      assert (Hsplit : pow10 shift = (pow10 (ed - eo + 4) * pow10 (-4 - exp))%N).
      { rewrite <- pow10_add by lia. f_equal. subst exp. lia. }
      pose proof (pow10_pos (-4 - exp)) as Hp.
      pose proof (pow10_le_mono (ed - eo + 4) 6 ltac:(lia)) as H6.
      assert (H19 : (2 * pow10 12 * pow10 6 < pow10 19)%N) by (vm_compute; reflexivity).
      rewrite Hsplit in HeqN.
      assert (Hco1 : (1 <= co)%N) by lia.
      revert HeqN Hp H6 H19 Hcdb Hco1. clear.
      generalize (pow10 (ed - eo + 4)) (pow10 (-4 - exp)) (pow10 12) (pow10 6) (pow10 19).
      intros A P T S B HeqN Hp H6 H19 Hcdb Hco1.
      assert (H1 : (M * P <= cd * A * P)%N) by nia.
      assert (H2 : (M <= cd * A)%N) by (apply (N.mul_le_mono_pos_r _ _ P); assumption).
      assert (H3 : (cd * A <= 2 * T * S)%N) by nia.
      lia. }
    destruct (div_fin_grid sd cd ed so co eo M (-4) Hcd Hco ltac:(unfold prec; lia)
                ltac:(unfold prec; lia) ltac:(lia) ltac:(lia)) as (c2 & e2 & Hdiv2 & Hg & HMc).
    { fold shift. fold exp. lia. }
    { exact HMn. }
    { fold shift. fold exp. exact HeqN. }
    unfold div in Hdiv. cbn [check_nans] in Hdiv. rewrite Hdiv2 in Hdiv.
    injection Hdiv as <- <-.
    rewrite Hq. unfold Qfin. rewrite (signed_split (xorb sd so) c2).
    rewrite (Qten_split e2 (-4) Hg).
    rewrite HY, <- HM, HMc, !N2Z.inj_mul, !pow10_Z by lia.
    subst u. rewrite !inject_Z_mult.
    assert (Hten : (Qten exp * inject_Z (10 ^ (-4 - exp)) == Qten (-4))%Q).
    { rewrite (Qten_split (-4) exp) by lia. ring. }
    replace (e2 - -4) with (e2 + 4) by lia.
    assert (Hn : ~ (inject_Z (Z.of_N co) == 0)%Q) by (apply inject_Z_neq0; lia).
    rewrite <- Hten. field. exact Hn.
Qed.

Lemma amount_coeff s c e : amount (Fin s c e) = true -> (c < pow10 12)%N.
Proof.
  intros H. apply amount_bounds in H as [He Hn].
  pose proof (amount_padded c e e He Hn ltac:(lia)) as Hp.
  rewrite Z.sub_diag in Hp. change (pow10 0) with 1%N in Hp. lia.
Qed.

Lemma amount_in_context d : amount d = true -> in_context d = true.
Proof.
  destruct d as [s c e| |]; try discriminate. intros H.
  pose proof (amount_coeff s c e H) as Hc. apply amount_bounds in H as [He Hn].
  apply in_context_intro; [|lia].
  pose proof (ndigits_le_of_lt c 12 ltac:(lia) Hc). unfold prec. lia.
Qed.

(** The percentage change of two amounts, as the code computes it: within
    [10 ** -25] of the exact percentage, relatively, and equal to it when
    that is a whole number of hundredths. *)
Lemma pct_change_amount old_price new_price :
  amount old_price = true -> amount new_price = true ->
  ~ (Qvalue old_price == 0)%Q -> ~ (Qvalue old_price == Qvalue new_price)%Q ->
  exists pct,
    pct_change old_price new_price = Ok pct /\ is_finite pct = true /\
    (Qabs (Qvalue pct - (Qvalue new_price - Qvalue old_price) / Qvalue old_price * 100)
     * inject_Z (10 ^ 25)
     <= Qabs ((Qvalue new_price - Qvalue old_price) / Qvalue old_price * 100))%Q /\
    (forall K : Z,
        ((Qvalue new_price - Qvalue old_price) / Qvalue old_price * 100
         == inject_Z K / 100)%Q ->
        (Qvalue pct
         == (Qvalue new_price - Qvalue old_price) / Qvalue old_price * 100)%Q).
Proof.
  intros Ho Hn Ho0 Hne.
  destruct (sub_amount new_price old_price Hn Ho Ho0) as (sd & cd & ed & Hsub & Hed & Hcd & Hd).
  destruct old_price as [so co eo| |]; try discriminate.
  pose proof (amount_coeff so co eo Ho) as Hcob.
  apply amount_bounds in Ho as [Heo Hno]. cbn [Qvalue] in *.
  assert (Hco : co <> 0%N) by (intros ->; apply Ho0; apply Qfin_zero).
  assert (Hcd0 : cd <> 0%N).
  { intros ->. rewrite Qfin_zero in Hd. apply Hne. lra. }
  destruct (div_amount sd cd ed so co eo Hcd0 Hcd Hed Hco Hcob Heo)
    as (c' & e' & Hdiv & Hc'0 & Hc'n & He' & Herr & Hgrid).
  destruct (mul_100_exact (xorb sd so) c' e' Hc'0 Hc'n ltac:(lia))
    as (c'' & e'' & Hmul & Hc''0 & Hc''n & He'' & Hval).
  assert (Hpct : (Qfin (xorb sd so) c'' e'' == Qfin (xorb sd so) c' e' * 100)%Q).
  { rewrite (Qfin_at (xorb sd so) c'' e'' e' He'').
    assert (Hc : (c'' * pow10 (e'' - e') = c' * 100)%N).
    { apply N2Z.inj. rewrite !N2Z.inj_mul, pow10_Z by lia. exact Hval. }
    rewrite Hc. unfold Qfin. rewrite (signed_split _ (c' * 100)), (signed_split _ c').
    rewrite N2Z.inj_mul, !inject_Z_mult. change (inject_Z (Z.of_N 100)) with 100%Q. ring. }
  exists (Fin (xorb sd so) c'' e'').
  split; [unfold pct_change; rewrite Hsub; cbn [rbind]; rewrite Hdiv; cbn [rbind]; exact Hmul|].
  split; [reflexivity|]. cbn [Qvalue]. rewrite <- Hd, Hpct.
  set (r := Qfin (xorb sd so) c' e') in *.
  set (q := (Qfin sd cd ed / Qfin so co eo)%Q) in *.
  assert (Hdiff : (r * 100 - q * 100 == (r - q) * 100)%Q) by ring.
  split.
  - rewrite Hdiff, !Qabs_Qmult. change (Qabs 100) with 100%Q.
    assert (H100 : (0 < 100)%Q) by reflexivity.
    rewrite <- Qmult_assoc, (Qmult_comm 100), Qmult_assoc.
    apply Qmult_le_compat_r; [exact Herr|lra].
  - intros K HK.
    assert (Hrq : (r == q)%Q).
    { apply (Hgrid K). rewrite <- Hd in HK. fold q in HK.
      assert (Hq : (q == q * 100 / 100)%Q) by field.
      rewrite Hq, HK. field. }
    rewrite <- Hd, Hpct. fold q. fold r. rewrite Hrq. reflexivity.
Qed.

(** An amount is a whole number of hundredths, below [10 ** 12] of them. *)
Lemma amount_cents d :
  amount d = true ->
  exists z : Z, Z.abs z < 10 ^ 12 /\ (Qvalue d == inject_Z z / 100)%Q.
Proof.
  destruct d as [s c e| |]; try discriminate. intros H.
  apply amount_bounds in H as [He Hn].
  pose proof (amount_padded c e (-2) He Hn ltac:(lia)) as Hp.
  exists (signed s (c * pow10 (e - -2))). split.
  - change (10 ^ 12) with (Z.of_N (pow10 12)). destruct s; cbn [signed]; lia.
  - cbn [Qvalue]. rewrite (Qfin_at s c e (-2)) by lia. unfold Qfin.
    change (Qten (-2)) with (/ 100)%Q. reflexivity.
Qed.

(** A percentage change of two amounts that is not a given amount differs
    from it by more than [10 ** -25] of itself. *)
Lemma amount_gap (zo zn zt : Z) :
  zo <> 0 -> Z.abs zo < 10 ^ 12 -> Z.abs zn < 10 ^ 12 ->
  let p := ((inject_Z zn / 100 - inject_Z zo / 100) / (inject_Z zo / 100) * 100)%Q in
  ~ (p == inject_Z zt / 100)%Q ->
  (Qabs p < Qabs (p - inject_Z zt / 100) * inject_Z (10 ^ 25))%Q.
Proof.
  intros Hzo Hbo Hbn p Hne.
  assert (Hn : ~ (inject_Z zo == 0)%Q) by (apply inject_Z_neq0; exact Hzo).
  assert (Hn' : ~ (inject_Z (100 * zo) == 0)%Q) by (apply inject_Z_neq0; lia).
  set (A := 10000 * (zn - zo) - zt * zo).
  assert (Hp : (p == inject_Z (10000 * (zn - zo)) / inject_Z (100 * zo))%Q).
  { subst p. unfold Z.sub. rewrite !inject_Z_mult, inject_Z_plus, inject_Z_opp.
    change (inject_Z 10000) with 10000%Q. change (inject_Z 100) with 100%Q. field. exact Hn. }
  assert (Hd : (p - inject_Z zt / 100 == inject_Z A / inject_Z (100 * zo))%Q).
  { subst p A. unfold Z.sub. rewrite !inject_Z_plus, !inject_Z_opp, !inject_Z_mult, inject_Z_plus, inject_Z_opp.
    change (inject_Z 10000) with 10000%Q. change (inject_Z 100) with 100%Q. field. exact Hn. }
  assert (HA : A <> 0).
  { intros HA0. apply Hne. rewrite HA0 in Hd.
    assert (H0 : (p - inject_Z zt / 100 == 0)%Q) by (rewrite Hd; field; exact Hn').
    lra. }
  rewrite Hd, Hp. unfold Qdiv. rewrite !Qabs_Qmult, !Qabs_Qinv.
  change (Qabs (inject_Z ?z)) with (inject_Z (Z.abs z)).
  assert (HB : (0 < / inject_Z (Z.abs (100 * zo)))%Q).
  { apply Qinv_lt_0_compat. change 0%Q with (inject_Z 0). rewrite <- Zlt_Qlt. lia. }
  rewrite <- Qmult_assoc, (Qmult_comm (/ _)), Qmult_assoc.
  apply Qmult_lt_compat_r; [exact HB|].
  rewrite <- inject_Z_mult, <- Zlt_Qlt.
  change (10 ^ 12) with 1000000000000 in *. change (10 ^ 25) with 10000000000000000000000000.
  lia.
Qed.

(** Two rationals closer to each other than the second is to [t] lie on the
    same side of [t]. *)
Lemma grid_compare (p q t : Q) :
  (Qabs (p - q) * inject_Z (10 ^ 25) <= Qabs q)%Q ->
  ((q == t)%Q -> (p == q)%Q) ->
  (~ (q == t)%Q -> (Qabs q < Qabs (q - t) * inject_Z (10 ^ 25))%Q) ->
  Qle_bool t p = Qle_bool t q /\ Qle_bool p t = Qle_bool q t.
Proof.
  intros Herr Hgrid Hgap.
  destruct (Qeq_dec q t) as [Heq|Hne].
  - specialize (Hgrid Heq).
    split; apply Qle_bool_comp; lra.
  - specialize (Hgap Hne).
    change (inject_Z (10 ^ 25)) with (10000000000000000000000000 # 1)%Q in *.
    assert (Hlt : (Qabs (p - q) < Qabs (q - t))%Q) by lra.
    pose proof (Qle_Qabs (p - q)) as H1.
    pose proof (Qle_Qabs (- (p - q))) as H2. rewrite Qabs_opp in H2.
    destruct (Qlt_le_dec q t) as [Hlo|Hhi].
    + rewrite (Qabs_neg (q - t)) in Hlt by lra.
      assert (Hpt : (p < t)%Q) by lra.
      split.
      * transitivity false; [|symmetry]; apply not_true_is_false; intros H;
          apply Qle_bool_iff in H; lra.
      * transitivity true; [|symmetry]; apply Qle_bool_iff; lra.
    + rewrite (Qabs_pos (q - t)) in Hlt by lra.
      assert (Hqt : (t < q)%Q) by (destruct (Qlt_le_dec t q); [assumption|exfalso; apply Hne; lra]).
      assert (Hpt : (t < p)%Q) by lra.
      split.
      * transitivity true; [|symmetry]; apply Qle_bool_iff; lra.
      * transitivity false; [|symmetry]; apply not_true_is_false; intros H;
          apply Qle_bool_iff in H; lra.
Qed.

Lemma Qle_bool_ext (a b c d : Q) :
  ((a <= b)%Q <-> (c <= d)%Q) -> Qle_bool a b = Qle_bool c d.
Proof.
  intros H. destruct (Qle_bool c d) eqn:E.
  - apply Qle_bool_iff. apply H. apply Qle_bool_iff. exact E.
  - apply not_true_is_false. intros E'. apply Qle_bool_iff in E'. apply H in E'.
    apply Qle_bool_iff in E'. congruence.
Qed.

Lemma Qle_bool_abs (t x : Q) :
  Qle_bool t (Qabs x) = Qle_bool t x || Qle_bool x (- t).
Proof.
  destruct (Qlt_le_dec x 0) as [Hneg|Hpos].
  - rewrite (Qle_bool_comp t (Qabs x) t (- x)); [|reflexivity|apply Qabs_neg; lra].
    destruct (Qle_bool t x) eqn:E1; cbn [orb].
    + apply Qle_bool_iff in E1. apply Qle_bool_iff. lra.
    + apply Qle_bool_ext. split; intros; lra.
  - rewrite (Qle_bool_comp t (Qabs x) t x); [|reflexivity|apply Qabs_pos; lra].
    destruct (Qle_bool t x) eqn:E1; cbn [orb]; [reflexivity|].
    symmetry. apply not_true_is_false. intros H. apply Qle_bool_iff in H.
    assert (E2 : Qle_bool t x = true) by (apply Qle_bool_iff; lra). congruence.
Qed.

(** The computed percentage change of two amounts lies on the same side of
    an amount as the exact percentage change. *)
Lemma compare_with_amount old_price new_price threshold pct :
  amount old_price = true -> amount new_price = true -> amount threshold = true ->
  ~ (Qvalue old_price == 0)%Q -> ~ (Qvalue old_price == Qvalue new_price)%Q ->
  pct_change old_price new_price = Ok pct ->
  Qle_bool (Qvalue threshold) (Qvalue pct) =
  Qle_bool (Qvalue threshold)
           ((Qvalue new_price - Qvalue old_price) / Qvalue old_price * 100) /\
  Qle_bool (Qvalue pct) (Qvalue threshold) =
  Qle_bool ((Qvalue new_price - Qvalue old_price) / Qvalue old_price * 100)
           (Qvalue threshold).
Proof.
  intros Ho Hn Ht Ho0 Hne Hpct.
  destruct (pct_change_amount old_price new_price Ho Hn Ho0 Hne)
    as (pct' & Hp' & _ & Herr & Hgrid).
  rewrite Hp' in Hpct. injection Hpct as ->.
  destruct (amount_cents old_price Ho) as (zo & Hbo & Hzo).
  destruct (amount_cents new_price Hn) as (zn & Hbn & Hzn).
  destruct (amount_cents threshold Ht) as (zt & _ & Hzt).
  assert (Hzo0 : zo <> 0).
  { intros ->. apply Ho0. rewrite Hzo. reflexivity. }
  apply grid_compare.
  - exact Herr.
  - intros Heq. apply (Hgrid zt). rewrite Heq. exact Hzt.
  - intros Hneq. rewrite Hzo, Hzn, Hzt in *.
    apply amount_gap; assumption.
Qed.

Lemma amount_negate d : amount d = true -> amount (copy_negate d) = true.
Proof. destruct d; intros H; [exact H|discriminate|discriminate]. Qed.

Lemma Qvalue_negate d : (Qvalue (copy_negate d) == - Qvalue d)%Q.
Proof. destruct d as [s c e| |]; cbn [copy_negate Qvalue]; [apply Qfin_negb|reflexivity|reflexivity]. Qed.

(** On amounts the rules with the computed percentage change decide as the
    rules on exact rationals. *)
Lemma alert_rules_exact old_price new_price threshold_pct direction :
  amount old_price = true -> amount new_price = true -> amount threshold_pct = true ->
  alert_rules old_price new_price threshold_pct direction =
  Ok (exact_alert (Qvalue old_price) (Qvalue new_price) (Qvalue threshold_pct) direction).
Proof.
  intros Ho Hn Ht. unfold alert_rules, exact_alert.
  destruct (Qeq_bool (Qvalue old_price) (Qvalue new_price)) eqn:E1; [reflexivity|].
  destruct (Qeq_bool (Qvalue old_price) 0) eqn:E2; [reflexivity|].
  apply Qeq_bool_neq in E1. apply Qeq_bool_neq in E2.
  destruct (pct_change_amount old_price new_price Ho Hn E2 E1) as (pct & Hp & _).
  rewrite Hp. cbn [rbind]. f_equal.
  destruct (compare_with_amount old_price new_price threshold_pct pct Ho Hn Ht E2 E1 Hp)
    as [Hup _].
  destruct (compare_with_amount old_price new_price (copy_negate threshold_pct) pct
              Ho Hn (amount_negate _ Ht) E2 E1 Hp) as [_ Hdown].
  assert (Hdown' :
    Qle_bool (Qvalue pct) (- Qvalue threshold_pct) =
    Qle_bool ((Qvalue new_price - Qvalue old_price) / Qvalue old_price * 100)
             (- Qvalue threshold_pct)).
  { rewrite <- (Qle_bool_comp _ _ _ _ (Qeq_refl (Qvalue pct)) (Qvalue_negate threshold_pct)).
    rewrite Hdown. apply Qle_bool_comp; [reflexivity|apply Qvalue_negate]. }
  unfold direction_rule.
  destruct (String.eqb direction "up"); [exact Hup|].
  destruct (String.eqb direction "down"); [exact Hdown'|].
  rewrite !Qle_bool_abs, Hup, Hdown'. reflexivity.
Qed.

(** For finite prices and a threshold the context represents, the evaluator
    decides by the four ordered rules, the comparisons being those of the
    rational values. *)
Lemma evaluate_alert_by_rules
  (old_price new_price threshold_pct : Decimal) (direction : string) :
  is_finite old_price = true -> is_finite new_price = true ->
  in_context threshold_pct = true ->
  evaluate_alert old_price new_price threshold_pct direction =
  alert_rules old_price new_price threshold_pct direction.
Proof.
  intros Ho Hn Ht. pose proof (in_context_finite _ Ht) as Htf.
  unfold evaluate_alert, alert_rules.
  rewrite (eq_Q old_price new_price Ho Hn). cbn [rbind].
  destruct (Qeq_bool (Qvalue old_price) (Qvalue new_price)); [reflexivity|].
  rewrite (eq_Q old_price (Fin false 0 0) Ho eq_refl). cbn [rbind].
  change (Qvalue (Fin false 0 0)) with 0%Q.
  destruct (Qeq_bool (Qvalue old_price) 0); [reflexivity|].
  destruct (pct_change old_price new_price) as [pct|] eqn:Hp; [|reflexivity].
  cbn [rbind]. pose proof (pct_change_in_context _ _ _ Ho Hn Hp) as Hc.
  pose proof (in_context_finite _ Hc) as Hf.
  unfold direction_rule.
  destruct (String.eqb direction "up").
  { apply ge_Q; assumption. }
  destruct (String.eqb direction "down").
  { destruct (neg_Q _ Ht) as [r [Hr [Hrf Hrv]]]. rewrite Hr. cbn [rbind].
    rewrite (le_Q pct r Hf Hrf). f_equal. apply Qle_bool_comp; [reflexivity|assumption]. }
  destruct (abs_Q _ Hc) as [r [Hr [Hrf Hrv]]]. rewrite Hr. cbn [rbind].
  rewrite (ge_Q r threshold_pct Hrf Htf). f_equal.
  apply Qle_bool_comp; [reflexivity|assumption].
Qed.

(** * [calculate_price] returns a price on amounts *)

Lemma amount_quantizable d : amount d = true -> quantizable d = true.
Proof.
  destruct d as [s c e| |]; try discriminate. intros H.
  apply amount_bounds in H as [He Hn]. cbn [quantizable].
  apply orb_true_iff. right. apply Z.leb_le. unfold adjusted. lia.
Qed.

Lemma amount_undercut_price d : amount d = true -> undercut_price d = true.
Proof.
  destruct d as [s c e| |]; try discriminate. intros H.
  apply amount_bounds in H as [He Hn]. pose proof (ndigits_pos c).
  cbn [undercut_price]. apply andb_true_intro. split; [apply andb_true_intro; split|];
    apply Z.leb_le; lia.
Qed.

Lemma amount_finite d : amount d = true -> is_finite d = true.
Proof. destruct d; [reflexivity|discriminate|discriminate]. Qed.

Lemma opt_all_impl (P Q : Decimal -> bool) x :
  (forall d, P d = true -> Q d = true) -> opt_all P x = true -> opt_all Q x = true.
Proof. intros H. destruct x as [d|]; [apply H|reflexivity]. Qed.

(** The strategy branch returns a finite candidate that the final quantize
    accepts. *)
Lemma candidate_price_total current_price tcg_low market_price strategy undercut_pct :
  amount current_price = true -> amount tcg_low = true -> amount market_price = true ->
  opt_all undercut_percentage undercut_pct = true ->
  exists cand,
    candidate_price current_price tcg_low market_price strategy undercut_pct = Ok cand /\
    is_finite cand = true /\ quantizable cand = true.
Proof.
  intros Hc Hl Hm Hp. destruct strategy as [[| |]|repr]; cbn [candidate_price].
  - exists tcg_low. split; [reflexivity|]. split; [apply amount_finite|apply amount_quantizable]; exact Hl.
  - destruct (undercut_candidate_exact current_price tcg_low market_price undercut_pct
                (amount_undercut_price _ Hl) Hp) as [cand [Hcand [[s [c ->]] [_ Hq]]]].
    exists (Fin s c (-2)). split; [exact Hcand|]. split; [reflexivity|exact Hq].
  - exists market_price. split; [reflexivity|]. split; [apply amount_finite|apply amount_quantizable]; exact Hm.
  - exists current_price. split; [reflexivity|]. split; [apply amount_finite|apply amount_quantizable]; exact Hc.
Qed.

Lemma calculate_price_total current_price tcg_low market_price strategy undercut_pct floor_price :
  amount current_price = true -> amount tcg_low = true -> amount market_price = true ->
  opt_all undercut_percentage undercut_pct = true -> opt_all amount floor_price = true ->
  exists v,
    calculate_price current_price tcg_low market_price strategy undercut_pct floor_price = Ok v.
Proof.
  intros Hc Hl Hm Hp Hf.
  destruct (candidate_price_total current_price tcg_low market_price strategy undercut_pct
              Hc Hl Hm Hp) as [cand [Hcand [Hfin Hq]]].
  unfold calculate_price. rewrite Hcand. cbn [rbind].
  apply (post_processing_Q cand floor_price Hfin
           (opt_all_impl _ _ _ amount_finite Hf)); [exact Hq|].
  apply (opt_all_impl _ _ _ amount_quantizable Hf).
Qed.

(** * The round trip of an export through [generate_csv] and [parse_csv] *)

Lemma dict_zip_no_restval ks vs (d : raw_row) k :
  dict_zip ks vs d !! k = Some None -> d !! k = Some None.
Proof.
  revert vs d. induction ks as [|a ks IH]; intros vs d H; [exact H|].
  destruct vs as [|v vs]; [exact H|]. cbn [dict_zip] in H. apply IH in H.
  destruct (decide (a = k)) as [->|Hne].
  - rewrite lookup_insert_eq in H. discriminate.
  - rewrite lookup_insert_ne in H by exact Hne. exact H.
Qed.

Lemma dict_zip_cell ks vs (d : raw_row) k s :
  dict_zip ks vs d !! k = Some (Some s) -> In s vs \/ d !! k = Some (Some s).
Proof.
  revert vs d. induction ks as [|a ks IH]; intros vs d H; [right; exact H|].
  destruct vs as [|v vs]; [right; exact H|]. cbn [dict_zip] in H.
  destruct (IH _ _ H) as [Hin|Hd]; [left; right; exact Hin|].
  destruct (decide (a = k)) as [->|Hne].
  - rewrite lookup_insert_eq in Hd. injection Hd as ->. left. left. reflexivity.
  - rewrite lookup_insert_ne in Hd by exact Hne. right. exact Hd.
Qed.

(** A record that reaches every column of the header has a string in every
    cell: a field of the record, or the empty string for a column the header
    does not have. *)
Lemma dict_of_record_full fieldnames record k :
  (length fieldnames <= length record)%nat ->
  forallb within_limit record = true ->
  exists s, raw_get (dict_of_record fieldnames record) k = Some s /\
            within_limit s = true.
Proof.
  intros Hlen Hrec. unfold dict_of_record, raw_get.
  rewrite (drop_ge fieldnames (length record)) by exact Hlen. cbn [fill_restval fold_left].
  destruct (dict_zip fieldnames record ∅ !! k) as [[s|]|] eqn:E.
  - exists s. split; [reflexivity|].
    destruct (dict_zip_cell _ _ _ _ _ E) as [Hin|Hd].
    + rewrite forallb_forall in Hrec. apply Hrec, Hin.
    + rewrite lookup_empty in Hd. discriminate.
  - apply dict_zip_no_restval in E. rewrite lookup_empty in E. discriminate.
  - exists "". split; reflexivity.
Qed.

Lemma valid_currency_cell cell :
  valid_currency cell = true ->
  _to_decimal cell = Ok VNone \/
  exists d, _to_decimal cell = Ok (VDec d) /\ price_value d = true.
Proof.
  destruct cell as [s|]; [|discriminate]. unfold valid_currency, _to_decimal.
  destruct (Csv.is_empty (strip s)) eqn:Es.
  - intros _. left. rewrite orb_true_r. reflexivity.
  - cbn [orb]. destruct (Csv.is_empty s) eqn:E.
    { apply is_empty_true in E. subst s. discriminate Es. }
    cbn [orb]. destruct (Decimal_of_str (strip s)) as [d|]; [|discriminate].
    intros Hf. right. exists d. split; [reflexivity|exact Hf].
Qed.

Lemma map_columns_total cols raw acc :
  (forall c f, In (c, f) cols -> is_ok (cell_value raw c f) = true) ->
  exists r, map_columns cols raw acc = Ok r.
Proof.
  revert acc. induction cols as [|[c f] cols IH]; intros acc H.
  - exists acc. reflexivity.
  - cbn [map_columns]. fold (cell_value raw c f).
    pose proof (H c f (or_introl eq_refl)) as Hc.
    destruct (cell_value raw c f) as [v|]; [|discriminate]. cbn [rbind].
    apply IH. intros c' f' Hin. apply H. right. exact Hin.
Qed.

(** The cell of a column of a valid record has a normalized value. *)
Lemma valid_cell_value fieldnames record c f :
  (length fieldnames <= length record)%nat ->
  forallb within_limit record = true ->
  (is_price_field f = true ->
   valid_currency (raw_get (dict_of_record fieldnames record) c) = true) ->
  exists v, cell_value (dict_of_record fieldnames record) c f = Ok v /\
            normalized_value f (Some v).
Proof.
  intros Hlen Hrec Hcur. unfold cell_value, normalized_value.
  destruct (is_price_field f) eqn:Hp.
  - destruct (valid_currency_cell _ (Hcur eq_refl)) as [H|[d [H Hd]]].
    + exists VNone. split; [exact H|]. left. reflexivity.
    + exists (VDec d). split; [exact H|]. right. exists d. split; [reflexivity|exact Hd].
  - destruct (dict_of_record_full fieldnames record c Hlen Hrec) as [s [Hs Hw]].
    rewrite Hs. exists (VStr s). split; [reflexivity|]. exists s. split; [reflexivity|exact Hw].
Qed.

Lemma valid_record_cells fieldnames record :
  valid_record fieldnames record = true -> is_blank_record record = false ->
  (length fieldnames <= length record)%nat /\
  forall c f, In (c, f) CSV_COLUMN_MAP -> is_price_field f = true ->
              valid_currency (raw_get (dict_of_record fieldnames record) c) = true.
Proof.
  unfold valid_record. intros H Hb. rewrite Hb in H. cbn [orb] in H.
  apply andb_prop in H as [Hlen Hall]. apply Nat.leb_le in Hlen.
  split; [exact Hlen|]. intros c f Hin Hp.
  rewrite forallb_forall in Hall. specialize (Hall (c, f) Hin). cbv beta iota in Hall.
  rewrite Hp in Hall. exact Hall.
Qed.

(** A valid record parses, to a normalized row. *)
Lemma valid_record_parses fieldnames record :
  valid_record fieldnames record = true -> is_blank_record record = false ->
  forallb within_limit record = true ->
  exists r, map_columns CSV_COLUMN_MAP (dict_of_record fieldnames record) ∅ = Ok r /\
            normalized_row r.
Proof.
  intros Hv Hb Hrec. destruct (valid_record_cells _ _ Hv Hb) as [Hlen Hcur].
  set (raw := dict_of_record fieldnames record) in *.
  destruct (map_columns_total CSV_COLUMN_MAP raw ∅) as [r Hr].
  { intros c f Hin.
    destruct (valid_cell_value fieldnames record c f Hlen Hrec (Hcur c f Hin)) as [v [Hv' _]].
    fold raw in Hv'. rewrite Hv'. reflexivity. }
  exists r. split; [exact Hr|].
  destruct (map_columns_lookup _ _ _ _ mapped_fields_NoDup Hr) as [H1 H2].
  split.
  - intros c f Hin. destruct (H1 c f Hin) as [v [Hv1 Hv2]].
    destruct (valid_cell_value fieldnames record c f Hlen Hrec (Hcur c f Hin))
      as [v' [Hv3 Hn]].
    fold raw in Hv3. rewrite Hv3 in Hv1. injection Hv1 as ->. rewrite Hv2. exact Hn.
  - intros k Hk. rewrite (H2 k Hk). apply lookup_empty.
Qed.

Lemma field_to_csv_swap :
  field_to_csv = map (fun '(csv_col, field_name) => (field_name, csv_col)) CSV_COLUMN_MAP.
Proof. vm_compute. reflexivity. Qed.

Lemma headers_NoDup : List.NoDup headers.
Proof.
  unfold headers. cbn.
  repeat (constructor; [cbn; intros H; repeat (destruct H as [H|H]; [discriminate H|]); exact H|]).
  constructor.
Qed.

Lemma fill_other (g : string -> string) l (acc : gmap string string) k :
  ~ In k (map fst l) ->
  fold_left (fun csv_row '(field_name, csv_col) => <[csv_col := g field_name]> csv_row)
            (map (fun '(c, f) => (f, c)) l) acc !! k = acc !! k.
Proof.
  revert acc. induction l as [|[c f] l IH]; intros acc Hk; [reflexivity|].
  cbn [map fold_left fst] in *. rewrite IH by (intros Hin; apply Hk; right; exact Hin).
  apply lookup_insert_ne. intros ->. apply Hk. left. reflexivity.
Qed.

Lemma fill_lookup (g : string -> string) l (acc : gmap string string) c f :
  List.NoDup (map fst l) -> In (c, f) l ->
  fold_left (fun csv_row '(field_name, csv_col) => <[csv_col := g field_name]> csv_row)
            (map (fun '(c, f) => (f, c)) l) acc !! c = Some (g f).
Proof.
  revert acc. induction l as [|[c' f'] l IH]; intros acc Hnd Hin; [destruct Hin|].
  cbn [map fst] in Hnd. inversion Hnd as [|? ? Hnotin Hnd']; subst.
  cbn [map fold_left]. destruct Hin as [[= -> ->]|Hin].
  - rewrite (fill_other g l _ c Hnotin). apply lookup_insert_eq.
  - apply IH; assumption.
Qed.

Lemma make_csv_row_lookup (r : row) c f :
  In (c, f) CSV_COLUMN_MAP -> make_csv_row r !! c = Some (cell_text (r !! f)).
Proof.
  intros Hin. unfold make_csv_row. rewrite field_to_csv_swap.
  exact (fill_lookup (fun f => cell_text (r !! f)) CSV_COLUMN_MAP ∅ c f headers_NoDup Hin).
Qed.

(** The record [generate_csv] hands to the writer for a row. *)
Lemma dict_to_list_cells (r : row) : dict_to_list headers (make_csv_row r) = cells r.
Proof.
  unfold dict_to_list, headers, cells. rewrite map_map. apply map_ext_in.
  intros [c f] Hin. cbn [fst]. rewrite (make_csv_row_lookup r c f Hin). reflexivity.
Qed.

Lemma dict_zip_other ks vs (d : raw_row) k :
  ~ In k ks -> dict_zip ks vs d !! k = d !! k.
Proof.
  revert vs d. induction ks as [|a ks IH]; intros vs d Hk; [reflexivity|].
  destruct vs as [|v vs]; [reflexivity|]. cbn [dict_zip].
  rewrite IH by (intros Hin; apply Hk; right; exact Hin).
  apply lookup_insert_ne. intros ->. apply Hk. left. reflexivity.
Qed.

Lemma dict_zip_lookup (g : string * string -> string) l (d : raw_row) c f :
  List.NoDup (map fst l) -> In (c, f) l ->
  dict_zip (map fst l) (map g l) d !! c = Some (Some (g (c, f))).
Proof.
  revert d. induction l as [|[c' f'] l IH]; intros d Hnd Hin; [destruct Hin|].
  cbn [map fst] in Hnd. inversion Hnd as [|? ? Hnotin Hnd']; subst.
  cbn [map dict_zip fst]. destruct Hin as [[= -> ->]|Hin].
  - rewrite (dict_zip_other _ _ _ c Hnotin). apply lookup_insert_eq.
  - apply IH; assumption.
Qed.

(** Reading the written record of a row back under the header gives, in each
    column, the text of the row's field. *)
Lemma written_record_get (r : row) c f :
  In (c, f) CSV_COLUMN_MAP ->
  raw_get (dict_of_record headers (cells r)) c = Some (cell_text (r !! f)).
Proof.
  intros Hin. unfold dict_of_record, raw_get.
  rewrite (drop_ge headers (length (cells r)))
    by (unfold headers, cells; rewrite !length_map; reflexivity).
  cbn [fill_restval fold_left]. unfold headers, cells.
  rewrite (dict_zip_lookup (fun '(_, field_name) => cell_text (r !! field_name))
             CSV_COLUMN_MAP ∅ c f headers_NoDup Hin).
  reflexivity.
Qed.

(** A cell written from a normalized value reads back as that value. *)
Lemma written_cell_value (r : row) c f v :
  In (c, f) CSV_COLUMN_MAP -> r !! f = Some v -> normalized_value f (Some v) ->
  cell_value (dict_of_record headers (cells r)) c f = Ok v.
Proof.
  intros Hin Hv Hn. unfold cell_value, normalized_value in *.
  rewrite (written_record_get r c f Hin), Hv.
  destruct (is_price_field f).
  - destruct Hn as [[= ->]|[d [[= ->] Hd]]]; [reflexivity|].
    unfold price_value in Hd. apply andb_prop in Hd as [Hd _]. apply andb_prop in Hd as [Hd Hx].
    destruct d as [s n e| |]; try discriminate. cbn [cell_text].
    apply to_decimal_written. exact Hx.
  - destruct Hn as [s [[= ->] _]]. reflexivity.
Qed.

(** Parsing the written record of a normalized row gives the row. *)
Lemma written_row_parses (r : row) :
  normalized_row r ->
  map_columns CSV_COLUMN_MAP (dict_of_record headers (cells r)) ∅ = Ok r.
Proof.
  intros [Hfields Hrest].
  assert (Hcell : forall c f, In (c, f) CSV_COLUMN_MAP ->
            exists v, r !! f = Some v /\
                      cell_value (dict_of_record headers (cells r)) c f = Ok v).
  { intros c f Hin. specialize (Hfields c f Hin).
    destruct (r !! f) as [v|] eqn:Ev.
    - exists v. split; [reflexivity|]. apply written_cell_value; assumption.
    - unfold normalized_value in Hfields. destruct (is_price_field f).
      + destruct Hfields as [H|[d [H _]]]; discriminate.
      + destruct Hfields as [s [H _]]. discriminate. }
  destruct (map_columns_total CSV_COLUMN_MAP (dict_of_record headers (cells r)) ∅) as [r' Hr'].
  { intros c f Hin. destruct (Hcell c f Hin) as [v [_ Hv]]. rewrite Hv. reflexivity. }
  rewrite Hr'. f_equal.
  destruct (map_columns_lookup _ _ _ _ mapped_fields_NoDup Hr') as [H1 H2].
  apply map_eq. intros k.
  destruct (in_dec string_dec k mapped_fields) as [Hk|Hk].
  - unfold mapped_fields in Hk. apply in_map_iff in Hk as [[c f] [Hf Hin]].
    cbn [snd] in Hf. subst f.
    destruct (H1 c k Hin) as [v' [Hv1 Hv2]]. destruct (Hcell c k Hin) as [v [Hv3 Hv4]].
    rewrite Hv4 in Hv1. injection Hv1 as <-. rewrite Hv2, Hv3. reflexivity.
  - rewrite (H2 k Hk), (Hrest k Hk). apply lookup_empty.
Qed.

Lemma cells_not_blank (r : row) : is_blank_record (cells r) = false.
Proof. reflexivity. Qed.

Lemma filter_cells (rows : list row) :
  filter (fun r => negb (is_blank_record r)) (map cells rows) = map cells rows.
Proof. induction rows as [|r rows IH]; [reflexivity|]. cbn [map filter]. rewrite IH. reflexivity. Qed.

Lemma generate_csv_records (rows : list row) :
  generate_csv rows = String.concat "" (map Csv.writerow (headers :: map cells rows)).
Proof.
  unfold generate_csv. cbn [map]. rewrite string_concat_cons. f_equal. f_equal.
  rewrite map_map. apply map_ext. intros r. rewrite dict_to_list_cells. reflexivity.
Qed.

(** The reader reads an emitted export back as the header and one record of
    cells per row, when the cells fit in its fields. *)
Lemma reader_of_generated (rows : list row) :
  forallb (forallb within_limit) (map cells rows) = true ->
  Csv.reader_of (generate_csv rows) = (headers :: map cells rows, None).
Proof.
  intros H. rewrite generate_csv_records. apply reader_of_written.
  cbn [forallb]. rewrite H. reflexivity.
Qed.

Lemma DictReader_generated (rows : list row) :
  forallb (forallb within_limit) (map cells rows) = true ->
  DictReader (generate_csv rows) = (map (dict_of_record headers) (map cells rows), None).
Proof.
  intros H. unfold DictReader. rewrite (reader_of_generated rows H), filter_cells.
  reflexivity.
Qed.

(** The cells of a normalized row fit in the fields of the reader. *)
Lemma normalized_cells_within (r : row) :
  normalized_row r -> forallb within_limit (cells r) = true.
Proof.
  intros [Hfields _]. unfold cells. apply forallb_forall. intros cell Hin.
  apply in_map_iff in Hin as [[c f] [<- Hin]].
  specialize (Hfields c f Hin). unfold normalized_value in Hfields.
  destruct (is_price_field f).
  - destruct Hfields as [->|[d [-> Hd]]]; [reflexivity|]. cbn [cell_text].
    unfold price_value in Hd. apply andb_prop in Hd as [_ Hd]. exact Hd.
  - destruct Hfields as [s [-> Hs]]. exact Hs.
Qed.

Lemma normalized_rows_within (rows : list row) :
  Forall normalized_row rows -> forallb (forallb within_limit) (map cells rows) = true.
Proof.
  induction 1 as [|r rows Hr _ IH]; [reflexivity|].
  cbn [map forallb]. rewrite (normalized_cells_within r Hr), IH. reflexivity.
Qed.

Lemma parse_written_rows (rows : list row) :
  Forall normalized_row rows ->
  parse_rows (map (dict_of_record headers) (map cells rows)) None = Ok rows.
Proof.
  induction 1 as [|r rows Hr _ IH]; [reflexivity|].
  cbn [map parse_rows]. rewrite (written_row_parses r Hr). cbn [rbind].
  rewrite IH. reflexivity.
Qed.

(** Normalized rows survive emission and parsing unchanged. *)
Lemma parse_generated (rows : list row) :
  Forall normalized_row rows -> parse_csv (generate_csv rows) = Ok rows.
Proof.
  intros H. unfold parse_csv. rewrite DictReader_generated by (apply normalized_rows_within, H).
  apply parse_written_rows, H.
Qed.

Lemma valid_records_parse fieldnames records :
  forallb (valid_record fieldnames) records = true ->
  forallb (forallb within_limit) records = true ->
  exists rows,
    parse_rows (map (dict_of_record fieldnames)
                    (filter (fun r => negb (is_blank_record r)) records)) None = Ok rows /\
    Forall normalized_row rows.
Proof.
  induction records as [|record records IH]; intros H Hw.
  - exists []. split; [reflexivity|constructor].
  - cbn [forallb] in H, Hw. apply andb_prop in H as [Hv Hrest].
    apply andb_prop in Hw as [Hrec Hwrest].
    destruct (IH Hrest Hwrest) as [rows [Hrows Hnorm]]. cbn [filter].
    destruct (is_blank_record record) eqn:Hb; cbn [negb].
    + exists rows. split; assumption.
    + destruct (valid_record_parses fieldnames record Hv Hb Hrec) as [r [Hr Hn]].
      exists (r :: rows). split; [|constructor; assumption].
      cbn [map parse_rows]. rewrite Hr. cbn [rbind]. rewrite Hrows. reflexivity.
Qed.

(** A valid export parses, to normalized rows. *)
Lemma valid_csv_parses text :
  valid_csv text = true ->
  exists rows, parse_csv text = Ok rows /\ Forall normalized_row rows.
Proof.
  unfold valid_csv, parse_csv, DictReader. pose proof (reader_of_within text) as Hw.
  destruct (Csv.reader_of text) as [[|fieldnames records] [e|]]; try discriminate.
  cbn [fst forallb] in Hw. apply andb_prop in Hw as [_ Hw].
  intros H. apply valid_records_parse; assumption.
Qed.

(** Outside the valid exports: a record shorter than its header leaves the
    missing passthrough field [None], which is emitted as an empty cell and
    read back as the empty string. *)
Lemma short_record_restval :
  valid_csv short_export = false /\
  match parse_csv short_export with
  | Ok [r] =>
      r !! "product_line" = Some VNone /\
      match parse_csv (generate_csv [r]) with
      | Ok [r'] => r' !! "product_line" = Some (VStr "")
      | _ => False
      end
  | _ => False
  end.
Proof. split; [vm_compute; reflexivity|]. vm_compute. split; reflexivity. Qed.

(** Outside the valid exports: a currency cell whose exponent lies beyond the
    limit of the conversion.  [Decimal] accepts an adjusted exponent up to
    999999999999999999 and refuses the next one, and [parse_csv] raises. *)
Lemma exponent_beyond_the_limit :
  Decimal_of_str "1E+999999999999999999" = Ok (Fin false 1 999999999999999999) /\
  Decimal_of_str "1E+1000000000000000000" = Raise InvalidOperation /\
  valid_csv ("TCGplayer Id,TCG Low Price" ++ String Csv.LF
               ("7,1E+1000000000000000000" ++ String Csv.LF "")) = false /\
  parse_csv ("TCGplayer Id,TCG Low Price" ++ String Csv.LF
               ("7,1E+1000000000000000000" ++ String Csv.LF "")) = Raise InvalidOperation.
Proof. repeat split; vm_compute; reflexivity. Qed.

(** * The claims of the design document *)

(** C2.  Whatever the inputs, a price returned by [calculate_price] is a
    positive number of cents: it is never negative and never below 0.01.
    And a price is returned, for every strategy, whenever the three prices
    and the floor are amounts (at most two decimals, below [10 ** 10]) and
    the percentage has at most eight decimals. *)
Theorem calculate_price_never_below_minimum :
  (forall (current_price tcg_low market_price : Decimal) (strategy : strategy_arg)
          (undercut_pct floor_price : option Decimal) (v : Decimal),
      calculate_price current_price tcg_low market_price strategy undercut_pct floor_price
        = Ok v ->
      (exists c, v = Fin false c (-2) /\ (1 <= c)%N) /\ (1 # 100 <= Qvalue v)%Q) /\
  (forall (current_price tcg_low market_price : Decimal) (strategy : strategy_arg)
          (undercut_pct floor_price : option Decimal),
      amount current_price = true -> amount tcg_low = true ->
      amount market_price = true ->
      opt_all undercut_percentage undercut_pct = true ->
      opt_all amount floor_price = true ->
      exists v,
        calculate_price current_price tcg_low market_price strategy undercut_pct
          floor_price = Ok v).
Proof.
  split; [|exact calculate_price_total].
  intros current_price tcg_low market_price strategy undercut_pct floor_price v.
  unfold calculate_price.
  destruct (candidate_price _ _ _ _ _) as [x|]; [|discriminate]. cbn [rbind].
  destruct (enforce_floor x floor_price) as [y|]; [|discriminate]. cbn [rbind].
  destruct (enforce_minimum y) as [z|] eqn:Hz; [|discriminate]. cbn [rbind].
  intros Hq. destruct (enforce_minimum_spec _ _ Hz) as [Hn Hge].
  destruct (quantize_above_minimum _ _ Hn Hge Hq) as [c [-> Hc]].
  split; [eauto|]. cbn [Qvalue]. unfold Qfin. cbn [signed].
  change (Qten (-2)) with (1 # 100)%Q.
  assert (inject_Z 1 <= inject_Z (Z.of_N c))%Q by (rewrite <- Zle_Qle; lia).
  change (inject_Z 1) with 1%Q in H. lra.
Qed.

Lemma calculate_price_never_below_minimum_witness :
  (exists c, Fin false 1 (-2) = Fin false c (-2) /\ (1 <= c)%N) /\
  (1 # 100 <= Qvalue (Fin false 1 (-2)))%Q.
Proof.
  apply (proj1 calculate_price_never_below_minimum
           (Fin false 10 (-2)) (Fin false 5 (-3)) (Fin false 1 (-2))
           (Member MATCH_LOW) None None).
  reflexivity.
Defined.

(** C4.  After the strategy branch, [calculate_price] applies the floor, then
    the absolute minimum, then rounds half up to two places: the price
    returned is [post_process] of the candidate and the floor, and one is
    returned whenever the candidate and the floor are below [10 ** 25].  A
    floor below 0.01 is accepted and the minimum still applies after it; a
    floor of 1.00 over a low of 0.50 gives 1.00. *)
Theorem post_processing_order :
  (forall (current_price tcg_low market_price : Decimal) (strategy : strategy_arg)
          (undercut_pct floor_price : option Decimal) (candidate : Decimal),
      candidate_price current_price tcg_low market_price strategy undercut_pct
        = Ok candidate ->
      is_finite candidate = true ->
      opt_all is_finite floor_price = true ->
      (forall v,
          calculate_price current_price tcg_low market_price strategy
            undercut_pct floor_price = Ok v ->
          is_finite v = true /\
          (Qvalue v == post_process (Qvalue candidate) (option_map Qvalue floor_price))%Q) /\
      (quantizable candidate = true -> opt_all quantizable floor_price = true ->
       exists v,
         calculate_price current_price tcg_low market_price strategy
           undercut_pct floor_price = Ok v)) /\
  (forall candidate f : Q,
      (f < 1 # 100)%Q ->
      (post_process candidate (Some f) == post_process candidate None)%Q) /\
  calculate_price (Fin false 1500 (-2)) (Fin false 1 (-3)) (Fin false 75 (-2))
    (Member MATCH_LOW) None (Some (Fin false 5 (-3))) = Ok (Fin false 1 (-2)) /\
  calculate_price (Fin false 1500 (-2)) (Fin false 50 (-2)) (Fin false 75 (-2))
    (Member MATCH_LOW) None (Some (Fin false 100 (-2))) = Ok (Fin false 100 (-2)).
Proof.
  split; [|split; [|split; reflexivity]].
  - intros cur low mkt strat pct floor cand Hcand Hc Hf.
    unfold calculate_price. rewrite Hcand. cbn [rbind].
    apply post_processing_Q; assumption.
  - intros cand f Hf. unfold post_process. apply Qround_half_up_comp.
    apply floor_below_minimum. assumption.
Qed.

Lemma post_processing_order_witness :
  is_finite (Fin false 100 (-2)) = true /\
  (Qvalue (Fin false 100 (-2)) ==
   post_process (Qvalue (Fin false 50 (-2))) (Some (Qvalue (Fin false 100 (-2)))))%Q.
Proof.
  refine (proj1 (proj1 post_processing_order
            (Fin false 1500 (-2)) (Fin false 50 (-2)) (Fin false 75 (-2))
            (Member MATCH_LOW) None (Some (Fin false 100 (-2))) (Fin false 50 (-2))
            _ _ _) (Fin false 100 (-2)) _); reflexivity.
Defined.

(** C5 as the code has it: a strategy that is not a member of the
    enumeration raises nothing.  The candidate is the current price, which
    goes through the same floor, minimum and rounding steps; for a finite
    current price and floor the price returned is [post_process] of them, and
    one is returned whenever they are below [10 ** 25]. *)
Theorem unknown_strategy_keeps_current_price
  (current_price tcg_low market_price : Decimal) (repr : string)
  (undercut_pct floor_price : option Decimal) :
  is_finite current_price = true -> opt_all is_finite floor_price = true ->
  candidate_price current_price tcg_low market_price (NotMember repr) undercut_pct
    = Ok current_price /\
  (forall v,
      calculate_price current_price tcg_low market_price (NotMember repr)
        undercut_pct floor_price = Ok v ->
      is_finite v = true /\
      (Qvalue v == post_process (Qvalue current_price) (option_map Qvalue floor_price))%Q) /\
  (quantizable current_price = true -> opt_all quantizable floor_price = true ->
   exists v,
     calculate_price current_price tcg_low market_price (NotMember repr)
       undercut_pct floor_price = Ok v).
Proof.
  intros Hc Hf. split; [reflexivity|].
  unfold calculate_price. cbn [candidate_price rbind].
  apply post_processing_Q; assumption.
Qed.

Lemma unknown_strategy_keeps_current_price_witness :
  exists v,
    calculate_price (Fin false 1500 (-2)) (Fin false 1250 (-2)) (Fin false 1400 (-2))
      (NotMember "match_low") None None = Ok v.
Proof.
  refine (proj2 (proj2 (unknown_strategy_keeps_current_price
            (Fin false 1500 (-2)) (Fin false 1250 (-2)) (Fin false 1400 (-2))
            "match_low" None None _ _)) _ _); reflexivity.
Defined.

(** C5, counterexample: with the string "match_low" for a strategy the call
    returns the current price 15.00 instead of failing. *)
Lemma unknown_strategy_does_not_fail :
  calculate_price (Fin false 1500 (-2)) (Fin false 1250 (-2)) (Fin false 1400 (-2))
    (NotMember "match_low") None None = Ok (Fin false 1500 (-2)) /\
  ~ (exists e, calculate_price (Fin false 1500 (-2)) (Fin false 1250 (-2))
                 (Fin false 1400 (-2)) (NotMember "match_low") None None = Raise e).
Proof.
  split; [reflexivity|]. intros [e H]. discriminate H.
Qed.

(** C7 as the code has it.  [evaluate_alert] follows the four ordered rules
    with the percentage change the decimal arithmetic computes, each
    operation rounded to the 28 digits of the context: equal prices never
    trigger; a move off zero triggers for up and both only; otherwise the
    computed change is compared with the threshold: at least the threshold
    for up, at most its opposite for down, in absolute value at least the
    threshold for both and for any other direction.  This holds for all
    finite prices and every threshold the context represents.  For amounts
    (at most two decimals, below [10 ** 10]), the result is the one the rules
    give on exact rationals, with the percentage change
    [(new_price - old_price) / old_price * 100] not rounded at all. *)
Theorem evaluate_alert_rules :
  (forall (old_price new_price threshold_pct : Decimal) (direction : string),
      is_finite old_price = true -> is_finite new_price = true ->
      in_context threshold_pct = true ->
      evaluate_alert old_price new_price threshold_pct direction =
      alert_rules old_price new_price threshold_pct direction) /\
  (forall (old_price new_price threshold_pct : Decimal) (direction : string),
      amount old_price = true -> amount new_price = true ->
      amount threshold_pct = true ->
      evaluate_alert old_price new_price threshold_pct direction =
      Ok (exact_alert (Qvalue old_price) (Qvalue new_price) (Qvalue threshold_pct)
                      direction)).
Proof.
  split; [exact evaluate_alert_by_rules|].
  intros old_price new_price threshold_pct direction Ho Hn Ht.
  rewrite evaluate_alert_by_rules.
  - apply alert_rules_exact; assumption.
  - apply in_context_finite, amount_in_context, Ho.
  - apply in_context_finite, amount_in_context, Hn.
  - apply amount_in_context, Ht.
Qed.

Lemma evaluate_alert_rules_witness :
  evaluate_alert (Fin false 1000 (-2)) (Fin false 800 (-2)) (Fin false 15 0) "both" =
  Ok (exact_alert (Qvalue (Fin false 1000 (-2))) (Qvalue (Fin false 800 (-2)))
                  (Qvalue (Fin false 15 0)) "both").
Proof.
  apply (proj2 evaluate_alert_rules); vm_compute; reflexivity.
Defined.

(** C7, counterexample: the rules do not hold of the unrounded change for
    all inputs.  From 3 to 5 the change is 66.66... percent, below the
    threshold 66.66666666666666666666666667, yet the up alert triggers: the
    computed change is rounded up to the threshold.  From 3 to 1 with the
    31-digit threshold 66.66666666666666666666666667001 the down alert
    triggers, because the opposite of the threshold is rounded to 28 digits,
    where the rule on the unrounded change and the alert in both directions
    do not. *)
Lemma rounded_change_reaches_the_threshold :
  (evaluate_alert (Fin false 3 0) (Fin false 5 0)
     (Fin false 6666666666666666666666666667 (-26)) "up" = Ok true /\
   exact_alert (Qvalue (Fin false 3 0)) (Qvalue (Fin false 5 0))
     (Qvalue (Fin false 6666666666666666666666666667 (-26))) "up" = false) /\
  (evaluate_alert (Fin false 3 0) (Fin false 1 0)
     (Fin false 6666666666666666666666666667001 (-29)) "down" = Ok true /\
   evaluate_alert (Fin false 3 0) (Fin false 1 0)
     (Fin false 6666666666666666666666666667001 (-29)) "both" = Ok false /\
   exact_alert (Qvalue (Fin false 3 0)) (Qvalue (Fin false 1 0))
     (Qvalue (Fin false 6666666666666666666666666667001 (-29))) "down" = false).
Proof. repeat split; vm_compute; reflexivity. Qed.

(** C8 as the code has it: the boundary is inclusive.  A move from 10.00 to
    11.50 is exactly 15 percent and triggers an up alert with threshold 15;
    a move to 11.49 does not. *)
Theorem threshold_boundary_is_inclusive :
  evaluate_alert (Fin false 1000 (-2)) (Fin false 1150 (-2)) (Fin false 15 0) "up" = Ok true /\
  evaluate_alert (Fin false 1000 (-2)) (Fin false 1149 (-2)) (Fin false 15 0) "up" = Ok false.
Proof. split; vm_compute; reflexivity. Qed.

(** C8, counterexample: at 11.50 the alert does trigger. *)
Lemma threshold_boundary_not_false :
  evaluate_alert (Fin false 1000 (-2)) (Fin false 1150 (-2)) (Fin false 15 0) "up"
  <> Ok false.
Proof. vm_compute. discriminate. Qed.

(** C10.  [generate_csv] reads only the sixteen mapped fields: row lists
    that agree on them give the same text, so fields added while processing
    ([new_price], [diff]) do not reach the output.  In particular the text
    [reprice_download] returns is the one generated from the parsed rows as
    they were: the computed price is not in it. *)
Theorem generate_csv_reads_mapped_fields_only :
  (forall rows1 rows2 : list row,
      Forall2 agree_on_mapped rows1 rows2 ->
      generate_csv rows1 = generate_csv rows2) /\
  (forall (rows : list row) (new_price diff : row -> value),
      generate_csv
        (map (fun r => <["diff" := diff r]> (<["new_price" := new_price r]> r)) rows)
      = generate_csv rows) /\
  (forall (original_csv strategy undercut_pct floor_price text : string),
      reprice_download original_csv strategy undercut_pct floor_price = Ok text ->
      exists rows, parse_csv original_csv = Ok rows /\ text = generate_csv rows).
Proof.
  split; [exact generate_csv_ext|split].
  - intros rows new_price diff. apply generate_csv_ext.
    induction rows as [|r rows IH]; [constructor|].
    cbn [map]. constructor; [|exact IH].
    unfold agree_on_mapped. apply Forall_forall. intros f Hf. cbv beta.
    rewrite lookup_insert_ne
      by (intros E; apply diff_not_mapped; rewrite E; apply list_elem_of_In; exact Hf).
    apply lookup_insert_ne. intros E. apply new_price_not_mapped. rewrite E.
    apply list_elem_of_In. exact Hf.
  - intros original strategy undercut_pct floor_price text.
    unfold reprice_download.
    destruct (parse_csv original) as [rows|]; [|discriminate]. cbn [rbind].
    destruct (strategy_of_name strategy) as [strat|]; [|discriminate]. cbn [rbind].
    destruct (optional_decimal undercut_pct) as [undercut|]; [|discriminate]. cbn [rbind].
    destruct (optional_decimal floor_price) as [floor|]; [|discriminate]. cbn [rbind].
    destruct (for_each _ rows) as [rows'|] eqn:E; [|discriminate]. cbn [rbind].
    intros [= <-]. exists rows. split; [reflexivity|].
    apply generate_csv_ext.
    apply (for_each_Forall2 _ _ _ _ (download_row_agrees strat undercut floor) E).
Qed.

Lemma generate_csv_reads_mapped_fields_only_witness :
  generate_csv [<["new_price" := VDec (Fin false 1188 (-2))]> (∅ : row)] = generate_csv [∅].
Proof.
  apply (proj1 generate_csv_reads_mapped_fields_only).
  constructor; [|constructor].
  apply agree_on_mapped_insert, new_price_not_mapped.
Defined.

(** C9 as the code has it.  The batch loop treats an absent price and a zero
    price alike.  A row whose low and market prices are both absent or zero
    keeps its current price, taken as 0 when absent or zero, and no strategy
    is applied; any other row gets [calculate_price] of the three prices,
    each 0 when absent or zero; [diff] is the new price minus the current
    price when the current price is present and not zero, and 0 otherwise.
    [reprice_upload] returns, for each parsed row in order, the row with
    these two fields added. *)
Theorem batch_application
  (strat : RepricingStrategy) (undercut floor : option Decimal) (r : row) :
  let tcg_low := get_price r "tcg_low" in
  let market := get_price r "market_price" in
  let current := get_price r "current_listed_price" in
  (absent_or_zero tcg_low = true -> absent_or_zero market = true ->
   row_new_price strat undercut floor r = Ok (or_zero current)) /\
  (absent_or_zero tcg_low && absent_or_zero market = false ->
   row_new_price strat undercut floor r =
   calculate_price (or_zero current) (or_zero tcg_low) (or_zero market)
     (Member strat) undercut floor) /\
  (forall new_price,
      row_diff new_price r =
      if absent_or_zero current then Ok (Fin false 0 0)
      else sub new_price (or_zero current)) /\
  (forall x, (absent_or_zero x = true -> or_zero x = Fin false 0 0) /\
             (forall d, x = Some d -> absent_or_zero x = false -> or_zero x = d)) /\
  (forall r', upload_row strat undercut floor r = Ok r' ->
              exists new_price diff,
                row_new_price strat undercut floor r = Ok new_price /\
                row_diff new_price r = Ok diff /\
                r' = <["diff" := VDec diff]> (<["new_price" := VDec new_price]> r)) /\
  (forall csv_text strategy undercut_pct floor_price results,
      reprice_upload csv_text strategy undercut_pct floor_price = Ok results ->
      exists rows strat' undercut' floor',
        parse_csv csv_text = Ok rows /\
        strategy_of_name strategy = Ok strat' /\
        Forall2 (fun res row => upload_row strat' undercut' floor' row = Ok res)
                results rows).
Proof.
  cbv zeta. split; [|split; [|split; [|split; [|split]]]].
  - intros H1 H2. unfold row_new_price.
    rewrite !truthy_or_zero, H1, H2. reflexivity.
  - intros H. unfold row_new_price. rewrite !truthy_or_zero.
    destruct (absent_or_zero (get_price r "tcg_low")),
             (absent_or_zero (get_price r "market_price"));
      try reflexivity; discriminate H.
  - intros new_price. unfold row_diff. rewrite truthy_or_zero.
    destruct (absent_or_zero (get_price r "current_listed_price")). all: reflexivity.
  - intros x. split; [apply or_zero_absent|].
    intros d -> H. cbn [absent_or_zero] in H. apply or_zero_present; [reflexivity|].
    destruct (truthy d); [reflexivity|discriminate H].
  - intros r'. unfold upload_row.
    destruct (row_new_price strat undercut floor r) as [n|]; [|discriminate].
    cbn [rbind]. destruct (row_diff n r) as [d|] eqn:Ed; [|discriminate].
    cbn [rbind]. intros [= <-]. exists n, d.
    split; [reflexivity|split; [exact Ed|reflexivity]].
  - intros csv_text strategy undercut_pct floor_price results. unfold reprice_upload.
    destruct (parse_csv csv_text) as [rows|]; [|discriminate]. cbn [rbind].
    destruct (strategy_of_name strategy) as [strat'|]; [|discriminate]. cbn [rbind].
    destruct (optional_decimal undercut_pct) as [undercut'|]; [|discriminate]. cbn [rbind].
    destruct (optional_decimal floor_price) as [floor'|]; [|discriminate]. cbn [rbind].
    intros E. exists rows, strat', undercut', floor'.
    split; [reflexivity|split; [reflexivity|]].
    apply (for_each_Forall2 _ _ _ _ (fun a b H => H) E).
Qed.

Lemma batch_application_witness :
  row_new_price MATCH_LOW None None
    (<["current_listed_price" := VDec (Fin false 1500 (-2))]> (∅ : row))
  = Ok (or_zero (get_price (<["current_listed_price" := VDec (Fin false 1500 (-2))]> (∅ : row))
                   "current_listed_price")).
Proof.
  refine (proj1 (batch_application MATCH_LOW None None
                   (<["current_listed_price" := VDec (Fin false 1500 (-2))]> (∅ : row))) _ _);
    vm_compute; reflexivity.
Defined.

(** C9, counterexample: a listing priced 0.00 whose low price is 5.00.  The
    current price is present, the new price is 5.00, and [diff] is 0, not
    5.00 - 0.00. *)
Lemma diff_of_zero_current_price :
  match reprice_upload zero_price_export "MATCH_LOW" "" "" with
  | Ok [r] =>
      r !! "current_listed_price" = Some (VDec (Fin false 0 (-2))) /\
      r !! "new_price" = Some (VDec (Fin false 500 (-2))) /\
      r !! "diff" = Some (VDec (Fin false 0 0))
  | _ => False
  end /\
  sub (Fin false 500 (-2)) (Fin false 0 (-2)) = Ok (Fin false 500 (-2)) /\
  ~ (Qvalue (Fin false 0 0) == Qvalue (Fin false 500 (-2)))%Q.
Proof.
  split; [vm_compute; auto|]. split; [vm_compute; reflexivity|].
  vm_compute. discriminate.
Qed.

(** C6 as the code has it.  A currency cell that is not blank and that
    [Decimal] rejects makes [parse_csv] fail with InvalidOperation, with no
    rows returned; the cell is neither skipped nor read as zero: when
    [parse_csv] returns, every currency cell was blank and is stored as
    [None], or was accepted by [Decimal] and is stored as that Decimal.  The
    text N/A is rejected.  The spellings of NaN and Infinity are accepted. *)
Theorem rejected_currency_cell_fails :
  (forall text fieldnames records err record c f,
      Csv.reader_of text = (fieldnames :: records, err) ->
      In record records -> record <> [] ->
      In (c, f) CSV_COLUMN_MAP -> is_price_field f = true ->
      rejected (raw_get (dict_of_record fieldnames record) c) ->
      parse_csv text = Raise InvalidOperation) /\
  (forall text raws err rows,
      DictReader text = (raws, err) ->
      parse_csv text = Ok rows ->
      Forall2 (fun raw r =>
                 forall c f, In (c, f) CSV_COLUMN_MAP -> is_price_field f = true ->
                             currency_cell (raw_get raw c) (r !! f))
              raws rows) /\
  Decimal_of_str "N/A" = Raise InvalidOperation /\
  parse_csv not_available_export = Raise InvalidOperation /\
  Decimal_of_str "NaN" = Ok (NaN false false 0) /\
  Decimal_of_str "Infinity" = Ok (Inf false).
Proof.
  split; [|split; [|repeat split; vm_compute; reflexivity]].
  - intros text fieldnames records err record c f Hd Hin Hne Hc Hf Hr.
    unfold parse_csv, DictReader. rewrite Hd.
    apply (parse_rows_rejected _ err (dict_of_record fieldnames record) c f);
      try assumption.
    apply in_map. apply filter_In. split; [assumption|].
    destruct record; [contradiction|reflexivity].
  - intros text raws err rows Hd H. unfold parse_csv in H. rewrite Hd in H.
    destruct (parse_rows_cells _ _ _ H) as [_ Hall]. clear Hd H.
    induction Hall as [|raw r raws' rows' Hm _ IH]; [constructor|].
    constructor; [|exact IH].
    intros c f Hc Hf.
    destruct (map_columns_lookup _ _ _ _ mapped_fields_NoDup Hm) as [Hl _].
    destruct (Hl c f Hc) as [v [Hv Hr]]. rewrite Hr.
    unfold cell_value in Hv. rewrite Hf in Hv. apply to_decimal_accepts. assumption.
Qed.

Lemma rejected_currency_cell_fails_witness :
  parse_csv not_available_export = Raise InvalidOperation.
Proof.
  refine (proj1 rejected_currency_cell_fails not_available_export
            (map fst CSV_COLUMN_MAP)
            [["1"; "Pokemon"; "Base"; "Pikachu"; ""; "001"; "Common"; "Near Mint";
              "14.00"; ""; "12.75"; "N/A"; "1"; "0"; "15.00"; ""]]
            None
            ["1"; "Pokemon"; "Base"; "Pikachu"; ""; "001"; "Common"; "Near Mint";
             "14.00"; ""; "12.75"; "N/A"; "1"; "0"; "15.00"; ""]
            "TCG Low Price" "tcg_low" _ _ _ _ _ _).
  - vm_compute. reflexivity.
  - left. reflexivity.
  - discriminate.
  - vm_compute. tauto.
  - vm_compute. reflexivity.
  - exists "N/A". split; [vm_compute; reflexivity|].
    split; [vm_compute; discriminate|vm_compute; reflexivity].
Defined.

(** C6, counterexample: the text NaN in the low price column is not numeric,
    and [parse_csv] returns a row holding the special value NaN for it. *)
Lemma nan_currency_cell_is_accepted :
  match parse_csv nan_export with
  | Ok [r] => r !! "tcg_low" = Some (VDec (NaN false false 0))
  | _ => False
  end.
Proof. vm_compute. reflexivity. Qed.




(** C1: for every valid export [x], [parse_csv x] succeeds with normalized
    rows, and parsing the emission of those rows gives the same list of rows:
    the same rows in the same order, each with the same sixteen fields,
    currency fields the same Decimal (sign, coefficient and exponent) or both
    [None], passthrough fields the same string.  An export is valid when the
    reader reads it to the end, no field exceeding its field size limit, it
    has a header, and each record that is not blank reaches every column of
    the header and holds currency cells that are blank or finite decimal
    numerals, which [Decimal] accepts within its exponent limits and [str]
    writes back as a text that fits in a field.  The emitted text itself can
    differ from [x]: for [spaced_export] it does. *)
Theorem parse_generate_round_trip :
  (forall x, valid_csv x = true ->
     exists rows,
       parse_csv x = Ok rows /\
       Forall normalized_row rows /\
       parse_csv (generate_csv rows) = Ok rows) /\
  (valid_csv spaced_export = true /\
   match parse_csv spaced_export with
   | Ok rows => String.eqb (generate_csv rows) spaced_export = false
   | Raise _ => False
   end).
Proof.
  split.
  - intros x Hx. destruct (valid_csv_parses x Hx) as [rows [Hrows Hnorm]].
    exists rows. split; [exact Hrows|]. split; [exact Hnorm|].
    apply parse_generated, Hnorm.
  - split; vm_compute; reflexivity.
Qed.

Lemma parse_generate_round_trip_witness :
  valid_csv spaced_export = true /\
  exists rows,
    parse_csv spaced_export = Ok rows /\
    Forall normalized_row rows /\
    parse_csv (generate_csv rows) = Ok rows.
Proof.
  split; [vm_compute; reflexivity|].
  apply (proj1 parse_generate_round_trip spaced_export). vm_compute. reflexivity.
Defined.

(** * Further properties of the code *)

Lemma lower_str_app s t : lower_str (s ++ t) = lower_str s ++ lower_str t.
Proof.
  induction s as [|c s IH]; [reflexivity|].
  rewrite append_cons. cbn [lower_str]. rewrite IH, append_cons. reflexivity.
Qed.

Lemma lower_digit c : is_digit c = true -> lower c = c.
Proof.
  unfold is_digit, lower. intros H. apply andb_prop in H as [_ Hhi].
  apply N.leb_le in Hhi.
  destruct (N.leb_spec 65 (N_of_ascii c)) as [Hbad|_]; [lia|reflexivity].
Qed.

Lemma lower_str_digits s : all_digits s = true -> lower_str s = s.
Proof.
  unfold all_digits. induction s as [|c s IH]; [reflexivity|].
  cbn [string_forall lower_str]. intros H. apply andb_prop in H as [Hc Hs].
  rewrite (lower_digit c Hc), (IH Hs). reflexivity.
Qed.

(** The digits of a NaN payload, as [str] writes them. *)
Lemma payload_digits (n : N) :
  let p := if (n =? 0)%N then "" else str_N n in
  all_digits p = true /\ N_of_digits p = n.
Proof.
  cbv zeta. destruct (N.eqb_spec n 0) as [->|Hn]; [split; reflexivity|].
  destruct (str_N_spec n) as [Hd [_ Hv]]. split; assumption.
Qed.

Lemma parse_nan_payload g p :
  all_digits p = true -> parse_nan g ("nan" ++ p) = Some (g, N_of_digits p).
Proof.
  intros Hp. rewrite !append_cons, append_nil_l. cbn [parse_nan].
  rewrite (span_digits_all p Hp). reflexivity.
Qed.

Lemma str_special_token (sign : bool) (name p : string) :
  token name = true -> all_digits p = true ->
  token ((if sign then "-" else "") ++ name ++ p) = true.
Proof.
  intros Hn Hp. rewrite !token_app, Hn, (all_digits_token p Hp). destruct sign; reflexivity.
Qed.

Lemma numeric_string_nan (sign g : bool) (diag : N) :
  numeric_string (str_Decimal (NaN sign g diag)) = Some (NaN sign g diag).
Proof.
  destruct (payload_digits diag) as [Hp Hv]. cbv zeta in Hp, Hv.
  set (p := if (diag =? 0)%N then "" else str_N diag) in *.
  assert (Htext : str_Decimal (NaN sign g diag) =
                  (if sign then "-" else "") ++ (if g then "sNaN" else "NaN") ++ p).
  { destruct g; reflexivity. }
  rewrite Htext. unfold numeric_string.
  assert (Htok : token ((if sign then "-" else "") ++ (if g then "sNaN" else "NaN") ++ p) = true).
  { apply str_special_token; [destruct g; reflexivity|exact Hp]. }
  rewrite (strip_token _ Htok), (remove_underscores_token _ Htok).
  assert (Hsplit : split_sign ((if sign then "-" else "") ++ (if g then "sNaN" else "NaN") ++ p)
                   = (sign, (if g then "sNaN" else "NaN") ++ p)).
  { destruct sign, g; rewrite ?append_cons, ?append_nil_l; reflexivity. }
  rewrite Hsplit.
  assert (Hnum : parse_number ((if g then "sNaN" else "NaN") ++ p) = None).
  { destruct g; rewrite !append_cons, append_nil_l; reflexivity. }
  rewrite Hnum. unfold parse_special. rewrite lower_str_app, (lower_str_digits p Hp).
  destruct g.
  - change (lower_str "sNaN") with "snan".
    assert (Hinf : String.eqb ("snan" ++ p) "inf" || String.eqb ("snan" ++ p) "infinity" = false).
    { rewrite !append_cons, append_nil_l. reflexivity. }
    rewrite Hinf, (append_cons "s" "nan" p). cbv iota.
    rewrite (parse_nan_payload true p Hp), Hv. reflexivity.
  - change (lower_str "NaN") with "nan".
    assert (Hinf : String.eqb ("nan" ++ p) "inf" || String.eqb ("nan" ++ p) "infinity" = false).
    { rewrite !append_cons, append_nil_l. reflexivity. }
    rewrite Hinf, (append_cons "n" "an" p). cbv iota.
    rewrite <- (append_cons "n" "an" p).
    rewrite (parse_nan_payload false p Hp), Hv. reflexivity.
Qed.

Lemma numeric_string_inf (sign : bool) :
  numeric_string (str_Decimal (Inf sign)) = Some (Inf sign).
Proof. destruct sign; vm_compute; reflexivity. Qed.

Lemma str_Decimal_token_all d : token (str_Decimal d) = true.
Proof.
  destruct d as [s c e|s|s g diag].
  - apply str_Decimal_token.
  - destruct s; reflexivity.
  - destruct (payload_digits diag) as [Hp _]. cbv zeta in Hp.
    destruct g; cbn [str_Decimal]; apply str_special_token; try exact Hp; reflexivity.
Qed.

Lemma str_Decimal_nonempty_all d : Csv.is_empty (str_Decimal d) = false.
Proof.
  destruct d as [s c e|s|s g diag].
  - apply str_Decimal_nonempty.
  - destruct s; reflexivity.
  - destruct s, g; cbn [str_Decimal]; rewrite ?append_cons, ?append_nil_l; reflexivity.
Qed.

Lemma numeric_string_str (d : Decimal) : numeric_string (str_Decimal d) = Some d.
Proof.
  destruct d as [s c e|s|s g diag];
    [apply numeric_string_written|apply numeric_string_inf|apply numeric_string_nan].
Qed.

(** X1.  Text and back: for every Decimal [d] within the limits of the
    conversion, finite or special, which is every value the decimal module
    can hold, [Decimal(str(d))] is [d] itself, with the same sign, digits and
    exponent (12.50 does not come back as 12.5), and [_to_decimal(str(d))] is
    [d].  The text [str] writes always denotes [d]; beyond the limits the
    conversion refuses it. *)
Theorem decimal_text_round_trip (d : Decimal) :
  Decimal_of_str (str_Decimal d) =
  (if exact_in_limits d then Ok d else Raise InvalidOperation) /\
  _to_decimal (Some (str_Decimal d)) =
  (if exact_in_limits d then Ok (VDec d) else Raise InvalidOperation).
Proof.
  assert (H : Decimal_of_str (str_Decimal d) =
              if exact_in_limits d then Ok d else Raise InvalidOperation).
  { unfold Decimal_of_str. rewrite numeric_string_str. reflexivity. }
  split; [exact H|].
  unfold _to_decimal. rewrite (strip_token _ (str_Decimal_token_all d)).
  rewrite str_Decimal_nonempty_all, H. destruct (exact_in_limits d); reflexivity.
Qed.

(** X2.  For rows whose cell texts fit in a field of the reader (at most
    131072 characters each), the csv reader reads the text of [generate_csv]
    back as the header line followed by one record per row, in order, each
    with the sixteen cell texts exactly as they were written: commas, quotes
    and line breaks inside a cell survive the quoting. *)
Theorem generated_csv_reads_back (rows : list row) :
  forallb (forallb within_limit) (map cells rows) = true ->
  Csv.reader_of (generate_csv rows) = (headers :: map cells rows, None) /\
  DictReader (generate_csv rows) = (map (dict_of_record headers) (map cells rows), None) /\
  forall r c f, In r rows -> In (c, f) CSV_COLUMN_MAP ->
                raw_get (dict_of_record headers (cells r)) c = Some (cell_text (r !! f)).
Proof.
  intros Hfit. split; [apply reader_of_generated, Hfit|].
  split; [apply DictReader_generated, Hfit|].
  intros r c f _ Hin. apply written_record_get. exact Hin.
Qed.

Lemma generated_csv_reads_back_witness :
  Csv.reader_of (generate_csv [quoted_row]) = (headers :: map cells [quoted_row], None) /\
  DictReader (generate_csv [quoted_row])
  = (map (dict_of_record headers) (map cells [quoted_row]), None) /\
  forall r c f, In r [quoted_row] -> In (c, f) CSV_COLUMN_MAP ->
                raw_get (dict_of_record headers (cells r)) c = Some (cell_text (r !! f)).
Proof.
  apply (generated_csv_reads_back [quoted_row]). vm_compute. reflexivity.
Defined.

Lemma Forall2_In_r {A B : Type} (P : A -> B -> Prop) l1 l2 b :
  Forall2 P l1 l2 -> In b l2 -> exists a, In a l1 /\ P a b.
Proof.
  induction 1 as [|a' b' l1 l2 Hab _ IH]; [intros []|].
  intros [<-|Hin].
  - exists a'. split; [left; reflexivity|exact Hab].
  - destruct (IH Hin) as [a [Ha Hp]]. exists a. split; [right; exact Ha|exact Hp].
Qed.

(** A row of [parse_csv] comes from one raw row of the reader. *)
Lemma parse_csv_row text rows r :
  parse_csv text = Ok rows -> In r rows ->
  exists raw, In raw (fst (DictReader text)) /\ map_columns CSV_COLUMN_MAP raw ∅ = Ok r.
Proof.
  unfold parse_csv. destruct (DictReader text) as [raws err]. intros H Hin.
  destruct (parse_rows_cells raws err rows H) as [_ Hall].
  exact (Forall2_In_r _ _ _ _ Hall Hin).
Qed.

(** X3.  Every row [parse_csv] returns holds exactly the sixteen internal
    fields, whatever columns the file has: each of the five price fields
    holds a Decimal or [None], each of the eleven others a string or [None],
    and there is no other key.  So [r["sku_id"]] never raises KeyError. *)
Theorem parsed_row_shape (text : string) (rows : list row) (r : row) :
  parse_csv text = Ok rows -> In r rows ->
  (forall k, r !! k <> None <-> In k mapped_fields) /\
  (forall f, In f mapped_fields ->
             if is_price_field f
             then r !! f = Some VNone \/ exists d, r !! f = Some (VDec d)
             else r !! f = Some VNone \/ exists s, r !! f = Some (VStr s)).
Proof.
  intros H Hin. destruct (parse_csv_row text rows r H Hin) as [raw [_ Hraw]].
  destruct (map_columns_lookup _ _ _ _ mapped_fields_NoDup Hraw) as [H1 H2].
  assert (Hf : forall f, In f mapped_fields ->
                 exists c v, cell_value raw c f = Ok v /\ r !! f = Some v).
  { intros f Hf. unfold mapped_fields in Hf. apply in_map_iff in Hf as [[c f'] [Hf' Hcf]].
    cbn [snd] in Hf'. subst f'. destruct (H1 c f Hcf) as [v Hv]. exists c, v. exact Hv. }
  split.
  - intros k. split.
    + intros Hk. destruct (in_dec string_dec k mapped_fields) as [Hm|Hm]; [exact Hm|].
      exfalso. apply Hk. rewrite (H2 k Hm). apply lookup_empty.
    + intros Hm. destruct (Hf k Hm) as (c & v & _ & Hv). rewrite Hv. discriminate.
  - intros f Hm. destruct (Hf f Hm) as (c & v & Hc & Hv). rewrite Hv.
    unfold cell_value in Hc. destruct (is_price_field f).
    + unfold _to_decimal in Hc. destruct (raw_get raw c) as [s|]; [|injection Hc as <-; left; reflexivity].
      destruct (_ || _); [injection Hc as <-; left; reflexivity|].
      destruct (Decimal_of_str (strip s)) as [d|]; [|discriminate].
      injection Hc as <-. right. exists d. reflexivity.
    + injection Hc as <-. destruct (raw_get raw c) as [s|]; [right; exists s|left]; reflexivity.
Qed.

Lemma step_outside_quotes p c :
  outside_quotes (Csv.state p) ->
  Ascii.eqb c Csv.QUOTE = false -> Csv.is_newline c = false ->
  (exists p', Csv.parse_process_char p (Some c) = Ok p' /\ outside_quotes (Csv.state p')) \/
  Csv.parse_process_char p (Some c) = Raise CsvError.
Proof.
  intros Hst Hq Hn. destruct p as [st fs cur]. cbn [Csv.state] in Hst.
  unfold Csv.parse_process_char. cbn [Csv.state Csv.ends_line]. unfold Csv.parse_add_char.
  destruct Hst as [-> | [-> | ->]]; rewrite Hn, ?Hq;
    destruct (Ascii.eqb c Csv.COMMA);
    try (destruct (Csv.field_limit <=? _)%N; [right; reflexivity|]);
    left; eexists; (split; [reflexivity|]);
    cbn [Csv.state Csv.parse_save_field]; unfold outside_quotes; auto.
Qed.

(** A stretch of text outside quotes is read without leaving the line, unless
    a field in it exceeds the limit. *)
Lemma read_unquoted_text s : forall p tail,
  outside_quotes (Csv.state p) -> unquoted_text s = true ->
  (exists p', outside_quotes (Csv.state p') /\ read_rest p (s ++ tail) = read_rest p' tail) \/
  read_rest p (s ++ tail) = ([], Some CsvError).
Proof.
  induction s as [|c s IH]; intros p tail Hst Hs.
  - left. exists p. split; [exact Hst|]. rewrite append_nil_l. reflexivity.
  - unfold unquoted_text in Hs. cbn [string_forall] in Hs.
    apply andb_prop in Hs as [Hc Hs]. apply andb_prop in Hc as [Hq Hn].
    apply negb_true_iff in Hq. apply negb_true_iff in Hn.
    assert (HLF : Ascii.eqb c Csv.LF = false).
    { unfold Csv.is_newline in Hn. apply orb_false_iff in Hn. exact (proj1 Hn). }
    rewrite append_cons, read_rest_char by exact HLF.
    destruct (step_outside_quotes p c Hst Hq Hn) as [[p1 [Hp1 Hst1]]|Hp1]; rewrite Hp1.
    + exact (IH p1 tail Hst1 Hs).
    + right. reflexivity.
Qed.

Lemma step_CR_outside_quotes p :
  outside_quotes (Csv.state p) ->
  exists p', Csv.parse_process_char p (Some Csv.CR) = Ok p' /\ Csv.state p' = Csv.EAT_CRNL.
Proof.
  intros Hst. destruct p as [st fs cur]. cbn [Csv.state] in Hst.
  destruct Hst as [-> | [-> | ->]]; eexists; (split; [reflexivity|reflexivity]).
Qed.

(** X4.  A carriage return in the first line, with no quote before it, that
    is followed by a character other than a line break makes the reader fail
    before it yields a record: [parse_csv] raises csv.Error, whatever the
    rest of the text holds.  Every text with CR-only line ends and no quote
    in its header line is of this kind. *)
Theorem bare_carriage_return_is_rejected (s : string) (c : ascii) (rest : string) :
  unquoted_text s = true -> Csv.is_newline c = false ->
  Csv.reader_of (s ++ String Csv.CR (String c rest)) = ([], Some CsvError) /\
  parse_csv (s ++ String Csv.CR (String c rest)) = Raise CsvError.
Proof.
  intros Hs Hc.
  assert (Hr : Csv.reader_of (s ++ String Csv.CR (String c rest)) = ([], Some CsvError)).
  { unfold Csv.reader_of.
    assert (Hshape : exists a t, s ++ String Csv.CR (String c rest) = String a t).
    { destruct s as [|a s]; [rewrite append_nil_l|rewrite append_cons]; eauto. }
    destruct Hshape as (a & t & Ht). rewrite Ht, read_records_lines_of, <- Ht.
    destruct (read_unquoted_text s Csv.parse_reset (String Csv.CR (String c rest)))
      as [[p [Hst ->]]| ->]; [left; reflexivity|exact Hs| |reflexivity].
    destruct (step_CR_outside_quotes p Hst) as [p1 [Hp1 Hst1]].
    rewrite read_rest_char, Hp1 by reflexivity.
    assert (HLF : Ascii.eqb c Csv.LF = false).
    { unfold Csv.is_newline in Hc. apply orb_false_iff in Hc. exact (proj1 Hc). }
    rewrite read_rest_char by exact HLF.
    destruct p1 as [st1 fs1 cur1]. cbn [Csv.state] in Hst1. subst st1.
    unfold Csv.parse_process_char. cbn [Csv.state]. rewrite Hc. reflexivity. }
  split; [exact Hr|]. unfold parse_csv, DictReader. rewrite Hr. reflexivity.
Qed.

Lemma bare_carriage_return_is_rejected_witness :
  parse_csv ("TCGplayer Id,TCG Low Price" ++ String Csv.CR (String "1" ",2.50")) = Raise CsvError.
Proof.
  apply (bare_carriage_return_is_rejected "TCGplayer Id,TCG Low Price" "1" ",2.50");
    vm_compute; reflexivity.
Defined.

(** X5.  [parse_csv] returns only when the csv reader has read the whole
    text without error, and then it returns one row for each record after
    the header line that is not blank, no more and no fewer: blank lines are
    skipped, and an empty text or a header alone gives no rows. *)
Theorem parse_csv_row_count (text : string) (rows : list row) :
  parse_csv text = Ok rows ->
  snd (Csv.reader_of text) = None /\
  length rows =
  length (filter (fun r => negb (is_blank_record r)) (tail (fst (Csv.reader_of text)))).
Proof.
  unfold parse_csv, DictReader.
  destruct (Csv.reader_of text) as [[|hs records] err]; cbn [fst snd tail]; intros H.
  - destruct (parse_rows_cells _ _ _ H) as [-> Hall]. split; [reflexivity|].
    inversion Hall. reflexivity.
  - destruct (parse_rows_cells _ _ _ H) as [-> Hall]. split; [reflexivity|].
    apply Forall2_length in Hall. rewrite length_map in Hall. symmetry. exact Hall.
Qed.

Lemma fill_restval_lookup keys (d : raw_row) k :
  In k keys -> fill_restval keys d !! k = Some None.
Proof.
  unfold fill_restval. revert d. induction keys as [|a keys IH]; intros d Hin; [destruct Hin|].
  cbn [fold_left]. destruct (in_dec string_dec k keys) as [Hk|Hk].
  - apply IH. exact Hk.
  - destruct Hin as [->|Hin]; [|contradiction].
    assert (Hkeep : forall d' : raw_row,
              fold_left (fun d0 k0 => <[k0 := None]> d0) keys d' !! k = d' !! k).
    { clear IH. revert Hk. induction keys as [|b keys IH]; intros Hk d'; [reflexivity|].
      cbn [fold_left]. rewrite IH by (intros Hb; apply Hk; right; exact Hb).
      apply lookup_insert_ne. intros ->. apply Hk. left. reflexivity. }
    rewrite Hkeep. apply lookup_insert_eq.
Qed.

Lemma Forall2_map_l {A B C : Type} (f : A -> B) (P : B -> C -> Prop) l1 l2 :
  Forall2 P (map f l1) l2 -> Forall2 (fun a c => P (f a) c) l1 l2.
Proof.
  revert l2. induction l1 as [|a l1 IH]; intros l2 H; inversion H; subst; constructor; auto.
Qed.

(** X6.  A record that stops before the last column of the header: in the
    row [parse_csv] returns for it, every field whose column lies beyond the
    record's last cell is [None], price field or not. *)
Theorem short_record_fields_are_none
  (text : string) (hs : list string) (records : list (list string)) (rows : list row) :
  Csv.reader_of text = (hs :: records, None) -> parse_csv text = Ok rows ->
  Forall2 (fun record r =>
             forall c f, In (c, f) CSV_COLUMN_MAP -> In c (drop (length record) hs) ->
                         r !! f = Some VNone)
          (filter (fun r => negb (is_blank_record r)) records) rows.
Proof.
  intros Hr H. unfold parse_csv, DictReader in H. rewrite Hr in H.
  destruct (parse_rows_cells _ _ _ H) as [_ Hall]. apply Forall2_map_l in Hall.
  eapply Forall2_impl; [|exact Hall]. cbv beta. intros record r Hrow c f Hcf Hc.
  destruct (map_columns_lookup _ _ _ _ mapped_fields_NoDup Hrow) as [H1 _].
  destruct (H1 c f Hcf) as [v [Hv ->]]. f_equal.
  assert (Hget : raw_get (dict_of_record hs record) c = None).
  { unfold raw_get, dict_of_record. rewrite (fill_restval_lookup _ _ c Hc). reflexivity. }
  unfold cell_value in Hv. rewrite Hget in Hv.
  destruct (is_price_field f); cbn in Hv; congruence.
Qed.

Lemma dict_zip_surplus ks vs ex (d : raw_row) :
  (length ks <= length vs)%nat -> dict_zip ks (vs ++ ex) d = dict_zip ks vs d.
Proof.
  revert vs d. induction ks as [|k ks IH]; intros vs d Hlen; [reflexivity|].
  destruct vs as [|v vs]; [cbn in Hlen; lia|].
  cbn [dict_zip app]. apply IH. cbn in Hlen. lia.
Qed.

Lemma dict_of_record_surplus hs record ex :
  (length hs <= length record)%nat ->
  dict_of_record hs (record ++ ex) = dict_of_record hs record.
Proof.
  intros Hlen. unfold dict_of_record.
  rewrite (drop_ge hs (length (record ++ ex))) by (rewrite length_app; lia).
  rewrite (drop_ge hs (length record)) by exact Hlen.
  rewrite dict_zip_surplus by exact Hlen. reflexivity.
Qed.

(** X7.  Cells beyond the last column of the header are dropped: when the
    reader yields the same header for two texts, and records that differ only
    by cells added after the header's last column, [parse_csv] gives the same
    result for both, rows or error. *)
Theorem surplus_cells_are_dropped
  (text text' : string) (hs : list string) (records records' : list (list string))
  (e : option exn) :
  Csv.reader_of text = (hs :: records, e) ->
  Csv.reader_of text' = (hs :: records', e) ->
  Forall2 (fun record record' =>
             record <> [] /\ (length hs <= length record)%nat /\
             exists surplus, record' = (record ++ surplus)%list)
          records records' ->
  parse_csv text' = parse_csv text.
Proof.
  intros Hr Hr' H. unfold parse_csv, DictReader. rewrite Hr, Hr'.
  assert (Hraw : map (dict_of_record hs)
                     (filter (fun r => negb (is_blank_record r)) records') =
                 map (dict_of_record hs)
                     (filter (fun r => negb (is_blank_record r)) records)).
  { clear Hr Hr'.
    induction H as [|record record' records0 records0' [Hne [Hlen [ex ->]]] _ IH];
      [reflexivity|].
    destruct record as [|x record]; [contradiction|].
    cbn [filter is_blank_record negb app map]. rewrite IH. f_equal.
    apply (dict_of_record_surplus hs (x :: record) ex Hlen). }
  rewrite Hraw. reflexivity.
Qed.

Lemma surplus_cells_are_dropped_witness :
  parse_csv ("TCGplayer Id,TCG Low Price" ++ String Csv.LF ("7,2.50,surplus" ++ String Csv.LF ""))
  = parse_csv ("TCGplayer Id,TCG Low Price" ++ String Csv.LF ("7,2.50" ++ String Csv.LF "")).
Proof.
  apply (surplus_cells_are_dropped _ _ ["TCGplayer Id"; "TCG Low Price"]
           [["7"; "2.50"]] [["7"; "2.50"; "surplus"]] None);
    [vm_compute; reflexivity|vm_compute; reflexivity|].
  constructor; [|constructor].
  split; [discriminate|]. split; [cbn; lia|]. exists ["surplus"]. reflexivity.
Defined.

(** ** A field beyond the limit *)

Lemma add_char_full p c next :
  N.le Csv.field_limit (Csv.field_len p) -> Csv.parse_add_char p c next = Raise CsvError.
Proof.
  intros H. unfold Csv.parse_add_char. apply N.leb_le in H. rewrite H. reflexivity.
Qed.

Lemma over_limit_step cur c f :
  within_limit cur = true -> within_limit (cur ++ String c f) = false ->
  N.le Csv.field_limit (N.of_nat (String.length cur)) \/
  (N.lt (N.of_nat (String.length cur)) Csv.field_limit /\
   within_limit (cur ++ String c "") = true /\
   within_limit ((cur ++ String c "") ++ f) = false).
Proof.
  unfold within_limit. rewrite !string_length_app. cbn [String.length].
  intros H1 H2. apply N.leb_le in H1. apply N.leb_gt in H2.
  destruct (N.le_gt_cases Csv.field_limit (N.of_nat (String.length cur))) as [Hfull|Hroom];
    [left; exact Hfull|right].
  split; [exact Hroom|]. split; [apply N.leb_le|apply N.leb_gt]; lia.
Qed.

(** Inside an unquoted field, the reader fails when the field outgrows the
    limit. *)
Lemma read_unquoted_over f : forall fs cur rest,
  Csv.needs_quotes f = false ->
  within_limit cur = true -> within_limit (cur ++ f) = false ->
  read_rest (Csv.mkReader Csv.IN_FIELD fs cur) (f ++ rest) = ([], Some CsvError).
Proof.
  induction f as [|c f IH]; intros fs cur rest H Hcur Hover.
  - rewrite append_nil_r in Hover. congruence.
  - apply needs_quotes_cons in H as [Hc Hf].
    destruct (plain_char_facts c Hc) as [Hn [Hcomma Hq]].
    rewrite append_cons. rewrite read_rest_char by (apply plain_char_not_LF; assumption).
    cbn [Csv.parse_process_char Csv.state Csv.ends_line]. rewrite Hn, Hcomma.
    destruct (over_limit_step cur c f Hcur Hover) as [Hfull|[Hroom [Hcur' Hover']]].
    + rewrite add_char_full by exact Hfull. reflexivity.
    + rewrite add_char_room by exact Hroom. cbn [Csv.fields Csv.field].
      apply IH; assumption.
Qed.

Lemma read_quoted_over f : forall fs cur rest,
  within_limit cur = true -> within_limit (cur ++ f) = false ->
  read_rest (Csv.mkReader Csv.IN_QUOTED_FIELD fs cur)
            (Csv.double_quotes f ++ String Csv.QUOTE rest) = ([], Some CsvError).
Proof.
  induction f as [|c f IH]; intros fs cur rest Hcur Hover.
  - rewrite append_nil_r in Hover. congruence.
  - cbn [Csv.double_quotes]. destruct (Ascii.eqb c Csv.QUOTE) eqn:Hq.
    + apply Ascii.eqb_eq in Hq. subst c. rewrite !append_cons.
      rewrite read_rest_char by reflexivity.
      cbn [Csv.parse_process_char Csv.state]. rewrite Ascii.eqb_refl.
      unfold Csv.set_state. cbn [Csv.fields Csv.field].
      rewrite read_rest_char by reflexivity.
      cbn [Csv.parse_process_char Csv.state]. rewrite Ascii.eqb_refl.
      destruct (over_limit_step cur _ f Hcur Hover) as [Hfull|[Hroom [Hcur' Hover']]].
      * rewrite add_char_full by exact Hfull. reflexivity.
      * rewrite add_char_room by exact Hroom. cbn [Csv.fields Csv.field].
        apply IH; assumption.
    + rewrite append_cons. destruct (Ascii.eqb c Csv.LF) eqn:Hl.
      * apply Ascii.eqb_eq in Hl. subst c. rewrite read_rest_LF.
        cbn [Csv.parse_process_char Csv.state]. rewrite Hq.
        destruct (over_limit_step cur _ f Hcur Hover) as [Hfull|[Hroom [Hcur' Hover']]].
        { rewrite add_char_full by exact Hfull. reflexivity. }
        rewrite add_char_room by exact Hroom. cbn [Csv.fields Csv.field].
        cbn [Csv.parse_process_char Csv.state Csv.is_start_record].
        destruct (Csv.double_quotes f ++ String Csv.QUOTE rest) as [|x y] eqn:E.
        { destruct (Csv.double_quotes f); discriminate E. }
        rewrite read_records_lines_of, <- E. apply IH; assumption.
      * rewrite read_rest_char by assumption.
        cbn [Csv.parse_process_char Csv.state]. rewrite Hq.
        destruct (over_limit_step cur _ f Hcur Hover) as [Hfull|[Hroom [Hcur' Hover']]].
        { rewrite add_char_full by exact Hfull. reflexivity. }
        rewrite add_char_room by exact Hroom. cbn [Csv.fields Csv.field].
        apply IH; assumption.
Qed.

(** A written field beyond the limit, from where a field may start. *)
Lemma read_written_field_over st fs f rest :
  field_start st -> within_limit f = false ->
  read_rest (Csv.mkReader st fs "") (Csv.write_field f ++ rest) = ([], Some CsvError).
Proof.
  intros Hst Hover. unfold Csv.write_field. destruct (Csv.needs_quotes f) eqn:Hq.
  - rewrite append_assoc, !append_cons, append_nil_l.
    rewrite read_rest_char by reflexivity. rewrite (step_open_quote st fs Hst).
    apply read_quoted_over; [reflexivity|exact Hover].
  - destruct f as [|c f]; [discriminate Hover|].
    apply needs_quotes_cons in Hq as [Hc Hf].
    rewrite append_cons. rewrite read_rest_char by (apply plain_char_not_LF; assumption).
    rewrite (step_first_char st fs c Hst Hc).
    apply read_unquoted_over; [exact Hf|reflexivity|exact Hover].
Qed.

Lemma join_fields_cons f g row :
  Csv.join_fields (f :: g :: row) =
  Csv.write_field f ++ String Csv.COMMA (Csv.join_fields (g :: row)).
Proof. reflexivity. Qed.

(** A record with a field beyond the limit, after fields within it. *)
Lemma read_fields_over before : forall st fs f after rest,
  field_start st ->
  forallb within_limit before = true -> within_limit f = false ->
  read_rest (Csv.mkReader st fs "")
            (Csv.join_fields (before ++ f :: after) ++ rest) = ([], Some CsvError).
Proof.
  induction before as [|g before IH]; intros st fs f after rest Hst Hb Hover.
  - cbn [app]. destruct after as [|h after].
    + cbn [Csv.join_fields]. apply read_written_field_over; assumption.
    + rewrite join_fields_cons, append_assoc.
      apply read_written_field_over; assumption.
  - cbn [forallb] in Hb. apply andb_true_iff in Hb as [Hg Hb].
    assert (E : exists h t, (before ++ f :: after)%list = h :: t).
    { destruct before; cbn [app]; eauto. }
    destruct E as (h & t & E). cbn [app]. rewrite E, join_fields_cons, <- E.
    rewrite append_assoc, append_cons.
    rewrite read_field_comma by assumption.
    apply IH; [left; reflexivity|exact Hb|exact Hover].
Qed.

Lemma writerow_over before f after :
  within_limit f = false ->
  Csv.writerow (before ++ f :: after) =
  Csv.join_fields (before ++ f :: after) ++ Csv.lineterminator.
Proof.
  intros Hover. destruct before as [|g before]; cbn [app].
  - destruct f as [|c f]; [discriminate Hover|]. reflexivity.
  - destruct g; [|reflexivity]. destruct before; reflexivity.
Qed.

Lemma forallb_false_split {A : Type} (P : A -> bool) l :
  forallb P l = false ->
  exists before x after,
    l = (before ++ x :: after)%list /\ forallb P before = true /\ P x = false.
Proof.
  induction l as [|a l IH]; [discriminate|]. cbn [forallb]. intros H.
  destruct (P a) eqn:Ea.
  - destruct (IH H) as (before & x & after & -> & Hb & Hx).
    exists (a :: before), x, after. cbn [forallb app]. rewrite Ea, Hb. auto.
  - exists [], a, l. auto.
Qed.

(** The reader yields the records before the one with a field beyond the
    limit, then fails. *)
Lemma reader_of_written_over (rows : list (list string)) : forall row rest,
  forallb (forallb within_limit) rows = true ->
  forallb within_limit row = false ->
  Csv.reader_of (String.concat "" (map Csv.writerow (rows ++ row :: rest)))
  = (rows, Some CsvError).
Proof.
  unfold Csv.reader_of. induction rows as [|r rows IH]; intros row rest Hrows Hrow.
  - cbn [app map]. rewrite string_concat_cons.
    destruct (forallb_false_split _ _ Hrow) as (before & f & after & -> & Hb & Hover).
    rewrite (writerow_over before f after Hover), !append_assoc.
    assert (E : exists x y,
               Csv.join_fields (before ++ f :: after) ++ Csv.lineterminator
                 ++ String.concat "" (map Csv.writerow rest) = String x y).
    { destruct (Csv.join_fields (before ++ f :: after));
        [unfold Csv.lineterminator; rewrite append_nil_l, append_cons|rewrite append_cons];
        eauto. }
    destruct E as (x & y & E). rewrite E, read_records_lines_of, <- E.
    unfold Csv.parse_reset. apply read_fields_over; [right; reflexivity|exact Hb|exact Hover].
  - cbn [forallb] in Hrows. apply andb_true_iff in Hrows as [Hr Hrows].
    cbn [app map]. rewrite string_concat_cons, read_writerow by exact Hr.
    rewrite (IH row rest Hrows Hrow). reflexivity.
Qed.

Lemma parse_rows_after_error raws e : exists e', parse_rows raws (Some e) = Raise e'.
Proof.
  induction raws as [|raw raws [e' IH]]; [exists e; reflexivity|].
  cbn [parse_rows]. destruct (map_columns CSV_COLUMN_MAP raw ∅); cbn [rbind].
  - rewrite IH. exists e'. reflexivity.
  - eexists. reflexivity.
Qed.

(** X23.  A cell text longer than the reader's field limit of 131072
    characters does not survive the round trip: when the rows before have
    cells within the limit and a row has a cell beyond it, the reader reads
    the text of [generate_csv] back up to the record before that row and then
    fails with csv.Error, and [parse_csv] of the text raises. *)
Theorem long_cell_is_refused (before : list row) (r : row) (after : list row) :
  forallb (forallb within_limit) (map cells before) = true ->
  forallb within_limit (cells r) = false ->
  Csv.reader_of (generate_csv (before ++ r :: after))
  = (headers :: map cells before, Some CsvError) /\
  exists e, parse_csv (generate_csv (before ++ r :: after)) = Raise e.
Proof.
  intros Hb Hr.
  assert (E : Csv.reader_of (generate_csv (before ++ r :: after))
              = (headers :: map cells before, Some CsvError)).
  { rewrite generate_csv_records, map_app. cbn [map].
    apply (reader_of_written_over (headers :: map cells before) (cells r) (map cells after));
      [|exact Hr].
    cbn [forallb]. rewrite Hb. reflexivity. }
  split; [exact E|]. unfold parse_csv, DictReader. rewrite E. apply parse_rows_after_error.
Qed.

Lemma long_cell_is_refused_witness :
  Csv.reader_of (generate_csv ([quoted_row] ++ long_row :: [quoted_row]))
  = (headers :: map cells [quoted_row], Some CsvError) /\
  exists e, parse_csv (generate_csv ([quoted_row] ++ long_row :: [quoted_row])) = Raise e.
Proof.
  apply (long_cell_is_refused [quoted_row] long_row [quoted_row]); vm_compute; reflexivity.
Defined.

Lemma strategy_of_name_unknown name :
  name <> "MATCH_LOW" -> name <> "UNDERCUT" -> name <> "MATCH_MARKET" ->
  strategy_of_name name = Raise KeyError.
Proof.
  intros H1 H2 H3. unfold strategy_of_name.
  destruct (String.eqb_spec name "MATCH_LOW") as [|_]; [contradiction|].
  destruct (String.eqb_spec name "UNDERCUT") as [|_]; [contradiction|].
  destruct (String.eqb_spec name "MATCH_MARKET") as [|_]; [contradiction|].
  reflexivity.
Qed.

(** X8.  The strategy is looked up by member name, case-sensitively, after
    the file has been parsed: on a file that parses, any name other than
    MATCH_LOW, UNDERCUT and MATCH_MARKET (the enumeration's values such as
    match_low included) makes both handlers raise KeyError, whatever the
    other form fields hold; on a file that does not parse, the parse error
    is raised instead. *)
Theorem unknown_strategy_name_raises_KeyError
  (csv_text strategy undercut_pct floor_price : string) :
  strategy <> "MATCH_LOW" -> strategy <> "UNDERCUT" -> strategy <> "MATCH_MARKET" ->
  match parse_csv csv_text with
  | Ok _ =>
      reprice_upload csv_text strategy undercut_pct floor_price = Raise KeyError /\
      reprice_download csv_text strategy undercut_pct floor_price = Raise KeyError
  | Raise e =>
      reprice_upload csv_text strategy undercut_pct floor_price = Raise e /\
      reprice_download csv_text strategy undercut_pct floor_price = Raise e
  end.
Proof.
  intros H1 H2 H3. unfold reprice_upload, reprice_download.
  destruct (parse_csv csv_text) as [rows|e]; cbn [rbind]; [|split; reflexivity].
  rewrite (strategy_of_name_unknown strategy H1 H2 H3). split; reflexivity.
Qed.

Lemma unknown_strategy_name_raises_KeyError_witness :
  reprice_upload spaced_export "match_low" "5" "" = Raise KeyError /\
  reprice_download spaced_export "match_low" "5" "" = Raise KeyError.
Proof.
  assert (H : has_rows (parse_csv spaced_export) = true) by (vm_compute; reflexivity).
  pose proof (unknown_strategy_name_raises_KeyError spaced_export "match_low" "5" ""
                ltac:(discriminate) ltac:(discriminate) ltac:(discriminate)) as Hk.
  destruct (parse_csv spaced_export) as [rows|e]; [exact Hk|discriminate H].
Defined.

(** X9.  The file [reprice_download] sends back holds the listing that was
    sent in: for a valid export (one the reader reads to the end, with full
    records and currency cells that are blank or finite numerals within the
    limits of [Decimal] and of the reader's fields), parsing the returned
    text gives the rows of the original text, so the computed prices are not
    in it. *)
Theorem download_returns_the_original_listing
  (original_csv strategy undercut_pct floor_price text : string) :
  valid_csv original_csv = true ->
  reprice_download original_csv strategy undercut_pct floor_price = Ok text ->
  parse_csv text = parse_csv original_csv.
Proof.
  intros Hv. destruct (valid_csv_parses original_csv Hv) as [rows [Hrows Hnorm]].
  unfold reprice_download. rewrite Hrows. cbn [rbind].
  destruct (strategy_of_name strategy) as [strat|]; [|discriminate]. cbn [rbind].
  destruct (optional_decimal undercut_pct) as [undercut|]; [|discriminate]. cbn [rbind].
  destruct (optional_decimal floor_price) as [floor|]; [|discriminate]. cbn [rbind].
  destruct (for_each _ rows) as [rows'|] eqn:E; [|discriminate]. cbn [rbind].
  intros [= <-].
  rewrite (generate_csv_ext rows' rows
             (for_each_Forall2 _ _ _ _ (download_row_agrees strat undercut floor) E)).
  apply parse_generated. exact Hnorm.
Qed.

Lemma spaced_export_parses : has_rows (parse_csv spaced_export) = true.
Proof. vm_compute. reflexivity. Qed.

Lemma parsed_row_shape_witness :
  match parse_csv spaced_export with
  | Ok (r :: _) =>
      (forall k, r !! k <> None <-> In k mapped_fields) /\
      (forall f, In f mapped_fields ->
                 if is_price_field f
                 then r !! f = Some VNone \/ exists d, r !! f = Some (VDec d)
                 else r !! f = Some VNone \/ exists s, r !! f = Some (VStr s))
  | _ => False
  end.
Proof.
  pose proof spaced_export_parses as Hok.
  destruct (parse_csv spaced_export) as [[|r rows]|] eqn:E; try discriminate Hok.
  exact (parsed_row_shape spaced_export (r :: rows) r E (or_introl eq_refl)).
Defined.

Lemma parse_csv_row_count_witness :
  match parse_csv spaced_export with
  | Ok rows =>
      snd (Csv.reader_of spaced_export) = None /\
      length rows =
      length (filter (fun r => negb (is_blank_record r))
                     (tail (fst (Csv.reader_of spaced_export))))
  | Raise _ => False
  end.
Proof.
  pose proof spaced_export_parses as Hok.
  destruct (parse_csv spaced_export) as [rows|] eqn:E; [|discriminate Hok].
  exact (parse_csv_row_count spaced_export rows E).
Defined.

Lemma short_export_parses : has_rows (parse_csv short_export) = true.
Proof. vm_compute. reflexivity. Qed.

Lemma short_record_fields_are_none_witness :
  match parse_csv short_export with
  | Ok rows =>
      Forall2 (fun record r =>
                 forall c f, In (c, f) CSV_COLUMN_MAP ->
                             In c (drop (length record) ["TCGplayer Id"; "Product Line"]) ->
                             r !! f = Some VNone)
              (filter (fun r => negb (is_blank_record r)) [["7"]]) rows
  | Raise _ => False
  end.
Proof.
  pose proof short_export_parses as Hok.
  destruct (parse_csv short_export) as [rows|] eqn:E; [|discriminate Hok].
  refine (short_record_fields_are_none short_export ["TCGplayer Id"; "Product Line"]
            [["7"]] rows _ E).
  vm_compute. reflexivity.
Defined.

Lemma download_returns_the_original_listing_witness :
  match reprice_download spaced_export "UNDERCUT" "5" "" with
  | Ok text => parse_csv text = parse_csv spaced_export
  | Raise _ => False
  end.
Proof.
  assert (Hok : is_ok (reprice_download spaced_export "UNDERCUT" "5" "") = true)
    by (vm_compute; reflexivity).
  destruct (reprice_download spaced_export "UNDERCUT" "5" "") as [text|] eqn:E;
    [|discriminate Hok].
  apply (download_returns_the_original_listing spaced_export "UNDERCUT" "5" "" text);
    [vm_compute; reflexivity|exact E].
Defined.

Lemma for_each_In {A B : Type} (f : A -> result B) l l' b :
  for_each f l = Ok l' -> In b l' -> exists a, In a l /\ f a = Ok b.
Proof.
  revert l'. induction l as [|a l IH]; intros l' H Hin.
  - cbn in H. injection H as <-. destruct Hin.
  - cbn [for_each] in H. destruct (f a) as [b'|] eqn:Eb; [|discriminate]. cbn [rbind] in H.
    destruct (for_each f l) as [bs|]; [|discriminate]. cbn [rbind] in H. injection H as <-.
    destruct Hin as [<-|Hin].
    + exists a. split; [left; reflexivity|exact Eb].
    + destruct (IH bs eq_refl Hin) as [a' [Ha' Hf]]. exists a'. split; [right; exact Ha'|exact Hf].
Qed.

(** X10.  Every row of [reprice_upload] that has market data is priced
    properly: when the low price or the market price of a result row is
    present and not zero, its [new_price] is a whole number of cents, at
    least 0.01, whatever the strategy, the undercut and the floor. *)
Theorem repriced_rows_cost_at_least_one_cent
  (csv_text strategy undercut_pct floor_price : string) (results : list row) (res : row) :
  reprice_upload csv_text strategy undercut_pct floor_price = Ok results ->
  In res results ->
  truthy (or_zero (get_price res "tcg_low"))
  || truthy (or_zero (get_price res "market_price")) = true ->
  exists c, res !! "new_price" = Some (VDec (Fin false c (-2))) /\ (1 <= c)%N.
Proof.
  unfold reprice_upload.
  destruct (parse_csv csv_text) as [rows|]; [|discriminate]. cbn [rbind].
  destruct (strategy_of_name strategy) as [strat|]; [|discriminate]. cbn [rbind].
  destruct (optional_decimal undercut_pct) as [undercut|]; [|discriminate]. cbn [rbind].
  destruct (optional_decimal floor_price) as [floor|]; [|discriminate]. cbn [rbind].
  intros H Hin Hdata. destruct (for_each_In _ _ _ _ H Hin) as [r [_ Hr]].
  unfold upload_row in Hr.
  destruct (row_new_price strat undercut floor r) as [p|] eqn:Hp; [|discriminate].
  cbn [rbind] in Hr. destruct (row_diff p r) as [d|]; [|discriminate].
  cbn [rbind] in Hr. injection Hr as <-.
  assert (Hget : forall k, k <> "new_price" -> k <> "diff" ->
                   get_price (<["diff" := VDec d]> (<["new_price" := VDec p]> r)) k
                   = get_price r k).
  { intros k H1 H2. unfold get_price. rewrite !lookup_insert_ne by congruence. reflexivity. }
  rewrite !Hget in Hdata by discriminate.
  unfold row_new_price in Hp. rewrite Hdata in Hp.
  unfold calculate_price in Hp.
  destruct (candidate_price _ _ _ _ _) as [x|]; [|discriminate]. cbn [rbind] in Hp.
  destruct (enforce_floor x floor) as [y|]; [|discriminate]. cbn [rbind] in Hp.
  destruct (enforce_minimum y) as [z|] eqn:Hz; [|discriminate]. cbn [rbind] in Hp.
  destruct (enforce_minimum_spec _ _ Hz) as [Hn Hge].
  destruct (quantize_above_minimum _ _ Hn Hge Hp) as [c [-> Hc]].
  exists c. split; [|exact Hc].
  rewrite lookup_insert_ne by discriminate. apply lookup_insert_eq.
Qed.

Lemma repriced_rows_cost_at_least_one_cent_witness :
  match reprice_upload spaced_export "UNDERCUT" "5" "" with
  | Ok (res :: _) =>
      exists c, res !! "new_price" = Some (VDec (Fin false c (-2))) /\ (1 <= c)%N
  | _ => False
  end.
Proof.
  assert (Hok : match reprice_upload spaced_export "UNDERCUT" "5" "" with
                | Ok (res :: _) =>
                    truthy (or_zero (get_price res "tcg_low"))
                    || truthy (or_zero (get_price res "market_price"))
                | _ => false
                end = true) by (vm_compute; reflexivity).
  destruct (reprice_upload spaced_export "UNDERCUT" "5" "") as [[|res results]|] eqn:E;
    try discriminate Hok.
  exact (repriced_rows_cost_at_least_one_cent spaced_export "UNDERCUT" "5" ""
           (res :: results) res E (or_introl eq_refl) Hok).
Defined.

(** X11.  For finite prices and a threshold the context represents, an alert
    in direction both triggers exactly when the up alert or the down alert
    with the same threshold does, and it fails exactly when they fail. *)
Theorem both_is_up_or_down (old_price new_price threshold_pct : Decimal) :
  is_finite old_price = true -> is_finite new_price = true ->
  in_context threshold_pct = true ->
  evaluate_alert old_price new_price threshold_pct "both" =
  (let* up := evaluate_alert old_price new_price threshold_pct "up" in
   let* down := evaluate_alert old_price new_price threshold_pct "down" in
   Ok (up || down)).
Proof.
  intros Ho Hn Ht. rewrite !(evaluate_alert_by_rules _ _ _ _ Ho Hn Ht).
  unfold alert_rules.
  destruct (Qeq_bool (Qvalue old_price) (Qvalue new_price)); [reflexivity|].
  destruct (Qeq_bool (Qvalue old_price) 0); [reflexivity|].
  destruct (pct_change old_price new_price) as [pct|e]; [|reflexivity].
  cbn [rbind]. f_equal. unfold direction_rule.
  change (String.eqb "both" "up") with false. change (String.eqb "both" "down") with false.
  change (String.eqb "up" "up") with true. change (String.eqb "down" "up") with false.
  change (String.eqb "down" "down") with true. cbv iota.
  apply Qle_bool_abs.
Qed.

Lemma both_is_up_or_down_witness :
  evaluate_alert (Fin false 1000 (-2)) (Fin false 800 (-2)) (Fin false 15 0) "both" =
  (let* up := evaluate_alert (Fin false 1000 (-2)) (Fin false 800 (-2)) (Fin false 15 0) "up" in
   let* down :=
     evaluate_alert (Fin false 1000 (-2)) (Fin false 800 (-2)) (Fin false 15 0) "down" in
   Ok (up || down)).
Proof.
  apply both_is_up_or_down; vm_compute; reflexivity.
Defined.

Lemma Qle_bool_true_iff (a b : Q) : Qle_bool a b = true <-> (a <= b)%Q.
Proof. apply Qle_bool_iff. Qed.

(** X12.  Lowering the threshold never silences an alert: for finite prices
    and thresholds the context represents, an alert that triggers with a
    threshold triggers, in the same direction, with every smaller one. *)
Theorem lower_threshold_still_triggers
  (old_price new_price higher lower : Decimal) (direction : string) :
  is_finite old_price = true -> is_finite new_price = true ->
  in_context higher = true -> in_context lower = true ->
  (Qvalue lower <= Qvalue higher)%Q ->
  evaluate_alert old_price new_price higher direction = Ok true ->
  evaluate_alert old_price new_price lower direction = Ok true.
Proof.
  intros Ho Hn Hh Hl Hle.
  rewrite (evaluate_alert_by_rules _ _ _ _ Ho Hn Hh), (evaluate_alert_by_rules _ _ _ _ Ho Hn Hl).
  unfold alert_rules.
  destruct (Qeq_bool (Qvalue old_price) (Qvalue new_price)); [discriminate|].
  destruct (Qeq_bool (Qvalue old_price) 0); [intros H; exact H|].
  destruct (pct_change old_price new_price) as [pct|e]; [|discriminate].
  cbn [rbind]. intros [= H]. f_equal. unfold direction_rule in *.
  destruct (String.eqb direction "up").
  { apply Qle_bool_iff in H. apply Qle_bool_iff. lra. }
  destruct (String.eqb direction "down").
  { apply Qle_bool_iff in H. apply Qle_bool_iff. lra. }
  apply Qle_bool_iff in H. apply Qle_bool_iff. lra.
Qed.

Lemma lower_threshold_still_triggers_witness :
  evaluate_alert (Fin false 1000 (-2)) (Fin false 1200 (-2)) (Fin false 10 0) "up" = Ok true.
Proof.
  apply (lower_threshold_still_triggers (Fin false 1000 (-2)) (Fin false 1200 (-2))
           (Fin false 15 0) (Fin false 10 0) "up"); vm_compute; try reflexivity.
  discriminate.
Defined.

Lemma pct_sign (x o : Q) :
  (0 < o)%Q ->
  ((x < 0)%Q -> (x / o * 100 < 0)%Q) /\ ((0 < x)%Q -> (0 < x / o * 100)%Q).
Proof.
  intros Ho. assert (Hinv : (0 < / o)%Q) by (apply Qinv_lt_0_compat; exact Ho).
  split; intros Hx; unfold Qdiv.
  - pose proof (Qmult_lt_compat_r x 0 (/ o) Hinv Hx) as H1. rewrite Qmult_0_l in H1. lra.
  - pose proof (Qmult_lt_compat_r 0 x (/ o) Hinv Hx) as H1. rewrite Qmult_0_l in H1. lra.
Qed.

(** X13.  Alerts do not fire against the movement: for amounts, a positive
    old price and a threshold that is not negative, an up alert never
    triggers on a lower price and a down alert never triggers on a higher
    one. *)
Theorem no_alert_against_the_movement (old_price new_price threshold_pct : Decimal) :
  amount old_price = true -> amount new_price = true -> amount threshold_pct = true ->
  (0 < Qvalue old_price)%Q -> (0 <= Qvalue threshold_pct)%Q ->
  ((Qvalue new_price < Qvalue old_price)%Q ->
   evaluate_alert old_price new_price threshold_pct "up" = Ok false) /\
  ((Qvalue old_price < Qvalue new_price)%Q ->
   evaluate_alert old_price new_price threshold_pct "down" = Ok false).
Proof.
  intros Ho Hn Ht Hpos Hthr.
  assert (Hrule : forall d,
            evaluate_alert old_price new_price threshold_pct d =
            Ok (exact_alert (Qvalue old_price) (Qvalue new_price) (Qvalue threshold_pct) d)).
  { intros d. rewrite evaluate_alert_by_rules.
    - apply alert_rules_exact; assumption.
    - apply in_context_finite, amount_in_context, Ho.
    - apply in_context_finite, amount_in_context, Hn.
    - apply amount_in_context, Ht. }
  assert (Hz : Qeq_bool (Qvalue old_price) 0 = false).
  { apply not_true_is_false. intros H. apply Qeq_bool_iff in H. lra. }
  split; intros Hmove; rewrite Hrule; f_equal; unfold exact_alert.
  - assert (Hne : Qeq_bool (Qvalue old_price) (Qvalue new_price) = false).
    { apply not_true_is_false. intros H. apply Qeq_bool_iff in H. lra. }
    rewrite Hne, Hz. unfold direction_rule. change (String.eqb "up" "up") with true. cbv iota.
    apply not_true_is_false. intros H. apply Qle_bool_iff in H.
    pose proof (proj1 (pct_sign (Qvalue new_price - Qvalue old_price) _ Hpos)
                  ltac:(lra)) as Hp.
    lra.
  - assert (Hne : Qeq_bool (Qvalue old_price) (Qvalue new_price) = false).
    { apply not_true_is_false. intros H. apply Qeq_bool_iff in H. lra. }
    rewrite Hne, Hz. unfold direction_rule.
    change (String.eqb "down" "up") with false. change (String.eqb "down" "down") with true.
    cbv iota.
    apply not_true_is_false. intros H. apply Qle_bool_iff in H.
    pose proof (proj2 (pct_sign (Qvalue new_price - Qvalue old_price) _ Hpos)
                  ltac:(lra)) as Hp.
    lra.
Qed.

Lemma no_alert_against_the_movement_witness :
  evaluate_alert (Fin false 1000 (-2)) (Fin false 800 (-2)) (Fin false 15 0) "up" = Ok false.
Proof.
  refine (proj1 (no_alert_against_the_movement (Fin false 1000 (-2)) (Fin false 800 (-2))
                   (Fin false 15 0) _ _ _ _ _) _); vm_compute; try reflexivity.
  discriminate.
Defined.

Lemma lt_nan_raises a b : is_nan a = true -> lt a b = Raise InvalidOperation.
Proof. intros H. unfold lt, compare_with. rewrite H. reflexivity. Qed.

(** X14.  [calculate_price] never passes a special value through.  When the
    price the strategy selects is a NaN, quiet or signaling, the call raises
    InvalidOperation at the first comparison; when it is plus Infinity and
    the floor is absent or finite, it raises InvalidOperation at the final
    quantize. *)
Theorem special_candidate_raises
  (current_price tcg_low market_price : Decimal) (strategy : strategy_arg)
  (undercut_pct floor_price : option Decimal) (candidate : Decimal) :
  candidate_price current_price tcg_low market_price strategy undercut_pct = Ok candidate ->
  is_nan candidate = true \/
  (candidate = Inf false /\ opt_all is_finite floor_price = true) ->
  calculate_price current_price tcg_low market_price strategy undercut_pct floor_price
  = Raise InvalidOperation.
Proof.
  intros Hc Hs. unfold calculate_price. rewrite Hc. cbn [rbind].
  destruct Hs as [Hnan|[-> Hf]].
  - destruct floor_price as [f|]; cbn [enforce_floor].
    + rewrite (lt_nan_raises candidate f Hnan). reflexivity.
    + cbn [rbind]. unfold enforce_minimum. rewrite (lt_nan_raises candidate _ Hnan). reflexivity.
  - destruct floor_price as [f|]; cbn [enforce_floor]; [|reflexivity].
    cbn [opt_all] in Hf. destruct f as [s c e| |]; try discriminate. reflexivity.
Qed.

Lemma special_candidate_raises_witness :
  calculate_price (Fin false 1500 (-2)) (NaN false false 0) (Fin false 1400 (-2))
    (Member MATCH_LOW) None (Some (Fin false 100 (-2))) = Raise InvalidOperation.
Proof.
  apply (special_candidate_raises (Fin false 1500 (-2)) (NaN false false 0)
           (Fin false 1400 (-2)) (Member MATCH_LOW) None (Some (Fin false 100 (-2)))
           (NaN false false 0)); [reflexivity|left; reflexivity].
Defined.

(** Rounding half up to two places does not go below a whole number of
    hundredths that the value reaches. *)
Lemma Qround_half_up_ge (x : Q) (k : Z) :
  (0 <= x)%Q -> (inject_Z k / 100 <= x)%Q -> (inject_Z k / 100 <= Qround_half_up 2 x)%Q.
Proof.
  intros Hx Hk. unfold Qround_half_up.
  destruct (Qlt_le_dec x 0) as [Hneg|_]; [lra|].
  rewrite (Qabs_pos x Hx), Qten_2.
  assert (Hfl : (k <= Qfloor (x * 100 + (1 # 2)))%Z).
  { rewrite <- (Qfloor_Z k). apply Qfloor_resp_le.
    assert (Hk' : (inject_Z k <= x * 100)%Q).
    { unfold Qdiv in Hk. change (/ 100)%Q with (1 # 100)%Q in Hk. lra. }
    lra. }
  rewrite Zle_Qle in Hfl. unfold Qdiv. change (/ 100)%Q with (1 # 100)%Q.
  change (Qten (- (2))) with (1 # 100)%Q. lra.
Qed.

(** After the floor step the price is the floor or the candidate, and it is
    not below the floor. *)
Lemma enforce_floor_result cand f y :
  is_finite f = true -> enforce_floor cand (Some f) = Ok y ->
  (is_finite y = true /\ (Qvalue f <= Qvalue y)%Q) \/ y = Inf false.
Proof.
  intros Hf. unfold enforce_floor.
  destruct (lt cand f) as [below|] eqn:Hlt; [|discriminate]. cbn [rbind]. intros [= <-].
  destruct cand as [s c e|s|s g d].
  - left. pose proof (lt_Q _ _ _ Hlt eq_refl Hf) as Hiff. destruct below.
    + split; [exact Hf|lra].
    + split; [reflexivity|].
      destruct (Qlt_le_dec (Qvalue (Fin s c e)) (Qvalue f)) as [Hbad|Hok]; [|exact Hok].
      apply Hiff in Hbad. discriminate.
  - destruct f as [sf cf ef| |]; try discriminate.
    unfold lt, compare_with in Hlt. destruct s; vm_compute in Hlt; injection Hlt as <-.
    + left. split; [reflexivity|apply Qle_refl].
    + right. reflexivity.
  - unfold lt, compare_with in Hlt. cbn in Hlt. discriminate.
Qed.

Lemma calculate_price_with_floor current_price tcg_low market_price strategy undercut_pct f v :
  is_finite f = true ->
  calculate_price current_price tcg_low market_price strategy undercut_pct (Some f) = Ok v ->
  exists z, is_finite z = true /\ (Qvalue f <= Qvalue z)%Q /\ (1 # 100 <= Qvalue z)%Q /\
            quantize z TWO_PLACES ROUND_HALF_UP = Ok v.
Proof.
  intros Hf. unfold calculate_price.
  destruct (candidate_price _ _ _ _ _) as [cand|]; [|discriminate]. cbn [rbind].
  destruct (enforce_floor cand (Some f)) as [y|] eqn:Hy; [|discriminate]. cbn [rbind].
  destruct (enforce_floor_result cand f y Hf Hy) as [[Hyf Hyv]| ->].
  - destruct (enforce_minimum_Q y Hyf) as (z & Hz & Hzf & Hzv & _).
    rewrite Hz. cbn [rbind]. intros Hq. exists z. split; [exact Hzf|].
    unfold minimum_step in Hzv.
    destruct (Qlt_le_dec (Qvalue y) (1 # 100)); (split; [lra|split; [lra|exact Hq]]).
  - discriminate.
Qed.

(** X15.  The seller's floor holds: whenever [calculate_price] returns a
    price for a floor that is an amount (at most two decimals), the price is
    not below the floor, whatever the strategy and the other inputs. *)
Theorem price_is_not_below_the_floor
  (current_price tcg_low market_price : Decimal) (strategy : strategy_arg)
  (undercut_pct : option Decimal) (floor_price v : Decimal) :
  amount floor_price = true ->
  calculate_price current_price tcg_low market_price strategy undercut_pct
    (Some floor_price) = Ok v ->
  (Qvalue floor_price <= Qvalue v)%Q.
Proof.
  intros Hf H.
  destruct (calculate_price_with_floor _ _ _ _ _ _ _ (amount_finite _ Hf) H)
    as (z & Hzf & Hzfloor & Hzmin & Hq).
  destruct z as [s c e| |]; try discriminate.
  destruct (quantize_Q s c e v Hq) as [_ Hv]. cbn [Qvalue] in *.
  destruct (amount_cents floor_price Hf) as (k & _ & Hk).
  rewrite Hv, Hk. apply Qround_half_up_ge; [lra|]. rewrite <- Hk. exact Hzfloor.
Qed.

Lemma price_is_not_below_the_floor_witness :
  (Qvalue (Fin false 100 (-2)) <= Qvalue (Fin false 100 (-2)))%Q.
Proof.
  apply (price_is_not_below_the_floor (Fin false 1500 (-2)) (Fin false 50 (-2))
           (Fin false 75 (-2)) (Member MATCH_LOW) None (Fin false 100 (-2)) (Fin false 100 (-2)));
    reflexivity.
Defined.

Lemma Qround_half_up_nonpos (x : Q) : (x <= 0)%Q -> (Qround_half_up 2 x <= 0)%Q.
Proof.
  intros Hx. unfold Qround_half_up. change (Qten (- (2))) with (1 # 100)%Q.
  destruct (Qlt_le_dec x 0) as [Hneg|Hzero].
  - assert (Hfl : (0 <= Qfloor (Qabs x * Qten 2 + (1 # 2)))%Z).
    { rewrite <- (Qfloor_Z 0). apply Qfloor_resp_le.
      pose proof (Qabs_nonneg x). rewrite Qten_2. change (inject_Z 0) with 0%Q. lra. }
    rewrite Zle_Qle in Hfl. change (inject_Z 0) with 0%Q in Hfl. lra.
  - assert (Hfl : Qfloor (Qabs x * Qten 2 + (1 # 2)) = 0%Z).
    { assert (Ha : (Qabs x == 0)%Q) by (rewrite Qabs_pos; lra).
      apply Qfloor_unique; rewrite Ha, Qten_2; [change (inject_Z 0) with 0%Q|change (inject_Z (0 + 1)) with 1%Q]; lra. }
    rewrite Hfl. change (inject_Z 0) with 0%Q. lra.
Qed.

(** X16.  Undercutting by 100 percent or more does not give a free or a
    negative price: on the inputs where the undercut arithmetic is exact,
    with a low price that is not negative and no floor, the price returned is
    0.01. *)
Theorem undercut_of_everything_is_one_cent
  (current_price tcg_low market_price undercut_pct : Decimal) :
  undercut_price tcg_low = true -> undercut_percentage undercut_pct = true ->
  (0 <= Qvalue tcg_low)%Q -> (100 <= Qvalue undercut_pct)%Q ->
  calculate_price current_price tcg_low market_price (Member UNDERCUT)
    (Some undercut_pct) None = Ok (Fin false 1 (-2)).
Proof.
  intros Hl Hp Hlow Hpct.
  destruct (undercut_candidate_exact current_price tcg_low market_price (Some undercut_pct) Hl Hp)
    as (cand & Hc & (s & c & ->) & Hv & _).
  unfold calculate_price. rewrite Hc. cbn [rbind enforce_floor pct_value] in *.
  assert (Hneg : (Qvalue (Fin s c (-2)) <= 0)%Q).
  { rewrite Hv. apply Qround_half_up_nonpos.
    pose proof (Qmult_le_0_compat (Qvalue tcg_low) (Qvalue undercut_pct / 100 - 1) Hlow) as Hm.
    assert (Hfac : (0 <= Qvalue undercut_pct / 100 - 1)%Q).
    { unfold Qdiv. change (/ 100)%Q with (1 # 100)%Q. lra. }
    specialize (Hm Hfac).
    assert (Heq : (Qvalue tcg_low * (1 - Qvalue undercut_pct / 100) ==
                   - (Qvalue tcg_low * (Qvalue undercut_pct / 100 - 1)))%Q) by ring.
    rewrite Heq. lra. }
  destruct (lt_finite (Fin s c (-2)) ABSOLUTE_MINIMUM eq_refl eq_refl) as [below Hlt].
  pose proof (lt_Q _ _ _ Hlt eq_refl eq_refl) as Hiff. rewrite Qvalue_minimum in Hiff.
  assert (Hb : below = true) by (apply Hiff; lra). subst below.
  unfold enforce_minimum. rewrite Hlt. reflexivity.
Qed.

Lemma undercut_of_everything_is_one_cent_witness :
  calculate_price (Fin false 1500 (-2)) (Fin false 1250 (-2)) (Fin false 1400 (-2))
    (Member UNDERCUT) (Some (Fin false 150 0)) None = Ok (Fin false 1 (-2)).
Proof.
  apply undercut_of_everything_is_one_cent; vm_compute; try reflexivity; discriminate.
Defined.

Lemma quantize_in_context s c e mode v :
  quantize (Fin s c e) TWO_PLACES mode = Ok v -> in_context v = true.
Proof.
  unfold quantize, TWO_PLACES. cbn [check_nans].
  destruct (negb _); [discriminate|].
  destruct (c =? 0)%N; [apply fix_fin_in_context|].
  destruct (Emax <? adjusted c e); [discriminate|].
  destruct (prec <? adjusted c e - -2 + 1); [discriminate|].
  destruct (rescale_finite mode s c e (-2)) as [c' ->].
  destruct (Emax <? adjusted c' (-2)); [discriminate|].
  destruct (prec <? ndigits c'); [discriminate|]. apply fix_fin_in_context.
Qed.

(** A price with two decimals that the context represents is left as it is
    by the final quantize. *)
Lemma quantize_two_decimals_fixed s c :
  c <> 0%N -> in_context (Fin s c (-2)) = true ->
  quantize (Fin s c (-2)) TWO_PLACES ROUND_HALF_UP = Ok (Fin s c (-2)).
Proof.
  intros Hc Hin. pose proof Hin as Hin'. unfold in_context in Hin'.
  destruct (N.eqb_spec c 0) as [|_]; [contradiction|].
  apply andb_prop in Hin' as [Hin' Hadj]. apply andb_prop in Hin' as [Hnd Het].
  apply Z.leb_le in Hnd. apply Z.leb_le in Hadj.
  unfold quantize, TWO_PLACES. cbn [check_nans].
  change (negb ((Etiny <=? -2) && (-2 <=? Emax))) with false. cbv iota.
  destruct (N.eqb_spec c 0) as [|_]; [contradiction|].
  destruct (Z.ltb_spec Emax (adjusted c (-2))) as [|_]; [lia|].
  destruct (Z.ltb_spec prec (adjusted c (-2) - -2 + 1)) as [Hbad|_];
    [unfold adjusted in Hbad; lia|].
  rewrite rescale_pad by (exact Hc || lia).
  change (pow10 (-2 - -2)) with 1%N. rewrite N.mul_1_r.
  destruct (Z.ltb_spec Emax (adjusted c (-2))) as [|_]; [lia|].
  destruct (Z.ltb_spec prec (ndigits c)) as [|_]; [lia|].
  apply fix_fin_exact. exact Hin.
Qed.

Lemma lt_false_of_le a b :
  is_finite a = true -> is_finite b = true -> (Qvalue b <= Qvalue a)%Q -> lt a b = Ok false.
Proof.
  intros Ha Hb Hle. destruct (lt_finite a b Ha Hb) as [r Hr]. rewrite Hr. f_equal.
  pose proof (lt_Q _ _ _ Hr Ha Hb) as Hiff. destruct r; [|reflexivity].
  assert (Qvalue a < Qvalue b)%Q by (apply Hiff; reflexivity). lra.
Qed.

(** What [calculate_price] returns, in full: a positive number of cents that
    the context represents, not below a two-decimal floor. *)
Lemma calculate_price_returns current_price tcg_low market_price strategy undercut_pct floor_price v :
  opt_all amount floor_price = true ->
  calculate_price current_price tcg_low market_price strategy undercut_pct floor_price = Ok v ->
  exists c, v = Fin false c (-2) /\ c <> 0%N /\ in_context v = true /\
            (1 # 100 <= Qvalue v)%Q /\
            match floor_price with Some f => (Qvalue f <= Qvalue v)%Q | None => True end.
Proof.
  intros Hf H.
  assert (Hfloor : match floor_price with Some f => (Qvalue f <= Qvalue v)%Q | None => True end).
  { destruct floor_price as [f|]; [|exact I].
    destruct (calculate_price_with_floor _ _ _ _ _ _ _ (amount_finite _ Hf) H)
      as (z & Hzf & Hzfloor & Hzmin & Hq).
    destruct z as [s c e| |]; try discriminate.
    destruct (quantize_Q s c e v Hq) as [_ Hv]. cbn [Qvalue] in *.
    destruct (amount_cents f Hf) as (k & _ & Hk).
    rewrite Hv, Hk. apply Qround_half_up_ge; [lra|]. rewrite <- Hk. exact Hzfloor. }
  revert H. unfold calculate_price.
  destruct (candidate_price _ _ _ _ _) as [x|]; [|discriminate]. cbn [rbind].
  destruct (enforce_floor x floor_price) as [y|]; [|discriminate]. cbn [rbind].
  destruct (enforce_minimum y) as [z|] eqn:Hz; [|discriminate]. cbn [rbind].
  intros Hq. destruct (enforce_minimum_spec _ _ Hz) as [Hn Hge].
  destruct (quantize_above_minimum _ _ Hn Hge Hq) as [c [-> Hc]].
  exists c. split; [reflexivity|]. split; [lia|].
  split.
  { destruct z as [sz cz ez| |]; [|discriminate Hq|discriminate Hn].
    apply (quantize_in_context _ _ _ _ _ Hq). }
  split; [|exact Hfloor].
  cbn [Qvalue]. unfold Qfin. cbn [signed]. change (Qten (-2)) with (1 # 100)%Q.
  assert (Hi : (inject_Z 1 <= inject_Z (Z.of_N c))%Q) by (rewrite <- Zle_Qle; lia).
  change (inject_Z 1) with 1%Q in Hi. lra.
Qed.

(** X17.  A returned price is stable: with any floor that is an amount (or
    none), feeding the price [calculate_price] returned back in as the low
    price under MATCH_LOW, or as the market price under MATCH_MARKET, with
    the same floor, returns the same price again. *)
Theorem returned_price_is_stable
  (current_price tcg_low market_price : Decimal) (strategy : strategy_arg)
  (undercut_pct floor_price : option Decimal) (v : Decimal) :
  opt_all amount floor_price = true ->
  calculate_price current_price tcg_low market_price strategy undercut_pct floor_price = Ok v ->
  forall (current' other' : Decimal) (undercut' : option Decimal),
    calculate_price current' v other' (Member MATCH_LOW) undercut' floor_price = Ok v /\
    calculate_price current' other' v (Member MATCH_MARKET) undercut' floor_price = Ok v.
Proof.
  intros Hf H current' other' undercut'.
  destruct (calculate_price_returns _ _ _ _ _ _ _ Hf H) as (c & -> & Hc & Hin & Hmin & Hfloor).
  assert (Hpost : (let* y := enforce_floor (Fin false c (-2)) floor_price in
                   let* z := enforce_minimum y in
                   quantize z TWO_PLACES ROUND_HALF_UP) = Ok (Fin false c (-2))).
  { assert (Hy : enforce_floor (Fin false c (-2)) floor_price = Ok (Fin false c (-2))).
    { destruct floor_price as [f|]; [|reflexivity]. cbn [enforce_floor].
      rewrite (lt_false_of_le (Fin false c (-2)) f eq_refl (amount_finite _ Hf) Hfloor).
      reflexivity. }
    rewrite Hy. cbn [rbind]. unfold enforce_minimum.
    rewrite (lt_false_of_le (Fin false c (-2)) ABSOLUTE_MINIMUM eq_refl eq_refl)
      by (rewrite Qvalue_minimum; exact Hmin).
    cbn [rbind]. apply quantize_two_decimals_fixed; assumption. }
  split; unfold calculate_price; cbn [candidate_price rbind]; exact Hpost.
Qed.

Lemma returned_price_is_stable_witness :
  calculate_price (Fin false 0 0) (Fin false 1188 (-2)) (Fin false 0 0)
    (Member MATCH_LOW) None (Some (Fin false 100 (-2))) = Ok (Fin false 1188 (-2)).
Proof.
  refine (proj1 (returned_price_is_stable (Fin false 1500 (-2)) (Fin false 1250 (-2))
                   (Fin false 1400 (-2)) (Member UNDERCUT) (Some (Fin false 5 0))
                   (Some (Fin false 100 (-2))) (Fin false 1188 (-2)) _ _
                   (Fin false 0 0) (Fin false 0 0) None));
    vm_compute; reflexivity.
Defined.

(** * [check_alerts] *)

Lemma check_alert_outcome clock db st entry :
  check_alert clock db st entry =
  (let* outcome := entry_outcome db entry in Ok (record_outcome clock st entry outcome)).
Proof.
  destruct entry as [id [alert item]]. unfold check_alert, entry_outcome.
  destruct (current_prices db !! _) as [current|]; [|reflexivity].
  destruct (price_of (CurrentPrice.market_price current)) as [new_price|]; [|reflexivity].
  destruct (previous_history db _ _) as [history|]; [|reflexivity].
  destruct (price_of (PriceHistory.market_price history)) as [old_price|]; [|reflexivity].
  destruct (evaluate_alert _ _ _ _) as [[|]|]; reflexivity.
Qed.

(** The entries of [active_alerts] are the alerts that are active and have
    not triggered, each once. *)
Lemma active_alerts_spec db id alert item :
  In (id, (alert, item)) (active_alerts db) <->
  price_alerts db !! id = Some alert /\
  watchlist db !! PriceAlert.watchlist_id alert = Some item /\
  WatchlistItem.active item = true /\ PriceAlert.triggered_at alert = None.
Proof.
  unfold active_alerts. rewrite <- list_elem_of_In, list_elem_of_omap. split.
  - intros [[id' alert'] [Hin Hsome]]. apply elem_of_map_to_list in Hin.
    destruct (watchlist db !! PriceAlert.watchlist_id alert') as [item'|] eqn:Hw; [|discriminate].
    destruct (WatchlistItem.active item') eqn:Ha; [|discriminate].
    destruct (PriceAlert.triggered_at alert') eqn:Ht; [discriminate|].
    cbn in Hsome. injection Hsome as -> -> ->. auto.
  - intros (Ha & Hw & Hact & Ht). exists (id, alert). split.
    + apply elem_of_map_to_list. exact Ha.
    + rewrite Hw, Hact, Ht. reflexivity.
Qed.

Lemma NoDup_fst_omap {A B : Type} (f : Z * A -> option (Z * B)) (l : list (Z * A)) :
  (forall x y, f x = Some y -> fst y = fst x) ->
  List.NoDup (map fst l) -> List.NoDup (map fst (omap f l)).
Proof.
  intros Hf. induction l as [|x l IH]; intros Hnd; [constructor|].
  cbn [map] in Hnd. inversion Hnd as [|? ? Hnotin Hnd']; subst.
  cbn [omap list_omap]. destruct (f x) as [y|] eqn:Hy; [|apply IH; exact Hnd'].
  cbn [map]. constructor; [|apply IH; exact Hnd'].
  rewrite (Hf x y Hy). intros Hin. apply Hnotin.
  apply in_map_iff in Hin as [z [Hz Hzin]].
  apply list_elem_of_In, list_elem_of_omap in Hzin as [w [Hw Hfw]].
  apply in_map_iff. exists w. split; [|apply list_elem_of_In; exact Hw].
  rewrite <- (Hf w z Hfw). exact Hz.
Qed.

Lemma active_alerts_NoDup db : List.NoDup (map fst (active_alerts db)).
Proof.
  unfold active_alerts. apply NoDup_fst_omap.
  - intros [id alert] y H.
    destruct (watchlist db !! _) as [item|]; [|discriminate].
    destruct (_ && _); [|discriminate]. injection H as <-. reflexivity.
  - apply NoDup_ListNoDup. change (map fst) with (@fmap list _ (Z * PriceAlert.t) Z fst).
    apply NoDup_fst_map_to_list.
Qed.

Lemma entry_outcome_id db entry t :
  entry_outcome db entry = Ok (Some t) -> TriggeredAlert.alert_id t = fst entry.
Proof.
  destruct entry as [id [alert item]]. unfold entry_outcome.
  destruct (current_prices db !! _) as [current|]; [|discriminate].
  destruct (price_of (CurrentPrice.market_price current)) as [new_price|]; [|discriminate].
  destruct (previous_history db _ _) as [history|]; [|discriminate].
  destruct (price_of (PriceHistory.market_price history)) as [old_price|]; [|discriminate].
  destruct (evaluate_alert _ _ _ _) as [[|]|]; try discriminate.
  cbn [rbind]. intros [= <-]. reflexivity.
Qed.

Lemma fired_in db entries t :
  In t (fired db entries) <->
  exists entry, In entry entries /\ entry_outcome db entry = Ok (Some t).
Proof.
  unfold fired. rewrite <- list_elem_of_In, list_elem_of_omap. split.
  - intros [entry [Hin H]]. exists entry. split; [apply list_elem_of_In; exact Hin|].
    destruct (entry_outcome db entry) as [o|]; [subst o; reflexivity|discriminate].
  - intros [entry [Hin H]]. exists entry. split; [apply list_elem_of_In; exact Hin|].
    rewrite H. reflexivity.
Qed.

Lemma fired_ids db entries :
  forall id, In id (map TriggeredAlert.alert_id (fired db entries)) -> In id (map fst entries).
Proof.
  intros id Hin. apply in_map_iff in Hin as [t [<- Ht]].
  apply fired_in in Ht as [entry [Hin H]]. rewrite (entry_outcome_id _ _ _ H).
  apply in_map. exact Hin.
Qed.

(** The loop, entry by entry: every outcome is computed without an
    exception, the entries of the alerts that fired are appended in order,
    and the alert number [j] to fire receives the time of the call number
    [j] of the clock; no other alert changes. *)
Lemma check_each_spec clock db : forall entries st st',
  List.NoDup (map fst entries) ->
  check_each clock db st entries = Ok st' ->
  Forall (fun entry => is_ok (entry_outcome db entry) = true) entries /\
  triggered st' = (triggered st ++ fired db entries)%list /\
  now_calls st' = (now_calls st + length (fired db entries))%nat /\
  (forall id, ~ In id (map TriggeredAlert.alert_id (fired db entries)) ->
              alerts st' !! id = alerts st !! id) /\
  (forall j t, fired db entries !! j = Some t ->
     exists alert item,
       In (TriggeredAlert.alert_id t, (alert, item)) entries /\
       alerts st' !! TriggeredAlert.alert_id t =
       Some (PriceAlert.set_triggered_at alert (clock (now_calls st + j)%nat))).
Proof.
  induction entries as [|entry entries IH]; intros st st' Hnd H.
  - cbn in H. injection H as <-. cbn [fired omap list_omap length].
    rewrite app_nil_r, Nat.add_0_r. repeat split; auto. intros j t Hj. destruct j; discriminate.
  - cbn [map] in Hnd. inversion Hnd as [|? ? Hnotin Hnd']; subst.
    cbn [check_each] in H. rewrite check_alert_outcome in H.
    destruct (entry_outcome db entry) as [outcome|] eqn:Ho; [|discriminate].
    cbn [rbind] in H. destruct (IH _ _ Hnd' H) as (Hall & Htr & Hnow & Hframe & Hset).
    assert (Hfired : fired db (entry :: entries) =
                     match outcome with Some t => t :: fired db entries | None => fired db entries end).
    { unfold fired. cbn [omap list_omap]. rewrite Ho. destruct outcome; reflexivity. }
    split; [constructor; [rewrite Ho; reflexivity|exact Hall]|].
    rewrite Hfired. destruct outcome as [t|]; cbn [record_outcome triggered now_calls alerts] in *.
    + pose proof (entry_outcome_id _ _ _ Ho) as Hid.
      assert (Hfresh : ~ In (fst entry) (map TriggeredAlert.alert_id (fired db entries))).
      { intros Hin. apply Hnotin. apply (fired_ids db entries). exact Hin. }
      split; [rewrite Htr, <- app_assoc; reflexivity|].
      split; [rewrite Hnow; cbn [length]; lia|]. split.
      * intros id Hid'. cbn [map] in Hid'.
        rewrite Hframe by (intros Hin; apply Hid'; right; exact Hin).
        apply lookup_insert_ne. intros Heq. apply Hid'. left. rewrite Hid. exact Heq.
      * intros j t' Hj. destruct j as [|j].
        -- cbn in Hj. injection Hj as <-. destruct entry as [id [alert item]].
           cbn [fst snd] in *. exists alert, item. rewrite Hid.
           split; [left; reflexivity|].
           rewrite Hframe by exact Hfresh. rewrite Nat.add_0_r. apply lookup_insert_eq.
        -- cbn in Hj. destruct (Hset j t' Hj) as (alert & item & Hin & Ha).
           exists alert, item. split; [right; exact Hin|].
           rewrite Ha. do 3 f_equal. lia.
    + split; [exact Htr|]. split; [exact Hnow|]. split; [exact Hframe|].
      intros j t Hj. destruct (Hset j t Hj) as (alert & item & Hin & Ha).
      exists alert, item. split; [right; exact Hin|exact Ha].
Qed.

Lemma entry_outcome_due db id alert item t :
  price_alerts db !! id = Some alert ->
  watchlist db !! PriceAlert.watchlist_id alert = Some item ->
  WatchlistItem.active item = true -> PriceAlert.triggered_at alert = None ->
  (entry_outcome db (id, (alert, item)) = Ok (Some t) <->
   TriggeredAlert.alert_id t = id /\ due db t).
Proof.
  intros Ha Hw Hact Ht. split.
  - intros H. pose proof (entry_outcome_id _ _ _ H) as Hid. cbn [fst] in Hid.
    split; [exact Hid|]. unfold entry_outcome in H.
    destruct (current_prices db !! _) as [current|] eqn:Hc; [|discriminate].
    destruct (price_of (CurrentPrice.market_price current)) as [new_price|] eqn:Hn; [|discriminate].
    destruct (previous_history db _ _) as [history|] eqn:Hh; [|discriminate].
    destruct (price_of (PriceHistory.market_price history)) as [old_price|] eqn:Hold; [|discriminate].
    destruct (evaluate_alert _ _ _ _) as [[|]|] eqn:He; try discriminate.
    cbn [rbind] in H. injection H as <-. cbn [TriggeredAlert.alert_id] in *.
    exists alert, item, current, history. cbn. repeat split; assumption.
  - intros [Hid (alert' & item' & current & history & Ha' & Hw' & _ & _ & Hc & Hn & Hh & Hold & He & Heq)].
    rewrite Hid, Ha in Ha'. injection Ha' as <-. rewrite Hw in Hw'. injection Hw' as <-.
    unfold entry_outcome. rewrite Hc, Hn, Hh, Hold, He. cbn [rbind].
    rewrite Heq at 3. rewrite Hid. reflexivity.
Qed.

Lemma fired_NoDup db entries :
  List.NoDup (map fst entries) ->
  List.NoDup (map TriggeredAlert.alert_id (fired db entries)).
Proof.
  induction entries as [|entry entries IH]; intros Hnd; [constructor|].
  cbn [map] in Hnd. inversion Hnd as [|? ? Hnotin Hnd']; subst.
  unfold fired. cbn [omap list_omap]. fold (fired db entries).
  destruct (entry_outcome db entry) as [[t|]|] eqn:Ho; try (apply IH; exact Hnd').
  cbn [map]. constructor; [|apply IH; exact Hnd'].
  rewrite (entry_outcome_id _ _ _ Ho). intros Hin. apply Hnotin.
  apply (fired_ids db entries). exact Hin.
Qed.

Lemma check_alerts_run clock db triggered' db' :
  check_alerts clock db = Ok (triggered', db') ->
  exists st,
    check_each clock db (mkLoop (price_alerts db) [] 0) (active_alerts db) = Ok st /\
    triggered' = fired db (active_alerts db) /\ triggered st = triggered' /\
    db' = mkSession (alerts st) (watchlist db) (current_prices db) (price_history db)
            (match triggered' with [] => commits db | _ :: _ => S (commits db) end).
Proof.
  unfold check_alerts.
  destruct (check_each _ _ _ _) as [st|] eqn:E; [|discriminate]. cbn [rbind].
  intros [= <- <-]. exists st. split; [reflexivity|].
  destruct (check_each_spec clock db _ _ _ (active_alerts_NoDup db) E) as (_ & Htr & _).
  cbn [triggered app] in Htr. rewrite Htr. auto.
Qed.

Lemma fired_due db t : In t (fired db (active_alerts db)) <-> due db t.
Proof.
  rewrite fired_in. split.
  - intros [[id [alert item]] [Hin Ho]].
    apply active_alerts_spec in Hin as (Ha & Hw & Hact & Ht).
    apply (entry_outcome_due db id alert item t Ha Hw Hact Ht) in Ho. exact (proj2 Ho).
  - intros Hd. pose proof Hd as (alert & item & current & history & Ha & Hw & Hact & Ht & _).
    exists (TriggeredAlert.alert_id t, (alert, item)). split.
    + apply active_alerts_spec. auto.
    + apply (entry_outcome_due db _ alert item t Ha Hw Hact Ht). auto.
Qed.

(** X18.  [check_alerts] returns exactly the alerts that are due, each once:
    an entry is in the list if and only if its alert belongs to an active
    watchlist item, has not triggered before, the product's current market
    price and the market price of the day before the latest in its history
    are both present and not zero, and [evaluate_alert] holds of these two
    prices with the alert's threshold and direction. *)
Theorem check_alerts_returns_the_due_alerts
  (clock : nat -> Z) (db db' : Session) (triggered' : list TriggeredAlert.t) :
  check_alerts clock db = Ok (triggered', db') ->
  (forall t, In t triggered' <-> due db t) /\
  List.NoDup (map TriggeredAlert.alert_id triggered').
Proof.
  intros H. destruct (check_alerts_run _ _ _ _ H) as (st & _ & -> & _). split.
  - intros t. apply fired_due.
  - apply fired_NoDup, active_alerts_NoDup.
Qed.

(** X19.  What [check_alerts] changes: the alert number [j] of the returned
    list gets the time of the call number [j] of [datetime.now()] as its
    [triggered_at] and keeps its other columns; every other alert, the
    watchlist and the price tables are left as they were; and there is one
    commit when the list is not empty, none when it is. *)
Theorem check_alerts_marks_only_the_returned
  (clock : nat -> Z) (db db' : Session) (triggered' : list TriggeredAlert.t) :
  check_alerts clock db = Ok (triggered', db') ->
  watchlist db' = watchlist db /\ current_prices db' = current_prices db /\
  price_history db' = price_history db /\
  commits db' = (match triggered' with [] => commits db | _ :: _ => S (commits db) end) /\
  (forall id, ~ In id (map TriggeredAlert.alert_id triggered') ->
              price_alerts db' !! id = price_alerts db !! id) /\
  (forall j t, triggered' !! j = Some t ->
     exists alert,
       price_alerts db !! TriggeredAlert.alert_id t = Some alert /\
       price_alerts db' !! TriggeredAlert.alert_id t =
       Some (PriceAlert.set_triggered_at alert (clock j))).
Proof.
  intros H. destruct (check_alerts_run _ _ _ _ H) as (st & E & -> & _ & ->).
  destruct (check_each_spec clock db _ _ _ (active_alerts_NoDup db) E)
    as (_ & _ & _ & Hframe & Hset).
  cbn [watchlist current_prices price_history commits price_alerts alerts now_calls] in *.
  repeat (split; [reflexivity|]). split; [exact Hframe|].
  intros j t Hj. destruct (Hset j t Hj) as (alert & item & Hin & Ha).
  apply active_alerts_spec in Hin as (Halert & _).
  exists alert. split; [exact Halert|exact Ha].
Qed.

Lemma entry_outcome_ext db1 db2 entry :
  current_prices db1 = current_prices db2 -> price_history db1 = price_history db2 ->
  entry_outcome db1 entry = entry_outcome db2 entry.
Proof.
  intros Hc Hh. destruct entry as [id [alert item]].
  unfold entry_outcome, previous_history. rewrite Hc, Hh. reflexivity.
Qed.

Lemma check_each_nothing clock db : forall entries st,
  Forall (fun entry => entry_outcome db entry = Ok None) entries ->
  check_each clock db st entries = Ok st.
Proof.
  induction entries as [|entry entries IH]; intros st H; [reflexivity|].
  inversion H as [|? ? Ho Hrest]; subst.
  cbn [check_each]. rewrite check_alert_outcome, Ho. cbn [rbind record_outcome].
  apply IH. exact Hrest.
Qed.

(** X20.  An alert fires once.  Running [check_alerts] again on the session
    it left, with the prices unchanged, returns the empty list, changes
    nothing and commits nothing, at whatever time it runs. *)
Theorem check_alerts_again_returns_nothing
  (clock clock' : nat -> Z) (db db' : Session) (triggered' : list TriggeredAlert.t) :
  check_alerts clock db = Ok (triggered', db') ->
  check_alerts clock' db' = Ok ([], db').
Proof.
  intros H. destruct (check_alerts_run _ _ _ _ H) as (st & E & -> & Htr & ->).
  destruct (check_each_spec clock db _ _ _ (active_alerts_NoDup db) E)
    as (Hall & _ & _ & Hframe & Hset).
  cbn [alerts now_calls] in *.
  set (db' := mkSession (alerts st) (watchlist db) (current_prices db) (price_history db) _).
  assert (Hnone : Forall (fun entry => entry_outcome db' entry = Ok None) (active_alerts db')).
  { apply Forall_forall. intros [id [alert item]] Hin.
    apply active_alerts_spec in Hin as (Ha & Hw & Hact & Ht).
    cbn [price_alerts watchlist db'] in Ha, Hw.
    rewrite (entry_outcome_ext db' db) by reflexivity.
    assert (Hnot : ~ In id (map TriggeredAlert.alert_id (fired db (active_alerts db)))).
    { intros Hin. apply in_map_iff in Hin as [t [Hid Hin]].
      apply In_nth_error in Hin as [j Hj].
      assert (Hj' : fired db (active_alerts db) !! j = Some t).
      { clear -Hj. revert j Hj. induction (fired db (active_alerts db)) as [|x l IH];
          intros [|j] Hj; try discriminate; [exact Hj|apply IH; exact Hj]. }
      destruct (Hset j t Hj') as (alert0 & item0 & _ & Ha0).
      rewrite Hid, Ha in Ha0. injection Ha0 as ->. discriminate Ht. }
    rewrite (Hframe id Hnot) in Ha.
    assert (Hin : In (id, (alert, item)) (active_alerts db))
      by (apply active_alerts_spec; auto).
    rewrite Forall_forall in Hall. specialize (Hall _ Hin).
    destruct (entry_outcome db (id, (alert, item))) as [[t|]|] eqn:Ho; try discriminate;
      [|reflexivity].
    exfalso. apply Hnot. apply in_map_iff. exists t.
    split; [exact (entry_outcome_id _ _ _ Ho)|]. apply fired_in. eauto. }
  unfold check_alerts.
  rewrite (check_each_nothing clock' db' (active_alerts db') _ Hnone). reflexivity.
Qed.

Lemma check_each_total clock db : forall entries st,
  Forall (fun entry => is_ok (entry_outcome db entry) = true) entries ->
  exists st', check_each clock db st entries = Ok st'.
Proof.
  induction entries as [|entry entries IH]; intros st H; [exists st; reflexivity|].
  inversion H as [|? ? Ho Hrest]; subst.
  cbn [check_each]. rewrite check_alert_outcome.
  destruct (entry_outcome db entry) as [o|]; [|discriminate]. cbn [rbind].
  apply IH. exact Hrest.
Qed.

Lemma price_of_some market_price d : price_of market_price = Some d -> market_price = Some d.
Proof.
  unfold price_of. destruct market_price as [x|]; [|discriminate].
  destruct (truthy x); [|discriminate]. intros [= ->]. reflexivity.
Qed.

Lemma previous_history_in db product_id variant h :
  previous_history db product_id variant = Some h ->
  exists id, price_history db !! id = Some h.
Proof.
  unfold previous_history. intros H.
  assert (Hin : In h (order_by_date_desc
                        (List.filter (fun h => (PriceHistory.product_id h =? product_id)%Z
                                               && String.eqb (PriceHistory.variant h) variant)
                                     (map snd (map_to_list (price_history db)))))).
  { destruct (order_by_date_desc _) as [|a [|b l]]; try discriminate.
    cbn in H. injection H as ->. right. left. reflexivity. }
  assert (Hsort : forall l x, In x (order_by_date_desc l) -> In x l).
  { clear. induction l as [|a l IH]; intros x Hx; [exact Hx|].
    cbn [order_by_date_desc fold_right] in Hx. fold (order_by_date_desc l) in Hx.
    assert (Hins : forall s, In x (insert_by_date a s) -> x = a \/ In x s).
    { clear. induction s as [|b s IHs]; intros Hx.
      - destruct Hx as [<-|[]]. left. reflexivity.
      - cbn [insert_by_date] in Hx. destruct (_ <? _)%Z.
        + destruct Hx as [<-|Hx]; [left; reflexivity|right; exact Hx].
        + destruct Hx as [<-|Hx]; [right; left; reflexivity|].
          destruct (IHs Hx) as [->|Hin]; [left; reflexivity|right; right; exact Hin]. }
    destruct (Hins _ Hx) as [->|Hin]; [left; reflexivity|right; apply IH; exact Hin]. }
  apply Hsort, filter_In in Hin. destruct Hin as [Hin _].
  apply in_map_iff in Hin as [[id h'] [Heq Hin]]. cbn [snd] in Heq. subst h'.
  exists id. apply elem_of_map_to_list, list_elem_of_In. exact Hin.
Qed.

(** X21.  On a database whose prices and thresholds are amounts, as its
    Numeric columns hold them, [check_alerts] never raises: it returns a list
    and a session. *)
Theorem check_alerts_returns_on_stored_amounts (clock : nat -> Z) (db : Session) :
  stored_amounts db ->
  exists triggered' db', check_alerts clock db = Ok (triggered', db').
Proof.
  intros (Hthr & Hcur & Hhist).
  destruct (check_each_total clock db (active_alerts db) (mkLoop (price_alerts db) [] 0))
    as [st Hst].
  { apply Forall_forall. intros [id [alert item]] Hin.
    apply active_alerts_spec in Hin as (Ha & _).
    unfold entry_outcome.
    destruct (current_prices db !! _) as [current|] eqn:Hc; [|reflexivity].
    destruct (price_of (CurrentPrice.market_price current)) as [new_price|] eqn:Hn; [|reflexivity].
    destruct (previous_history db _ _) as [history|] eqn:Hh; [|reflexivity].
    destruct (price_of (PriceHistory.market_price history)) as [old_price|] eqn:Ho; [|reflexivity].
    apply price_of_some in Hn. apply price_of_some in Ho.
    destruct (previous_history_in _ _ _ _ Hh) as [hid Hhid].
    pose proof (Hthr _ _ Ha) as At. pose proof (Hcur _ _ _ Hc Hn) as An.
    pose proof (Hhist _ _ _ Hhid Ho) as Ao.
    rewrite evaluate_alert_by_rules, alert_rules_exact; try assumption; try reflexivity.
    - apply in_context_finite, amount_in_context, Ao.
    - apply in_context_finite, amount_in_context, An.
    - apply amount_in_context, At. }
  unfold check_alerts. rewrite Hst. cbn [rbind]. eauto.
Qed.

Lemma insert_by_date_perm h rows : Permutation (insert_by_date h rows) (h :: rows).
Proof.
  induction rows as [|h' rows IH]; [reflexivity|].
  cbn [insert_by_date]. destruct (_ <? _)%Z; [reflexivity|].
  rewrite IH. apply perm_swap.
Qed.

Lemma order_by_date_desc_perm rows : Permutation (order_by_date_desc rows) rows.
Proof.
  induction rows as [|h rows IH]; [reflexivity|].
  cbn [order_by_date_desc fold_right]. fold (order_by_date_desc rows).
  rewrite insert_by_date_perm, IH. reflexivity.
Qed.

Lemma insert_by_date_sorted h rows :
  latest_first rows -> latest_first (insert_by_date h rows).
Proof.
  induction rows as [|h' rows IH]; intros Hs.
  - cbn. split; [constructor|exact I].
  - cbn [insert_by_date]. destruct Hs as [Hall Hs].
    destruct (Z.ltb_spec (PriceHistory.date h') (PriceHistory.date h)) as [Hlt|Hge].
    + cbn [latest_first]. split; [|split; assumption].
      constructor; [lia|]. eapply Forall_impl; [|exact Hall]. cbv beta. intros r Hr. lia.
    + cbn [latest_first]. split; [|apply IH; exact Hs].
      rewrite (Forall_forall _ (insert_by_date h rows)). intros r Hr.
      apply (Permutation_in _ (insert_by_date_perm h rows)) in Hr.
      destruct Hr as [<-|Hr]; [lia|]. rewrite Forall_forall in Hall. apply Hall, Hr.
Qed.

Lemma order_by_date_desc_sorted rows : latest_first (order_by_date_desc rows).
Proof.
  induction rows as [|h rows IH]; [exact I|].
  cbn [order_by_date_desc fold_right]. apply insert_by_date_sorted. exact IH.
Qed.

(** X22.  The old price of an alert is read from the history row with the
    second latest date of the product and variant: the rows are the row it
    returns, one row that is not older, and rows that are not newer.  With
    fewer than two rows there is none, and the alert is skipped. *)
Theorem previous_history_is_the_second_latest
  (db : Session) (product_id : Z) (variant : string) :
  match previous_history db product_id variant with
  | Some history =>
      exists latest rest,
        Permutation (history_of db product_id variant) (latest :: history :: rest) /\
        (PriceHistory.date history <= PriceHistory.date latest)%Z /\
        Forall (fun r => (PriceHistory.date r <= PriceHistory.date history)%Z) rest
  | None => (length (history_of db product_id variant) <= 1)%nat
  end.
Proof.
  unfold previous_history. fold (history_of db product_id variant).
  pose proof (order_by_date_desc_perm (history_of db product_id variant)) as Hp.
  pose proof (order_by_date_desc_sorted (history_of db product_id variant)) as Hs.
  destruct (order_by_date_desc (history_of db product_id variant)) as [|a [|b rest]].
  - cbn. rewrite <- (Permutation_length Hp). cbn. lia.
  - cbn. rewrite <- (Permutation_length Hp). cbn. lia.
  - cbn [drop head]. exists a, rest. split; [symmetry; exact Hp|].
    destruct Hs as [Ha [Hb _]]. inversion Ha; subst. split; assumption.
Qed.

Lemma sample_session_fires :
  match check_alerts sample_clock sample_session with
  | Ok (_ :: _, _) => true
  | _ => false
  end = true.
Proof. vm_compute. reflexivity. Qed.

Lemma check_alerts_returns_the_due_alerts_witness :
  match check_alerts sample_clock sample_session with
  | Ok (triggered', _) =>
      (forall t, In t triggered' <-> due sample_session t) /\
      List.NoDup (map TriggeredAlert.alert_id triggered')
  | Raise _ => False
  end.
Proof.
  pose proof sample_session_fires as Hok.
  destruct (check_alerts sample_clock sample_session) as [[triggered' db']|] eqn:E;
    [|discriminate Hok].
  exact (check_alerts_returns_the_due_alerts sample_clock sample_session db' triggered' E).
Defined.

Lemma check_alerts_marks_only_the_returned_witness :
  match check_alerts sample_clock sample_session with
  | Ok (triggered', db') =>
      watchlist db' = watchlist sample_session /\
      current_prices db' = current_prices sample_session /\
      price_history db' = price_history sample_session /\
      commits db' = (match triggered' with
                     | [] => commits sample_session
                     | _ :: _ => S (commits sample_session)
                     end) /\
      (forall id, ~ In id (map TriggeredAlert.alert_id triggered') ->
                  price_alerts db' !! id = price_alerts sample_session !! id) /\
      (forall j t, triggered' !! j = Some t ->
         exists alert,
           price_alerts sample_session !! TriggeredAlert.alert_id t = Some alert /\
           price_alerts db' !! TriggeredAlert.alert_id t =
           Some (PriceAlert.set_triggered_at alert (sample_clock j)))
  | Raise _ => False
  end.
Proof.
  pose proof sample_session_fires as Hok.
  destruct (check_alerts sample_clock sample_session) as [[triggered' db']|] eqn:E;
    [|discriminate Hok].
  exact (check_alerts_marks_only_the_returned sample_clock sample_session db' triggered' E).
Defined.

Lemma check_alerts_again_returns_nothing_witness :
  match check_alerts sample_clock sample_session with
  | Ok (_, db') => check_alerts (fun k => 2000 + Z.of_nat k) db' = Ok ([], db')
  | Raise _ => False
  end.
Proof.
  pose proof sample_session_fires as Hok.
  destruct (check_alerts sample_clock sample_session) as [[triggered' db']|] eqn:E;
    [|discriminate Hok].
  exact (check_alerts_again_returns_nothing sample_clock _ sample_session db' triggered' E).
Defined.

Lemma sample_session_amounts : stored_amounts sample_session.
Proof.
  unfold stored_amounts, sample_session. cbn [price_alerts current_prices price_history].
  split; [|split].
  - intros id alert H. apply lookup_singleton_Some in H as [_ <-]. reflexivity.
  - intros key current d H Hd. apply lookup_singleton_Some in H as [_ <-].
    injection Hd as <-. reflexivity.
  - intros id history d H Hd. apply lookup_insert_Some in H as [[_ <-]|[_ H]].
    + injection Hd as <-. reflexivity.
    + apply lookup_singleton_Some in H as [_ <-]. injection Hd as <-. reflexivity.
Qed.

Lemma check_alerts_returns_on_stored_amounts_witness :
  exists triggered' db', check_alerts sample_clock sample_session = Ok (triggered', db').
Proof.
  exact (check_alerts_returns_on_stored_amounts sample_clock sample_session
           sample_session_amounts).
Defined.
